(** * tConvolveOMP: gridding and degridding kernels, offset indexing

    A shallow embedding of [attic/tConvolveOMP/tConvolveOMP.cc].

    - [std::vector<T>] is a [list T]; an access [v[i]] outside [0, size)
      is undefined behaviour and is modelled by [None].
    - [int] values are integers of [Z], and the arithmetic of [int] is that
      of [Z].  An overflow of [int] is undefined behaviour: the model is the
      code on the calls in which every value of type [int] is in the range
      of [int].  The predicates [kernel_ints], [offsets_ints] and
      [table_ints] say so, expression by expression, for a call of a kernel,
      of [initCOffset] and of [initC]; they are hypotheses of the statements
      that give the result of such a call for arguments at large.
      Conversions from [double] to [int] are checked against the [int]
      range, as the language leaves them undefined outside of it.
    - [Value] (a [std::complex<float>]) is kept abstract in the kernels: they
      only add and multiply values, and no algebraic law is assumed, so every
      statement holds for floating-point arithmetic.  A concrete instance over
      IEEE binary32 is given for evaluation.
    - [Coord] (a [double]) is an IEEE binary64 number of [SpecFloat].
    - The kernels are modelled as compiled without [USEBLAS] (the explicit
      loops). *)

From Stdlib Require Import ZArith Lia Bool.
From Stdlib Require Import SpecFloat.
From Stdlib Require Import Reals Lra.
From Stdlib Require String Ascii.
From stdpp Require Import base tactics option list relations.

Local Open Scope Z_scope.

(** ** Vectors and loops *)

Section Vec.
Context {A : Type}.

Definition vec_size (v : list A) : Z := Z.of_nat (length v).

(** [v[i]], read. *)
Definition vec_get (v : list A) (i : Z) : option A :=
  if decide (0 <= i) then v !! Z.to_nat i else None.

(** [v[i] = x]. *)
Definition vec_set (v : list A) (i : Z) (x : A) : option (list A) :=
  if decide (0 <= i < vec_size v) then Some (<[Z.to_nat i := x]> v) else None.

(** The value at [i], with a default outside of the vector; used in
    statements only. *)
Definition vec_at (dflt : A) (v : list A) (i : Z) : A :=
  default dflt (vec_get v i).
End Vec.

(** [for (int i = lo; <n more iterations>; i++) body], threading the state
    of the variables the body assigns to. *)
Fixpoint for_loop {S : Type} (n : nat) (i : Z) (body : Z -> S -> option S) (s : S)
  : option S :=
  match n with
  | O => Some s
  | Datatypes.S n' =>
      match body i s with
      | Some s' => for_loop n' (i + 1) body s'
      | None => None
      end
  end.

(** [for (int i = 0; i < hi; i++) body]. *)
Definition for_upto {S : Type} (hi : Z) (body : Z -> S -> option S) (s : S) : option S :=
  for_loop (Z.to_nat hi) 0 body s.

(** ** Values *)

Class Arith (V : Type) := { vzero : V; vadd : V -> V -> V; vmul : V -> V -> V }.

(** ** Accesses to the shared vector

    The only vector a kernel writes is the grid (gridding) or the sample data
    (degridding).  The statements that touch it are [grid[k] += v],
    [data[k] += v] and [data[k] = v]. *)

Inductive access (V : Type) : Type :=
  | Acc (k : Z) (v : V)
  | Store (k : Z) (v : V).
Arguments Acc {V} k v.
Arguments Store {V} k v.

(** A thread of a parallel region: a register and the accesses still to
    perform (see [par_step]). *)
Abbreviation thread V := (option V * list (access V))%type.

Section Accesses.
Context {V : Type} `{Arith V}.

Definition cell (a : access V) : Z :=
  match a with Acc k _ | Store k _ => k end.

(** The new value of the accessed cell, from its old value. *)
Definition update (a : access V) (x : V) : V :=
  match a with Acc _ v => vadd x v | Store _ v => v end.

Definition perform (a : access V) (m : list V) : option (list V) :=
  match a with
  | Acc k v => x ← vec_get m k; vec_set m k (vadd x v)
  | Store k v => vec_set m k v
  end.

(** A sequence of accesses, performed in order by one thread. *)
Fixpoint run_trace (tr : list (access V)) (m : list V) : option (list V) :=
  match tr with
  | [] => Some m
  | a :: tr' => m' ← perform a m; run_trace tr' m'
  end.

(** What a trace does to the value [x] of cell [k]. *)
Definition apply_cell (k : Z) (tr : list (access V)) (x : V) : V :=
  fold_left (fun x a => if decide (cell a = k) then update a x else x) tr x.

(** *** Threads sharing the vector

    A thread is the list of accesses it still has to perform and a
    register: [Acc k v] is a load of the cell into the register followed by
    a store of the sum.  The threads of a parallel region interleave at the
    level of these loads and stores. *)

Inductive par_step : list V * list (thread V) -> list V * list (thread V) -> Prop :=
  | step_load m ths i k v rest x :
      ths !! i = Some (None, Acc k v :: rest) ->
      vec_get m k = Some x ->
      par_step (m, ths) (m, <[i := (Some x, Acc k v :: rest)]> ths)
  | step_add m ths i k v rest x m' :
      ths !! i = Some (Some x, Acc k v :: rest) ->
      vec_set m k (vadd x v) = Some m' ->
      par_step (m, ths) (m', <[i := (None, rest)]> ths)
  | step_store m ths i k v rest m' :
      ths !! i = Some (None, Store k v :: rest) ->
      vec_set m k v = Some m' ->
      par_step (m, ths) (m', <[i := (None, rest)]> ths).

Definition spawn (tr : list (access V)) : thread V := (None, tr).
Definition finished : thread V := (None, []).

(** The threads with traces [traces] run from [m] to completion and leave
    [m']. *)
Definition par_run (traces : list (list (access V))) (m m' : list V) : Prop :=
  rtc par_step (m, spawn <$> traces) (m', replicate (length traces) finished).
End Accesses.

(** [Real] is [float], IEEE binary32, and [Value] is [std::complex<Real>].
    The product is the textbook formula, which is what [operator*] computes
    whenever its result has no NaN component. *)
Module Real.
Definition prec : Z := 24.
Definition emax : Z := 128.
Definition add := SFadd prec emax.
Definition sub := SFsub prec emax.
Definition mul := SFmul prec emax.
Definition div := SFdiv prec emax.
Definition of_int (z : Z) : spec_float := binary_normalize prec emax z 0 false.
(** The conversion from [double], rounded to the nearest [float]. *)
Definition of_coord (x : spec_float) : spec_float :=
  match x with
  | S754_finite s m e => binary_normalize prec emax (cond_Zopp s (Zpos m)) e s
  | _ => x
  end.
End Real.

Record Value : Type := mkValue { real : spec_float; imag : spec_float }.

#[export] Instance Value_arith : Arith Value := {|
  vzero := mkValue (S754_zero false) (S754_zero false);
  vadd a b := mkValue (Real.add (real a) (real b)) (Real.add (imag a) (imag b));
  vmul a b := mkValue (Real.sub (Real.mul (real a) (real b)) (Real.mul (imag a) (imag b)))
                      (Real.add (Real.mul (real a) (imag b)) (Real.mul (imag a) (real b)))
|}.

(** [Coord] is [double], IEEE binary64. *)
Module Coord.
Definition prec : Z := 53.
Definition emax : Z := 1024.
Definition add := SFadd prec emax.
Definition sub := SFsub prec emax.
Definition mul := SFmul prec emax.
Definition div := SFdiv prec emax.
Definition sqrt := SFsqrt prec emax.
Definition abs := SFabs.
Definition opp := SFopp.
Definition ltb := SFltb.
Definition eqb := SFeqb.
(** The conversion from [int], exact. *)
Definition of_int (z : Z) : spec_float := binary_normalize prec emax z 0 false.
(** The number [m * 2^e], rounded: for literals. *)
Definition lit (m e : Z) : spec_float := binary_normalize prec emax m e false.
(** The conversion from [float], exact. *)
Definition of_real (x : spec_float) : spec_float :=
  match x with
  | S754_finite s m e => binary_normalize prec emax (cond_Zopp s (Zpos m)) e s
  | _ => x
  end.
End Coord.

(** [Value(x)] for a real [x]: the imaginary part is zero. *)
Definition Value_of_real (x : spec_float) : Value := mkValue x (S754_zero false).
Definition Value_of_int (z : Z) : Value := Value_of_real (Real.of_int z).

(** ** The sequential kernels *)

Section Kernels.
Context {V : Type} `{Arith V}.

(** The statement [*gptr++ += d * *cptr++] of the [suppu] loop. *)
Definition caxpy_step (d : V) (C : list V) (st : Z * Z * list V)
  : option (Z * Z * list V) :=
  let '(gptr, cptr, grid) := st in
  g ← vec_get grid gptr;
  c ← vec_get C cptr;
  grid' ← vec_set grid gptr (vadd g (vmul d c));
  Some (gptr + 1, cptr + 1, grid').

(** The body of the [suppv] loop up to the pointer increments: one row of
    the stencil. *)
Definition grid_row (sSize : Z) (data : list V) (dind : Z) (C : list V)
    (gind cind : Z) (grid : list V) : option (list V) :=
  _ ← vec_get grid gind;
  _ ← vec_get C cind;
  d ← vec_get data dind;
  '(_, _, grid') ← for_upto sSize (fun _ => caxpy_step d C) (gind, cind, grid);
  Some grid'.

Definition gridKernel (data : list V) (support : Z) (C : list V)
    (cOffset iu iv : list Z) (grid : list V) (gSize : Z) : option (list V) :=
  let sSize := 2 * support + 1 in
  for_upto (vec_size data) (fun dind grid =>
    iu_d ← vec_get iu dind;
    iv_d ← vec_get iv dind;
    let gind := iu_d + gSize * iv_d - support in
    cind ← vec_get cOffset dind;
    '(_, _, grid') ← for_upto sSize (fun suppv '(gind, cind, grid) =>
        grid' ← grid_row sSize data dind C gind cind grid;
        Some (gind + gSize, cind + sSize, grid')) (gind, cind, grid);
    Some grid') grid.

(** The statement [*d += *gptr++ * *cptr++] of the [suppu] loop, with
    [d = &data[dind]]. *)
Definition cdotu_step (grid C : list V) (dind : Z) (st : Z * Z * list V)
  : option (Z * Z * list V) :=
  let '(gptr, cptr, data) := st in
  g ← vec_get grid gptr;
  c ← vec_get C cptr;
  d ← vec_get data dind;
  data' ← vec_set data dind (vadd d (vmul g c));
  Some (gptr + 1, cptr + 1, data').

Definition degrid_row (sSize : Z) (grid C : list V) (dind gind cind : Z)
    (data : list V) : option (list V) :=
  _ ← vec_get data dind;
  _ ← vec_get grid gind;
  _ ← vec_get C cind;
  '(_, _, data') ← for_upto sSize (fun _ => cdotu_step grid C dind) (gind, cind, data);
  Some data'.

(** The body of the [dind] loop of [degridKernel] and of
    [degridKernelOMP]. *)
Definition degrid_sample (grid : list V) (gSize support : Z) (C : list V)
    (cOffset iu iv : list Z) (dind : Z) (data : list V) : option (list V) :=
  let sSize := 2 * support + 1 in
  data ← vec_set data dind vzero;
  iu_d ← vec_get iu dind;
  iv_d ← vec_get iv dind;
  let gind := iu_d + gSize * iv_d - support in
  cind ← vec_get cOffset dind;
  '(_, _, data') ← for_upto sSize (fun suppv '(gind, cind, data) =>
      data' ← degrid_row sSize grid C dind gind cind data;
      Some (gind + gSize, cind + sSize, data')) (gind, cind, data);
  Some data'.

Definition degridKernel (grid : list V) (gSize support : Z) (C : list V)
    (cOffset iu iv : list Z) (data : list V) : option (list V) :=
  for_upto (vec_size data)
    (degrid_sample grid gSize support C cOffset iu iv) data.

(** *** The parallel kernels

    The body of a parallel region is modelled by the accesses to the shared
    vector that a thread issues, in program order; the reads of the
    read-only vectors are performed on the way. *)

(** The statement [*gptr++ += d * *cptr++], issued. *)
Definition caxpy_emit (d : V) (C : list V) (st : Z * Z * list (access V))
  : option (Z * Z * list (access V)) :=
  let '(gptr, cptr, log) := st in
  c ← vec_get C cptr;
  Some (gptr + 1, cptr + 1, log ++ [Acc gptr (vmul d c)]).

Definition grid_row_emit (sSize : Z) (data : list V) (dind : Z) (C : list V)
    (gind cind : Z) (log : list (access V)) : option (list (access V)) :=
  _ ← vec_get C cind;
  d ← vec_get data dind;
  '(_, _, log') ← for_upto sSize (fun _ => caxpy_emit d C) (gind, cind, log);
  Some log'.

(** The block of [#pragma omp parallel] in [gridKernelOMP], as run by the
    thread [tid] of [nthreads]. *)
Definition gridKernelOMP_thread (tid nthreads : Z) (data : list V) (support : Z)
    (C : list V) (cOffset iu iv : list Z) (gSize : Z) : option (list (access V)) :=
  let sSize := 2 * support + 1 in
  for_upto (vec_size data) (fun dind log =>
    iu_d ← vec_get iu dind;
    iv_d ← vec_get iv dind;
    let gind := iu_d + gSize * iv_d - support in
    cind ← vec_get cOffset dind;
    let row := Z.rem iv_d nthreads in
    '(_, _, _, log') ← for_upto sSize (fun suppv '(gind, cind, row, log) =>
        log' ← (if decide (row = tid)
                then grid_row_emit sSize data dind C gind cind log
                else Some log);
        let row := row + 1 in
        let row := if decide (row >= nthreads) then 0 else row in
        Some (gind + gSize, cind + sSize, row, log')) (gind, cind, row, log);
    Some log') [].

(** [gridKernelOMP] run by [nthreads] threads takes [grid] to the first
    component of [out] and returns the second, [omp_get_max_threads()]. *)
Definition gridKernelOMP (max_threads nthreads : Z) (data : list V) (support : Z)
    (C : list V) (cOffset iu iv : list Z) (grid : list V) (gSize : Z)
    (out : list V * Z) : Prop :=
  exists traces,
    mapM (fun tid => gridKernelOMP_thread tid nthreads data support C cOffset iu iv gSize)
         (seqZ 0 nthreads) = Some traces
    /\ par_run traces grid out.1
    /\ out.2 = max_threads.

(** The statement [*d += *gptr++ * *cptr++], issued. *)
Definition cdotu_emit (grid C : list V) (dind : Z) (st : Z * Z * list (access V))
  : option (Z * Z * list (access V)) :=
  let '(gptr, cptr, log) := st in
  g ← vec_get grid gptr;
  c ← vec_get C cptr;
  Some (gptr + 1, cptr + 1, log ++ [Acc dind (vmul g c)]).

Definition degrid_row_emit (sSize : Z) (grid C : list V) (dind gind cind : Z)
    (log : list (access V)) : option (list (access V)) :=
  _ ← vec_get grid gind;
  _ ← vec_get C cind;
  '(_, _, log') ← for_upto sSize (fun _ => cdotu_emit grid C dind) (gind, cind, log);
  Some log'.

(** One iteration of the [omp parallel for] loop of [degridKernelOMP]. *)
Definition degrid_sample_emit (grid : list V) (gSize support : Z) (C : list V)
    (cOffset iu iv : list Z) (dind : Z) : option (list (access V)) :=
  let sSize := 2 * support + 1 in
  let log := [Store dind vzero] in
  iu_d ← vec_get iu dind;
  iv_d ← vec_get iv dind;
  let gind := iu_d + gSize * iv_d - support in
  cind ← vec_get cOffset dind;
  '(_, _, log') ← for_upto sSize (fun suppv '(gind, cind, log) =>
      log' ← degrid_row_emit sSize grid C dind gind cind log;
      Some (gind + gSize, cind + sSize, log')) (gind, cind, log);
  Some log'.

(** [schedule(dynamic, 32)] hands the iterations out to the threads at run
    time: [sched] lists, for every thread, the iterations it got, in the
    order it ran them.  Any distribution of the iterations is allowed. *)
Definition schedule_of (n : Z) (sched : list (list Z)) : Prop :=
  concat sched ≡ₚ seqZ 0 n.

Definition degridKernelOMP (max_threads : Z) (sched : list (list Z))
    (grid : list V) (gSize support : Z) (C : list V) (cOffset iu iv : list Z)
    (data : list V) (out : list V * Z) : Prop :=
  schedule_of (vec_size data) sched /\
  exists traces,
    mapM (fun its =>
            trs ← mapM (degrid_sample_emit grid gSize support C cOffset iu iv) its;
            Some (concat trs))
         sched = Some traces
    /\ par_run traces data out.1
    /\ out.2 = max_threads.

End Kernels.


(** ** Conversions between [double] and [int] *)

Definition int_min : Z := - 2 ^ 31.
Definition int_max : Z := 2 ^ 31 - 1.

Definition is_finite (x : spec_float) : bool :=
  match x with
  | S754_zero _ | S754_finite _ _ _ => true
  | _ => false
  end.

(** A finite number is the fraction [SFnum x / SFden x]. *)
Definition SFnum (x : spec_float) : Z :=
  match x with
  | S754_finite s m e => cond_Zopp s (Zpos m) * 2 ^ Z.max e 0
  | _ => 0
  end.

Definition SFden (x : spec_float) : Z :=
  match x with
  | S754_finite _ _ e => 2 ^ Z.max (- e) 0
  | _ => 1
  end.

(** The integer part, fraction discarded (rounding toward zero), and the
    largest integer not above [x] (rounding toward negative infinity). *)
Definition truncZ (x : spec_float) : Z := SFnum x ÷ SFden x.
Definition floorZ (x : spec_float) : Z := SFnum x / SFden x.
(** The nearest integer, halves away from zero, as [round] has it. *)
Definition roundZ (x : spec_float) : Z :=
  let n := SFnum x in
  let d := SFden x in
  if decide (0 <= n) then (2 * n + d) / (2 * d) else - ((2 * - n + d) / (2 * d)).

(** [int(x)] and [static_cast<int>(x)]: the value is truncated, and the
    behaviour is undefined if the truncated value is not an [int]. *)
Definition double_to_int (x : spec_float) : option Z :=
  if is_finite x then
    if decide (int_min <= truncZ x <= int_max) then Some (truncZ x) else None
  else None.

(** ** The range of [int] *)

Definition in_int (z : Z) : Prop := int_min <= z <= int_max.

(** [z] as a value of type [int]: no result outside of the range, where
    the arithmetic of [int] overflows. *)
Definition int_of (z : Z) : option Z :=
  if decide (int_min <= z <= int_max) then Some z else None.

Section KernelInts.
(** The number [n] of samples, [data.size()], and the arguments of type
    [int] and [std::vector<int>] of a kernel. *)
Variables (n support : Z) (cOffset iu iv : list Z) (gSize : Z).

(** The values of type [int] that a kernel forms for the sample [d]:
    [iu[d]], [iv[d]] and [cOffset[d]], the product [gSize * iv[d]], the sum
    [iu[d] + gSize * iv[d]], the index [gind] and, for the [k]-th
    [gind += gSize] and [cind += sSize] of the [suppv] loop, the new values
    of [gind] and [cind], the last ones included. *)
Record sample_ints (d : Z) : Prop := {
  si_iu : in_int (vec_at 0 iu d);
  si_iv : in_int (vec_at 0 iv d);
  si_cOffset : in_int (vec_at 0 cOffset d);
  si_row : in_int (gSize * vec_at 0 iv d);
  si_sum : in_int (vec_at 0 iu d + gSize * vec_at 0 iv d);
  si_gind : in_int (vec_at 0 iu d + gSize * vec_at 0 iv d - support);
  si_steps : forall k, 0 <= k <= 2 * support + 1 ->
      in_int (vec_at 0 iu d + gSize * vec_at 0 iv d - support + gSize * k) /\
      in_int (vec_at 0 cOffset d + (2 * support + 1) * k)
}.

(** No value of type [int] of a call of a kernel is outside of the range
    of [int]: the arguments [support] and [gSize], [2 * support] and
    [sSize = 2 * support + 1], the bound [int(data.size())] of the [dind]
    loop, and the values formed for every sample. *)
Record kernel_ints : Prop := {
  ki_support : in_int support;
  ki_gSize : in_int gSize;
  ki_twice : in_int (2 * support);
  ki_sSize : in_int (2 * support + 1);
  ki_size : n <= int_max;
  ki_samples : forall d, 0 <= d < n -> sample_ints d
}.
End KernelInts.

(** No value of type [int] of a call of [initC] that finds the half-width
    [support] is outside of the range of [int]: [wSize], [2 * support],
    [sSize = 2 * support + 1], the products of
    [sSize * sSize * overSample * overSample * wSize], from left to right,
    and those of [wSize * overSample * overSample], with [overSample = 8].
    With a half-width and a number of planes that are not negative, the
    indices [cind] of the table and the integers they are made of are below
    the size of the table. *)
Record table_ints (support wSize : Z) : Prop := {
  ti_wSize : in_int wSize;
  ti_twice : in_int (2 * support);
  ti_sSize : in_int (2 * support + 1);
  ti_square : in_int ((2 * support + 1) * (2 * support + 1));
  ti_stencils : in_int ((2 * support + 1) * (2 * support + 1) * 8);
  ti_plane : in_int ((2 * support + 1) * (2 * support + 1) * 8 * 8);
  ti_size : in_int ((2 * support + 1) * (2 * support + 1) * 8 * 8 * wSize);
  ti_planes : in_int (wSize * 8);
  ti_factor : in_int (wSize * 8 * 8)
}.

(** ** The offsets *)

(** [v.resize(n)]: the elements in excess are dropped, the new ones are 0. *)
Definition vec_resize (v : list Z) (n : Z) : option (list Z) :=
  if decide (0 <= n)
  then Some (take (Z.to_nat n) v ++ replicate (Z.to_nat n - length v) 0)
  else None.

Definition initCOffset (u v w freq : list spec_float) (cellSize wCellSize : spec_float)
    (wSize gSize support overSample : Z) (cOffset iu iv : list Z)
  : option (list Z * list Z * list Z) :=
  let nSamples := vec_size u in
  let nChan := vec_size freq in
  let sSize := 2 * support + 1 in
  cOffset ← vec_resize cOffset (nSamples * nChan);
  iu ← vec_resize iu (nSamples * nChan);
  iv ← vec_resize iv (nSamples * nChan);
  for_upto nSamples (fun i st =>
    for_upto nChan (fun chan '(cOffset, iu, iv) =>
      let dind := i * nChan + chan in
      freq_chan ← vec_get freq chan;
      u_i ← vec_get u i;
      let uScaled := Coord.div (Coord.mul freq_chan u_i) cellSize in
      iu_d ← double_to_int uScaled;
      iu ← vec_set iu dind iu_d;
      iu_d ← vec_get iu dind;
      iu ← (if Coord.ltb uScaled (Coord.of_int iu_d)
            then vec_set iu dind (iu_d - 1) else Some iu);
      iu_d ← vec_get iu dind;
      fracu ← double_to_int
                (Coord.mul (Coord.of_int overSample) (Coord.sub uScaled (Coord.of_int iu_d)));
      iu ← vec_set iu dind (iu_d + gSize ÷ 2);
      v_i ← vec_get v i;
      let vScaled := Coord.div (Coord.mul freq_chan v_i) cellSize in
      iv_d ← double_to_int vScaled;
      iv ← vec_set iv dind iv_d;
      iv_d ← vec_get iv dind;
      iv ← (if Coord.ltb vScaled (Coord.of_int iv_d)
            then vec_set iv dind (iv_d - 1) else Some iv);
      iv_d ← vec_get iv dind;
      fracv ← double_to_int
                (Coord.mul (Coord.of_int overSample) (Coord.sub vScaled (Coord.of_int iv_d)));
      iv ← vec_set iv dind (iv_d + gSize ÷ 2);
      w_i ← vec_get w i;
      let wScaled := Coord.div (Coord.mul freq_chan w_i) wCellSize in
      wt ← double_to_int wScaled;
      let woff := wSize ÷ 2 + wt in
      cOffset ← vec_set cOffset dind
                  (sSize * sSize * (fracu + overSample * (fracv + overSample * woff)));
      Some (cOffset, iu, iv)) st) (cOffset, iu, iv).

(** ** The convolution function *)

(** [C.resize(n)] on a vector of values. *)
Definition vec_resize_values (v : list Value) (n : Z) : option (list Value) :=
  if decide (0 <= n)
  then Some (take (Z.to_nat n) v ++ replicate (Z.to_nat n - length v) vzero)
  else None.

Section InitC.
(** The functions of the mathematical library that [initC] calls, on
    [double] ([cos], [exp], [pow]) and on [std::complex<float>] ([abs]). *)
Variables (cos exp : spec_float -> spec_float).
Variable pow : spec_float -> spec_float -> spec_float.
Variable cabs : Value -> spec_float.

(** The expression converted to give [support]. *)
Definition support_expr (freq0 cellSize baseline : spec_float) : spec_float :=
  Coord.div
    (Coord.mul (Coord.lit 3 (-1))
       (Coord.sqrt (Coord.mul (Coord.mul (Coord.abs baseline) cellSize) freq0)))
    cellSize.

Definition wCellSize_expr (freq0 baseline : spec_float) (wSize : Z) : spec_float :=
  Coord.div (Coord.mul (Coord.mul (Coord.of_int 2) baseline) freq0) (Coord.of_int wSize).

(** The table: [wSize] planes of [overSample * overSample] stencils of
    [sSize * sSize] values. *)
Definition initC_fill (freq : list spec_float) (cellSize wCellSize : spec_float)
    (wSize support overSample : Z) (C : list Value) : option (list Value) :=
  let sSize := 2 * support + 1 in
  let cCenter := (sSize - 1) ÷ 2 in
  for_upto wSize (fun k C =>
    let w := Coord.of_int (k - wSize ÷ 2) in
    freq0 ← vec_get freq 0;
    let fScale :=
      Coord.div (Coord.sqrt (Coord.mul (Coord.mul (Coord.abs w) wCellSize) freq0)) cellSize in
    for_upto overSample (fun osj C =>
      for_upto overSample (fun osi C =>
        for_upto sSize (fun j C =>
          let j2 := pow (Coord.add (Coord.of_int (j - cCenter))
                           (Coord.div (Coord.of_int osj) (Coord.of_int overSample)))
                        (Coord.of_int 2) in
          for_upto sSize (fun i C =>
            let r2 := Coord.add j2
                        (pow (Coord.add (Coord.of_int (i - cCenter))
                                (Coord.div (Coord.of_int osi) (Coord.of_int overSample)))
                             (Coord.of_int 2)) in
            let cind := i + sSize * (j + sSize * (osi + overSample * (osj + overSample * k))) in
            if negb (Coord.eqb w (S754_zero false))
            then vec_set C cind
                   (Value_of_real (Real.of_coord (cos (Coord.div r2 (Coord.mul w fScale)))))
            else vec_set C cind (Value_of_real (Real.of_coord (exp (Coord.opp r2))))) C) C) C) C) C.

(** [sumC]: the magnitudes of the [n] values, added up in a [Real]. *)
Definition initC_sum (n : Z) (C : list Value) : option spec_float :=
  for_upto n (fun i sumC =>
    c ← vec_get C i;
    Some (Real.add sumC (cabs c))) (S754_zero false).

(** The normalisation: every value is multiplied by
    [wSize * overSample * overSample / sumC]. *)
Definition initC_normalise (n wSize overSample : Z) (sumC : spec_float) (C : list Value)
  : option (list Value) :=
  for_upto n (fun i C =>
    c ← vec_get C i;
    vec_set C i (vmul c (Value_of_real
                           (Real.div (Real.of_int (wSize * overSample * overSample)) sumC)))) C.

Definition initC (freq : list spec_float) (cellSize baseline : spec_float) (wSize : Z)
    (C : list Value) : option (Z * Z * spec_float * list Value) :=
  freq0 ← vec_get freq 0;
  support ← double_to_int (support_expr freq0 cellSize baseline);
  let overSample := 8 in
  freq0 ← vec_get freq 0;
  let wCellSize := wCellSize_expr freq0 baseline wSize in
  let sSize := 2 * support + 1 in
  C ← vec_resize_values C (sSize * sSize * overSample * overSample * wSize);
  C ← initC_fill freq cellSize wCellSize wSize support overSample C;
  sumC ← initC_sum (sSize * sSize * overSample * overSample * wSize) C;
  C ← initC_normalise (sSize * sSize * overSample * overSample * wSize) wSize overSample sumC C;
  Some (support, overSample, wCellSize, C).
End InitC.

(** * Properties *)

(** ** Vectors *)

Section VecFacts.
Context {A : Type}.
Implicit Types (v : list A) (i j : Z) (x : A).

Lemma vec_get_Some v i x :
  vec_get v i = Some x <-> 0 <= i /\ v !! Z.to_nat i = Some x.
Proof.
  unfold vec_get. case_decide; split; [tauto|tauto|done|].
  intros [? _]. lia.
Qed.

Lemma vec_get_in_range v i x : vec_get v i = Some x -> 0 <= i < vec_size v.
Proof.
  intros [? Hl]%vec_get_Some. apply lookup_lt_Some in Hl.
  unfold vec_size. lia.
Qed.

Lemma vec_get_at dflt v i :
  0 <= i < vec_size v -> vec_get v i = Some (vec_at dflt v i).
Proof.
  unfold vec_at, vec_get, vec_size. intros Hi. case_decide; [|lia].
  destruct (lookup_lt_is_Some_2 v (Z.to_nat i)) as [x ->]; [lia|done].
Qed.

Lemma vec_get_None v i : ~ 0 <= i < vec_size v -> vec_get v i = None.
Proof.
  unfold vec_get, vec_size. intros Hi. case_decide; [|done].
  apply lookup_ge_None_2. lia.
Qed.

Lemma vec_set_Some v i x v' :
  vec_set v i x = Some v' <->
  0 <= i < vec_size v /\ v' = <[Z.to_nat i := x]> v.
Proof.
  unfold vec_set. case_decide; split.
  - by intros [= <-].
  - by intros [_ ->].
  - done.
  - intros [? _]. lia.
Qed.

Lemma vec_set_size v i x v' : vec_set v i x = Some v' -> vec_size v' = vec_size v.
Proof.
  intros [_ ->]%vec_set_Some. unfold vec_size. by rewrite length_insert.
Qed.

Lemma vec_get_set v i x v' j :
  vec_set v i x = Some v' ->
  vec_get v' j = if decide (i = j) then Some x else vec_get v j.
Proof.
  intros [Hi ->]%vec_set_Some. unfold vec_get, vec_size in *.
  destruct (decide (i = j)) as [<-|Hij].
  - case_decide; [|lia]. apply list_lookup_insert_eq. lia.
  - case_decide; [|done]. apply list_lookup_insert_ne. lia.
Qed.

Lemma vec_ext v v' :
  vec_size v = vec_size v' ->
  (forall k, 0 <= k < vec_size v -> vec_get v k = vec_get v' k) -> v = v'.
Proof.
  unfold vec_size. intros Hlen Hk. apply list_eq_same_length with (length v); [lia|lia|].
  intros n x y Hn Hx Hy.
  specialize (Hk (Z.of_nat n)). unfold vec_get in Hk.
  case_decide; [|lia]. rewrite Nat2Z.id in Hk.
  rewrite Hx, Hy in Hk. injection Hk; [done|lia].
Qed.
End VecFacts.

(** ** Loops *)

Section LoopFacts.
Context {S : Type}.

Lemma for_loop_ext (b1 b2 : Z -> S -> option S) n i s :
  (forall j s, i <= j < i + Z.of_nat n -> b1 j s = b2 j s) ->
  for_loop n i b1 s = for_loop n i b2 s.
Proof.
  revert i s. induction n as [|n IH]; intros i s Hb; [done|].
  cbn [for_loop]. rewrite Hb by lia.
  destruct (b2 i s) as [s'|]; [|done]. apply IH. intros. apply Hb. lia.
Qed.

(** A loop whose state is a cursor advancing on its own and a store. *)
Lemma for_loop_cursor {X : Type} (cur : Z -> X) (act : Z -> S -> option S)
    (body : Z -> X * S -> option (X * S)) n i s :
  (forall j s, i <= j < i + Z.of_nat n ->
     body j (cur j, s) = s' ← act j s; Some (cur (j + 1), s')) ->
  for_loop n i body (cur i, s)
  = s' ← for_loop n i act s; Some (cur (i + Z.of_nat n), s').
Proof.
  revert i s. induction n as [|n IH]; intros i s Hb.
  - cbn. by rewrite Z.add_0_r.
  - cbn [for_loop]. rewrite Hb by lia.
    destruct (act i s) as [s'|]; cbn; [|done].
    rewrite IH by (intros; apply Hb; lia).
    by replace (i + 1 + Z.of_nat n) with (i + Z.of_nat (Datatypes.S n)) by lia.
Qed.

Lemma for_upto_cursor {X : Type} (cur : Z -> X) (act : Z -> S -> option S)
    (body : Z -> X * S -> option (X * S)) hi s :
  0 <= hi ->
  (forall j s, 0 <= j < hi ->
     body j (cur j, s) = s' ← act j s; Some (cur (j + 1), s')) ->
  for_upto hi body (cur 0, s) = s' ← for_upto hi act s; Some (cur hi, s').
Proof.
  intros Hhi Hb. unfold for_upto. rewrite (for_loop_cursor cur act).
  - by rewrite Z.add_0_l, Z2Nat.id.
  - intros. apply Hb. lia.
Qed.

Lemma for_loop_inv (I : Z -> S -> Prop) (body : Z -> S -> option S) n i s :
  I i s ->
  (forall j s, i <= j < i + Z.of_nat n -> I j s ->
     exists s', body j s = Some s' /\ I (j + 1) s') ->
  exists s', for_loop n i body s = Some s' /\ I (i + Z.of_nat n) s'.
Proof.
  revert i s. induction n as [|n IH]; intros i s Hi Hstep.
  - exists s. rewrite Z.add_0_r. done.
  - destruct (Hstep i s ltac:(lia) Hi) as (s1 & Hb & H1).
    destruct (IH (i + 1) s1 H1) as (s' & Hl & H').
    { intros. apply Hstep; [lia|done]. }
    exists s'. cbn [for_loop]. rewrite Hb. split; [done|].
    by replace (i + Z.of_nat (Datatypes.S n)) with (i + 1 + Z.of_nat n) by lia.
Qed.

(** A loop of [hi >= 0] iterations with the invariant [I j] before the
    iteration [j]. *)
Lemma for_upto_inv (I : Z -> S -> Prop) (body : Z -> S -> option S) hi s :
  0 <= hi -> I 0 s ->
  (forall j s, 0 <= j < hi -> I j s -> exists s', body j s = Some s' /\ I (j + 1) s') ->
  exists s', for_upto hi body s = Some s' /\ I hi s'.
Proof.
  intros Hhi H0 Hstep.
  destruct (for_loop_inv I body (Z.to_nat hi) 0 s H0) as (s' & Hl & H').
  { intros. apply Hstep; [lia|done]. }
  exists s'. split; [done|]. by rewrite Z.add_0_l, Z2Nat.id in H'.
Qed.

(** A loop that keeps [I]. *)
Lemma for_upto_keeps (I : S -> Prop) (body : Z -> S -> option S) hi s :
  I s ->
  (forall j s, 0 <= j < hi -> I s -> exists s', body j s = Some s' /\ I s') ->
  exists s', for_upto hi body s = Some s' /\ I s'.
Proof.
  intros H0 Hstep.
  destruct (for_loop_inv (fun _ => I) body (Z.to_nat hi) 0 s H0) as (s' & Hl & H').
  { intros. apply Hstep; [lia|done]. }
  by exists s'.
Qed.

Lemma for_upto_ext (b1 b2 : Z -> S -> option S) hi s :
  (forall j s, 0 <= j < hi -> b1 j s = b2 j s) ->
  for_upto hi b1 s = for_upto hi b2 s.
Proof. intros Hb. apply for_loop_ext. intros. apply Hb. lia. Qed.
End LoopFacts.

Section LoopResults.
Context {S : Type}.

Lemma for_loop_result (I : Z -> S -> Prop) (body : Z -> S -> option S) n i s s' :
  I i s ->
  (forall j s s', i <= j < i + Z.of_nat n -> I j s -> body j s = Some s' -> I (j + 1) s') ->
  for_loop n i body s = Some s' -> I (i + Z.of_nat n) s'.
Proof.
  revert i s. induction n as [|n IH]; intros i s Hi Hstep.
  - cbn. intros [= <-]. by rewrite Z.add_0_r.
  - cbn [for_loop]. destruct (body i s) as [s1|] eqn:Hb; [|done]. intros Hl.
    replace (i + Z.of_nat (Datatypes.S n)) with (i + 1 + Z.of_nat n) by lia.
    apply (IH (i + 1) s1); [apply (Hstep i s s1); [lia|done..]| |done].
    intros j s0 s2 Hj Hs0 Hb'. apply (Hstep j s0 s2); [lia|done..].
Qed.

(** What holds after a loop that returns: [I j] holds before the
    iteration [j]. *)
Lemma for_upto_result (I : Z -> S -> Prop) (body : Z -> S -> option S) hi s s' :
  0 <= hi -> I 0 s ->
  (forall j s s', 0 <= j < hi -> I j s -> body j s = Some s' -> I (j + 1) s') ->
  for_upto hi body s = Some s' -> I hi s'.
Proof.
  intros Hhi H0 Hstep Hl.
  pose proof (for_loop_result I body (Z.to_nat hi) 0 s s' H0) as Hr.
  rewrite Z.add_0_l, Z2Nat.id in Hr by done. apply Hr; [|done].
  intros j s0 s1 Hj Hs0 Hb. apply (Hstep j s0 s1); [lia|done..].
Qed.

Lemma for_upto_preserves (I : S -> Prop) (body : Z -> S -> option S) hi s s' :
  I s ->
  (forall j s s', 0 <= j < hi -> I s -> body j s = Some s' -> I s') ->
  for_upto hi body s = Some s' -> I s'.
Proof.
  intros H0 Hstep Hl.
  apply (for_loop_result (fun _ => I) body (Z.to_nat hi) 0 s s' H0); [|done].
  intros j s0 s1 Hj Hs0 Hb. apply (Hstep j s0 s1); [lia|done..].
Qed.
End LoopResults.

(** A loop that applies [g] to each of the [n] elements of a vector, in
    place. *)
Lemma for_upto_map {A : Type} (g : A -> A) (n : Z) (v v' : list A) :
  n = vec_size v ->
  for_upto n (fun i v => x ← vec_get v i; vec_set v i (g x)) v = Some v' ->
  v' = g <$> v.
Proof.
  intros Hn Hl.
  assert (vec_size v' = vec_size v /\
          forall k, 0 <= k < vec_size v ->
            vec_get v' k = if decide (k < n) then g <$> vec_get v k else vec_get v k)
    as [Hsize Hget].
  { refine (for_upto_result (fun j s => vec_size s = vec_size v /\
              forall k, 0 <= k < vec_size v ->
                vec_get s k = if decide (k < j) then g <$> vec_get v k else vec_get v k)
              _ n v v' _ _ _ Hl).
    - unfold vec_size in *. lia.
    - split; [done|]. intros k Hk. by rewrite decide_False by lia.
    - intros j s s' Hj [Hsz Hs]. cbv beta.
      destruct (vec_get s j) as [x|] eqn:Hx; cbn [mbind option_bind]; [|done].
      intros Hset. split; [by rewrite (vec_set_size _ _ _ _ Hset)|].
      intros k Hk. rewrite (vec_get_set _ _ _ _ k Hset).
      rewrite Hs in Hx by lia. rewrite decide_False in Hx by lia.
      destruct (decide (j = k)) as [<-|Hne].
      + rewrite decide_True by lia. by rewrite Hx.
      + rewrite Hs by done. destruct (decide (k < j)).
        * by rewrite decide_True by lia.
        * by rewrite decide_False by lia. }
  apply vec_ext.
  - rewrite Hsize. unfold vec_size. by rewrite length_fmap.
  - intros k Hk. rewrite Hsize in Hk. rewrite Hget, decide_True by lia.
    unfold vec_get. case_decide; [|done]. by rewrite list_lookup_fmap.
Qed.

Lemma elem_of_concat {A : Type} (x : A) (ls : list (list A)) :
  x ∈ concat ls <-> exists l, x ∈ l /\ l ∈ ls.
Proof.
  induction ls as [|l ls IH]; cbn.
  - split; [by intros ?%elem_of_nil|]. by intros (l & _ & ?%elem_of_nil).
  - rewrite elem_of_app, IH. split.
    + intros [Hx|(l' & Hx & Hl')]; [exists l|exists l'];
        (split; [done|]); apply elem_of_cons; [by left|by right].
    + intros (l' & Hx & [->|Hl']%elem_of_cons); [by left|right; eauto].
Qed.

Lemma seqZ_succ_nat (i : Z) (n : nat) :
  seqZ i (Z.of_nat (Datatypes.S n)) = i :: seqZ (i + 1) (Z.of_nat n).
Proof.
  rewrite seqZ_cons by lia. f_equal. f_equal; lia.
Qed.

(** ** Traces *)

Section TraceFacts.
Context {V : Type} `{Arith V}.
Implicit Types (a : access V) (tr : list (access V)) (m : list V) (k : Z).

Lemma run_trace_app tr1 tr2 m :
  run_trace (tr1 ++ tr2) m = m' ← run_trace tr1 m; run_trace tr2 m'.
Proof.
  revert m. induction tr1 as [|a tr1 IH]; intros m; cbn; [done|].
  destruct (perform a m); cbn; [apply IH|done].
Qed.

Lemma apply_cell_app k tr1 tr2 x :
  apply_cell k (tr1 ++ tr2) x = apply_cell k tr2 (apply_cell k tr1 x).
Proof. unfold apply_cell. apply fold_left_app. Qed.

Lemma apply_cell_miss k tr x :
  Forall (fun a => cell a <> k) tr -> apply_cell k tr x = x.
Proof.
  unfold apply_cell. intros Hm. revert x.
  induction Hm as [|a tr Ha _ IH]; intros x; cbn; [done|].
  rewrite decide_False by done. apply IH.
Qed.

Lemma perform_in_range a m m' : perform a m = Some m' -> 0 <= cell a < vec_size m.
Proof.
  destruct a as [k v|k v]; cbn.
  - destruct (vec_get m k) eqn:E; cbn; [|done]. intros _. by eapply vec_get_in_range.
  - by intros [? _]%vec_set_Some.
Qed.

Lemma perform_is_Some a m : 0 <= cell a < vec_size m -> is_Some (perform a m).
Proof.
  intros Hk. destruct a as [k v|k v]; cbn in *.
  - rewrite (vec_get_at vzero) by done. cbn. unfold vec_set.
    rewrite decide_True by done. eauto.
  - unfold vec_set. rewrite decide_True by done. eauto.
Qed.

Lemma perform_spec a m m' :
  perform a m = Some m' ->
  vec_size m' = vec_size m /\
  forall k, vec_get m' k
            = (fun x => if decide (cell a = k) then update a x else x) <$> vec_get m k.
Proof.
  intros Hp. pose proof (perform_in_range _ _ _ Hp) as Hr.
  destruct a as [c v|c v]; cbn in *.
  - destruct (vec_get m c) as [x|] eqn:E; cbn in Hp; [|done].
    split; [by eapply vec_set_size|]. intros k.
    rewrite (vec_get_set _ _ _ _ k Hp).
    destruct (decide (c = k)) as [<-|]; [by rewrite E|].
    by destruct (vec_get m k).
  - split; [by eapply vec_set_size|]. intros k.
    rewrite (vec_get_set _ _ _ _ k Hp).
    destruct (decide (c = k)) as [<-|].
    + by rewrite (vec_get_at vzero).
    + by destruct (vec_get m k).
Qed.

Lemma run_trace_spec tr m m' :
  run_trace tr m = Some m' ->
  vec_size m' = vec_size m /\
  forall k, vec_get m' k = apply_cell k tr <$> vec_get m k.
Proof.
  revert m. induction tr as [|a tr IH]; intros m; cbn.
  - intros [= <-]. split; [done|]. intros k. by destruct (vec_get m k).
  - destruct (perform a m) as [m1|] eqn:E; cbn; [|done]. intros Hr.
    destruct (perform_spec _ _ _ E) as [Hs1 Hg1].
    destruct (IH _ Hr) as [Hs Hg]. split; [congruence|].
    intros k. rewrite Hg, Hg1. by destruct (vec_get m k).
Qed.

Lemma run_trace_in_range tr m m' :
  run_trace tr m = Some m' -> Forall (fun a => 0 <= cell a < vec_size m) tr.
Proof.
  revert m. induction tr as [|a tr IH]; intros m; cbn; [by constructor|].
  destruct (perform a m) as [m1|] eqn:E; cbn; [|done]. intros Hr.
  constructor; [by eapply perform_in_range|].
  destruct (perform_spec _ _ _ E) as [<- _]. by apply IH.
Qed.

Lemma run_trace_is_Some tr m :
  Forall (fun a => 0 <= cell a < vec_size m) tr -> is_Some (run_trace tr m).
Proof.
  revert m. induction tr as [|a tr IH]; intros m Hr; cbn; [by eexists|].
  apply Forall_cons in Hr as [Ha Hr].
  destruct (perform_is_Some a m Ha) as [m1 E]. rewrite E. cbn.
  apply IH. destruct (perform_spec _ _ _ E) as [-> _]. done.
Qed.

(** A loop over a store that performs the trace [trs j] at iteration [j]. *)
Lemma for_loop_run_trace (trs : Z -> list (access V))
    (act : Z -> list V -> option (list V)) n i m :
  (forall j m, i <= j < i + Z.of_nat n -> act j m = run_trace (trs j) m) ->
  for_loop n i act m = run_trace (concat (trs <$> seqZ i (Z.of_nat n))) m.
Proof.
  revert i m. induction n as [|n IH]; intros i m Hact; [done|].
  rewrite seqZ_succ_nat. cbn [for_loop fmap list_fmap concat].
  rewrite run_trace_app, Hact by lia.
  destruct (run_trace (trs i) m); cbn; [|done].
  apply IH. intros. apply Hact. lia.
Qed.

(** A loop over a log that issues the trace [trs j] at iteration [j]. *)
Lemma for_loop_emit (trs : Z -> list (access V))
    (act : Z -> list (access V) -> option (list (access V))) n i log :
  (forall j log, i <= j < i + Z.of_nat n -> act j log = Some (log ++ trs j)) ->
  for_loop n i act log = Some (log ++ concat (trs <$> seqZ i (Z.of_nat n))).
Proof.
  revert i log. induction n as [|n IH]; intros i log Hact.
  - cbn. by rewrite app_nil_r.
  - rewrite seqZ_succ_nat. cbn [for_loop fmap list_fmap concat].
    rewrite Hact by lia. rewrite IH by (intros; apply Hact; lia).
    by rewrite app_assoc.
Qed.

Lemma for_upto_run_trace (trs : Z -> list (access V))
    (act : Z -> list V -> option (list V)) hi m :
  (forall j m, 0 <= j < hi -> act j m = run_trace (trs j) m) ->
  for_upto hi act m = run_trace (concat (trs <$> seqZ 0 hi)) m.
Proof.
  intros Hact. unfold for_upto. rewrite (for_loop_run_trace trs) by (intros; apply Hact; lia).
  destruct (decide (0 <= hi)).
  - by rewrite Z2Nat.id.
  - rewrite Z2Nat.nonpos by lia. by rewrite !seqZ_nil by lia.
Qed.

Lemma for_upto_emit (trs : Z -> list (access V))
    (act : Z -> list (access V) -> option (list (access V))) hi log :
  (forall j log, 0 <= j < hi -> act j log = Some (log ++ trs j)) ->
  for_upto hi act log = Some (log ++ concat (trs <$> seqZ 0 hi)).
Proof.
  intros Hact. unfold for_upto. rewrite (for_loop_emit trs) by (intros; apply Hact; lia).
  destruct (decide (0 <= hi)).
  - by rewrite Z2Nat.id.
  - rewrite Z2Nat.nonpos by lia. by rewrite !seqZ_nil by lia.
Qed.

Lemma run_trace_singleton a m : run_trace [a] m = perform a m.
Proof. cbn. by destruct (perform a m). Qed.

Lemma concat_singletons {A B : Type} (f : A -> B) (l : list A) :
  concat ((fun x => [f x]) <$> l) = f <$> l.
Proof. induction l as [|x l IH]; cbn; [done|]. by rewrite IH. Qed.
End TraceFacts.

(** ** The stencil of a sample

    The accesses of the kernels, enumerated.  All four kernels anchor the
    stencil of sample [d] at the grid index [iu[d] + gSize * iv[d] - support]:
    its columns are centred on [iu[d]], its rows start at [iv[d]]. *)

Section Stencil.
Context {V : Type} `{Arith V}.
Variables (data : list V) (support : Z) (C : list V) (cOffset iu iv : list Z).
Variable gSize : Z.

Definition stencil_size : Z := 2 * support + 1.

Definition stencil_cell (d du dv : Z) : Z :=
  (vec_at 0 iu d - support + du) + gSize * (vec_at 0 iv d + dv).

Definition stencil_coeff (d du dv : Z) : V :=
  vec_at vzero C (vec_at 0 cOffset d + stencil_size * dv + du).

Definition row_trace (d dv : Z) : list (access V) :=
  (fun du => Acc (stencil_cell d du dv) (vmul (vec_at vzero data d) (stencil_coeff d du dv)))
    <$> seqZ 0 stencil_size.

Definition sample_trace (d : Z) : list (access V) :=
  concat (row_trace d <$> seqZ 0 stencil_size).

Definition grid_trace : list (access V) :=
  concat (sample_trace <$> seqZ 0 (vec_size data)).

(** What the kernels need of the read-only vectors: an offset entry for
    every sample, and a block of the kernel table at every [cOffset]. *)
Record tables_ok : Prop := {
  ok_support : 0 <= support;
  ok_iu : vec_size data <= vec_size iu;
  ok_iv : vec_size data <= vec_size iv;
  ok_cOffset : vec_size data <= vec_size cOffset;
  ok_C : forall d, 0 <= d < vec_size data ->
      0 <= vec_at 0 cOffset d /\
      vec_at 0 cOffset d + stencil_size * stencil_size <= vec_size C
}.

Lemma caxpy_loop (d : V) (gptr cptr : Z) (grid : list V) :
  0 <= stencil_size ->
  (forall j, 0 <= j < stencil_size -> 0 <= cptr + j < vec_size C) ->
  for_upto stencil_size (fun _ => caxpy_step d C) (gptr, cptr, grid)
  = grid' ← run_trace ((fun du => Acc (gptr + du) (vmul d (vec_at vzero C (cptr + du))))
                         <$> seqZ 0 stencil_size) grid;
    Some (gptr + stencil_size, cptr + stencil_size, grid').
Proof.
  intros Hs HC.
  set (cur := fun j : Z => (gptr + j, cptr + j)).
  replace (gptr, cptr, grid) with (cur 0, grid)
    by (unfold cur; by rewrite !Z.add_0_r).
  rewrite (for_upto_cursor cur
             (fun j => perform (Acc (gptr + j) (vmul d (vec_at vzero C (cptr + j)))))).
  - rewrite (for_upto_run_trace (fun j => [Acc (gptr + j) (vmul d (vec_at vzero C (cptr + j)))])).
    + by rewrite concat_singletons.
    + intros. by rewrite run_trace_singleton.
  - done.
  - intros j m Hj. unfold cur. cbn.
    rewrite (vec_get_at vzero C) by auto.
    destruct (vec_get m (gptr + j)); cbn; [|done].
    destruct vec_set; cbn; [|done].
    by rewrite <-!Z.add_assoc.
Qed.

Lemma coeff_in_range d dv du :
  tables_ok -> 0 <= d < vec_size data ->
  0 <= dv < stencil_size -> 0 <= du < stencil_size ->
  0 <= vec_at 0 cOffset d + dv * stencil_size + du < vec_size C.
Proof. intros Hok Hd Hv Hu. pose proof (ok_C Hok d Hd). nia. Qed.

Lemma stencil_size_pos : tables_ok -> 0 < stencil_size.
Proof. intros Hok. pose proof (ok_support Hok). unfold stencil_size. lia. Qed.

Lemma row_trace_cons d dv :
  tables_ok ->
  exists a tr, row_trace d dv = a :: tr /\ cell a = stencil_cell d 0 dv.
Proof.
  intros Hok. pose proof (stencil_size_pos Hok).
  unfold row_trace. rewrite seqZ_cons by done. cbn. eauto.
Qed.

Lemma grid_row_trace d dv grid :
  tables_ok -> 0 <= d < vec_size data -> 0 <= dv < stencil_size ->
  grid_row stencil_size data d C
    (vec_at 0 iu d + gSize * vec_at 0 iv d - support + dv * gSize)
    (vec_at 0 cOffset d + dv * stencil_size) grid
  = run_trace (row_trace d dv) grid.
Proof.
  intros Hok Hd Hdv. pose proof (stencil_size_pos Hok) as Hpos.
  unfold grid_row.
  destruct (vec_get grid _) as [x|] eqn:Hg; cbn.
  - pose proof (coeff_in_range d dv 0 Hok Hd Hdv ltac:(lia)) as HC0.
    rewrite Z.add_0_r in HC0.
    rewrite (vec_get_at vzero C) by done. cbn.
    rewrite (vec_get_at vzero data) by done. cbn.
    rewrite caxpy_loop; [|lia|].
    + match goal with |- context [run_trace ?t grid] =>
        replace t with (row_trace d dv) end.
      { by destruct run_trace. }
      unfold row_trace. apply list_fmap_ext.
      intros _ du _. unfold stencil_cell, stencil_coeff. f_equal.
      * lia.
      * do 2 f_equal. lia.
    + intros j Hj. by apply coeff_in_range.
  - destruct (row_trace_cons d dv Hok) as (a & tr & -> & Ha).
    cbn. replace (perform a grid) with (@None (list V)); [done|].
    symmetry. destruct (perform a grid) eqn:Hp; [|done].
    apply perform_in_range in Hp.
    rewrite (vec_get_at vzero) in Hg; [done|].
    rewrite Ha in Hp. unfold stencil_cell in Hp. lia.
Qed.

Lemma gridKernel_trace grid :
  tables_ok ->
  gridKernel data support C cOffset iu iv grid gSize = run_trace grid_trace grid.
Proof.
  intros Hok. pose proof (stencil_size_pos Hok) as Hpos.
  unfold gridKernel, grid_trace. apply for_upto_run_trace. intros d m Hd.
  rewrite (vec_get_at 0 iu), (vec_get_at 0 iv), (vec_get_at 0 cOffset)
    by (destruct Hok; lia).
  cbn. fold stencil_size.
  set (gind := vec_at 0 iu d + gSize * vec_at 0 iv d - support).
  set (cind := vec_at 0 cOffset d).
  set (cur := fun j : Z => (gind + j * gSize, cind + j * stencil_size)).
  replace (gind, cind, m) with (cur 0, m)
    by (unfold cur; by rewrite !Z.add_0_r).
  rewrite (for_upto_cursor cur (fun j => run_trace (row_trace d j))); [|lia|].
  - rewrite (for_upto_run_trace (row_trace d)) by done.
    fold (sample_trace d). by destruct run_trace.
  - intros j m' Hj. unfold cur. cbn.
    rewrite grid_row_trace by done.
    destruct run_trace; cbn; [|done].
    do 3 f_equal; lia.
Qed.


(** *** The threads of [gridKernelOMP] *)

(** The thread that accumulates the stencil row [dv] of sample [d]. *)
Definition row_owner (nthreads d dv : Z) : Z := (vec_at 0 iv d + dv) mod nthreads.

Definition thread_trace (tid nthreads : Z) : list (access V) :=
  concat ((fun d =>
    concat ((fun dv => if decide (row_owner nthreads d dv = tid)
                       then row_trace d dv else []) <$> seqZ 0 stencil_size))
    <$> seqZ 0 (vec_size data)).

Lemma caxpy_emit_loop (d : V) (gptr cptr : Z) (log : list (access V)) :
  0 <= stencil_size ->
  (forall j, 0 <= j < stencil_size -> 0 <= cptr + j < vec_size C) ->
  for_upto stencil_size (fun _ => caxpy_emit d C) (gptr, cptr, log)
  = Some (gptr + stencil_size, cptr + stencil_size,
          log ++ ((fun du => Acc (gptr + du) (vmul d (vec_at vzero C (cptr + du))))
                    <$> seqZ 0 stencil_size)).
Proof.
  intros Hs HC.
  set (cur := fun j : Z => (gptr + j, cptr + j)).
  replace (gptr, cptr, log) with (cur 0, log)
    by (unfold cur; by rewrite !Z.add_0_r).
  rewrite (for_upto_cursor cur
             (fun j log => Some (log ++ [Acc (gptr + j) (vmul d (vec_at vzero C (cptr + j)))]))).
  - rewrite (for_upto_emit (fun j => [Acc (gptr + j) (vmul d (vec_at vzero C (cptr + j)))]))
      by done.
    by rewrite concat_singletons.
  - done.
  - intros j m Hj. unfold cur. cbn.
    rewrite (vec_get_at vzero C) by auto. cbn.
    by rewrite <-!Z.add_assoc.
Qed.

Lemma grid_row_emit_trace d dv log :
  tables_ok -> 0 <= d < vec_size data -> 0 <= dv < stencil_size ->
  grid_row_emit stencil_size data d C
    (vec_at 0 iu d + gSize * vec_at 0 iv d - support + dv * gSize)
    (vec_at 0 cOffset d + dv * stencil_size) log
  = Some (log ++ row_trace d dv).
Proof.
  intros Hok Hd Hdv. pose proof (stencil_size_pos Hok) as Hpos.
  unfold grid_row_emit.
  pose proof (coeff_in_range d dv 0 Hok Hd Hdv ltac:(lia)) as HC0.
  rewrite Z.add_0_r in HC0.
  rewrite (vec_get_at vzero C) by done. cbn.
  rewrite (vec_get_at vzero data) by done. cbn.
  rewrite caxpy_emit_loop; [|lia|].
  - cbn. do 2 f_equal. unfold row_trace. apply list_fmap_ext.
    intros _ du _. unfold stencil_cell, stencil_coeff. f_equal.
    + lia.
    + do 2 f_equal. lia.
  - intros j Hj. by apply coeff_in_range.
Qed.

Lemma row_counter_wrap (nthreads a : Z) :
  0 < nthreads ->
  (if decide (a mod nthreads + 1 >= nthreads) then 0 else a mod nthreads + 1)
  = (a + 1) mod nthreads.
Proof.
  intros HT. pose proof (Z.mod_pos_bound a nthreads HT) as Hb.
  pose proof (Z.div_mod a nthreads ltac:(lia)) as Hdm.
  case_decide.
  - apply (Z.mod_unique_pos _ _ (a / nthreads + 1)); lia.
  - apply (Z.mod_unique_pos _ _ (a / nthreads)); lia.
Qed.

Lemma gridKernelOMP_thread_trace tid nthreads :
  tables_ok -> 0 < nthreads ->
  (forall d, 0 <= d < vec_size data -> 0 <= vec_at 0 iv d) ->
  gridKernelOMP_thread tid nthreads data support C cOffset iu iv gSize
  = Some (thread_trace tid nthreads).
Proof.
  intros Hok HT Hiv. pose proof (stencil_size_pos Hok) as Hpos.
  unfold gridKernelOMP_thread, thread_trace.
  rewrite (for_upto_emit (fun d =>
    concat ((fun dv => if decide (row_owner nthreads d dv = tid)
                       then row_trace d dv else []) <$> seqZ 0 stencil_size))); [done|].
  intros d log Hd.
  rewrite (vec_get_at 0 iu), (vec_get_at 0 iv), (vec_get_at 0 cOffset)
    by (destruct Hok; lia).
  cbn. fold stencil_size.
  set (gind := vec_at 0 iu d + gSize * vec_at 0 iv d - support).
  set (cind := vec_at 0 cOffset d).
  set (cur := fun j : Z =>
    (gind + j * gSize, cind + j * stencil_size, row_owner nthreads d j)).
  replace (gind, cind, Z.rem (vec_at 0 iv d) nthreads, log) with (cur 0, log).
  2:{ unfold cur, row_owner. rewrite !Z.add_0_r. do 2 f_equal.
      symmetry. apply Z.rem_mod_nonneg; [auto|lia]. }
  rewrite (for_upto_cursor cur (fun j log =>
    Some (log ++ if decide (row_owner nthreads d j = tid) then row_trace d j else [])));
    [|lia|].
  - by rewrite (for_upto_emit (fun dv => if decide (row_owner nthreads d dv = tid)
                                        then row_trace d dv else [])) by done.
  - intros j log' Hj. unfold cur. cbn.
    assert ((if decide (row_owner nthreads d j + 1 >= nthreads)
             then 0 else row_owner nthreads d j + 1)
            = row_owner nthreads d (j + 1)) as ->.
    { unfold row_owner. rewrite row_counter_wrap by done. f_equal. lia. }
    destruct (decide (row_owner nthreads d j = tid)).
    + rewrite grid_row_emit_trace by done. cbn.
      do 3 f_equal; f_equal; lia.
    + cbn. rewrite app_nil_r.
      do 3 f_equal; f_equal; lia.
Qed.

(** *** Degridding *)

Variable grid : list V.

Definition degrid_row_trace (d dv : Z) : list (access V) :=
  (fun du => Acc d (vmul (vec_at vzero grid (stencil_cell d du dv)) (stencil_coeff d du dv)))
    <$> seqZ 0 stencil_size.

Definition degrid_trace (d : Z) : list (access V) :=
  Store d vzero :: concat (degrid_row_trace d <$> seqZ 0 stencil_size).

(** Every cell of every stencil lies in the grid. *)
Definition cells_ok : Prop :=
  forall d dv du, 0 <= d < vec_size data ->
    0 <= dv < stencil_size -> 0 <= du < stencil_size ->
    0 <= stencil_cell d du dv < vec_size grid.

Lemma cdotu_loop (dind gptr cptr : Z) (m : list V) :
  0 <= stencil_size ->
  (forall j, 0 <= j < stencil_size -> 0 <= gptr + j < vec_size grid) ->
  (forall j, 0 <= j < stencil_size -> 0 <= cptr + j < vec_size C) ->
  for_upto stencil_size (fun _ => cdotu_step grid C dind) (gptr, cptr, m)
  = m' ← run_trace ((fun du => Acc dind (vmul (vec_at vzero grid (gptr + du))
                                               (vec_at vzero C (cptr + du))))
                      <$> seqZ 0 stencil_size) m;
    Some (gptr + stencil_size, cptr + stencil_size, m').
Proof.
  intros Hs Hg HC.
  set (cur := fun j : Z => (gptr + j, cptr + j)).
  replace (gptr, cptr, m) with (cur 0, m)
    by (unfold cur; by rewrite !Z.add_0_r).
  rewrite (for_upto_cursor cur
             (fun j => perform (Acc dind (vmul (vec_at vzero grid (gptr + j))
                                               (vec_at vzero C (cptr + j)))))).
  - rewrite (for_upto_run_trace
               (fun j => [Acc dind (vmul (vec_at vzero grid (gptr + j))
                                         (vec_at vzero C (cptr + j)))])).
    + by rewrite concat_singletons.
    + intros. by rewrite run_trace_singleton.
  - done.
  - intros j m' Hj. unfold cur. cbn.
    rewrite (vec_get_at vzero grid), (vec_get_at vzero C) by auto. cbn.
    destruct (vec_get m' dind); cbn; [|done].
    destruct vec_set; cbn; [|done].
    by rewrite <-!Z.add_assoc.
Qed.

Lemma stencil_cell_shift d dv du :
  vec_at 0 iu d + gSize * vec_at 0 iv d - support + dv * gSize + du
  = stencil_cell d du dv.
Proof. unfold stencil_cell. lia. Qed.

Lemma degrid_row_trace_eq d dv m :
  tables_ok -> cells_ok ->
  0 <= d < vec_size data -> 0 <= dv < stencil_size ->
  degrid_row stencil_size grid C d
    (vec_at 0 iu d + gSize * vec_at 0 iv d - support + dv * gSize)
    (vec_at 0 cOffset d + dv * stencil_size) m
  = run_trace (degrid_row_trace d dv) m.
Proof.
  intros Hok Hcells Hd Hdv. pose proof (stencil_size_pos Hok) as Hpos.
  unfold degrid_row.
  assert (forall j, 0 <= j < stencil_size ->
    0 <= vec_at 0 iu d + gSize * vec_at 0 iv d - support + dv * gSize + j
      < vec_size grid) as Hg.
  { intros j Hj. rewrite stencil_cell_shift. by apply Hcells. }
  pose proof (coeff_in_range d dv 0 Hok Hd Hdv ltac:(lia)) as HC0.
  rewrite Z.add_0_r in HC0.
  pose proof (Hg 0 ltac:(lia)) as Hg0. rewrite Z.add_0_r in Hg0.
  destruct (vec_get m d) as [x|] eqn:Hm; cbn.
  - rewrite (vec_get_at vzero grid), (vec_get_at vzero C) by done. cbn.
    rewrite cdotu_loop; [|lia|done|by intros; apply coeff_in_range].
    match goal with |- context [run_trace ?t m] =>
      replace t with (degrid_row_trace d dv) end.
    { by destruct run_trace. }
    unfold degrid_row_trace. apply list_fmap_ext.
    intros _ du _. rewrite stencil_cell_shift. unfold stencil_coeff.
    do 4 f_equal. lia.
  - unfold degrid_row_trace. rewrite seqZ_cons by done. cbn.
    by rewrite Hm.
Qed.

Lemma degrid_rows_trace d m :
  tables_ok -> cells_ok -> 0 <= d < vec_size data ->
  for_upto stencil_size (fun suppv '(gind, cind, data) =>
      data' ← degrid_row stencil_size grid C d gind cind data;
      Some (gind + gSize, cind + stencil_size, data'))
    (vec_at 0 iu d + gSize * vec_at 0 iv d - support, vec_at 0 cOffset d, m)
  ≫= (fun '(_, _, data') => Some data')
  = run_trace (concat (degrid_row_trace d <$> seqZ 0 stencil_size)) m.
Proof.
  intros Hok Hcells Hd. pose proof (stencil_size_pos Hok) as Hpos.
  set (gind := vec_at 0 iu d + gSize * vec_at 0 iv d - support).
  set (cind := vec_at 0 cOffset d).
  set (cur := fun j : Z => (gind + j * gSize, cind + j * stencil_size)).
  replace (gind, cind, m) with (cur 0, m)
    by (unfold cur; by rewrite !Z.add_0_r).
  rewrite (for_upto_cursor cur (fun j => run_trace (degrid_row_trace d j))); [|lia|].
  - rewrite (for_upto_run_trace (degrid_row_trace d)) by done.
    by destruct run_trace.
  - intros j m' Hj. unfold cur. cbn.
    rewrite degrid_row_trace_eq by done.
    destruct run_trace; cbn; [|done].
    do 3 f_equal; lia.
Qed.

Lemma degrid_sample_trace d m :
  tables_ok -> cells_ok -> 0 <= d < vec_size data ->
  degrid_sample grid gSize support C cOffset iu iv d m = run_trace (degrid_trace d) m.
Proof.
  intros Hok Hcells Hd. unfold degrid_sample, degrid_trace. cbn.
  destruct (vec_set m d vzero) as [m1|]; cbn; [|done].
  rewrite (vec_get_at 0 iu), (vec_get_at 0 iv), (vec_get_at 0 cOffset)
    by (destruct Hok; lia).
  cbn. fold stencil_size. by apply degrid_rows_trace.
Qed.

Lemma degridKernel_trace :
  tables_ok -> cells_ok ->
  degridKernel grid gSize support C cOffset iu iv data
  = run_trace (concat (degrid_trace <$> seqZ 0 (vec_size data))) data.
Proof.
  intros Hok Hcells. unfold degridKernel. apply for_upto_run_trace.
  intros d m Hd. by apply degrid_sample_trace.
Qed.

Lemma cdotu_emit_loop (dind gptr cptr : Z) (log : list (access V)) :
  0 <= stencil_size ->
  (forall j, 0 <= j < stencil_size -> 0 <= gptr + j < vec_size grid) ->
  (forall j, 0 <= j < stencil_size -> 0 <= cptr + j < vec_size C) ->
  for_upto stencil_size (fun _ => cdotu_emit grid C dind) (gptr, cptr, log)
  = Some (gptr + stencil_size, cptr + stencil_size,
          log ++ ((fun du => Acc dind (vmul (vec_at vzero grid (gptr + du))
                                             (vec_at vzero C (cptr + du))))
                    <$> seqZ 0 stencil_size)).
Proof.
  intros Hs Hg HC.
  set (cur := fun j : Z => (gptr + j, cptr + j)).
  replace (gptr, cptr, log) with (cur 0, log)
    by (unfold cur; by rewrite !Z.add_0_r).
  rewrite (for_upto_cursor cur
             (fun j log => Some (log ++ [Acc dind (vmul (vec_at vzero grid (gptr + j))
                                                       (vec_at vzero C (cptr + j)))]))).
  - rewrite (for_upto_emit
               (fun j => [Acc dind (vmul (vec_at vzero grid (gptr + j))
                                         (vec_at vzero C (cptr + j)))])) by done.
    by rewrite concat_singletons.
  - done.
  - intros j m' Hj. unfold cur. cbn.
    rewrite (vec_get_at vzero grid), (vec_get_at vzero C) by auto. cbn.
    by rewrite <-!Z.add_assoc.
Qed.

Lemma degrid_row_emit_trace d dv log :
  tables_ok -> cells_ok ->
  0 <= d < vec_size data -> 0 <= dv < stencil_size ->
  degrid_row_emit stencil_size grid C d
    (vec_at 0 iu d + gSize * vec_at 0 iv d - support + dv * gSize)
    (vec_at 0 cOffset d + dv * stencil_size) log
  = Some (log ++ degrid_row_trace d dv).
Proof.
  intros Hok Hcells Hd Hdv. pose proof (stencil_size_pos Hok) as Hpos.
  unfold degrid_row_emit.
  assert (forall j, 0 <= j < stencil_size ->
    0 <= vec_at 0 iu d + gSize * vec_at 0 iv d - support + dv * gSize + j
      < vec_size grid) as Hg.
  { intros j Hj. rewrite stencil_cell_shift. by apply Hcells. }
  pose proof (coeff_in_range d dv 0 Hok Hd Hdv ltac:(lia)) as HC0.
  rewrite Z.add_0_r in HC0.
  pose proof (Hg 0 ltac:(lia)) as Hg0. rewrite Z.add_0_r in Hg0.
  rewrite (vec_get_at vzero grid), (vec_get_at vzero C) by done. cbn.
  rewrite cdotu_emit_loop; [|lia|done|by intros; apply coeff_in_range].
  cbn. do 2 f_equal. unfold degrid_row_trace. apply list_fmap_ext.
  intros _ du _. rewrite stencil_cell_shift. unfold stencil_coeff.
  do 4 f_equal. lia.
Qed.

Lemma degrid_sample_emit_trace d :
  tables_ok -> cells_ok -> 0 <= d < vec_size data ->
  degrid_sample_emit grid gSize support C cOffset iu iv d = Some (degrid_trace d).
Proof.
  intros Hok Hcells Hd. pose proof (stencil_size_pos Hok) as Hpos.
  unfold degrid_sample_emit, degrid_trace.
  rewrite (vec_get_at 0 iu), (vec_get_at 0 iv), (vec_get_at 0 cOffset)
    by (destruct Hok; lia).
  cbn. fold stencil_size.
  set (gind := vec_at 0 iu d + gSize * vec_at 0 iv d - support).
  set (cind := vec_at 0 cOffset d).
  set (cur := fun j : Z => (gind + j * gSize, cind + j * stencil_size)).
  replace (gind, cind, [Store d vzero]) with (cur 0, [Store d (vzero : V)])
    by (unfold cur; by rewrite !Z.add_0_r).
  rewrite (for_upto_cursor cur (fun j log => Some (log ++ degrid_row_trace d j))); [|lia|].
  - by rewrite (for_upto_emit (degrid_row_trace d)) by done.
  - intros j log Hj. unfold cur. cbn.
    rewrite degrid_row_emit_trace by done. cbn.
    do 3 f_equal; lia.
Qed.
End Stencil.

(** ** Threads on disjoint cells

    When every cell is accessed by at most one thread (its owner), every
    interleaving of the loads and stores of the threads leaves in a cell what
    its owner alone computes there. *)

Section Ownership.
Context {V : Type} `{Arith V}.
Variables (traces : list (list (access V))) (own : Z -> nat) (m0 : list V).
Hypothesis owned :
  forall i tr a, traces !! i = Some tr -> a ∈ tr -> own (cell a) = i.

Definition thread_ok (m : list V) (tr dn : list (access V)) (th : thread V) : Prop :=
  tr = dn ++ th.2 /\
  forall x, th.1 = Some x ->
    exists k v rest, th.2 = Acc k v :: rest /\ vec_get m k = Some x.

(** [dones] are the accesses each thread has completed. *)
Record par_inv (dones : list (list (access V))) (m : list V) (ths : list (thread V))
  : Prop := {
  inv_dones : length dones = length traces;
  inv_threads : length ths = length traces;
  inv_thread : forall i tr dn th,
      traces !! i = Some tr -> dones !! i = Some dn -> ths !! i = Some th ->
      thread_ok m tr dn th;
  inv_size : vec_size m = vec_size m0;
  inv_cell : forall k,
      vec_get m k = apply_cell k (default [] (dones !! own k)) <$> vec_get m0 k
}.

Lemma par_inv_init :
  par_inv (replicate (length traces) []) m0 (spawn <$> traces).
Proof.
  split.
  - by rewrite length_replicate.
  - by rewrite length_fmap.
  - intros i tr dn th Htr Hdn Hth.
    apply lookup_replicate in Hdn as [-> _].
    rewrite list_lookup_fmap, Htr in Hth. injection Hth as <-.
    split; [done|]. intros x. done.
  - done.
  - intros k. destruct (replicate _ _ !! own k) as [dn|] eqn:E.
    + apply lookup_replicate in E as [-> _]. by destruct (vec_get m0 k).
    + by destruct (vec_get m0 k).
Qed.

Lemma apply_cell_snoc k tr a x :
  apply_cell k (tr ++ [a]) x
  = if decide (cell a = k) then update a (apply_cell k tr x) else apply_cell k tr x.
Proof. by rewrite apply_cell_app. Qed.

(** A thread completes the access [a] at the head of its list, leaving [y]
    in the cell. *)
Lemma par_inv_complete dones m ths i a rest r y m' :
  par_inv dones m ths ->
  ths !! i = Some (r, a :: rest) ->
  vec_set m (cell a) y = Some m' ->
  (forall x, vec_get m (cell a) = Some x -> y = update a x) ->
  exists dones', par_inv dones' m' (<[i := (None, rest)]> ths).
Proof.
  intros Hinv Hth Hset Hy.
  pose proof (lookup_lt_Some _ _ _ Hth) as Hi.
  rewrite (inv_threads _ _ _ Hinv) in Hi.
  destruct (lookup_lt_is_Some_2 traces i Hi) as [tr Htr].
  destruct (lookup_lt_is_Some_2 dones i) as [dn Hdn];
    [by rewrite (inv_dones _ _ _ Hinv)|].
  destruct (inv_thread _ _ _ Hinv i tr dn _ Htr Hdn Hth) as [Htri _].
  cbn in Htri.
  assert (own (cell a) = i) as Hown.
  { apply (owned i tr); [done|]. rewrite Htri. set_solver. }
  exists (<[i := dn ++ [a]]> dones). split.
  - rewrite length_insert. by apply (inv_dones _ _ _ Hinv).
  - rewrite length_insert. by apply (inv_threads _ _ _ Hinv).
  - intros j tr' dn' th' Htr' Hdn' Hth'.
    destruct (decide (i = j)) as [<-|Hij].
    + rewrite list_lookup_insert_eq in Hdn' by (by rewrite (inv_dones _ _ _ Hinv)).
      rewrite list_lookup_insert_eq in Hth' by (by rewrite (inv_threads _ _ _ Hinv)).
      injection Hdn' as <-. injection Hth' as <-.
      assert (tr' = tr) as -> by congruence.
      split; [cbn; by rewrite <-app_assoc|]. intros x. done.
    + rewrite list_lookup_insert_ne in Hdn' by done.
      rewrite list_lookup_insert_ne in Hth' by done.
      destruct (inv_thread _ _ _ Hinv j tr' dn' th' Htr' Hdn' Hth') as [Htrj Hreg].
      split; [done|]. intros x Hx.
      destruct (Hreg x Hx) as (k & v & rest' & Hth2 & Hk).
      exists k, v, rest'. split; [done|].
      rewrite (vec_get_set _ _ _ _ k Hset).
      rewrite decide_False; [done|]. intros Heq.
      assert (own (cell (Acc k v)) = j) as Hownk.
      { apply (owned j tr'); [done|]. rewrite Htrj, Hth2. set_solver. }
      cbn in Hownk. rewrite Heq in Hown. congruence.
  - rewrite (vec_set_size _ _ _ _ Hset). by apply (inv_size _ _ _ Hinv).
  - intros k. rewrite (vec_get_set _ _ _ _ k Hset).
    pose proof (inv_cell _ _ _ Hinv k) as Hk.
    destruct (decide (cell a = k)) as [<-|Hne].
    + rewrite Hown, Hdn in Hk. cbn in Hk.
      rewrite Hown, list_lookup_insert_eq by (by rewrite (inv_dones _ _ _ Hinv)).
      cbn.
      apply vec_set_Some in Hset as [Hr _].
      rewrite (inv_size _ _ _ Hinv) in Hr.
      rewrite (vec_get_at vzero m0) in Hk |- * by done. cbn in Hk |- *.
      rewrite apply_cell_snoc, decide_True by done.
      f_equal. by apply Hy.
    + rewrite Hk. destruct (decide (own k = i)) as [Hki|Hki].
      * rewrite Hki, Hdn, list_lookup_insert_eq by (by rewrite (inv_dones _ _ _ Hinv)).
        cbn. destruct (vec_get m0 k); cbn; [|done].
        by rewrite apply_cell_snoc, decide_False.
      * by rewrite list_lookup_insert_ne.
Qed.

Lemma par_inv_step dones m ths m' ths' :
  par_inv dones m ths -> par_step (m, ths) (m', ths') ->
  exists dones', par_inv dones' m' ths'.
Proof.
  intros Hinv Hstep.
  inversion Hstep as [? ? i k v rest x Hth Hget
                     |? ? i k v rest x ? Hth Hset
                     |? ? i k v rest ? Hth Hset]; subst.
  - exists dones. destruct Hinv as [Hd Ht Hthr Hs Hc]. split; try done.
    + by rewrite length_insert.
    + intros j tr dn th Htr Hdn Hthj.
      destruct (decide (i = j)) as [<-|Hij].
      * rewrite list_lookup_insert_eq in Hthj by (by eapply lookup_lt_Some).
        injection Hthj as <-.
        destruct (Hthr i tr dn _ Htr Hdn Hth) as [Htri _].
        split; [done|]. intros y [= <-]. eauto.
      * rewrite list_lookup_insert_ne in Hthj by done. eauto.
  - pose proof (lookup_lt_Some _ _ _ Hth) as Hi.
    rewrite (inv_threads _ _ _ Hinv) in Hi.
    destruct (lookup_lt_is_Some_2 traces i Hi) as [tr Htr].
    destruct (lookup_lt_is_Some_2 dones i) as [dn Hdn];
      [by rewrite (inv_dones _ _ _ Hinv)|].
    destruct (inv_thread _ _ _ Hinv i tr dn _ Htr Hdn Hth) as [_ Hreg].
    destruct (Hreg x eq_refl) as (k' & v' & rest' & [= <- <- <-] & Hk).
    eapply (par_inv_complete dones m ths i (Acc k v)); [done..|].
    intros y Hy. cbn in Hy. cbn. congruence.
  - eapply (par_inv_complete dones m ths i (Store k v)); [done..|].
    intros y Hy. done.
Qed.

Lemma par_inv_rtc c c' :
  rtc par_step c c' ->
  forall dones, par_inv dones c.1 c.2 -> exists dones', par_inv dones' c'.1 c'.2.
Proof.
  induction 1 as [c|c1 c2 c3 Hstep _ IH]; intros dones Hinv; [eauto|].
  destruct c1 as [m1 ths1], c2 as [m2 ths2].
  destruct (par_inv_step _ _ _ _ _ Hinv Hstep) as [dones2 Hinv2]. eauto.
Qed.

Theorem par_run_owned m' :
  par_run traces m0 m' ->
  vec_size m' = vec_size m0 /\
  forall k, vec_get m' k
            = apply_cell k (default [] (traces !! own k)) <$> vec_get m0 k.
Proof.
  intros Hrun.
  destruct (par_inv_rtc _ _ Hrun _ par_inv_init) as [dones Hinv]. cbn in Hinv.
  split; [by apply (inv_size _ _ _ Hinv)|].
  assert (dones = traces) as <-; [|by apply (inv_cell _ _ _ Hinv)].
  apply list_eq_same_length with (length traces);
    [done|by apply (inv_dones _ _ _ Hinv)|].
  intros i dn tr Hi Hdn Htr.
  destruct (inv_thread _ _ _ Hinv i tr dn finished Htr Hdn) as [-> _].
  - apply lookup_replicate. done.
  - cbn. by rewrite app_nil_r.
Qed.
End Ownership.

(** ** One schedule: the threads one after the other *)

Section Progress.
Context {V : Type} `{Arith V}.

Lemma insert_middle {A : Type} (l1 l2 : list A) (x y : A) :
  <[length l1 := y]> (l1 ++ x :: l2) = l1 ++ y :: l2.
Proof. rewrite <-(Nat.add_0_r (length l1)). by rewrite insert_app_r. Qed.

Lemma par_thread_runs (pre post : list (thread V)) tr m m' :
  run_trace tr m = Some m' ->
  rtc par_step (m, pre ++ spawn tr :: post) (m', pre ++ finished :: post).
Proof.
  unfold spawn, finished.
  revert m. induction tr as [|a tr IH]; intros m; cbn.
  - intros [= <-]. apply rtc_refl.
  - destruct (perform a m) as [m1|] eqn:Hp; cbn; [|done]. intros Hr.
    specialize (IH _ Hr).
    destruct a as [k v|k v]; cbn in Hp.
    + destruct (vec_get m k) as [x|] eqn:Hx; cbn in Hp; [|done].
      eapply rtc_l.
      { eapply (step_load _ _ (length pre)); [by apply list_lookup_middle|done]. }
      rewrite insert_middle.
      eapply rtc_l; [|exact IH].
      rewrite <-(insert_middle pre post (Some x, Acc k v :: tr) (None, tr)).
      eapply step_add; [by apply list_lookup_middle|done].
    + eapply rtc_l; [|exact IH].
      rewrite <-(insert_middle pre post (None, Store k v :: tr) (None, tr)).
      eapply step_store; [by apply list_lookup_middle|done].
Qed.

Lemma par_run_from (n : nat) traces m m' :
  run_trace (concat traces) m = Some m' ->
  rtc par_step (m, replicate n finished ++ (spawn <$> traces))
               (m', replicate n finished ++ replicate (length traces) finished).
Proof.
  revert n m. induction traces as [|tr traces IH]; intros n m; cbn.
  - intros [= <-]. apply rtc_refl.
  - rewrite run_trace_app.
    destruct (run_trace tr m) as [m1|] eqn:H1; cbn; [|done]. intros Hr.
    eapply rtc_trans; [by apply par_thread_runs|].
    specialize (IH (Datatypes.S n) m1 Hr).
    rewrite replicate_S_end, <-!app_assoc in IH. exact IH.
Qed.

Lemma par_run_sequential traces m m' :
  run_trace (concat traces) m = Some m' -> par_run traces m m'.
Proof. intros Hr. exact (par_run_from 0 traces m m' Hr). Qed.
End Progress.

(** ** A run to completion performs every access *)

Section Completion.
Context {V : Type} `{Arith V}.

Lemma par_steps_in_range (c c' : list V * list (thread V)) :
  rtc par_step c c' ->
  (forall th, th ∈ c'.2 -> th.2 = []) ->
  forall i th a, c.2 !! i = Some th -> a ∈ th.2 -> 0 <= cell a < vec_size c.1.
Proof.
  induction 1 as [c|c c1 c' Hstep Hrest IH]; intros Hend i th a Hth Ha.
  - rewrite (Hend th) in Ha by (by eapply list_elem_of_lookup_2).
    by apply elem_of_nil in Ha.
  - specialize (IH Hend).
    inversion Hstep as [m ths j k v rest x Hj Hget
                       |m ths j k v rest x m1 Hj Hset
                       |m ths j k v rest m1 Hj Hset]; subst; cbn [fst snd] in *.
    + destruct (decide (j = i)) as [->|Hne].
      * rewrite Hj in Hth. injection Hth as <-. cbn [snd] in Ha.
        apply (IH i (Some x, Acc k v :: rest) a); [|done].
        apply list_lookup_insert_eq. by eapply lookup_lt_Some.
      * apply (IH i th a); [|done]. by rewrite list_lookup_insert_ne.
    + pose proof (vec_set_size _ _ _ _ Hset) as Hsize.
      apply vec_set_Some in Hset as [Hk _].
      destruct (decide (j = i)) as [->|Hne].
      * rewrite Hj in Hth. injection Hth as <-. cbn [snd] in Ha.
        apply elem_of_cons in Ha as [->|Ha]; [done|].
        rewrite <-Hsize. apply (IH i (None, rest) a); [|done].
        apply list_lookup_insert_eq. by eapply lookup_lt_Some.
      * rewrite <-Hsize. apply (IH i th a); [|done]. by rewrite list_lookup_insert_ne.
    + pose proof (vec_set_size _ _ _ _ Hset) as Hsize.
      apply vec_set_Some in Hset as [Hk _].
      destruct (decide (j = i)) as [->|Hne].
      * rewrite Hj in Hth. injection Hth as <-. cbn [snd] in Ha.
        apply elem_of_cons in Ha as [->|Ha]; [done|].
        rewrite <-Hsize. apply (IH i (None, rest) a); [|done].
        apply list_lookup_insert_eq. by eapply lookup_lt_Some.
      * rewrite <-Hsize. apply (IH i th a); [|done]. by rewrite list_lookup_insert_ne.
Qed.

(** The threads of a region that runs to completion access cells of the
    vector only: an access outside of it is undefined, and the region has
    no run. *)
Lemma par_run_in_range traces (m m' : list V) :
  par_run traces m m' ->
  forall tr a, tr ∈ traces -> a ∈ tr -> 0 <= cell a < vec_size m.
Proof.
  intros Hrun tr a Htr Ha.
  apply list_elem_of_lookup in Htr as [i Hi].
  apply (par_steps_in_range _ _ Hrun) with (i := i) (th := spawn tr); cbn [fst snd].
  - intros th Hth%elem_of_replicate. by destruct Hth as [-> _].
  - by rewrite list_lookup_fmap, Hi.
  - done.
Qed.
End Completion.

(** ** Gridding and degridding, cell by cell *)

Section CellFacts.
Context {V : Type} `{Arith V}.
Implicit Types (k : Z) (x : V).

Lemma apply_cell_concat_fold {A : Type} k (trs : A -> list (access V))
    (cs : A -> list V) (l : list A) :
  (forall j x, j ∈ l -> apply_cell k (trs j) x = fold_left vadd (cs j) x) ->
  forall x, apply_cell k (concat (trs <$> l)) x = fold_left vadd (concat (cs <$> l)) x.
Proof.
  induction l as [|j l IH]; intros Hj x; cbn [fmap list_fmap concat]; [done|].
  rewrite apply_cell_app, fold_left_app, Hj by set_solver.
  apply IH. intros. apply Hj. set_solver.
Qed.

Lemma apply_cell_concat_ext {A : Type} k (trs trs' : A -> list (access V))
    (l : list A) :
  (forall j x, j ∈ l -> apply_cell k (trs j) x = apply_cell k (trs' j) x) ->
  forall x, apply_cell k (concat (trs <$> l)) x = apply_cell k (concat (trs' <$> l)) x.
Proof.
  induction l as [|j l IH]; intros Hj x; cbn [fmap list_fmap concat]; [done|].
  rewrite !apply_cell_app, Hj by set_solver.
  apply IH. intros. apply Hj. set_solver.
Qed.

Lemma apply_cell_accs {A : Type} k (c : A -> Z) (v : A -> V) (l : list A) x :
  apply_cell k ((fun j => Acc (c j) (v j)) <$> l) x
  = fold_left vadd (concat ((fun j => if decide (c j = k) then [v j] else []) <$> l)) x.
Proof.
  revert x. induction l as [|j l IH]; intros x; [done|].
  cbn [fmap list_fmap concat]. rewrite fold_left_app, <-IH.
  unfold apply_cell. cbn. by case_decide.
Qed.

Lemma concat_fmap_nil {A B : Type} (f : A -> list B) (l : list A) :
  (forall j, j ∈ l -> f j = []) -> concat (f <$> l) = [].
Proof.
  induction l as [|j l IH]; intros Hj; cbn; [done|].
  rewrite Hj, IH by set_solver. done.
Qed.
End CellFacts.

Section Gridding.
Context {V : Type} `{Arith V}.
Variables (data : list V) (support : Z) (C : list V) (cOffset iu iv : list Z).
Variable gSize : Z.

Abbreviation sSize := (stencil_size support).
Abbreviation cell_of := (stencil_cell support iu iv gSize).
Abbreviation coeff := (stencil_coeff support C cOffset).

(** The precondition of the kernels: every stencil lies in the grid, and
    its block of coefficients in the kernel table. *)
Record stencils_ok : Prop := {
  so_tables : tables_ok data support C cOffset iu iv;
  so_iu : forall d, 0 <= d < vec_size data ->
      support <= vec_at 0 iu d < gSize - support;
  so_iv : forall d, 0 <= d < vec_size data ->
      0 <= vec_at 0 iv d < gSize - 2 * support
}.

Lemma stencil_cell_row d du dv :
  stencils_ok -> 0 <= d < vec_size data ->
  0 <= dv < sSize -> 0 <= du < sSize ->
  cell_of d du dv / gSize = vec_at 0 iv d + dv /\
  0 <= cell_of d du dv < gSize * gSize.
Proof.
  intros Hok Hd Hdv Hdu. pose proof (so_iu Hok d Hd). pose proof (so_iv Hok d Hd).
  unfold stencil_cell, stencil_size in *.
  split.
  - symmetry. apply (Z.div_unique_pos _ _ _ (vec_at 0 iu d - support + du)); lia.
  - nia.
Qed.

Lemma stencils_cells_ok (grid : list V) :
  stencils_ok -> vec_size grid = gSize * gSize ->
  cells_ok data support iu iv gSize grid.
Proof.
  intros Hok Hg d dv du Hd Hdv Hdu. rewrite Hg.
  by apply stencil_cell_row.
Qed.

(** The values added to the cell [k], in the order of the loops. *)
Definition contributions (k : Z) : list V :=
  concat ((fun d =>
    concat ((fun dv =>
      concat ((fun du =>
        if decide (cell_of d du dv = k)
        then [vmul (vec_at vzero data d) (coeff d du dv)] else [])
        <$> seqZ 0 sSize))
      <$> seqZ 0 sSize))
    <$> seqZ 0 (vec_size data)).

Lemma apply_cell_grid_trace k x :
  apply_cell k (grid_trace data support C cOffset iu iv gSize) x
  = fold_left vadd (contributions k) x.
Proof.
  unfold grid_trace, contributions.
  apply apply_cell_concat_fold. intros d x' _. unfold sample_trace.
  apply apply_cell_concat_fold. intros dv x'' _. unfold row_trace.
  apply apply_cell_accs.
Qed.

Lemma grid_trace_in_range (grid : list V) :
  stencils_ok -> vec_size grid = gSize * gSize ->
  Forall (fun a => 0 <= cell a < vec_size grid)
         (grid_trace data support C cOffset iu iv gSize).
Proof.
  intros Hok Hg. unfold grid_trace, sample_trace, row_trace.
  rewrite Forall_forall. intros a Ha.
  apply elem_of_concat in Ha as (tr & Ha & Htr).
  apply list_elem_of_fmap in Htr as (d & -> & Hd%elem_of_seqZ).
  apply elem_of_concat in Ha as (tr & Ha & Htr).
  apply list_elem_of_fmap in Htr as (dv & -> & Hdv%elem_of_seqZ).
  apply list_elem_of_fmap in Ha as (du & -> & Hdu%elem_of_seqZ).
  cbn. rewrite Hg. apply stencil_cell_row; [done|lia..].
Qed.
End Gridding.

(** ** Schedules *)

Lemma NoDup_concat_unique {A : Type} (ls : list (list A)) (i j : nat) l1 l2 (x : A) :
  NoDup (concat ls) -> ls !! i = Some l1 -> ls !! j = Some l2 ->
  x ∈ l1 -> x ∈ l2 -> i = j.
Proof.
  revert i j. induction ls as [|l ls IH]; intros i j Hnd Hi Hj H1 H2; [done|].
  cbn in Hnd. apply NoDup_app in Hnd as (_ & Hdisj & Hnd).
  destruct i as [|i], j as [|j]; cbn in Hi, Hj.
  - done.
  - injection Hi as ->. exfalso. apply (Hdisj x H1).
    apply elem_of_concat. exists l2. split; [done|]. by eapply list_elem_of_lookup_2.
  - injection Hj as ->. exfalso. apply (Hdisj x H2).
    apply elem_of_concat. exists l1. split; [done|]. by eapply list_elem_of_lookup_2.
  - f_equal. by eapply IH.
Qed.

Lemma schedule_owner (sched : list (list Z)) :
  NoDup (concat sched) ->
  exists own : Z -> nat,
    forall i its k, sched !! i = Some its -> k ∈ its -> own k = i.
Proof.
  intros Hnd.
  exists (fun k => default 0%nat (fst <$> list_find (fun its => k ∈ its) sched)).
  intros i its k Hi Hk.
  destruct (list_find_elem_of (fun its => k ∈ its) sched its) as [[j its'] Hfind];
    [by eapply list_elem_of_lookup_2|done|].
  rewrite Hfind. cbn.
  apply list_find_Some in Hfind as (Hj & Hk' & _).
  by eapply (NoDup_concat_unique sched j i).
Qed.

Lemma mapM_fmap_Some {A B : Type} (f : A -> option B) (g : A -> B) (l : list A) :
  (forall x, x ∈ l -> f x = Some (g x)) -> mapM f l = Some (g <$> l).
Proof.
  intros Hf. apply mapM_Some. apply Forall2_fmap_r.
  apply Forall_Forall2_diag. rewrite Forall_forall. done.
Qed.

Section Degridding.
Context {V : Type} `{Arith V}.
Variables (support : Z) (C : list V) (cOffset iu iv : list Z) (gSize : Z).
Variable grid : list V.

Abbreviation dtrace := (degrid_trace support C cOffset iu iv gSize grid).

(** The products summed into the sample [d], in the order of the loops. *)
Definition degrid_terms (d : Z) : list V :=
  concat ((fun dv =>
    (fun du => vmul (vec_at vzero grid (stencil_cell support iu iv gSize d du dv))
                    (stencil_coeff support C cOffset d du dv))
      <$> seqZ 0 (stencil_size support))
    <$> seqZ 0 (stencil_size support)).

Definition degrid_value (d : Z) : V := fold_left vadd (degrid_terms d) vzero.

Lemma degrid_trace_cell d a : a ∈ dtrace d -> cell a = d.
Proof.
  unfold degrid_trace, degrid_row_trace.
  intros [->|Ha]%elem_of_cons; [done|].
  apply elem_of_concat in Ha as (tr & Ha & Htr).
  apply list_elem_of_fmap in Htr as (dv & -> & _).
  by apply list_elem_of_fmap in Ha as (du & -> & _).
Qed.

Lemma apply_cell_degrid_trace d x : apply_cell d (dtrace d) x = degrid_value d.
Proof.
  unfold degrid_trace, degrid_value, degrid_terms.
  change (apply_cell d (?a :: ?tr) x) with (apply_cell d tr (if decide (cell a = d) then update a x else x)).
  cbn. rewrite decide_True by done.
  apply apply_cell_concat_fold. intros dv x' _. unfold degrid_row_trace.
  rewrite apply_cell_accs. f_equal.
  induction (seqZ 0 (stencil_size support)) as [|du l IH]; [done|].
  cbn. rewrite decide_True by done. cbn. by rewrite IH.
Qed.

Lemma apply_cell_degrid_other d k x : d <> k -> apply_cell k (dtrace d) x = x.
Proof.
  intros Hne. apply apply_cell_miss. rewrite Forall_forall.
  intros a Ha%degrid_trace_cell. congruence.
Qed.

(** The samples of [l] degridded, in any order and any number of times. *)
Lemma apply_cell_degrid_traces (l : list Z) k x :
  apply_cell k (concat (dtrace <$> l)) x
  = if decide (k ∈ l) then degrid_value k else x.
Proof.
  revert x. induction l as [|d l IH]; intros x.
  - cbn. rewrite decide_False; [done|]. apply not_elem_of_nil.
  - cbn [fmap list_fmap concat]. rewrite apply_cell_app, IH.
    destruct (decide (d = k)) as [->|Hne].
    + rewrite apply_cell_degrid_trace.
      rewrite (decide_True (P := k ∈ k :: l)) by (apply elem_of_cons; by left).
      by case_decide.
    + rewrite apply_cell_degrid_other by done.
      destruct (decide (k ∈ l)).
      * rewrite decide_True; [done|apply elem_of_cons; by right].
      * rewrite decide_False; [done|]. apply not_elem_of_cons. split; [congruence|done].
Qed.

Lemma degrid_traces_run (l : list Z) (data : list V) :
  (forall d, d ∈ l -> 0 <= d < vec_size data) ->
  exists data',
    run_trace (concat (dtrace <$> l)) data = Some data' /\
    vec_size data' = vec_size data /\
    forall k, 0 <= k < vec_size data ->
      vec_get data' k
      = Some (if decide (k ∈ l) then degrid_value k else vec_at vzero data k).
Proof.
  intros Hl.
  destruct (run_trace_is_Some (concat (dtrace <$> l)) data) as [data' Hrun].
  { rewrite Forall_forall. intros a (tr & Ha & Htr)%elem_of_concat.
    apply list_elem_of_fmap in Htr as (d & -> & Hd).
    rewrite (degrid_trace_cell _ _ Ha). auto. }
  destruct (run_trace_spec _ _ _ Hrun) as [Hsize Hcell].
  exists data'. split_and!; [done..|].
  intros k Hk. rewrite Hcell, (vec_get_at vzero data) by done. cbn.
  by rewrite apply_cell_degrid_traces.
Qed.
End Degridding.

Lemma vec_get_fmap_seqZ {A : Type} (f : Z -> A) (n k : Z) :
  0 <= k < n -> vec_get (f <$> seqZ 0 n) k = Some (f k).
Proof.
  intros Hk. unfold vec_get. rewrite decide_True by lia.
  rewrite list_lookup_fmap, lookup_seqZ_lt by lia. cbn. f_equal. f_equal. lia.
Qed.

Lemma vec_size_fmap_seqZ {A : Type} (f : Z -> A) (n : Z) :
  0 <= n -> vec_size (f <$> seqZ 0 n) = n.
Proof. intros Hn. unfold vec_size. rewrite length_fmap, length_seqZ. lia. Qed.

Section DegriddingRuns.
Context {V : Type} `{Arith V}.
Variables (support : Z) (C : list V) (cOffset iu iv : list Z) (gSize : Z).
Variables (grid data : list V).
Hypothesis Hok : stencils_ok data support C cOffset iu iv gSize.
Hypothesis Hgrid : vec_size grid = gSize * gSize.

Abbreviation dvalue := (degrid_value support C cOffset iu iv gSize grid).
Abbreviation degridded := (dvalue <$> seqZ 0 (vec_size data)).

Lemma run_tables : tables_ok data support C cOffset iu iv.
Proof. exact (so_tables _ _ _ _ _ _ _ Hok). Qed.

Lemma run_cells : cells_ok data support iu iv gSize grid.
Proof. exact (stencils_cells_ok data support C cOffset iu iv gSize grid Hok Hgrid). Qed.

Lemma degridKernel_run :
  degridKernel grid gSize support C cOffset iu iv data = Some degridded.
Proof.
  rewrite degridKernel_trace; [|exact run_tables|exact run_cells].
  destruct (degrid_traces_run support C cOffset iu iv gSize grid
              (seqZ 0 (vec_size data)) data) as (data' & -> & Hsize & Hcell).
  { intros d Hd%elem_of_seqZ. lia. }
  f_equal. apply vec_ext.
  - rewrite vec_size_fmap_seqZ; [done|unfold vec_size; lia].
  - intros k Hk. rewrite Hsize in Hk.
    rewrite Hcell, vec_get_fmap_seqZ by done.
    rewrite decide_True; [done|]. apply elem_of_seqZ. lia.
Qed.

(** The traces of the threads of [degridKernelOMP] under [sched]. *)
Definition degrid_thread_traces (sched : list (list Z)) : list (list (access V)) :=
  (fun its => concat (degrid_trace support C cOffset iu iv gSize grid <$> its)) <$> sched.

Lemma degrid_thread_traces_emit sched :
  schedule_of (vec_size data) sched ->
  mapM (fun its =>
          trs ← mapM (degrid_sample_emit grid gSize support C cOffset iu iv) its;
          Some (concat trs)) sched
  = Some (degrid_thread_traces sched).
Proof.
  intros Hs. apply mapM_fmap_Some. intros its Hits.
  rewrite (mapM_fmap_Some _ (degrid_trace support C cOffset iu iv gSize grid)); [done|].
  intros d Hd. apply (degrid_sample_emit_trace data);
    [exact run_tables|exact run_cells|].
  assert (d ∈ concat sched) as Hin by (apply elem_of_concat; eauto).
  unfold schedule_of in Hs. rewrite Hs in Hin. apply elem_of_seqZ in Hin. lia.
Qed.

Lemma concat_degrid_thread_traces sched :
  concat (degrid_thread_traces sched)
  = concat (degrid_trace support C cOffset iu iv gSize grid <$> concat sched).
Proof.
  unfold degrid_thread_traces.
  induction sched as [|its sched IH]; cbn; [done|].
  by rewrite fmap_app, concat_app, IH.
Qed.

Lemma degridKernelOMP_runs max_threads sched :
  schedule_of (vec_size data) sched ->
  exists out,
    degridKernelOMP max_threads sched grid gSize support C cOffset iu iv data out.
Proof.
  intros Hs.
  destruct (degrid_traces_run support C cOffset iu iv gSize grid
              (concat sched) data) as (data' & Hrun & _).
  { intros d Hd. unfold schedule_of in Hs. rewrite Hs in Hd.
    apply elem_of_seqZ in Hd. lia. }
  exists (data', max_threads). split; [done|].
  exists (degrid_thread_traces sched). split_and!; [|cbn|done].
  - by apply degrid_thread_traces_emit.
  - apply par_run_sequential. by rewrite concat_degrid_thread_traces.
Qed.

Lemma degridKernelOMP_result max_threads sched out :
  degridKernelOMP max_threads sched grid gSize support C cOffset iu iv data out ->
  out = (degridded, max_threads).
Proof.
  intros (Hs & traces & Hemit & Hrun & Hret).
  rewrite degrid_thread_traces_emit in Hemit by done. injection Hemit as <-.
  destruct out as [data' r]. cbn in Hrun, Hret. subst r. f_equal.
  assert (NoDup (concat sched)) as Hnd.
  { unfold schedule_of in Hs. rewrite Hs. apply NoDup_seqZ. }
  destruct (schedule_owner sched Hnd) as [own Hown].
  destruct (par_run_owned (degrid_thread_traces sched) own data) with (m' := data')
    as [Hsize Hcell]; [|done|].
  { intros i tr a Htr Ha. unfold degrid_thread_traces in Htr.
    rewrite list_lookup_fmap in Htr.
    destruct (sched !! i) as [its|] eqn:Hi; [|done]. injection Htr as <-.
    apply elem_of_concat in Ha as (tr & Ha & Htr).
    apply list_elem_of_fmap in Htr as (d & -> & Hd).
    rewrite (degrid_trace_cell _ _ _ _ _ _ _ _ _ Ha). by eapply Hown. }
  apply vec_ext.
  - rewrite vec_size_fmap_seqZ; [done|unfold vec_size; lia].
  - intros k Hk. rewrite Hsize in Hk.
    rewrite Hcell, vec_get_fmap_seqZ, (vec_get_at vzero data) by done. cbn.
    assert (k ∈ concat sched) as Hin.
    { unfold schedule_of in Hs. rewrite Hs. apply elem_of_seqZ. lia. }
    apply elem_of_concat in Hin as (its & Hkin & Hits).
    apply list_elem_of_lookup in Hits as [i Hi].
    rewrite (Hown i its k Hi Hkin).
    unfold degrid_thread_traces. rewrite list_lookup_fmap, Hi.
    cbn [fmap option_fmap option_map default from_option Datatypes.id].
    rewrite apply_cell_degrid_traces, decide_True by done. done.
Qed.
End DegriddingRuns.

Section GriddingRuns.
Context {V : Type} `{Arith V}.
Variables (data : list V) (support : Z) (C : list V) (cOffset iu iv : list Z).
Variables (gSize nthreads : Z).
Hypothesis Hok : stencils_ok data support C cOffset iu iv gSize.
Hypothesis Hthreads : 0 < nthreads.

Abbreviation ttrace := (thread_trace data support C cOffset iu iv gSize).
Abbreviation rtrace := (row_trace data support C cOffset iu iv gSize).

(** The thread that owns the grid cell [k]: by the row of the cell. *)
Definition cell_owner (k : Z) : Z := (k / gSize) mod nthreads.

Definition omp_traces : list (list (access V)) :=
  (fun tid => ttrace tid nthreads) <$> seqZ 0 nthreads.

Lemma omp_traces_emit :
  mapM (fun tid => gridKernelOMP_thread tid nthreads data support C cOffset iu iv gSize)
       (seqZ 0 nthreads)
  = Some omp_traces.
Proof.
  apply mapM_fmap_Some. intros tid _.
  apply gridKernelOMP_thread_trace; [exact (so_tables _ _ _ _ _ _ _ Hok)|done|].
  intros d Hd. by apply (so_iv _ _ _ _ _ _ _ Hok).
Qed.

Lemma row_trace_elem d dv a :
  a ∈ rtrace d dv ->
  exists du, 0 <= du < stencil_size support /\
    a = Acc (stencil_cell support iu iv gSize d du dv)
            (vmul (vec_at vzero data d) (stencil_coeff support C cOffset d du dv)).
Proof.
  unfold row_trace. intros (du & -> & Hdu%elem_of_seqZ)%list_elem_of_fmap.
  exists du. split; [lia|done].
Qed.

Lemma row_trace_owner d dv a :
  0 <= d < vec_size data -> 0 <= dv < stencil_size support ->
  a ∈ rtrace d dv ->
  cell_owner (cell a) = row_owner iv nthreads d dv /\
  0 <= cell a < gSize * gSize.
Proof.
  intros Hd Hdv (du & Hdu & ->)%row_trace_elem. cbn.
  destruct (stencil_cell_row data support C cOffset iu iv gSize d du dv) as [Hrow Hin];
    [done..|].
  unfold cell_owner, row_owner. by rewrite Hrow.
Qed.

Lemma thread_trace_elem tid a :
  a ∈ ttrace tid nthreads <->
  exists d dv, 0 <= d < vec_size data /\ 0 <= dv < stencil_size support /\
    row_owner iv nthreads d dv = tid /\ a ∈ rtrace d dv.
Proof.
  unfold thread_trace. split.
  - intros (tr & Ha & Htr)%elem_of_concat.
    apply list_elem_of_fmap in Htr as (d & -> & Hd%elem_of_seqZ).
    apply elem_of_concat in Ha as (tr & Ha & Htr).
    apply list_elem_of_fmap in Htr as (dv & -> & Hdv%elem_of_seqZ).
    case_decide; [|by apply elem_of_nil in Ha].
    exists d, dv. split_and!; [lia..|done|done].
  - intros (d & dv & Hd & Hdv & Hrow & Ha).
    apply elem_of_concat. eexists. split; last first.
    { apply list_elem_of_fmap. exists d. split; [done|]. apply elem_of_seqZ. lia. }
    apply elem_of_concat. eexists. split; last first.
    { apply list_elem_of_fmap. exists dv. split; [done|]. apply elem_of_seqZ. lia. }
    by rewrite decide_True.
Qed.

Lemma thread_trace_owner tid a :
  a ∈ ttrace tid nthreads ->
  cell_owner (cell a) = tid /\ 0 <= cell a < gSize * gSize.
Proof.
  intros (d & dv & Hd & Hdv & <- & Ha)%thread_trace_elem.
  by apply row_trace_owner.
Qed.

Lemma omp_traces_lookup (i : nat) tr :
  omp_traces !! i = Some tr ->
  Z.of_nat i < nthreads /\ tr = ttrace (Z.of_nat i) nthreads.
Proof.
  unfold omp_traces. rewrite list_lookup_fmap.
  destruct (seqZ 0 nthreads !! i) as [tid|] eqn:E; [|done].
  apply lookup_seqZ in E as [-> ?]. cbn. intros [= <-]. done.
Qed.

Lemma omp_traces_owned (i : nat) tr a :
  omp_traces !! i = Some tr -> a ∈ tr -> Z.to_nat (cell_owner (cell a)) = i.
Proof.
  intros [_ ->]%omp_traces_lookup [-> _]%thread_trace_owner. lia.
Qed.

Lemma apply_cell_thread_trace k x :
  apply_cell k (ttrace (cell_owner k) nthreads) x
  = apply_cell k (grid_trace data support C cOffset iu iv gSize) x.
Proof.
  unfold thread_trace, grid_trace.
  apply apply_cell_concat_ext. intros d x' Hd%elem_of_seqZ. unfold sample_trace.
  apply apply_cell_concat_ext. intros dv x'' Hdv%elem_of_seqZ.
  case_decide as Hrow; [done|].
  rewrite !apply_cell_miss; [done| |by constructor].
  rewrite Forall_forall. intros a Ha Hcell.
  destruct (row_trace_owner d dv a) as [Hown _]; [lia..|done|].
  by rewrite Hcell in Hown.
Qed.

Lemma gridKernelOMP_result max_threads grid out :
  vec_size grid = gSize * gSize ->
  gridKernelOMP max_threads nthreads data support C cOffset iu iv grid gSize out ->
  gridKernel data support C cOffset iu iv grid gSize = Some out.1 /\
  out.2 = max_threads.
Proof.
  intros Hg (traces & Hemit & Hrun & Hret). split; [|done].
  rewrite omp_traces_emit in Hemit. injection Hemit as <-.
  destruct (par_run_owned omp_traces (fun k => Z.to_nat (cell_owner k)) grid
              omp_traces_owned _ Hrun) as [Hsize Hcell].
  rewrite gridKernel_trace by exact (so_tables _ _ _ _ _ _ _ Hok).
  destruct (run_trace_is_Some _ grid (grid_trace_in_range _ _ _ _ _ _ _ _ Hok Hg))
    as [grid' Hseq].
  rewrite Hseq. f_equal.
  destruct (run_trace_spec _ _ _ Hseq) as [Hsize' Hcell'].
  apply vec_ext; [congruence|].
  intros k Hk. rewrite Hcell, Hcell'. rewrite Hsize' in Hk.
  rewrite (vec_get_at vzero grid) by done.
  cbn [fmap option_fmap option_map]. f_equal.
  assert (0 <= cell_owner k < nthreads) as Hown
    by (unfold cell_owner; apply Z.mod_pos_bound; done).
  unfold omp_traces at 1.
  rewrite list_lookup_fmap, lookup_seqZ_lt by lia.
  cbn [fmap option_fmap option_map default from_option Datatypes.id].
  rewrite Z.add_0_l, Z2Nat.id by lia.
  by rewrite apply_cell_thread_trace.
Qed.

Lemma gridKernelOMP_runs max_threads grid :
  vec_size grid = gSize * gSize ->
  exists out,
    gridKernelOMP max_threads nthreads data support C cOffset iu iv grid gSize out.
Proof.
  intros Hg.
  destruct (run_trace_is_Some (concat omp_traces) grid) as [grid' Hrun].
  { rewrite Forall_forall. intros a (tr & Ha & Htr)%elem_of_concat.
    apply list_elem_of_lookup in Htr as [i Hi].
    apply omp_traces_lookup in Hi as [_ ->].
    rewrite Hg. by apply thread_trace_owner in Ha as [_ ?]. }
  exists (grid', max_threads), omp_traces. split_and!; [|cbn|done].
  - exact omp_traces_emit.
  - by apply par_run_sequential.
Qed.
End GriddingRuns.

(** ** The comparison of the two grids in [main]

    [fabs(cpugrid[i].real() - ompgrid[i].real()) > 0.00001] *)

Definition tolerance : spec_float := Coord.div (Coord.of_int 1) (Coord.of_int 100000).

Definition verify_differs (a b : Value) : bool :=
  Coord.ltb tolerance (Coord.abs (Coord.of_real (Real.sub (real a) (real b)))).

Lemma verify_differs_same (a : Value) : verify_differs a a = false.
Proof.
  unfold verify_differs. destruct (real a) as [s|s| |s m e].
  - by destruct s.
  - by destruct s.
  - done.
  - unfold Real.sub, SFsub. rewrite Z.sub_diag. done.
Qed.

(** ** A small run: one sample on a grid of 5 by 5 cells *)

Module Small.
Definition one : Value := Value_of_int 1.
Definition data : list Value := [one].
Definition support : Z := 1.
Definition C : list Value := replicate 9 one.
Definition cOffset : list Z := [0].
Definition iu : list Z := [2].
Definition iv : list Z := [1].
Definition gSize : Z := 5.
Definition grid : list Value := replicate 25 vzero.
(** A grid holding its own indices, to tell the cells apart. *)
Definition ramp : list Value := Value_of_int <$> seqZ 0 25.

Lemma stencils : stencils_ok data support C cOffset iu iv gSize.
Proof.
  split; [split|..]; try (vm_compute; congruence).
  all: intros d Hd; change (vec_size data) with 1 in Hd.
  all: assert (d = 0) as -> by lia.
  all: vm_compute; intuition congruence.
Defined.
End Small.

(** ** Stencils in a grid of a size that is an [int]

    Where the stencils lie in the grid, bounds on the sizes keep every value
    of type [int] of a kernel in the range of [int]: the indices of the grid
    are below [gSize * gSize], and [gind] after the last row of a stencil is
    below [gSize * gSize + gSize]; the indices of the table are at most
    [C.size()]. *)

Section StencilInts.
Context {V : Type} `{Arith V}.
Variables (data : list V) (support : Z) (C : list V) (cOffset iu iv : list Z).
Variable gSize : Z.

Lemma stencils_kernel_ints :
  stencils_ok data support C cOffset iu iv gSize ->
  vec_size data <= int_max -> vec_size C <= int_max ->
  2 * support + 1 <= int_max ->
  gSize * gSize + gSize <= int_max ->
  kernel_ints (vec_size data) support cOffset iu iv gSize.
Proof.
  intros [[Hs _ _ _ HC] Hiu Hiv] Hn HCs Hss Hg.
  unfold int_max in *.
  assert (- 46341 <= gSize <= 46341) as Hgr by nia.
  split; unfold in_int, int_min, int_max; [lia..|].
  intros d Hd. specialize (HC d Hd). specialize (Hiu d Hd). specialize (Hiv d Hd).
  unfold stencil_size in HC.
  set (a := vec_at 0 iu d) in *. set (b := vec_at 0 iv d) in *.
  set (c := vec_at 0 cOffset d) in *.
  assert (0 <= gSize * b <= gSize * gSize - gSize) as Hrow by nia.
  split; unfold in_int, int_min, int_max; [lia..| |lia|lia|].
  - nia.
  - intros k Hk.
    assert (0 <= gSize * k <= gSize * (2 * support + 1)) as Hgk by nia.
    assert (gSize * (b + (2 * support + 1)) <= gSize * gSize) as Hlast by nia.
    assert (0 <= (2 * support + 1) * k <= (2 * support + 1) * (2 * support + 1)) by nia.
    split; lia.
Qed.
End StencilInts.

Lemma small_ints :
  kernel_ints (vec_size Small.data) Small.support Small.cOffset Small.iu Small.iv
              Small.gSize.
Proof.
  apply (stencils_kernel_ints Small.data Small.support Small.C);
    [exact Small.stencils|vm_compute; congruence..].
Defined.

(** * The claims *)

Section GriddingClaims.
Context {V : Type} `{Arith V}.
Variables (data : list V) (support : Z) (C : list V) (cOffset iu iv : list Z).
Variable gSize : Z.

(** The stencil as the specification has it: rows and columns both centred
    on the anchor, and [iu], [iv] both in [support, gSize - support). *)
Definition centred_cell (d du dv : Z) : Z :=
  (vec_at 0 iu d - support + du) + gSize * (vec_at 0 iv d - support + dv).

Definition centred_contributions (k : Z) : list V :=
  concat ((fun d =>
    concat ((fun dv =>
      concat ((fun du =>
        if decide (centred_cell d du dv = k)
        then [vmul (vec_at vzero data d) (stencil_coeff support C cOffset d du dv)]
        else [])
        <$> seqZ 0 (stencil_size support)))
      <$> seqZ 0 (stencil_size support)))
    <$> seqZ 0 (vec_size data)).

Record centred_ok : Prop := {
  co_tables : tables_ok data support C cOffset iu iv;
  co_iu : forall d, 0 <= d < vec_size data ->
      support <= vec_at 0 iu d < gSize - support;
  co_iv : forall d, 0 <= d < vec_size data ->
      support <= vec_at 0 iv d < gSize - support
}.

(** C1, as amended.  When every stencil lies in the grid, its columns
    centred on [iu[d]] and its rows starting at [iv[d]], [gridKernel] returns,
    and the final grid is the initial grid with, for every sample [d] and
    stencil position [(du, dv)], the value
    [data[d] * C[cOffset[d] + (2*support+1)*dv + du]] added at the index
    [(iu[d] - support + du) + gSize * (iv[d] + dv)], in the order of the
    loops; no other cell changes.  The call is one in which no value of type
    [int] is outside of the range of [int]. *)
Theorem gridKernel_accumulates (grid : list V) :
  stencils_ok data support C cOffset iu iv gSize ->
  kernel_ints (vec_size data) support cOffset iu iv gSize ->
  vec_size grid = gSize * gSize ->
  exists grid',
    gridKernel data support C cOffset iu iv grid gSize = Some grid' /\
    vec_size grid' = vec_size grid /\
    (forall k, 0 <= k < vec_size grid ->
       vec_get grid' k
       = Some (fold_left vadd (contributions data support C cOffset iu iv gSize k)
                         (vec_at vzero grid k))) /\
    (forall k,
       (forall d dv du, 0 <= d < vec_size data ->
          0 <= dv <= 2 * support -> 0 <= du <= 2 * support ->
          stencil_cell support iu iv gSize d du dv <> k) ->
       vec_get grid' k = vec_get grid k).
Proof.
  intros Hok _ Hg.
  rewrite gridKernel_trace by apply Hok.
  destruct (run_trace_is_Some _ grid (grid_trace_in_range _ _ _ _ _ _ _ _ Hok Hg))
    as [grid' Hrun].
  destruct (run_trace_spec _ _ _ Hrun) as [Hsize Hcell].
  exists grid'. split_and!; [done..| |].
  - intros k Hk. rewrite Hcell, (vec_get_at vzero grid) by done. cbn.
    by rewrite apply_cell_grid_trace.
  - intros k Hmiss. rewrite Hcell.
    destruct (vec_get grid k) as [x|]; [cbn|done].
    rewrite apply_cell_grid_trace. unfold contributions.
    rewrite concat_fmap_nil; [done|]. intros d Hd%elem_of_seqZ.
    apply concat_fmap_nil. intros dv Hdv%elem_of_seqZ.
    apply concat_fmap_nil. intros du Hdu%elem_of_seqZ.
    rewrite decide_False; [done|].
    unfold stencil_size in *. apply Hmiss; lia.
Qed.
End GriddingClaims.

Lemma gridKernel_accumulates_witness :
  exists grid',
    gridKernel Small.data Small.support Small.C Small.cOffset Small.iu Small.iv
               Small.grid Small.gSize = Some grid' /\
    vec_get grid' 16 = Some Small.one /\
    vec_get grid' 1 = Some vzero.
Proof.
  destruct (gridKernel_accumulates Small.data Small.support Small.C Small.cOffset
              Small.iu Small.iv Small.gSize Small.grid Small.stencils small_ints
              eq_refl)
    as (grid' & Hrun & _ & Hcell & _).
  exists grid'. split; [exact Hrun|].
  split; [exact (Hcell 16 ltac:(vm_compute; intuition congruence))
         |exact (Hcell 1 ltac:(vm_compute; intuition congruence))].
Defined.

(** C1 as stated fails: with the rows centred on [iv[d]], the cell 16 (row 3)
    of the small run would stay as it is, and [gridKernel] adds to it. *)
Lemma gridKernel_rows_not_centred :
  centred_ok Small.data Small.support Small.C Small.cOffset Small.iu Small.iv Small.gSize /\
  vec_size Small.grid = Small.gSize * Small.gSize /\
  ~ exists grid',
      gridKernel Small.data Small.support Small.C Small.cOffset Small.iu Small.iv
                 Small.grid Small.gSize = Some grid' /\
      forall k, 0 <= k < vec_size Small.grid ->
        vec_get grid' k
        = Some (fold_left vadd
                  (centred_contributions Small.data Small.support Small.C Small.cOffset
                     Small.iu Small.iv Small.gSize k)
                  (vec_at vzero Small.grid k)).
Proof.
  split; [|split; [reflexivity|]].
  - split; [apply Small.stencils|..].
    all: intros d Hd; change (vec_size Small.data) with 1 in Hd.
    all: assert (d = 0) as -> by lia.
    all: vm_compute; intuition congruence.
  - intros (grid' & Hrun & Hcell).
    vm_compute in Hrun. injection Hrun as <-.
    specialize (Hcell 16 ltac:(vm_compute; intuition congruence)).
    vm_compute in Hcell. discriminate Hcell.
Qed.

Section DegriddingClaims.
Context {V : Type} `{Arith V}.
Variables (support : Z) (C : list V) (cOffset iu iv : list Z) (gSize : Z).
Variable grid : list V.

Definition centred_degrid_terms (d : Z) : list V :=
  concat ((fun dv =>
    (fun du => vmul (vec_at vzero grid (centred_cell support iu iv gSize d du dv))
                    (stencil_coeff support C cOffset d du dv))
      <$> seqZ 0 (stencil_size support))
    <$> seqZ 0 (stencil_size support)).

(** C2, as amended.  When every stencil lies in the grid, its columns
    centred on [iu[d]] and its rows starting at [iv[d]], [degridKernel]
    returns, and so does [degridKernelOMP] under every schedule; both leave in
    [data[d]], for every sample [d], the sum accumulated from 0 over the
    stencil positions [(du, dv)], in the order of the loops, of
    [grid[(iu[d] - support + du) + gSize * (iv[d] + dv)]
     * C[cOffset[d] + (2*support+1)*dv + du]].
    The result is the same for every vector [data0] of the size of [data]:
    nothing of what the vector held before is left.  The calls are calls in
    which no value of type [int] is outside of the range of [int]. *)
Theorem degridKernel_overwrites (data : list V) :
  stencils_ok data support C cOffset iu iv gSize ->
  kernel_ints (vec_size data) support cOffset iu iv gSize ->
  vec_size grid = gSize * gSize ->
  exists result,
    vec_size result = vec_size data /\
    (forall d, 0 <= d < vec_size data ->
       vec_get result d
       = Some (fold_left vadd (degrid_terms support C cOffset iu iv gSize grid d) vzero)) /\
    (forall data0, vec_size data0 = vec_size data ->
       degridKernel grid gSize support C cOffset iu iv data0 = Some result) /\
    (forall data0 max_threads sched,
       vec_size data0 = vec_size data -> schedule_of (vec_size data0) sched ->
       exists out,
         degridKernelOMP max_threads sched grid gSize support C cOffset iu iv data0 out) /\
    (forall data0 max_threads sched out,
       vec_size data0 = vec_size data ->
       degridKernelOMP max_threads sched grid gSize support C cOffset iu iv data0 out ->
       out = (result, max_threads)).
Proof.
  intros Hok _ Hg.
  assert (forall data0, vec_size data0 = vec_size data ->
            stencils_ok data0 support C cOffset iu iv gSize) as Hok0.
  { intros data0 Hs. destruct Hok as [[] ? ?].
    split; [split|..]; rewrite ?Hs; done. }
  exists (degrid_value support C cOffset iu iv gSize grid <$> seqZ 0 (vec_size data)).
  split_and!.
  - apply vec_size_fmap_seqZ. unfold vec_size. lia.
  - intros d Hd. by rewrite vec_get_fmap_seqZ.
  - intros data0 Hs. rewrite <-Hs. apply degridKernel_run; auto.
  - intros data0 mt sched Hs Hsched. apply degridKernelOMP_runs; auto.
  - intros data0 mt sched out Hs Hrun. rewrite <-Hs.
    eapply degridKernelOMP_result; eauto.
Qed.
End DegriddingClaims.

Lemma degridKernel_overwrites_witness :
  exists result,
    vec_get result 0 = Some (Value_of_int 108) /\
    degridKernel Small.ramp Small.gSize Small.support Small.C Small.cOffset
                 Small.iu Small.iv [Value_of_int 77] = Some result.
Proof.
  destruct (degridKernel_overwrites Small.support Small.C Small.cOffset Small.iu
              Small.iv Small.gSize Small.ramp Small.data Small.stencils small_ints
              eq_refl)
    as (result & _ & Hval & Hrun & _).
  exists result. split.
  - exact (Hval 0 ltac:(vm_compute; intuition congruence)).
  - exact (Hrun [Value_of_int 77] eq_refl).
Defined.

(** C2 as stated fails: on the grid that holds its own indices the rows
    centred on [iv[d]] sum to 63, and [degridKernel] returns 108, the sum over
    the rows from [iv[d]] on. *)
Lemma degridKernel_rows_not_centred :
  centred_ok Small.data Small.support Small.C Small.cOffset Small.iu Small.iv Small.gSize /\
  vec_size Small.ramp = Small.gSize * Small.gSize /\
  fold_left vadd
    (centred_degrid_terms Small.support Small.C Small.cOffset Small.iu Small.iv
       Small.gSize Small.ramp 0) vzero = Value_of_int 63 /\
  degridKernel Small.ramp Small.gSize Small.support Small.C Small.cOffset
               Small.iu Small.iv Small.data = Some [Value_of_int 108] /\
  ~ exists data',
      degridKernel Small.ramp Small.gSize Small.support Small.C Small.cOffset
                   Small.iu Small.iv Small.data = Some data' /\
      forall d, 0 <= d < vec_size Small.data ->
        vec_get data' d
        = Some (fold_left vadd
                  (centred_degrid_terms Small.support Small.C Small.cOffset Small.iu
                     Small.iv Small.gSize Small.ramp d) vzero).
Proof.
  split_and!; [|reflexivity|by vm_compute|by vm_compute|].
  - split; [apply Small.stencils|..].
    all: intros d Hd; change (vec_size Small.data) with 1 in Hd.
    all: assert (d = 0) as -> by lia.
    all: vm_compute; intuition congruence.
  - intros (data' & Hrun & Hval).
    vm_compute in Hrun. injection Hrun as <-.
    specialize (Hval 0 ltac:(vm_compute; intuition congruence)).
    vm_compute in Hval. discriminate Hval.
Qed.

Section ParallelGriddingClaims.
Context {V : Type} `{Arith V}.
Variables (data : list V) (support : Z) (C : list V) (cOffset iu iv : list Z).
Variables (gSize nthreads : Z).

(** C3, as amended.  In [gridKernelOMP] run by [nthreads >= 1] threads on
    stencils that lie in the grid, the thread [tid] accumulates exactly the
    stencil rows [suppv] of the samples [d] with
    [(iv[d] + suppv) mod nthreads = tid]; such a row lies on the grid row
    [iv[d] + suppv]; and no grid cell is accessed by two distinct threads.
    The call is one in which no value of type [int], the number of threads
    included, is outside of the range of [int]. *)
Theorem gridKernelOMP_row_ownership :
  stencils_ok data support C cOffset iu iv gSize ->
  kernel_ints (vec_size data) support cOffset iu iv gSize ->
  0 < nthreads <= int_max ->
  (forall tid, exists tr,
     gridKernelOMP_thread tid nthreads data support C cOffset iu iv gSize = Some tr /\
     forall a, a ∈ tr <->
       exists d suppv suppu,
         0 <= d < vec_size data /\ 0 <= suppv <= 2 * support /\
         0 <= suppu <= 2 * support /\
         (vec_at 0 iv d + suppv) mod nthreads = tid /\
         a = Acc (stencil_cell support iu iv gSize d suppu suppv)
                 (vmul (vec_at vzero data d)
                       (stencil_coeff support C cOffset d suppu suppv))) /\
  (forall d suppv suppu,
     0 <= d < vec_size data -> 0 <= suppv <= 2 * support ->
     0 <= suppu <= 2 * support ->
     stencil_cell support iu iv gSize d suppu suppv / gSize = vec_at 0 iv d + suppv) /\
  (forall tid1 tid2 tr1 tr2 a1 a2,
     gridKernelOMP_thread tid1 nthreads data support C cOffset iu iv gSize = Some tr1 ->
     gridKernelOMP_thread tid2 nthreads data support C cOffset iu iv gSize = Some tr2 ->
     a1 ∈ tr1 -> a2 ∈ tr2 -> cell a1 = cell a2 -> tid1 = tid2).
Proof.
  intros Hok _ [HT _].
  assert (forall tid,
    gridKernelOMP_thread tid nthreads data support C cOffset iu iv gSize
    = Some (thread_trace data support C cOffset iu iv gSize tid nthreads)) as Hthread.
  { intros tid. apply gridKernelOMP_thread_trace;
      [exact (so_tables _ _ _ _ _ _ _ Hok)|done|].
    intros d Hd. by apply (so_iv _ _ _ _ _ _ _ Hok). }
  split_and!.
  - intros tid. eexists. split; [apply Hthread|]. intros a.
    rewrite thread_trace_elem. unfold row_owner, stencil_size. split.
    + intros (d & dv & Hd & Hdv & Hrow & (du & Hdu & ->)%row_trace_elem).
      unfold stencil_size in Hdu. exists d, dv, du. split_and!; [lia..|done|done].
    + intros (d & dv & du & Hd & Hdv & Hdu & Hrow & ->).
      exists d, dv. split_and!; [lia..|done|].
      unfold row_trace. apply list_elem_of_fmap. exists du. split; [done|].
      apply elem_of_seqZ. unfold stencil_size. lia.
  - intros d dv du Hd Hdv Hdu.
    apply (stencil_cell_row data support C cOffset iu iv gSize d du dv);
      unfold stencil_size; [done|done|lia..].
  - intros tid1 tid2 tr1 tr2 a1 a2 H1 H2 Ha1 Ha2 Hcell.
    rewrite Hthread in H1, H2. injection H1 as <-. injection H2 as <-.
    apply (thread_trace_owner _ _ _ _ _ _ _ _ Hok) in Ha1 as [<- _].
    apply (thread_trace_owner _ _ _ _ _ _ _ _ Hok) in Ha2 as [<- _].
    by rewrite Hcell.
Qed.

(** C4, as amended.  For every input on which the stencils lie in the
    grid, their columns centred on [iu[d]] and their rows starting at
    [iv[d]], and every number [nthreads >= 1] of threads, [gridKernelOMP]
    returns under every interleaving of its threads, with the very grid of
    [gridKernel]: the cells are equal, so that no comparison of two
    corresponding cells that accepts equal values (as the one of [main],
    which accepts real parts within 1e-5) tells them apart.  The calls are
    calls in which no value of type [int], the number of threads included,
    is outside of the range of [int]. *)
Theorem gridKernelOMP_matches_gridKernel
    (differs : V -> V -> bool) (max_threads : Z) (grid : list V) :
  (forall x, differs x x = false) ->
  stencils_ok data support C cOffset iu iv gSize ->
  kernel_ints (vec_size data) support cOffset iu iv gSize ->
  vec_size grid = gSize * gSize ->
  0 < nthreads <= int_max ->
  (exists out,
     gridKernelOMP max_threads nthreads data support C cOffset iu iv grid gSize out) /\
  (forall out,
     gridKernelOMP max_threads nthreads data support C cOffset iu iv grid gSize out ->
     exists cpugrid,
       gridKernel data support C cOffset iu iv grid gSize = Some cpugrid /\
       out.1 = cpugrid /\
       forall i, 0 <= i < vec_size cpugrid ->
         exists a b, vec_get cpugrid i = Some a /\ vec_get out.1 i = Some b /\
                     differs a b = false).
Proof.
  intros Hrefl Hok _ Hg [HT _]. split; [by apply gridKernelOMP_runs|].
  intros out Hrun.
  destruct (gridKernelOMP_result _ _ _ _ _ _ _ _ Hok HT _ _ _ Hg Hrun) as [Hseq _].
  exists (out.1). split_and!; [done..|].
  intros i Hi. exists (vec_at vzero out.1 i), (vec_at vzero out.1 i).
  by rewrite (vec_get_at vzero).
Qed.
End ParallelGriddingClaims.

Lemma gridKernelOMP_row_ownership_witness :
  (exists tr,
     gridKernelOMP_thread 1 2 Small.data Small.support Small.C Small.cOffset
                          Small.iu Small.iv Small.gSize = Some tr /\
     Acc 6 (vmul Small.one Small.one) ∈ tr) /\
  stencil_cell Small.support Small.iu Small.iv Small.gSize 0 0 0 / Small.gSize = 1.
Proof.
  destruct (gridKernelOMP_row_ownership Small.data Small.support Small.C
              Small.cOffset Small.iu Small.iv Small.gSize 2
              Small.stencils small_ints ltac:(vm_compute; intuition congruence))
    as (Hthread & Hrow & _).
  split.
  - destruct (Hthread 1) as (tr & Hrun & Hin). exists tr. split; [exact Hrun|].
    apply Hin. exists 0, 0, 0. vm_compute. intuition congruence.
  - apply (Hrow 0 0 0); vm_compute; intuition congruence.
Defined.

(** C3 as stated fails: in the small run with two threads, thread 1
    accumulates at cell 6, on grid row 1, which the claim gives to the stencil
    row [suppv = 1] and so to thread 0. *)
Lemma gridKernelOMP_rows_not_centred :
  gridKernelOMP_thread 1 2 Small.data Small.support Small.C Small.cOffset
                       Small.iu Small.iv Small.gSize
  = Some ((fun k => Acc k Small.one) <$> [6; 7; 8; 16; 17; 18]) /\
  ~ forall tid tr a,
      gridKernelOMP_thread tid 2 Small.data Small.support Small.C Small.cOffset
                           Small.iu Small.iv Small.gSize = Some tr ->
      a ∈ tr ->
      exists d suppv,
        0 <= d < vec_size Small.data /\ 0 <= suppv <= 2 * Small.support /\
        cell a / Small.gSize = vec_at 0 Small.iv d + suppv - Small.support /\
        tid = (vec_at 0 Small.iv d + suppv) mod 2.
Proof.
  split; [by vm_compute|].
  intros Hclaim.
  destruct (Hclaim 1 _ (Acc 6 Small.one) eq_refl) as (d & suppv & Hd & Hv & Hrow & Htid).
  { vm_compute. set_solver. }
  change (vec_size Small.data) with 1 in Hd.
  assert (d = 0) as -> by lia.
  change (vec_at 0 Small.iv 0) with 1 in *.
  change (cell (Acc 6 Small.one) / Small.gSize) with 1 in Hrow.
  change Small.support with 1 in *.
  assert (suppv = 1) as -> by lia.
  vm_compute in Htid. discriminate Htid.
Qed.

Lemma gridKernelOMP_matches_gridKernel_witness :
  (exists out,
     gridKernelOMP 4 2 Small.data Small.support Small.C Small.cOffset
                   Small.iu Small.iv Small.grid Small.gSize out) /\
  (forall out,
     gridKernelOMP 4 2 Small.data Small.support Small.C Small.cOffset
                   Small.iu Small.iv Small.grid Small.gSize out ->
     exists cpugrid,
       gridKernel Small.data Small.support Small.C Small.cOffset
                  Small.iu Small.iv Small.grid Small.gSize = Some cpugrid /\
       out.1 = cpugrid /\
       forall i, 0 <= i < vec_size cpugrid ->
         exists a b, vec_get cpugrid i = Some a /\ vec_get out.1 i = Some b /\
                     verify_differs a b = false).
Proof.
  exact (gridKernelOMP_matches_gridKernel Small.data Small.support Small.C
           Small.cOffset Small.iu Small.iv Small.gSize 2 verify_differs 4
           Small.grid verify_differs_same Small.stencils small_ints eq_refl
           ltac:(vm_compute; intuition congruence)).
Defined.

(** A sample whose rows leave the grid: as [Small], with [iv[0] = 3].  Both
    [iu[0]] and [iv[0]] are in [[support, gSize - support)], and the rows 3,
    4 and 5 of the stencil end below the last row, 4, of the grid. *)
Module Low.
Definition iv : list Z := [3].
End Low.

(** C4 as stated fails: on the sample of [Low], which meets the bounds that
    the specification gives, and where no [int] overflows, the stencil
    leaves the grid; [gridKernel] does not return, and [gridKernelOMP] has no
    run with two threads, so that there are no two grids to compare. *)
Lemma gridKernelOMP_rows_leave_grid :
  centred_ok Small.data Small.support Small.C Small.cOffset Small.iu Low.iv Small.gSize /\
  kernel_ints (vec_size Small.data) Small.support Small.cOffset Small.iu Low.iv
              Small.gSize /\
  vec_size Small.grid = Small.gSize * Small.gSize /\
  gridKernel Small.data Small.support Small.C Small.cOffset Small.iu Low.iv
             Small.grid Small.gSize = None /\
  forall out,
    ~ gridKernelOMP 4 2 Small.data Small.support Small.C Small.cOffset Small.iu Low.iv
                    Small.grid Small.gSize out.
Proof.
  split_and!.
  - split; [split|..]; try (vm_compute; congruence).
    all: intros d Hd; change (vec_size Small.data) with 1 in Hd.
    all: assert (d = 0) as -> by lia.
    all: vm_compute; intuition congruence.
  - split; [vm_compute; intuition congruence..|].
    intros d Hd. change (vec_size Small.data) with 1 in Hd.
    assert (d = 0) as -> by lia.
    split; [vm_compute; intuition congruence..|].
    intros k Hk. change (2 * Small.support + 1) with 3 in *.
    change (vec_at 0 Small.iu 0) with 2. change (vec_at 0 Low.iv 0) with 3.
    change (vec_at 0 Small.cOffset 0) with 0.
    change Small.gSize with 5. change Small.support with 1.
    unfold in_int, int_min, int_max. lia.
  - reflexivity.
  - by vm_compute.
  - intros out (traces & Hemit & Hrun & _).
    assert (traces !! 1%nat
            = Some ((fun k => Acc k Small.one) <$> [16; 17; 18; 26; 27; 28])) as Htr.
    { vm_compute in Hemit. injection Hemit as <-. reflexivity. }
    destruct (par_run_in_range _ _ _ Hrun _ (Acc 26 Small.one)
                (list_elem_of_lookup_2 _ _ _ Htr)) as [_ Hlt].
    { apply (list_elem_of_lookup_2 _ 3%nat). reflexivity. }
    vm_compute in Hlt. discriminate Hlt.
Qed.

(** ** The convolution function: allocation and support *)

Lemma vec_resize_values_size (v v' : list Value) (n : Z) :
  vec_resize_values v n = Some v' -> vec_size v' = n.
Proof.
  unfold vec_resize_values, vec_size. case_decide; [|done]. intros [= <-].
  rewrite length_app, length_take, length_replicate. lia.
Qed.

Section InitCFacts.
Variables (cos exp : spec_float -> spec_float).
Variable pow : spec_float -> spec_float -> spec_float.
Variable cabs : Value -> spec_float.

Lemma table_index_in_range (sSize wSize i j osi osj k : Z) :
  0 <= i < sSize -> 0 <= j < sSize -> 0 <= osi < 8 -> 0 <= osj < 8 -> 0 <= k < wSize ->
  0 <= i + sSize * (j + sSize * (osi + 8 * (osj + 8 * k)))
    < sSize * sSize * 8 * 8 * wSize.
Proof.
  intros Hi Hj Hosi Hosj Hk.
  assert (0 <= osi + 8 * (osj + 8 * k) <= 64 * wSize - 1) as Hb by lia.
  set (b := osi + 8 * (osj + 8 * k)) in *.
  assert (0 <= j + sSize * b <= sSize * (64 * wSize) - 1) as Hc by nia.
  set (c := j + sSize * b) in *.
  nia.
Qed.

(** [initC] returns whenever [freq] is not empty, the expression of
    [support] converts to an [int] and [wSize] is not negative; the table
    has then [(2*support+1)^2 * overSample^2 * wSize] entries. *)
Lemma initC_returns freq cellSize baseline wSize C freq0 support :
  vec_get freq 0 = Some freq0 ->
  double_to_int (support_expr freq0 cellSize baseline) = Some support ->
  0 <= wSize ->
  exists C',
    initC cos exp pow cabs freq cellSize baseline wSize C
    = Some (support, 8, wCellSize_expr freq0 baseline wSize, C') /\
    vec_size C' = (2 * support + 1) * (2 * support + 1) * 8 * 8 * wSize.
Proof.
  intros Hf Hsup Hw. unfold initC, initC_fill, initC_sum, initC_normalise.
  rewrite Hf. cbn [mbind option_bind].
  rewrite Hsup. cbn [mbind option_bind].
  set (sSize := 2 * support + 1).
  set (N := sSize * sSize * 8 * 8 * wSize).
  assert (0 <= N) as HN by (unfold N; nia).
  destruct (vec_resize_values C N) as [C0|] eqn:HC0;
    [|unfold vec_resize_values in HC0; by rewrite decide_True in HC0].
  apply vec_resize_values_size in HC0. cbn [mbind option_bind].
  set (keeps := fun C1 : list Value => vec_size C1 = N).
  match goal with |- context [for_upto wSize ?b C0] =>
    destruct (for_upto_keeps keeps b wSize C0 HC0) as (C1 & -> & HC1) end.
  { intros k C1 Hk HC1. cbv beta.
    apply for_upto_keeps; [done|]. intros osj C2 Hosj HC2.
    apply for_upto_keeps; [done|]. intros osi C3 Hosi HC3.
    apply for_upto_keeps; [done|]. intros j C4 Hj HC4.
    apply for_upto_keeps; [done|]. intros i C5 Hi HC5.
    pose proof (table_index_in_range sSize wSize i j osi osj k Hi Hj Hosi Hosj Hk) as Hr.
    fold N in Hr. rewrite <-HC5 in Hr.
    destruct (negb _).
    - unfold vec_set. rewrite decide_True by done. eexists. split; [done|].
      unfold keeps, vec_size. by rewrite length_insert.
    - unfold vec_set. rewrite decide_True by done. eexists. split; [done|].
      unfold keeps, vec_size. by rewrite length_insert. }
  cbn [mbind option_bind].
  match goal with |- context [for_upto N ?b (S754_zero false)] =>
    destruct (for_upto_keeps (fun _ => True) b N (S754_zero false) I) as (sumC & -> & _) end.
  { intros i sum Hi _. rewrite <-HC1 in Hi.
    rewrite (vec_get_at vzero) by done. cbn. eauto. }
  cbn [mbind option_bind].
  match goal with |- context [for_upto N ?b C1] =>
    destruct (for_upto_keeps keeps b N C1 HC1) as (C2 & -> & HC2) end.
  { intros i C2 Hi HC2. rewrite <-HC2 in Hi.
    rewrite (vec_get_at vzero) by done. cbn [mbind option_bind].
    unfold vec_set. rewrite decide_True by done. eexists. split; [done|].
    unfold keeps, vec_size. by rewrite length_insert. }
  cbn [mbind option_bind]. by exists C2.
Qed.
End InitCFacts.

(** ** The offsets, entry by entry *)

Definition nan_default : spec_float := S754_nan.

Section OffsetEntries.
Variables (u v w freq : list spec_float) (cellSize wCellSize : spec_float).
Variables (wSize gSize support overSample : Z).

(** [freq[chan] * x / cell] *)
Definition scaled (f x cell : spec_float) : spec_float := Coord.div (Coord.mul f x) cell.

(** The integer part of a scaled coordinate as [initCOffset] computes it: the
    conversion to [int], and one less if the scaled coordinate is below the
    converted value. *)
Definition int_part (xs : spec_float) : option Z :=
  t ← double_to_int xs;
  Some (if Coord.ltb xs (Coord.of_int t) then t - 1 else t).

(** [int(overSample * (xs - Coord(ip)))] *)
Definition frac_bin (xs : spec_float) (ip : Z) : option Z :=
  double_to_int (Coord.mul (Coord.of_int overSample) (Coord.sub xs (Coord.of_int ip))).

(** [wSize / 2 + int(ws)] *)
Definition w_plane (ws : spec_float) : option Z :=
  wt ← double_to_int ws; Some (wSize ÷ 2 + wt).

(** The triple [(cOffset[dind], iu[dind], iv[dind])] of sample [i] and
    channel [chan]. *)
Definition offset_entry (i chan : Z) : option (Z * Z * Z) :=
  let f := vec_at nan_default freq chan in
  let uScaled := scaled f (vec_at nan_default u i) cellSize in
  let vScaled := scaled f (vec_at nan_default v i) cellSize in
  let wScaled := scaled f (vec_at nan_default w i) wCellSize in
  let sSize := 2 * support + 1 in
  iu1 ← int_part uScaled;
  fracu ← frac_bin uScaled iu1;
  iv1 ← int_part vScaled;
  fracv ← frac_bin vScaled iv1;
  woff ← w_plane wScaled;
  Some (sSize * sSize * (fracu + overSample * (fracv + overSample * woff)),
        iu1 + gSize ÷ 2, iv1 + gSize ÷ 2).

(** The same triple, with every value of type [int] that [initCOffset] forms
    for it checked against the range of [int]: the decrements
    [iu[dind] -= 1] and [iv[dind] -= 1], the sums [iu[dind] += gSize / 2],
    [iv[dind] += gSize / 2] and [wSize / 2 + int(wScaled)], and the products
    and sums of
    [sSize * sSize * (fracu + overSample * (fracv + overSample * woff))],
    one by one. *)
Definition offset_entry_int (i chan : Z) : option (Z * Z * Z) :=
  let f := vec_at nan_default freq chan in
  let uScaled := scaled f (vec_at nan_default u i) cellSize in
  let vScaled := scaled f (vec_at nan_default v i) cellSize in
  let wScaled := scaled f (vec_at nan_default w i) wCellSize in
  let sSize := 2 * support + 1 in
  iu0 ← double_to_int uScaled;
  iu1 ← int_of (if Coord.ltb uScaled (Coord.of_int iu0) then iu0 - 1 else iu0);
  fracu ← frac_bin uScaled iu1;
  iu2 ← int_of (iu1 + gSize ÷ 2);
  iv0 ← double_to_int vScaled;
  iv1 ← int_of (if Coord.ltb vScaled (Coord.of_int iv0) then iv0 - 1 else iv0);
  fracv ← frac_bin vScaled iv1;
  iv2 ← int_of (iv1 + gSize ÷ 2);
  wt ← double_to_int wScaled;
  woff ← int_of (wSize ÷ 2 + wt);
  planes ← int_of (overSample * woff);
  row ← int_of (fracv + planes);
  rows ← int_of (overSample * row);
  bin ← int_of (fracu + rows);
  square ← int_of (sSize * sSize);
  cOffset_d ← int_of (square * bin);
  Some (cOffset_d, iu2, iv2).

(** No value of type [int] of a call of [initCOffset] is outside of the
    range of [int]: the sizes [u.size()] and [freq.size()] converted to
    [int], the arguments [wSize], [gSize], [support] and [overSample],
    [2 * support] and [sSize = 2 * support + 1], the product
    [nSamples * nChan], which bounds the indices [i * nChan + chan], and the
    values formed for every sample and channel; every conversion of a
    [double] to [int] is defined. *)
Record offsets_ints : Prop := {
  oi_nSamples : vec_size u <= int_max;
  oi_nChan : vec_size freq <= int_max;
  oi_wSize : in_int wSize;
  oi_gSize : in_int gSize;
  oi_support : in_int support;
  oi_overSample : in_int overSample;
  oi_twice : in_int (2 * support);
  oi_sSize : in_int (2 * support + 1);
  oi_total : vec_size u * vec_size freq <= int_max;
  oi_entries : forall i chan, 0 <= i < vec_size u -> 0 <= chan < vec_size freq ->
      is_Some (offset_entry_int i chan)
}.

Lemma int_of_Some (z t : Z) : int_of z = Some t -> t = z /\ in_int z.
Proof. unfold int_of. case_decide; [|done]. by intros [= <-]. Qed.

(** Where no [int] overflows, the entry is the one of [offset_entry]. *)
Lemma offset_entry_int_Some (i chan : Z) (e : Z * Z * Z) :
  offset_entry_int i chan = Some e -> offset_entry i chan = Some e.
Proof.
  unfold offset_entry_int, offset_entry, int_part, w_plane. cbv zeta.
  repeat
    match goal with
    | |- (?x ≫= _) = Some _ -> _ =>
        let t := fresh "t" in
        let Ht := fresh "Ht" in
        destruct x as [t|] eqn:Ht; cbn [mbind option_bind]; [|done];
        try (apply int_of_Some in Ht as [-> _])
    end.
  done.
Qed.

Lemma offsets_ints_defined :
  offsets_ints ->
  forall i chan, 0 <= i < vec_size u -> 0 <= chan < vec_size freq ->
    is_Some (offset_entry i chan).
Proof.
  intros Hints i chan Hi Hchan.
  destruct (oi_entries Hints i chan Hi Hchan) as [e He].
  exists e. by apply offset_entry_int_Some.
Qed.

Abbreviation nSamples := (vec_size u).
Abbreviation nChan := (vec_size freq).

Definition entry_at (dind : Z) : Z * Z * Z :=
  default (0, 0, 0) (offset_entry (dind / nChan) (dind mod nChan)).

(** The entries below [p] are final. *)
Definition filled (p : Z) (st : list Z * list Z * list Z) : Prop :=
  let '(cOffset, iu, iv) := st in
  vec_size cOffset = nSamples * nChan /\
  vec_size iu = nSamples * nChan /\
  vec_size iv = nSamples * nChan /\
  forall d, 0 <= d < p ->
    vec_get cOffset d = Some (entry_at d).1.1 /\
    vec_get iu d = Some (entry_at d).1.2 /\
    vec_get iv d = Some (entry_at d).2.

Lemma vec_resize_size (x x' : list Z) (n : Z) :
  vec_resize x n = Some x' -> vec_size x' = n.
Proof.
  unfold vec_resize, vec_size. case_decide; [|done]. intros [= <-].
  rewrite length_app, length_take, length_replicate. lia.
Qed.

Lemma vec_set_get (x : list Z) (i a : Z) :
  0 <= i < vec_size x ->
  exists x', vec_set x i a = Some x' /\ vec_size x' = vec_size x /\
             vec_get x' i = Some a /\
             forall k, k <> i -> vec_get x' k = vec_get x k.
Proof.
  intros Hi. unfold vec_set. rewrite decide_True by done. eexists. split; [done|].
  assert (vec_set x i a = Some (<[Z.to_nat i:=a]> x)) as Hset
    by (unfold vec_set; by rewrite decide_True).
  split_and!.
  - by eapply vec_set_size.
  - rewrite (vec_get_set _ _ _ _ i Hset). by rewrite decide_True.
  - intros k Hk. rewrite (vec_get_set _ _ _ _ k Hset). by rewrite decide_False.
Qed.

Hypothesis Hv : nSamples <= vec_size v.
Hypothesis Hw : nSamples <= vec_size w.

Lemma offset_step (i chan : Z) (st : list Z * list Z * list Z) (e : Z * Z * Z) :
  0 <= i < nSamples -> 0 <= chan < nChan ->
  offset_entry i chan = Some e ->
  filled (i * nChan + chan) st ->
  exists st',
    (let '(cOffset, iu, iv) := st in
     let dind := i * nChan + chan in
     freq_chan ← vec_get freq chan;
     u_i ← vec_get u i;
     let uScaled := Coord.div (Coord.mul freq_chan u_i) cellSize in
     iu_d ← double_to_int uScaled;
     iu ← vec_set iu dind iu_d;
     iu_d ← vec_get iu dind;
     iu ← (if Coord.ltb uScaled (Coord.of_int iu_d)
           then vec_set iu dind (iu_d - 1) else Some iu);
     iu_d ← vec_get iu dind;
     fracu ← double_to_int
               (Coord.mul (Coord.of_int overSample) (Coord.sub uScaled (Coord.of_int iu_d)));
     iu ← vec_set iu dind (iu_d + gSize ÷ 2);
     v_i ← vec_get v i;
     let vScaled := Coord.div (Coord.mul freq_chan v_i) cellSize in
     iv_d ← double_to_int vScaled;
     iv ← vec_set iv dind iv_d;
     iv_d ← vec_get iv dind;
     iv ← (if Coord.ltb vScaled (Coord.of_int iv_d)
           then vec_set iv dind (iv_d - 1) else Some iv);
     iv_d ← vec_get iv dind;
     fracv ← double_to_int
               (Coord.mul (Coord.of_int overSample) (Coord.sub vScaled (Coord.of_int iv_d)));
     iv ← vec_set iv dind (iv_d + gSize ÷ 2);
     w_i ← vec_get w i;
     let wScaled := Coord.div (Coord.mul freq_chan w_i) wCellSize in
     wt ← double_to_int wScaled;
     let woff := wSize ÷ 2 + wt in
     cOffset ← vec_set cOffset dind
                 ((2 * support + 1) * (2 * support + 1)
                  * (fracu + overSample * (fracv + overSample * woff)));
     Some (cOffset, iu, iv)) = Some st' /\
    filled (i * nChan + chan + 1) st'.
Proof.
  intros Hi Hchan He Hfilled.
  destruct st as [[cOffset iu] iv]. destruct Hfilled as (HsC & Hsu & Hsv & Hd).
  set (dind := i * nChan + chan) in *.
  assert (0 <= dind < nSamples * nChan) as Hdind by (unfold dind; nia).
  assert (dind / nChan = i /\ dind mod nChan = chan) as [Hdiv Hmod].
  { split; [symmetry; apply (Z.div_unique_pos dind nChan i chan)
           |symmetry; apply (Z.mod_unique_pos dind nChan i chan)]; unfold dind; lia. }
  assert (entry_at dind = e) as Hentry
    by (unfold entry_at; by rewrite Hdiv, Hmod, He).
  unfold offset_entry, scaled, int_part, frac_bin, w_plane in He.
  cbv beta zeta.
  rewrite (vec_get_at nan_default freq), (vec_get_at nan_default u),
    (vec_get_at nan_default v), (vec_get_at nan_default w) by lia.
  cbn [mbind option_bind].
  set (uS := Coord.div (Coord.mul (vec_at nan_default freq chan) (vec_at nan_default u i))
               cellSize) in *.
  set (vS := Coord.div (Coord.mul (vec_at nan_default freq chan) (vec_at nan_default v i))
               cellSize) in *.
  set (wS := Coord.div (Coord.mul (vec_at nan_default freq chan) (vec_at nan_default w i))
               wCellSize) in *.
  destruct (double_to_int uS) as [tu|]; [|done]. cbn [mbind option_bind] in He |- *.
  destruct (vec_set_get iu dind tu) as (iu1 & -> & Hs1 & Hg1 & Ho1); [lia|].
  cbn [mbind option_bind]. rewrite Hg1. cbn [mbind option_bind].
  set (ipu := if Coord.ltb uS (Coord.of_int tu) then tu - 1 else tu) in *.
  assert (exists iu2,
    (if Coord.ltb uS (Coord.of_int tu) then vec_set iu1 dind (tu - 1) else Some iu1)
    = Some iu2 /\ vec_size iu2 = vec_size iu /\ vec_get iu2 dind = Some ipu /\
    forall k, k <> dind -> vec_get iu2 k = vec_get iu k)
    as (iu2 & -> & Hs2 & Hg2 & Ho2).
  { unfold ipu. destruct (Coord.ltb uS (Coord.of_int tu)).
    - destruct (vec_set_get iu1 dind (tu - 1)) as (iu2 & -> & ? & ? & Ho); [lia|].
      exists iu2. split_and!; [done|congruence|done|].
      intros k Hk. by rewrite Ho, Ho1.
    - exists iu1. done. }
  cbn [mbind option_bind]. rewrite Hg2. cbn [mbind option_bind].
  destruct (double_to_int (Coord.mul (Coord.of_int overSample)
              (Coord.sub uS (Coord.of_int ipu)))) as [fracu|]; [|done].
  cbn [mbind option_bind] in He |- *.
  destruct (vec_set_get iu2 dind (ipu + gSize ÷ 2)) as (iu3 & -> & Hs3 & Hg3 & Ho3); [lia|].
  cbn [mbind option_bind].
  destruct (double_to_int vS) as [tv|]; [|done]. cbn [mbind option_bind] in He |- *.
  destruct (vec_set_get iv dind tv) as (iv1 & -> & Ht1 & Hh1 & Hp1); [lia|].
  cbn [mbind option_bind]. rewrite Hh1. cbn [mbind option_bind].
  set (ipv := if Coord.ltb vS (Coord.of_int tv) then tv - 1 else tv) in *.
  assert (exists iv2,
    (if Coord.ltb vS (Coord.of_int tv) then vec_set iv1 dind (tv - 1) else Some iv1)
    = Some iv2 /\ vec_size iv2 = vec_size iv /\ vec_get iv2 dind = Some ipv /\
    forall k, k <> dind -> vec_get iv2 k = vec_get iv k)
    as (iv2 & -> & Ht2 & Hh2 & Hp2).
  { unfold ipv. destruct (Coord.ltb vS (Coord.of_int tv)).
    - destruct (vec_set_get iv1 dind (tv - 1)) as (iv2 & -> & ? & ? & Hp); [lia|].
      exists iv2. split_and!; [done|congruence|done|].
      intros k Hk. by rewrite Hp, Hp1.
    - exists iv1. done. }
  cbn [mbind option_bind]. rewrite Hh2. cbn [mbind option_bind].
  destruct (double_to_int (Coord.mul (Coord.of_int overSample)
              (Coord.sub vS (Coord.of_int ipv)))) as [fracv|]; [|done].
  cbn [mbind option_bind] in He |- *.
  destruct (vec_set_get iv2 dind (ipv + gSize ÷ 2)) as (iv3 & -> & Ht3 & Hh3 & Hp3); [lia|].
  cbn [mbind option_bind].
  destruct (double_to_int wS) as [wt|]; [|done]. cbn [mbind option_bind] in He |- *.
  match goal with |- context [vec_set cOffset dind ?x] =>
    destruct (vec_set_get cOffset dind x) as (cO' & -> & Hc1 & Hc2 & Hc3); [lia|] end.
  cbn [mbind option_bind]. eexists. split; [done|].
  injection He as <-. cbn [filled].
  split_and!; [congruence..|].
  intros d Hdr. destruct (decide (d = dind)) as [->|Hne].
  - rewrite Hentry. done.
  - rewrite Hc3, Ho3, Hp3, Ho2, Hp2 by done. apply Hd. lia.
Qed.

(** [initCOffset] returns whenever every conversion to [int] is defined, with
    the entry of sample [i] and channel [chan] at the index
    [i * nChan + chan]. *)
Lemma initCOffset_entries (cOffset iu iv : list Z) :
  (forall i chan, 0 <= i < nSamples -> 0 <= chan < nChan ->
     is_Some (offset_entry i chan)) ->
  exists cOffset' iu' iv',
    initCOffset u v w freq cellSize wCellSize wSize gSize support overSample
                cOffset iu iv = Some (cOffset', iu', iv') /\
    vec_size cOffset' = nSamples * nChan /\
    vec_size iu' = nSamples * nChan /\
    vec_size iv' = nSamples * nChan /\
    forall i chan, 0 <= i < nSamples -> 0 <= chan < nChan ->
      offset_entry i chan
      = Some (vec_at 0 cOffset' (i * nChan + chan),
              vec_at 0 iu' (i * nChan + chan),
              vec_at 0 iv' (i * nChan + chan)).
Proof.
  intros Hdef. unfold initCOffset.
  assert (0 <= nSamples * nChan) as HN by (unfold vec_size; nia).
  unfold vec_resize at 1 2 3. rewrite !decide_True by done.
  cbn [mbind option_bind].
  match goal with |- context [for_upto _ _ (?a, ?b, ?c)] =>
    set (c0 := a); set (u0 := b); set (v0 := c) end.
  assert (filled 0 (c0, u0, v0)) as H0.
  { split_and!; [by apply (vec_resize_size cOffset); unfold vec_resize; rewrite decide_True
                |by apply (vec_resize_size iu); unfold vec_resize; rewrite decide_True
                |by apply (vec_resize_size iv); unfold vec_resize; rewrite decide_True
                |intros; lia]. }
  match goal with |- context [for_upto nSamples ?b _] =>
    destruct (for_upto_inv (fun i => filled (i * nChan)) b nSamples (c0, u0, v0))
      as ([[cO' iu'] iv'] & Hrun & Hfilled) end; [unfold vec_size; lia|done|..].
  { intros i st Hi Hst.
    match goal with |- context [for_upto nChan ?b _] =>
      destruct (for_upto_inv (fun chan => filled (i * nChan + chan)) b nChan st)
        as (st' & Hrun & Hfilled) end; [unfold vec_size; lia|by rewrite Z.add_0_r|..].
    - intros chan st' Hchan Hst'.
      destruct (Hdef i chan Hi Hchan) as [e He].
      destruct (offset_step i chan st' e Hi Hchan He Hst') as (st'' & Hstep & Hst'').
      exists st''. split; [|by rewrite <-Z.add_assoc in Hst''].
      destruct st' as [[? ?] ?]. exact Hstep.
    - exists st'. split; [done|].
      by replace ((i + 1) * nChan) with (i * nChan + nChan) by lia. }
  exists cO', iu', iv'. destruct Hfilled as (? & ? & ? & Hd).
  split_and!; [done..|].
  intros i chan Hi Hchan.
  destruct (Hd (i * nChan + chan) ltac:(nia)) as (Hc & Hu & Hv').
  unfold vec_at. rewrite Hc, Hu, Hv'. cbn [default from_option Datatypes.id].
  rewrite <-!surjective_pairing. unfold entry_at.
  assert ((i * nChan + chan) / nChan = i /\ (i * nChan + chan) mod nChan = chan)
    as [-> ->].
  { split; [symmetry; apply (Z.div_unique_pos _ nChan i chan)
           |symmetry; apply (Z.mod_unique_pos _ nChan i chan)]; lia. }
  destruct (Hdef i chan Hi Hchan) as [e ->]. done.
Qed.
End OffsetEntries.

(** ** Binary64 numbers

    Facts on the representation of [SpecFloat]: the numbers handled are
    [valid_binary], that is, in canonical form (53 digits, or fewer at the
    least exponent -1074). *)

Section Binary64.
Abbreviation vprec := Coord.prec.
Abbreviation vemax := Coord.emax.

Lemma digits2_pos_bounds (m : positive) :
  2 ^ (Zpos (digits2_pos m) - 1) <= Zpos m < 2 ^ Zpos (digits2_pos m).
Proof.
  induction m as [m IHm|m IHm|]; cbn [digits2_pos].
  - rewrite Pos2Z.inj_succ, Pos2Z.inj_xI.
    replace (Z.succ (Zpos (digits2_pos m)) - 1) with (Z.succ (Zpos (digits2_pos m) - 1)) by lia.
    rewrite !Z.pow_succ_r by lia. lia.
  - rewrite Pos2Z.inj_succ. change (Zpos m~0) with (2 * Zpos m).
    replace (Z.succ (Zpos (digits2_pos m)) - 1) with (Z.succ (Zpos (digits2_pos m) - 1)) by lia.
    rewrite !Z.pow_succ_r by lia. lia.
  - cbn. lia.
Qed.

Lemma canonical_cases (m : positive) (e : Z) :
  canonical_mantissa vprec vemax m e = true ->
  -1074 <= e /\ Zpos (digits2_pos m) <= 53 /\
  (Zpos (digits2_pos m) = 53 \/ e = -1074).
Proof.
  unfold canonical_mantissa, fexp, emin, Coord.prec, Coord.emax.
  intros Hc%Z.eqb_eq. lia.
Qed.

(** A canonical number with the greater exponent is the greater. *)
Lemma canonical_exponent_lt (m1 m2 : positive) (e1 e2 : Z) :
  canonical_mantissa vprec vemax m1 e1 = true ->
  canonical_mantissa vprec vemax m2 e2 = true ->
  e1 < e2 -> Zpos m1 < Zpos m2 * 2 ^ (e2 - e1).
Proof.
  intros (He1 & Hd1 & _)%canonical_cases (He2 & Hd2 & Hn2)%canonical_cases Hlt.
  destruct Hn2 as [Hn2|]; [|lia].
  pose proof (digits2_pos_bounds m1) as [_ Hm1].
  pose proof (digits2_pos_bounds m2) as [Hm2 _]. rewrite Hn2 in Hm2.
  assert (Zpos m1 < 2 ^ 53) as Hb1.
  { eapply Z.lt_le_trans; [exact Hm1|]. apply Z.pow_le_mono_r; lia. }
  assert (2 ^ 1 <= 2 ^ (e2 - e1)) as Hp by (apply Z.pow_le_mono_r; lia).
  change (2 ^ (53 - 1)) with 4503599627370496 in Hm2.
  change (2 ^ 53) with 9007199254740992 in Hb1.
  change (2 ^ 1) with 2 in Hp. nia.
Qed.

(** The comparison of two fractions, exactly. *)
Definition compare_exact (x y : spec_float) : comparison :=
  (SFnum x * SFden y ?= SFnum y * SFden x).

Lemma SFden_pos (x : spec_float) : 0 < SFden x.
Proof.
  destruct x as [| | |s m e]; cbn [SFden]; [lia..|]. apply Z.pow_pos_nonneg; lia.
Qed.

(** The two products compared by [compare_exact], on a common power of 2. *)
Lemma cross_products (m1 m2 : positive) (e1 e2 : Z) :
  e1 <= e2 ->
  exists k, 0 < k /\
    Zpos m1 * 2 ^ Z.max e1 0 * 2 ^ Z.max (- e2) 0 = Zpos m1 * k /\
    Zpos m2 * 2 ^ Z.max e2 0 * 2 ^ Z.max (- e1) 0 = Zpos m2 * 2 ^ (e2 - e1) * k.
Proof.
  intros Hle. exists (2 ^ (Z.max e1 0 + Z.max (- e2) 0)). split_and!.
  - apply Z.pow_pos_nonneg; lia.
  - rewrite Z.pow_add_r by lia. lia.
  - rewrite <-!Z.mul_assoc. f_equal. rewrite <-!Z.pow_add_r by lia. f_equal. lia.
Qed.

Lemma compare_canonical_pos (m1 m2 : positive) (e1 e2 : Z) :
  canonical_mantissa vprec vemax m1 e1 = true ->
  canonical_mantissa vprec vemax m2 e2 = true ->
  match e1 ?= e2 with
  | Lt => Lt
  | Gt => Gt
  | Eq => Pos.compare_cont Eq m1 m2
  end
  = (Zpos m1 * 2 ^ Z.max e1 0 * 2 ^ Z.max (- e2) 0
     ?= Zpos m2 * 2 ^ Z.max e2 0 * 2 ^ Z.max (- e1) 0).
Proof.
  intros Hc1 Hc2. destruct (Z.compare_spec e1 e2) as [->|Hlt|Hgt].
  - change (Pos.compare_cont Eq m1 m2) with (Zpos m1 ?= Zpos m2).
    assert (0 < 2 ^ Z.max e2 0) as HA by (apply Z.pow_pos_nonneg; lia).
    assert (0 < 2 ^ Z.max (- e2) 0) as HB by (apply Z.pow_pos_nonneg; lia).
    set (A := 2 ^ Z.max e2 0) in *. set (B := 2 ^ Z.max (- e2) 0) in *.
    destruct (Z.compare_spec (Zpos m1) (Zpos m2)) as [Heq|Hlt|Hgt]; symmetry.
    + rewrite Heq. apply Z.compare_refl.
    + apply Z.compare_lt_iff. nia.
    + apply Z.compare_gt_iff. nia.
  - destruct (cross_products m1 m2 e1 e2 ltac:(lia)) as (k & Hk & -> & ->).
    pose proof (canonical_exponent_lt m1 m2 e1 e2 Hc1 Hc2 Hlt).
    symmetry. apply Z.compare_lt_iff. nia.
  - destruct (cross_products m2 m1 e2 e1 ltac:(lia)) as (k & Hk & -> & ->).
    pose proof (canonical_exponent_lt m2 m1 e2 e1 Hc2 Hc1 ltac:(lia)).
    symmetry. apply Z.compare_gt_iff. nia.
Qed.

Lemma SFnum_sign (s : bool) (m : positive) (e : Z) :
  if s then SFnum (S754_finite s m e) < 0 else 0 < SFnum (S754_finite s m e).
Proof.
  assert (0 < 2 ^ Z.max e 0) by (apply Z.pow_pos_nonneg; lia).
  destruct s; cbn [SFnum cond_Zopp]; nia.
Qed.

(** On valid numbers [SFcompare] is the comparison of the values. *)
Lemma SFcompare_exact (x y : spec_float) :
  valid_binary vprec vemax x = true -> valid_binary vprec vemax y = true ->
  is_finite x = true -> is_finite y = true ->
  SFcompare x y = Some (compare_exact x y).
Proof.
  intros Hvx Hvy Hfx Hfy. unfold compare_exact.
  destruct x as [sx|sx| |sx mx ex], y as [sy|sy| |sy my ey]; try done.
  - cbn [SFcompare]. f_equal. pose proof (SFnum_sign sy my ey).
    cbn [SFnum SFden] in *.
    destruct sy; symmetry; [apply Z.compare_gt_iff|apply Z.compare_lt_iff]; lia.
  - cbn [SFcompare]. f_equal. pose proof (SFnum_sign sx mx ex).
    cbn [SFnum SFden] in *.
    destruct sx; symmetry; [apply Z.compare_lt_iff|apply Z.compare_gt_iff]; lia.
  - cbn [valid_binary] in Hvx, Hvy. unfold SpecFloat.bounded in Hvx, Hvy.
    apply andb_prop in Hvx as [Hcx _]. apply andb_prop in Hvy as [Hcy _].
    pose proof (SFnum_sign sx mx ex) as Hsx. pose proof (SFnum_sign sy my ey) as Hsy.
    pose proof (SFden_pos (S754_finite sx mx ex)) as Hdx.
    pose proof (SFden_pos (S754_finite sy my ey)) as Hdy.
    cbn [SFcompare]. f_equal.
    destruct sx, sy.
    + pose proof (compare_canonical_pos mx my ex ey Hcx Hcy) as Hc.
      cbn [SFnum SFden cond_Zopp].
      rewrite !Z.mul_opp_l, Z.compare_opp.
      rewrite (Z.compare_antisym (Zpos mx * _ * _) (Zpos my * _ * _)), <-Hc.
      by destruct (ex ?= ey).
    + symmetry. apply Z.compare_lt_iff. nia.
    + symmetry. apply Z.compare_gt_iff. nia.
    + apply compare_canonical_pos; done.
Qed.

(** *** Rounding a number that is already canonical *)

Lemma binary_round_aux_canonical (s : bool) (m : positive) (e : Z) :
  canonical_mantissa vprec vemax m e = true -> e <= vemax - vprec ->
  binary_round_aux vprec vemax s (Zpos m) e loc_Exact = S754_finite s m e.
Proof.
  intros Hc He. unfold binary_round_aux, shr_fexp.
  unfold canonical_mantissa in Hc. apply Z.eqb_eq in Hc.
  cbn [Zdigits2 shr_record_of_loc]. rewrite Hc, Z.sub_diag.
  cbn [shr shr_m loc_of_shr_record round_nearest_even Zdigits2].
  rewrite Hc, Z.sub_diag. cbn [shr shr_m].
  apply Z.leb_le in He. by rewrite He.
Qed.

Lemma iter_xO_spec (p k : positive) :
  Zpos (Pos.iter xO p k) = Zpos p * 2 ^ Zpos k /\
  Zpos (digits2_pos (Pos.iter xO p k)) = Zpos (digits2_pos p) + Zpos k.
Proof.
  induction k as [|k IH] using Pos.peano_ind.
  - cbn [Pos.iter digits2_pos]. rewrite Pos2Z.inj_succ. change (Zpos p~0) with (2 * Zpos p).
    change (2 ^ 1) with 2. lia.
  - rewrite Pos.iter_succ. cbn [digits2_pos]. destruct IH as [IH1 IH2].
    rewrite !Pos2Z.inj_succ, Z.pow_succ_r by lia.
    change (Zpos (Pos.iter xO p k)~0) with (2 * Zpos (Pos.iter xO p k)).
    rewrite IH1, IH2. lia.
Qed.

(** [binary_round] brings a number with few digits to canonical form. *)
Lemma binary_round_few_digits (s : bool) (p : positive) :
  Zpos (digits2_pos p) <= 53 ->
  exists m e,
    binary_round vprec vemax s p 0 = S754_finite s m e /\
    canonical_mantissa vprec vemax m e = true /\
    e <= 0 /\ -52 <= e /\ Zpos m = Zpos p * 2 ^ (- e).
Proof.
  intros Hd. pose proof (Pos2Z.is_pos (digits2_pos p)) as Hd0.
  unfold binary_round, shl_align.
  replace (fexp vprec vemax (Zpos (digits2_pos p) + 0) - 0)
    with (Zpos (digits2_pos p) - 53)
    by (unfold fexp, emin, Coord.prec, Coord.emax; lia).
  destruct (Zpos (digits2_pos p) - 53) as [|k|k] eqn:Hk; [|lia|].
  - exists p, 0. rewrite binary_round_aux_canonical.
    + split_and!; [done| |lia..].
      unfold canonical_mantissa, fexp, emin, Coord.prec, Coord.emax.
      apply Z.eqb_eq. lia.
    + unfold canonical_mantissa, fexp, emin, Coord.prec, Coord.emax.
      apply Z.eqb_eq. lia.
    + unfold Coord.prec, Coord.emax. lia.
  - destruct (iter_xO_spec p k) as [Hm Hdig].
    replace (fexp vprec vemax (Zpos (digits2_pos p) + 0))
      with (Zneg k)
      by (unfold fexp, emin, Coord.prec, Coord.emax; lia).
    assert (canonical_mantissa vprec vemax (Pos.iter xO p k) (Zneg k) = true) as Hc.
    { unfold canonical_mantissa, fexp, emin, Coord.prec, Coord.emax.
      apply Z.eqb_eq. lia. }
    exists (Pos.iter xO p k), (Zneg k).
    rewrite binary_round_aux_canonical; [|done|unfold Coord.prec, Coord.emax; lia].
    split_and!; [done|done|lia|lia|]. by rewrite Hm.
Qed.

(** The conversion from an [int] is exact and gives a valid number. *)
Lemma of_int_exact (z : Z) :
  int_min - 1 <= z <= int_max ->
  valid_binary vprec vemax (Coord.of_int z) = true /\
  is_finite (Coord.of_int z) = true /\
  SFnum (Coord.of_int z) = z * SFden (Coord.of_int z) /\
  (0 < z -> exists m e, Coord.of_int z = S754_finite false m e) /\
  (z < 0 -> exists m e, Coord.of_int z = S754_finite true m e) /\
  (z = 0 -> Coord.of_int z = S754_zero false).
Proof.
  unfold int_min, int_max. intros Hz.
  assert (forall p, Zpos p <= 2 ^ 32 -> Zpos (digits2_pos p) <= 53) as Hdig.
  { intros p Hp. pose proof (digits2_pos_bounds p) as [Hlo _].
    destruct (decide (Zpos (digits2_pos p) <= 53)); [done|].
    assert (2 ^ 53 <= 2 ^ (Zpos (digits2_pos p) - 1)) by (apply Z.pow_le_mono_r; lia).
    change (2 ^ 53) with 9007199254740992 in *. change (2 ^ 32) with 4294967296 in *. lia. }
  assert (forall s p, Zpos p <= 2 ^ 32 ->
    valid_binary vprec vemax (binary_round vprec vemax s p 0) = true /\
    is_finite (binary_round vprec vemax s p 0) = true /\
    SFnum (binary_round vprec vemax s p 0)
    = cond_Zopp s (Zpos p) * SFden (binary_round vprec vemax s p 0) /\
    exists m e, binary_round vprec vemax s p 0 = S754_finite s m e) as Hround.
  { intros s p Hp.
    destruct (binary_round_few_digits s p (Hdig p Hp)) as (m & e & -> & Hc & He & He' & Hm).
    split_and!; [| done | | eauto].
    - cbn [valid_binary]. unfold SpecFloat.bounded. rewrite Hc. cbn.
      apply Z.leb_le. unfold Coord.prec, Coord.emax. lia.
    - cbn [SFnum SFden]. rewrite Z.max_r, Z.max_l by lia. rewrite Hm.
      destruct s; cbn [cond_Zopp]; change (2 ^ 0) with 1; lia. }
  unfold Coord.of_int, binary_normalize.
  destruct z as [|p|p].
  - split_and!; try done; lia.
  - destruct (Hround false p ltac:(change (2 ^ 31) with 2147483648 in *; change (2 ^ 32) with 4294967296; lia))
      as (? & ? & ? & ?).
    split_and!; try done; lia.
  - destruct (Hround true p ltac:(change (2 ^ 31) with 2147483648 in *; change (2 ^ 32) with 4294967296; lia))
      as (? & ? & ? & ?).
    split_and!; try done; lia.
Qed.

(** *** The integer part *)

Lemma floor_of_quot (n d : Z) :
  0 < d -> n / d = if decide (n < (n ÷ d) * d) then n ÷ d - 1 else n ÷ d.
Proof.
  intros Hd. pose proof (Z.quot_rem' n d) as Hqr.
  pose proof (Z.rem_bound_abs n d ltac:(lia)) as Hr.
  case_decide; symmetry.
  - apply (Z.div_unique_pos n d _ (Z.rem n d + d)); lia.
  - apply (Z.div_unique_pos n d _ (Z.rem n d)); lia.
Qed.

Lemma double_to_int_Some (x : spec_float) (t : Z) :
  double_to_int x = Some t <->
  is_finite x = true /\ t = truncZ x /\ int_min <= t <= int_max.
Proof.
  unfold double_to_int. destruct (is_finite x); [|split; [done|by intros [? _]]].
  case_decide; split.
  - intros [= <-]. done.
  - by intros (_ & -> & _).
  - done.
  - intros (_ & -> & ?). done.
Qed.

(** The conversion followed by the correction of [initCOffset] is the
    floor. *)
Lemma int_part_floor (x : spec_float) (ip : Z) :
  valid_binary vprec vemax x = true ->
  int_part x = Some ip -> ip = floorZ x.
Proof.
  intros Hvalid. unfold int_part.
  destruct (double_to_int x) as [t|] eqn:Ht; [|done]. cbn [mbind option_bind].
  intros [= <-]. apply double_to_int_Some in Ht as (Hfin & -> & Hrange).
  destruct (of_int_exact (truncZ x) ltac:(lia)) as (Hvc & Hfc & Hexact & _).
  unfold Coord.ltb, SFltb. rewrite (SFcompare_exact x _ Hvalid Hvc Hfin Hfc).
  unfold compare_exact. rewrite Hexact.
  pose proof (SFden_pos x) as Hdx. pose proof (SFden_pos (Coord.of_int (truncZ x))) as Hdc.
  unfold floorZ. rewrite (floor_of_quot _ _ Hdx). fold (truncZ x).
  destruct (Z.compare_spec (SFnum x * SFden (Coord.of_int (truncZ x)))
              (truncZ x * SFden (Coord.of_int (truncZ x)) * SFden x)) as [Heq|Hlt|Hgt].
  - rewrite decide_False; [done|nia].
  - rewrite decide_True; [done|nia].
  - rewrite decide_False; [done|nia].
Qed.

(** *** Signs *)

(** Not a negative number: the fraction discarded by the conversion to
    [int] is then the one discarded by the floor. *)
Definition not_negative (x : spec_float) : Prop :=
  match x with
  | S754_finite true _ _ | S754_infinity true => False
  | _ => True
  end.

Lemma not_negative_trunc (x : spec_float) : not_negative x -> truncZ x = floorZ x.
Proof.
  intros Hx. unfold truncZ, floorZ. apply Z.quot_div_nonneg; [|apply SFden_pos].
  destruct x as [| | |[] m e]; cbn [SFnum]; try done; try lia.
  pose proof (SFnum_sign false m e). cbn [SFnum] in *. lia.
Qed.

(** The result of a rounding has the sign it is given. *)
Lemma binary_round_aux_sign (s : bool) (m e : Z) (l : location) :
  match binary_round_aux vprec vemax s m e l with
  | S754_zero s' | S754_infinity s' | S754_finite s' _ _ => s' = s
  | S754_nan => True
  end.
Proof.
  unfold binary_round_aux.
  destruct (shr_fexp vprec vemax m e l) as [mrs' e'].
  destruct (shr_fexp vprec vemax _ e' loc_Exact) as [mrs'' e''].
  destruct (shr_m mrs''); [done| |done].
  by destruct (e'' <=? vemax - vprec).
Qed.

Lemma binary_normalize_not_negative (m e : Z) :
  0 <= m -> not_negative (binary_normalize vprec vemax m e false).
Proof.
  intros Hm. destruct m as [|p|p]; [done| |lia].
  cbn [binary_normalize]. unfold binary_round.
  destruct (shl_align p e _) as [mz ez].
  pose proof (binary_round_aux_sign false (Zpos mz) ez loc_Exact) as Hs.
  destruct (binary_round_aux vprec vemax false (Zpos mz) ez loc_Exact); try done.
  - by subst.
  - by subst.
Qed.

Lemma mul_not_negative (x y : spec_float) :
  (exists m e, x = S754_finite false m e) -> not_negative y ->
  not_negative (Coord.mul x y).
Proof.
  intros (m & e & ->) Hy. unfold Coord.mul.
  destruct y as [[]|[]| |[] my ey]; try done. cbn [SFmul xorb].
  pose proof (binary_round_aux_sign false (Zpos (m * my)) (e + ey) loc_Exact) as Hs.
  destruct (binary_round_aux vprec vemax false _ _ loc_Exact); try done.
  - by subst.
  - by subst.
Qed.

Lemma shl_align_fst (m : positive) (e e' : Z) :
  e' <= e -> Zpos (fst (shl_align m e e')) = Zpos m * 2 ^ (e - e').
Proof.
  intros He. unfold shl_align.
  destruct (e' - e) as [|k|k] eqn:Hk; [|lia|]; cbn [fst].
  - replace (e - e') with 0 by lia. change (2 ^ 0) with 1. lia.
  - destruct (iter_xO_spec m k) as [-> _]. do 2 f_equal. lia.
Qed.

(** The order of two finite numbers, on the common exponent that [SFsub]
    aligns them to. *)
Lemma aligned_order (sx sy : bool) (mx my : positive) (ex ey : Z) :
  SFnum (S754_finite sy my ey) * SFden (S754_finite sx mx ex)
    <= SFnum (S754_finite sx mx ex) * SFden (S754_finite sy my ey) ->
  cond_Zopp sy (Zpos my * 2 ^ (ey - Z.min ex ey))
    <= cond_Zopp sx (Zpos mx * 2 ^ (ex - Z.min ex ey)).
Proof.
  cbn [SFnum SFden].
  set (k := Z.max (- ex) 0 + Z.max (- ey) 0 + Z.min ex ey).
  assert (0 <= k) as Hk by lia.
  assert (0 < 2 ^ k) as Hpk by (apply Z.pow_pos_nonneg; lia).
  assert (forall s m, cond_Zopp s (Zpos m) * 2 ^ Z.max ey 0 * 2 ^ Z.max (- ex) 0
                      = cond_Zopp s (Zpos m * 2 ^ (ey - Z.min ex ey)) * 2 ^ k) as Hy.
  { intros s m. unfold k.
    replace (cond_Zopp s (Zpos m * 2 ^ (ey - Z.min ex ey)))
      with (cond_Zopp s (Zpos m) * 2 ^ (ey - Z.min ex ey)) by (destruct s; cbn; lia).
    rewrite <-!Z.mul_assoc, <-!Z.pow_add_r by lia. do 2 f_equal. lia. }
  assert (forall s m, cond_Zopp s (Zpos m) * 2 ^ Z.max ex 0 * 2 ^ Z.max (- ey) 0
                      = cond_Zopp s (Zpos m * 2 ^ (ex - Z.min ex ey)) * 2 ^ k) as Hx.
  { intros s m. unfold k.
    replace (cond_Zopp s (Zpos m * 2 ^ (ex - Z.min ex ey)))
      with (cond_Zopp s (Zpos m) * 2 ^ (ex - Z.min ex ey)) by (destruct s; cbn; lia).
    rewrite <-!Z.mul_assoc, <-!Z.pow_add_r by lia. do 2 f_equal. lia. }
  rewrite Hy, Hx. nia.
Qed.

Lemma sub_not_negative (x y : spec_float) :
  is_finite x = true -> is_finite y = true ->
  SFnum y * SFden x <= SFnum x * SFden y ->
  not_negative (Coord.sub x y).
Proof.
  intros Hfx Hfy Hle. unfold Coord.sub.
  destruct x as [sx|sx| |sx mx ex], y as [sy|sy| |sy my ey]; try done.
  - by destruct sx, sy.
  - pose proof (SFnum_sign sy my ey). cbn [SFnum SFden] in *.
    destruct sy; [done|lia].
  - pose proof (SFnum_sign sx mx ex). cbn [SFnum SFden] in *.
    destruct sx; [lia|done].
  - cbn [SFsub]. apply binary_normalize_not_negative.
    rewrite !shl_align_fst by lia.
    pose proof (aligned_order sx sy mx my ex ey Hle) as Ha.
    destruct sx, sy; cbn [cond_Zopp] in *; lia.
Qed.
End Binary64.

(** ** Rounding

    The operations of [SpecFloat] round their exact result.  The magnitude
    of the rounded result is bounded here from that of the operands, over
    the real numbers, and the result is shown to be in canonical form. *)

(** Powers of 2, and the value of a finite number (0 for the others). *)
Definition bpow (e : Z) : R := powerRZ 2 e.

(** The value of a finite number; 0 for the others. *)
Definition B2R (x : spec_float) : R := (IZR (SFnum x) / IZR (SFden x))%R.

Lemma bpow_pos (e : Z) : (0 < bpow e)%R.
Proof. apply powerRZ_lt. lra. Qed.

Lemma bpow_add (a b : Z) : bpow (a + b) = (bpow a * bpow b)%R.
Proof. apply powerRZ_add. lra. Qed.

Lemma bpow_IZR (e : Z) : 0 <= e -> bpow e = IZR (2 ^ e).
Proof.
  intros He. unfold bpow. rewrite <-(Z2Nat.id e) by done.
  rewrite <-pow_powerRZ. apply pow_IZR.
Qed.

Lemma bpow_1 : bpow 1 = 2%R.
Proof. by rewrite bpow_IZR. Qed.

Lemma bpow_opp (e : Z) : bpow (- e) = (/ bpow e)%R.
Proof. apply powerRZ_neg'. Qed.

Lemma bpow_le (a b : Z) : a <= b -> (bpow a <= bpow b)%R.
Proof.
  intros Hab. replace b with (a + (b - a)) by lia. rewrite bpow_add.
  rewrite (bpow_IZR (b - a)) by lia.
  assert (1 <= 2 ^ (b - a)) as Hp%IZR_le by (apply Z.lt_pred_le, Z.pow_pos_nonneg; lia).
  pose proof (bpow_pos a). nra.
Qed.

Lemma bpow_lt (a b : Z) : a < b -> (bpow a < bpow b)%R.
Proof.
  intros Hab. replace b with (a + (b - a)) by lia. rewrite bpow_add.
  rewrite (bpow_IZR (b - a)) by lia.
  assert (2 ^ 1 <= 2 ^ (b - a)) as Hp%IZR_le by (apply Z.pow_le_mono_r; lia).
  change (2 ^ 1) with 2 in Hp.
  pose proof (bpow_pos a). nra.
Qed.

Lemma B2R_finite (s : bool) (m : positive) (e : Z) :
  B2R (S754_finite s m e) = (IZR (cond_Zopp s (Zpos m)) * bpow e)%R.
Proof.
  unfold B2R. cbn [SFnum SFden]. rewrite mult_IZR.
  pose proof (bpow_pos e) as Hp.
  destruct (Z.le_ge_cases 0 e).
  - rewrite Z.max_l, Z.max_r by lia. rewrite <-bpow_IZR by done.
    change (2 ^ 0) with 1. field.
  - rewrite Z.max_r, Z.max_l by lia. rewrite <-(bpow_IZR (- e)) by lia.
    rewrite bpow_opp. change (2 ^ 0) with 1. field. lra.
Qed.

Lemma B2R_abs (s : bool) (m : positive) (e : Z) :
  Rabs (B2R (S754_finite s m e)) = (IZR (Zpos m) * bpow e)%R.
Proof.
  rewrite B2R_finite, Rabs_mult, (Rabs_pos_eq (bpow e)) by (left; apply bpow_pos).
  f_equal. rewrite <-abs_IZR. f_equal. destruct s; cbn; lia.
Qed.

Section Rounding.
(** The format: [prec] digits, exponents below [emax]. *)
Variables (prec emax : Z).
Hypothesis Hprec : 0 < prec.

(** *** Shifts *)

Lemma shr_1_m (mrs : shr_record) :
  0 <= shr_m mrs -> shr_m (shr_1 mrs) = shr_m mrs / 2.
Proof.
  destruct mrs as [m r s]. cbn [shr_m shr_1]. intros Hm.
  destruct m as [|p|p]; [done| |lia].
  destruct p as [p|p|]; cbn [shr_m].
  - rewrite Pos2Z.inj_xI. apply (Z.div_unique_pos _ 2 _ 1); lia.
  - change (Zpos p~0) with (2 * Zpos p). apply (Z.div_unique_pos _ 2 _ 0); lia.
  - done.
Qed.

Lemma iter_shr_1_m (p : positive) (mrs : shr_record) :
  0 <= shr_m mrs -> shr_m (SpecFloat.iter_pos shr_1 p mrs) = shr_m mrs / 2 ^ Zpos p.
Proof.
  revert mrs. induction p as [p IH|p IH|]; intros mrs Hm; cbn [SpecFloat.iter_pos].
  - assert (0 <= shr_m (shr_1 mrs)) as H1
      by (rewrite shr_1_m by done; apply Z.div_pos; lia).
    assert (0 <= shr_m (SpecFloat.iter_pos shr_1 p (shr_1 mrs))) as H2
      by (rewrite IH by done; apply Z.div_pos; [done|apply Z.pow_pos_nonneg; lia]).
    rewrite IH, IH, shr_1_m by done.
    rewrite !Z.div_div by (try apply Z.pow_pos_nonneg; lia).
    f_equal. rewrite Pos2Z.inj_xI.
    replace (2 * Zpos p + 1) with (1 + Zpos p + Zpos p) by lia.
    rewrite !Z.pow_add_r by lia. lia.
  - assert (0 <= shr_m (SpecFloat.iter_pos shr_1 p mrs)) as H2
      by (rewrite IH by done; apply Z.div_pos; [done|apply Z.pow_pos_nonneg; lia]).
    rewrite IH, IH by done.
    rewrite !Z.div_div by (try apply Z.pow_pos_nonneg; lia).
    f_equal. change (Zpos p~0) with (2 * Zpos p).
    replace (2 * Zpos p) with (Zpos p + Zpos p) by lia.
    rewrite !Z.pow_add_r by lia. lia.
  - by apply shr_1_m.
Qed.

Lemma loc_of_shr_record_of_loc (m : Z) (l : location) :
  loc_of_shr_record (shr_record_of_loc m l) = l.
Proof. by destruct l as [|[]]. Qed.

Lemma shr_record_of_loc_m (m : Z) (l : location) : shr_m (shr_record_of_loc m l) = m.
Proof. by destruct l as [|[]]. Qed.

(** [shr_fexp] divides the mantissa by [2 ^ n] and adds [n] to the exponent,
    where [n] is the number of digits in excess. *)
Lemma shr_fexp_spec (m e : Z) (l : location) :
  0 <= m ->
  let n := Z.max 0 (fexp prec emax (Zdigits2 m + e) - e) in
  let '(mrs, e') := shr_fexp prec emax m e l in
  shr_m mrs = m / 2 ^ n /\ e' = e + n /\ (n = 0 -> loc_of_shr_record mrs = l).
Proof.
  intros Hm n. unfold shr_fexp, shr. subst n.
  destruct (fexp prec emax (Zdigits2 m + e) - e) as [|p|p] eqn:Hn.
  - rewrite Z.max_l by lia. rewrite Z.div_1_r, Z.add_0_r.
    by rewrite shr_record_of_loc_m, loc_of_shr_record_of_loc.
  - rewrite Z.max_r by lia. rewrite iter_shr_1_m by (by rewrite shr_record_of_loc_m).
    rewrite shr_record_of_loc_m. split_and!; [done|done|lia].
  - rewrite Z.max_l by lia. rewrite Z.div_1_r, Z.add_0_r.
    by rewrite shr_record_of_loc_m, loc_of_shr_record_of_loc.
Qed.

Lemma round_nearest_even_bounds (m : Z) (l : location) :
  m <= round_nearest_even m l <= m + 1 /\ (l = loc_Exact -> round_nearest_even m l = m).
Proof.
  unfold round_nearest_even. destruct l as [|[]]; try destruct (Z.even m); split; try lia; done.
Qed.

(** The error of one rounding: none if no digit is dropped from an exact
    mantissa, and at most one unit of the last place kept otherwise. *)
Definition round_err (mx ex : Z) (lx : location) : R :=
  let n := fexp prec emax (Zdigits2 mx + ex) - ex in
  if decide (0 < n) then bpow (ex + n)
  else match lx with loc_Exact => 0%R | _ => bpow ex end.

Lemma binary_round_aux_bound (s : bool) (mx ex : Z) (lx : location) :
  0 <= mx ->
  match binary_round_aux prec emax s mx ex lx with
  | S754_zero _ => True
  | S754_finite _ m e => (IZR (Zpos m) * bpow e <= IZR mx * bpow ex + round_err mx ex lx)%R
  | S754_infinity _ => (bpow (emax - prec) < IZR mx * bpow ex + round_err mx ex lx)%R
  | S754_nan => False
  end.
Proof.
  intros Hmx. unfold binary_round_aux.
  pose proof (shr_fexp_spec mx ex lx Hmx) as H1.
  destruct (shr_fexp prec emax mx ex lx) as [mrs' e'].
  cbv zeta in H1. destruct H1 as (Hm' & -> & Hl').
  set (n1 := fexp prec emax (Zdigits2 mx + ex) - ex) in *.
  set (m1 := round_nearest_even (shr_m mrs') (loc_of_shr_record mrs')).
  pose proof (round_nearest_even_bounds (shr_m mrs') (loc_of_shr_record mrs')) as [Hrne Hex].
  fold m1 in Hrne, Hex.
  assert (0 < 2 ^ Z.max 0 n1) as Hp1 by (apply Z.pow_pos_nonneg; lia).
  assert (0 <= shr_m mrs') as Hm'0 by (rewrite Hm'; apply Z.div_pos; lia).
  assert (0 <= m1) as Hm1 by lia.
  pose proof (shr_fexp_spec m1 (ex + Z.max 0 n1) loc_Exact Hm1) as H2.
  destruct (shr_fexp prec emax m1 (ex + Z.max 0 n1) loc_Exact) as [mrs'' e''].
  cbv zeta in H2. destruct H2 as (Hm'' & -> & _).
  set (n2 := Z.max 0 (fexp prec emax (Zdigits2 m1 + (ex + Z.max 0 n1))
                      - (ex + Z.max 0 n1))) in *.
  assert (0 < 2 ^ n2) as Hp2 by (apply Z.pow_pos_nonneg; lia).
  assert (0 <= shr_m mrs'') as Hm''0 by (rewrite Hm''; apply Z.div_pos; lia).
  (* the value kept is at most the value before, plus the error *)
  assert (IZR (shr_m mrs'') * bpow (ex + Z.max 0 n1 + n2)
          <= IZR mx * bpow ex + round_err mx ex lx)%R as Hbound.
  { assert (IZR (shr_m mrs'') * bpow n2 <= IZR m1)%R as Hs2.
    { rewrite bpow_IZR by lia. rewrite <-mult_IZR. apply IZR_le.
      rewrite Hm''. rewrite Z.mul_comm. apply Z.mul_div_le. done. }
    assert (IZR (shr_m mrs') * bpow (Z.max 0 n1) <= IZR mx)%R as Hs1.
    { rewrite bpow_IZR by lia. rewrite <-mult_IZR. apply IZR_le.
      rewrite Hm'. rewrite Z.mul_comm. apply Z.mul_div_le. done. }
    rewrite !bpow_add.
    pose proof (bpow_pos ex) as Hpe. pose proof (bpow_pos (Z.max 0 n1)) as Hpn1.
    pose proof (bpow_pos n2) as Hpn2.
    assert (IZR (shr_m mrs'') * (bpow ex * bpow (Z.max 0 n1) * bpow n2)
            <= IZR m1 * (bpow ex * bpow (Z.max 0 n1)))%R as Hstep.
    { assert (0 < bpow ex * bpow (Z.max 0 n1))%R by nra. nra. }
    eapply Rle_trans; [exact Hstep|].
    unfold round_err. fold n1. destruct (decide (0 < n1)) as [Hn1|Hn1].
    - rewrite bpow_add. rewrite Z.max_r in * by lia.
      assert (IZR m1 <= IZR (shr_m mrs') + 1)%R as Hm1R
        by (rewrite <-plus_IZR; apply IZR_le; lia).
      assert (IZR m1 * (bpow ex * bpow n1)
              <= (IZR (shr_m mrs') + 1) * (bpow ex * bpow n1))%R
        by (apply Rmult_le_compat_r; nra).
      assert (IZR (shr_m mrs') * bpow n1 * bpow ex <= IZR mx * bpow ex)%R
        by (apply Rmult_le_compat_r; lra).
      lra.
    - rewrite Z.max_l in * by lia. change (bpow 0) with 1%R in *.
      rewrite Z.div_1_r in Hm'. rewrite Hm' in *.
      rewrite Hl' in Hex by done.
      assert (IZR m1 <= IZR mx + 1)%R as Hm1R
        by (rewrite <-plus_IZR; apply IZR_le; lia).
      destruct lx; [rewrite Hex by done; lra|nra]. }
  destruct (shr_m mrs'') as [|m|m] eqn:Hm; [done| |lia].
  destruct (_ <=? _) eqn:Hle.
  - exact Hbound.
  - apply Z.leb_gt in Hle.
    eapply Rlt_le_trans; [|exact Hbound].
    pose proof (bpow_lt _ _ Hle) as Hlt.
    assert (1 <= IZR (Zpos m))%R by (apply IZR_le; lia).
    pose proof (bpow_pos (ex + Z.max 0 n1 + n2)).
    nra.
Qed.

(** *** Bounds on the results *)

(** [x] is finite, of magnitude at most [B]. *)
Definition finite_le (x : spec_float) (B : R) : Prop :=
  is_finite x = true /\ (Rabs (B2R x) <= B)%R.

(** The relative error of a rounding, and the absolute error at the least
    exponent. *)
Definition eps : R := bpow (1 - prec).
Definition eta : R := bpow (emin prec emax).

Lemma B2R_zero (s : bool) : B2R (S754_zero s) = 0%R.
Proof. unfold B2R. cbn. lra. Qed.

Lemma finite_le_zero (s : bool) (B : R) : (0 <= B)%R -> finite_le (S754_zero s) B.
Proof. intros HB. split; [done|]. rewrite B2R_zero, Rabs_R0. done. Qed.

Lemma finite_le_nonneg (x : spec_float) (B : R) : finite_le x B -> (0 <= B)%R.
Proof. intros [_ HB]. pose proof (Rabs_pos (B2R x)). lra. Qed.

Lemma finite_le_weaken (x : spec_float) (B B' : R) :
  finite_le x B -> (B <= B')%R -> finite_le x B'.
Proof. intros [Hf HB] HBB. split; [done|lra]. Qed.

Lemma round_finite_le (s : bool) (mx ex : Z) (lx : location) (B : R) :
  0 <= mx ->
  (IZR mx * bpow ex + round_err mx ex lx <= B)%R ->
  (B <= bpow (emax - prec))%R ->
  finite_le (binary_round_aux prec emax s mx ex lx) B.
Proof.
  intros Hmx HB Hmax. pose proof (binary_round_aux_bound s mx ex lx Hmx) as Hr.
  destruct (binary_round_aux prec emax s mx ex lx) as [s'|s'| |s' m e].
  - apply finite_le_zero.
    assert (0 <= IZR mx)%R by (apply IZR_le; done).
    pose proof (bpow_pos ex).
    assert (0 <= round_err mx ex lx)%R.
    { unfold round_err. case_decide; [left; apply bpow_pos|].
      destruct lx; [lra|left; apply bpow_pos]. }
    nra.
  - lra.
  - done.
  - split; [done|]. rewrite B2R_abs. lra.
Qed.

Lemma fexp_bpow (k : Z) : (bpow (fexp prec emax k) <= bpow (k - prec) + eta)%R.
Proof.
  unfold fexp, eta.
  pose proof (bpow_pos (k - prec)). pose proof (bpow_pos (emin prec emax)).
  destruct (Z.max_spec (k - prec) (emin prec emax)) as [[_ ->]|[_ ->]]; lra.
Qed.

Lemma digits_bpow (m : positive) :
  (bpow (Zdigits2 (Zpos m) - 1) <= IZR (Zpos m) < bpow (Zdigits2 (Zpos m)))%R.
Proof.
  cbn [Zdigits2]. pose proof (digits2_pos_bounds m) as [Hlo Hhi].
  rewrite !bpow_IZR by lia. split; [apply IZR_le|apply IZR_lt]; done.
Qed.

Lemma round_err_digits (m : positive) (e : Z) :
  (bpow (fexp prec emax (Zdigits2 (Zpos m) + e))
   <= IZR (Zpos m) * bpow e * eps + eta)%R.
Proof.
  eapply Rle_trans; [apply fexp_bpow|].
  replace (Zdigits2 (Zpos m) + e - prec) with ((Zdigits2 (Zpos m) - 1) + e + (1 - prec)) by lia.
  rewrite !bpow_add. fold eps.
  pose proof (digits_bpow m) as [Hd _].
  pose proof (bpow_pos e). pose proof (bpow_pos (1 - prec)) as Heps. fold eps in Heps.
  assert (bpow (Zdigits2 (Zpos m) - 1) * bpow e <= IZR (Zpos m) * bpow e)%R
    by (apply Rmult_le_compat_r; lra).
  assert (bpow (Zdigits2 (Zpos m) - 1) * bpow e * eps <= IZR (Zpos m) * bpow e * eps)%R
    by (apply Rmult_le_compat_r; lra).
  lra.
Qed.

Lemma round_err_exact (m : positive) (e : Z) :
  (round_err (Zpos m) e loc_Exact <= IZR (Zpos m) * bpow e * eps + eta)%R.
Proof.
  unfold round_err. case_decide.
  - replace (e + (fexp prec emax (Zdigits2 (Zpos m) + e) - e))
      with (fexp prec emax (Zdigits2 (Zpos m) + e)) by lia.
    apply round_err_digits.
  - assert (0 < IZR (Zpos m))%R by (apply IZR_lt; lia).
    pose proof (bpow_pos e). pose proof (bpow_pos (1 - prec)) as Heps. fold eps in Heps.
    pose proof (bpow_pos (emin prec emax)) as Heta. fold eta in Heta.
    assert (0 < IZR (Zpos m) * bpow e)%R by nra. nra.
Qed.

(** The rounding of an exact value [m * 2^e]. *)
Lemma round_exact_finite_le (s : bool) (m : positive) (e : Z) (B : R) :
  (IZR (Zpos m) * bpow e * (1 + eps) + eta <= B)%R ->
  (B <= bpow (emax - prec))%R ->
  finite_le (binary_round_aux prec emax s (Zpos m) e loc_Exact) B.
Proof.
  intros HB Hmax. apply round_finite_le; [lia| |done].
  pose proof (round_err_exact m e). lra.
Qed.

Lemma finite_le_cases (x : spec_float) (B : R) :
  finite_le x B ->
  (exists s, x = S754_zero s) \/
  (exists s m e, x = S754_finite s m e /\ (IZR (Zpos m) * bpow e <= B)%R).
Proof.
  intros [Hf HB]. destruct x as [s|s| |s m e]; try done.
  - left. by exists s.
  - right. exists s, m, e. split; [done|]. by rewrite <-(B2R_abs s).
Qed.

(** [x * y] *)
Lemma mul_finite_le (x y : spec_float) (Bx By B : R) :
  finite_le x Bx -> finite_le y By ->
  (Bx * By * (1 + eps) + eta <= B)%R ->
  (B <= bpow (emax - prec))%R ->
  finite_le (SFmul prec emax x y) B.
Proof.
  intros Hx Hy HB Hmax.
  pose proof (finite_le_nonneg _ _ Hx) as Hx0. pose proof (finite_le_nonneg _ _ Hy) as Hy0.
  pose proof (bpow_pos (1 - prec)) as Heps. fold eps in Heps.
  pose proof (bpow_pos (emin prec emax)) as Heta. fold eta in Heta.
  assert (0 <= Bx * By)%R as Hxy0 by nra.
  assert (0 <= B)%R as HB0 by nra.
  destruct (finite_le_cases _ _ Hx) as [[sx ->]|(sx & mx & ex & -> & Hmx)],
           (finite_le_cases _ _ Hy) as [[sy ->]|(sy & my & ey & -> & Hmy)];
    try (by apply (finite_le_zero false)); try (by apply (finite_le_zero true)).
  unfold SFmul. apply round_exact_finite_le; [|done].
  rewrite Pos2Z.inj_mul, mult_IZR, bpow_add.
  assert (0 < IZR (Zpos mx))%R by (apply IZR_lt; lia).
  assert (0 < IZR (Zpos my))%R by (apply IZR_lt; lia).
  pose proof (bpow_pos ex). pose proof (bpow_pos ey).
  assert (IZR (Zpos mx) * IZR (Zpos my) * (bpow ex * bpow ey) <= Bx * By)%R.
  { replace (IZR (Zpos mx) * IZR (Zpos my) * (bpow ex * bpow ey))%R
      with ((IZR (Zpos mx) * bpow ex) * (IZR (Zpos my) * bpow ey))%R by ring.
    apply Rmult_le_compat; nra. }
  nra.
Qed.

(** [x / y]: the quotient of the mantissas, one aligned on the other, is
    rounded. *)
Lemma div_core_bound (m1 m2 : positive) (e1 e2 : Z) :
  let '(q, e', l) := SFdiv_core_binary prec emax (Zpos m1) e1 (Zpos m2) e2 in
  0 <= q /\
  (IZR q * bpow e' + round_err q e' l
   <= (IZR (Zpos m1) * bpow e1) / (IZR (Zpos m2) * bpow e2) * (1 + eps) + eta)%R /\
  ((IZR (Zpos m1) * bpow e1) / (IZR (Zpos m2) * bpow e2) * (1 - 2 * eps) - 2 * eta
   <= IZR q * bpow e' - bpow (fexp prec emax (Zdigits2 q + e')))%R.
Proof.
  unfold SFdiv_core_binary.
  set (d1 := Zdigits2 (Zpos m1)). set (d2 := Zdigits2 (Zpos m2)).
  set (D := d1 + e1 - (d2 + e2)).
  set (e' := Z.min (fexp prec emax D) (e1 - e2)).
  set (sh := e1 - e2 - e').
  assert (0 <= sh) as Hsh by (unfold sh, e'; lia).
  set (m' := match sh with Zpos _ => Z.shiftl (Zpos m1) sh | 0 => Zpos m1 | Zneg _ => 0 end).
  assert (m' = Zpos m1 * 2 ^ sh) as Hm'.
  { unfold m'. destruct sh as [|p|p]; [lia| |lia]. by rewrite Z.shiftl_mul_pow2. }
  clearbody m'.
  pose proof (Z_div_mod m' (Zpos m2) ltac:(lia)) as Hqr.
  destruct (Z.div_eucl m' (Zpos m2)) as [q r]. destruct Hqr as [Hqr Hr].
  assert (0 < 2 ^ sh) as Hpsh by (apply Z.pow_pos_nonneg; lia).
  assert (0 <= q) as Hq by nia.
  split; [done|].
  set (X := (IZR (Zpos m1) * bpow e1)%R). set (Y := (IZR (Zpos m2) * bpow e2)%R).
  assert (0 < IZR (Zpos m1))%R as Hm1 by (apply IZR_lt; lia).
  assert (0 < IZR (Zpos m2))%R as Hm2 by (apply IZR_lt; lia).
  pose proof (bpow_pos e1) as Hpe1. pose proof (bpow_pos e2) as Hpe2.
  pose proof (bpow_pos e') as Hpe'.
  pose proof (bpow_pos (1 - prec)) as Heps. fold eps in Heps.
  pose proof (bpow_pos (emin prec emax)) as Heta. fold eta in Heta.
  assert (0 < X)%R as HX by (unfold X; nra).
  assert (0 < Y)%R as HY by (unfold Y; nra).
  assert (0 < X / Y)%R as HV by (apply Rdiv_lt_0_compat; done).
  (* the quotient is below the exact one *)
  assert (IZR q * bpow e' <= X / Y)%R as Hval.
  { apply (Rmult_le_reg_r Y); [done|].
    replace (X / Y * Y)%R with X by (field; lra).
    assert (IZR q * IZR (Zpos m2) <= IZR (Zpos m1) * bpow sh)%R as Hqm.
    { rewrite bpow_IZR by done. rewrite <-!mult_IZR. apply IZR_le. nia. }
    assert (bpow e1 = bpow sh * bpow e' * bpow e2)%R as He1.
    { rewrite <-!bpow_add. f_equal. unfold sh. lia. }
    unfold X, Y. rewrite He1.
    replace (IZR q * bpow e' * (IZR (Zpos m2) * bpow e2))%R
      with ((IZR q * IZR (Zpos m2)) * (bpow e' * bpow e2))%R by ring.
    replace (IZR (Zpos m1) * (bpow sh * bpow e' * bpow e2))%R
      with ((IZR (Zpos m1) * bpow sh) * (bpow e' * bpow e2))%R by ring.
    apply Rmult_le_compat_r; [|done].
    assert (0 < bpow e' * bpow e2)%R by nra. lra. }
  (* one unit of the last place of the exact quotient *)
  assert (bpow (fexp prec emax D) <= X / Y * eps + eta)%R as Hulp.
  { eapply Rle_trans; [apply fexp_bpow|].
    apply Rplus_le_compat_r.
    replace (D - prec) with ((d1 - 1) + e1 + (- d2) + (- e2) + (1 - prec)) by (unfold D; lia).
    rewrite !bpow_add. fold eps. rewrite !bpow_opp.
    pose proof (digits_bpow m1) as [Hd1 _]. pose proof (digits_bpow m2) as [_ Hd2].
    fold d1 in Hd1. fold d2 in Hd2.
    pose proof (bpow_pos d2) as Hpd2. pose proof (bpow_pos (d1 - 1)) as Hpd1.
    apply Rmult_le_compat_r; [lra|].
    apply (Rmult_le_reg_r (bpow d2 * bpow e2)); [nra|].
    replace (bpow (d1 - 1) * bpow e1 * / bpow d2 * / bpow e2 * (bpow d2 * bpow e2))%R
      with (bpow (d1 - 1) * bpow e1)%R by (field; lra).
    replace (X / Y * (bpow d2 * bpow e2))%R
      with (X * (bpow d2 / IZR (Zpos m2)))%R by (unfold Y; field; lra).
    assert (1 <= bpow d2 / IZR (Zpos m2))%R as H1.
    { apply (Rmult_le_reg_r (IZR (Zpos m2))); [done|].
      replace (bpow d2 / IZR (Zpos m2) * IZR (Zpos m2))%R with (bpow d2) by (field; lra).
      lra. }
    assert (bpow (d1 - 1) * bpow e1 <= X)%R
      by (unfold X; apply Rmult_le_compat_r; lra).
    nra. }
  assert (bpow (fexp prec emax (Zdigits2 q + e')) <= X / Y * eps + eta)%R as Hulpq.
  { destruct q as [|q|q]; [| |lia].
    - eapply Rle_trans; [|exact Hulp]. apply bpow_le. cbn [Zdigits2].
      unfold e', fexp. lia.
    - eapply Rle_trans; [apply round_err_digits|].
      apply Rplus_le_compat_r. apply Rmult_le_compat_r; lra. }
  assert (bpow e' <= bpow (fexp prec emax D))%R as He'D
    by (apply bpow_le; unfold e'; lia).
  assert (round_err q e' (new_location (Zpos m2) r) <= X / Y * eps + eta)%R as Herr.
  { unfold round_err. case_decide as Hn.
    - by replace (e' + (fexp prec emax (Zdigits2 q + e') - e'))
        with (fexp prec emax (Zdigits2 q + e')) by lia.
    - assert (0 <= X / Y * eps + eta)%R by nra.
      destruct (new_location (Zpos m2) r); lra. }
  (* and it is less than one unit of its last place below *)
  assert (X / Y - bpow e' <= IZR q * bpow e')%R as Hlow.
  { assert (X / Y <= (IZR q + 1) * bpow e')%R; [|lra].
    apply (Rmult_le_reg_r Y); [done|].
    replace (X / Y * Y)%R with X by (field; lra).
    assert (IZR (Zpos m1) * bpow sh <= (IZR q + 1) * IZR (Zpos m2))%R as Hqm.
    { rewrite bpow_IZR by done. rewrite <-plus_IZR, <-!mult_IZR. apply IZR_le. nia. }
    assert (bpow e1 = bpow sh * bpow e' * bpow e2)%R as He1.
    { rewrite <-!bpow_add. f_equal. unfold sh. lia. }
    unfold X, Y. rewrite He1.
    replace ((IZR q + 1) * bpow e' * (IZR (Zpos m2) * bpow e2))%R
      with (((IZR q + 1) * IZR (Zpos m2)) * (bpow e' * bpow e2))%R by ring.
    replace (IZR (Zpos m1) * (bpow sh * bpow e' * bpow e2))%R
      with ((IZR (Zpos m1) * bpow sh) * (bpow e' * bpow e2))%R by ring.
    apply Rmult_le_compat_r; [|done].
    assert (0 < bpow e' * bpow e2)%R by nra. lra. }
  split; lra.
Qed.

Lemma div_finite_le (x y : spec_float) (Bx Ly B : R) :
  finite_le x Bx -> is_finite y = true ->
  (0 < Ly <= Rabs (B2R y))%R ->
  (Bx / Ly * (1 + eps) + eta <= B)%R ->
  (B <= bpow (emax - prec))%R ->
  finite_le (SFdiv prec emax x y) B.
Proof.
  intros Hx Hfy [HL Hy] HB Hmax.
  pose proof (finite_le_nonneg _ _ Hx) as Hx0.
  pose proof (bpow_pos (1 - prec)) as Heps. fold eps in Heps.
  pose proof (bpow_pos (emin prec emax)) as Heta. fold eta in Heta.
  assert (0 <= Bx / Ly)%R as HBL.
  { apply Rmult_le_pos; [done|]. left. by apply Rinv_0_lt_compat. }
  assert (0 <= B)%R as HB0 by nra.
  destruct y as [sy|sy| |sy my ey]; try done.
  { rewrite B2R_zero, Rabs_R0 in Hy. lra. }
  rewrite B2R_abs in Hy.
  destruct (finite_le_cases _ _ Hx) as [[sx ->]|(sx & mx & ex & -> & Hmx)].
  { by apply finite_le_zero. }
  unfold SFdiv.
  pose proof (div_core_bound mx my ex ey) as Hcore.
  destruct (SFdiv_core_binary prec emax (Zpos mx) ex (Zpos my) ey) as [[q e'] l].
  destruct Hcore as (Hq & Hcore & _).
  apply round_finite_le; [done| |done].
  eapply Rle_trans; [exact Hcore|]. eapply Rle_trans; [|exact HB].
  apply Rplus_le_compat_r. apply Rmult_le_compat_r; [lra|].
  assert (0 < IZR (Zpos mx) * bpow ex)%R.
  { assert (0 < IZR (Zpos mx))%R by (apply IZR_lt; lia). pose proof (bpow_pos ex). nra. }
  apply Rmult_le_compat; [lra| |done|].
  - left. apply Rinv_0_lt_compat. lra.
  - apply Rinv_le_contravar; done.
Qed.

(** [x - y]: the difference of the mantissas on the common exponent is exact,
    and then rounded. *)
Lemma shl_align_value (m : positive) (e e' : Z) :
  (IZR (Zpos (shl_align m e e').1) * bpow (shl_align m e e').2
   = IZR (Zpos m) * bpow e)%R.
Proof.
  unfold shl_align. destruct (e' - e) as [|k|k] eqn:Hk; cbn [fst snd]; [done..|].
  destruct (iter_xO_spec m k) as [-> _].
  rewrite mult_IZR, <-bpow_IZR by lia. rewrite Rmult_assoc, <-bpow_add.
  do 2 f_equal. lia.
Qed.

Lemma binary_round_finite_le (s : bool) (m : positive) (e : Z) (B : R) :
  (IZR (Zpos m) * bpow e * (1 + eps) + eta <= B)%R ->
  (B <= bpow (emax - prec))%R ->
  finite_le (binary_round prec emax s m e) B.
Proof.
  intros HB Hmax. unfold binary_round.
  pose proof (shl_align_value m e (fexp prec emax (Zpos (digits2_pos m) + e))) as Hv.
  destruct (shl_align m e _) as [mz ez]. cbn [fst snd] in Hv.
  apply round_exact_finite_le; [|done]. by rewrite Hv.
Qed.

Lemma binary_normalize_finite_le (m e : Z) (B : R) :
  (IZR (Z.abs m) * bpow e * (1 + eps) + eta <= B)%R ->
  (B <= bpow (emax - prec))%R ->
  finite_le (binary_normalize prec emax m e false) B.
Proof.
  intros HB Hmax. destruct m as [|m|m]; cbn [binary_normalize].
  - apply finite_le_zero. change (Z.abs 0) with 0 in HB.
    pose proof (bpow_pos (emin prec emax)) as Heta. fold eta in Heta.
    rewrite !Rmult_0_l in HB. lra.
  - by apply binary_round_finite_le.
  - by apply binary_round_finite_le.
Qed.

Lemma sub_finite_le (x y : spec_float) (Bx By B : R) :
  finite_le x Bx -> finite_le y By ->
  ((Bx + By) * (1 + eps) + eta <= B)%R ->
  (B <= bpow (emax - prec))%R ->
  finite_le (SFsub prec emax x y) B.
Proof.
  intros Hx Hy HB Hmax.
  pose proof (finite_le_nonneg _ _ Hx) as Hx0. pose proof (finite_le_nonneg _ _ Hy) as Hy0.
  pose proof (bpow_pos (1 - prec)) as Heps. fold eps in Heps.
  pose proof (bpow_pos (emin prec emax)) as Heta. fold eta in Heta.
  assert (Bx + By <= B)%R as HB1 by nra.
  destruct (finite_le_cases _ _ Hx) as [[sx ->]|(sx & mx & ex & -> & Hmx)],
           (finite_le_cases _ _ Hy) as [[sy ->]|(sy & my & ey & -> & Hmy)].
  - cbn [SFsub]. destruct sx, sy; apply finite_le_zero; lra.
  - cbn [SFsub]. split; [done|]. rewrite B2R_abs. lra.
  - cbn [SFsub]. split; [done|]. rewrite B2R_abs. lra.
  - cbn [SFsub]. apply binary_normalize_finite_le; [|done].
    rewrite !shl_align_fst by lia.
    set (ez := Z.min ex ey).
    set (ax := Zpos mx * 2 ^ (ex - ez)). set (ay := Zpos my * 2 ^ (ey - ez)).
    assert (IZR ax * bpow ez = IZR (Zpos mx) * bpow ex)%R as Hax.
    { unfold ax. rewrite mult_IZR, <-bpow_IZR by (unfold ez; lia).
      rewrite Rmult_assoc, <-bpow_add. do 2 f_equal. lia. }
    assert (IZR ay * bpow ez = IZR (Zpos my) * bpow ey)%R as Hay.
    { unfold ay. rewrite mult_IZR, <-bpow_IZR by (unfold ez; lia).
      rewrite Rmult_assoc, <-bpow_add. do 2 f_equal. lia. }
    assert (0 <= ax) as Hax0 by (unfold ax; apply Z.mul_nonneg_nonneg; [lia|apply Z.pow_nonneg; lia]).
    assert (0 <= ay) as Hay0 by (unfold ay; apply Z.mul_nonneg_nonneg; [lia|apply Z.pow_nonneg; lia]).
    assert (IZR (Z.abs (cond_Zopp sx ax - cond_Zopp sy ay)) <= IZR ax + IZR ay)%R as Habs.
    { rewrite <-plus_IZR. apply IZR_le. destruct sx, sy; cbn [cond_Zopp]; lia. }
    pose proof (bpow_pos ez) as Hpez.
    assert (IZR (Z.abs (cond_Zopp sx ax - cond_Zopp sy ay)) * bpow ez <= Bx + By)%R
      as Hle.
    { eapply Rle_trans; [apply Rmult_le_compat_r; [lra|exact Habs]|].
      rewrite Rmult_plus_distr_r, Hax, Hay. lra. }
    assert (IZR (Z.abs (cond_Zopp sx ax - cond_Zopp sy ay)) * bpow ez * (1 + eps)
            <= (Bx + By) * (1 + eps))%R
      by (apply Rmult_le_compat_r; lra).
    lra.
Qed.

(** *** Canonical results *)

Lemma Zdigits2_bounds (m : Z) :
  0 < m -> 0 < Zdigits2 m /\ 2 ^ (Zdigits2 m - 1) <= m < 2 ^ Zdigits2 m.
Proof.
  destruct m as [|p|p]; [lia| |lia]. intros _. cbn [Zdigits2].
  split; [lia|apply digits2_pos_bounds].
Qed.

Lemma Zdigits2_unique (m k : Z) :
  2 ^ (k - 1) <= m < 2 ^ k -> 0 < m -> Zdigits2 m = k.
Proof.
  intros [Hlo Hhi] Hm. destruct (Zdigits2_bounds m Hm) as (Hd & Hdlo & Hdhi).
  assert (0 < k).
  { destruct (decide (0 < k)); [done|].
    destruct (decide (k = 0)) as [->|]; [cbn in Hhi; lia|].
    rewrite Z.pow_neg_r in Hhi by lia. lia. }
  destruct (Z.lt_trichotomy (Zdigits2 m) k) as [Hlt|[Heq|Hgt]]; [|done|].
  - assert (2 ^ Zdigits2 m <= 2 ^ (k - 1)) by (apply Z.pow_le_mono_r; lia). lia.
  - assert (2 ^ k <= 2 ^ (Zdigits2 m - 1)) by (apply Z.pow_le_mono_r; lia). lia.
Qed.

Lemma Zdigits2_shift (m n : Z) :
  0 < m -> 0 <= n ->
  (m / 2 ^ n = 0 /\ Zdigits2 m <= n) \/
  (0 < m / 2 ^ n /\ n < Zdigits2 m /\ Zdigits2 (m / 2 ^ n) = Zdigits2 m - n).
Proof.
  intros Hm Hn. destruct (Zdigits2_bounds m Hm) as (Hd & Hlo & Hhi).
  assert (0 < 2 ^ n) as Hpn by (apply Z.pow_pos_nonneg; lia).
  destruct (decide (Zdigits2 m <= n)) as [Hle|Hgt].
  - left. split; [|done]. apply Z.div_small. split; [lia|].
    assert (2 ^ Zdigits2 m <= 2 ^ n) by (apply Z.pow_le_mono_r; lia). lia.
  - right.
    assert (2 ^ (Zdigits2 m - n - 1) <= m / 2 ^ n < 2 ^ (Zdigits2 m - n)) as Hb.
    { split.
      - apply Z.div_le_lower_bound; [done|]. rewrite <-Z.pow_add_r by lia.
        by replace (n + (Zdigits2 m - n - 1)) with (Zdigits2 m - 1) by lia.
      - apply Z.div_lt_upper_bound; [done|]. rewrite <-Z.pow_add_r by lia.
        by replace (n + (Zdigits2 m - n)) with (Zdigits2 m) by lia. }
    assert (0 < 2 ^ (Zdigits2 m - n - 1)) by (apply Z.pow_pos_nonneg; lia).
    split_and!; [lia|lia|]. apply Zdigits2_unique; [|lia].
    by replace (Zdigits2 m - n - 1) with (Zdigits2 m - n - 1) in Hb.
Qed.

Lemma Zdigits2_succ (m : Z) :
  0 < m ->
  Zdigits2 (m + 1) = Zdigits2 m \/
  (m + 1 = 2 ^ Zdigits2 m /\ Zdigits2 (m + 1) = Zdigits2 m + 1).
Proof.
  intros Hm. destruct (Zdigits2_bounds m Hm) as (Hd & Hlo & Hhi).
  destruct (decide (m + 1 < 2 ^ Zdigits2 m)) as [Hlt|Hge].
  - left. apply Zdigits2_unique; lia.
  - right. split; [lia|]. apply Zdigits2_unique; [|lia].
    replace (Zdigits2 m + 1 - 1) with (Zdigits2 m) by lia.
    rewrite Z.pow_add_r by lia. change (2 ^ 1) with 2. lia.
Qed.

Lemma fexp_succ (k : Z) :
  fexp prec emax (k + 1) = fexp prec emax k \/
  fexp prec emax (k + 1) = fexp prec emax k + 1.
Proof. unfold fexp. lia. Qed.

Lemma fexp_mono (j k : Z) : j <= k -> fexp prec emax j <= fexp prec emax k.
Proof. unfold fexp. lia. Qed.

(** The rounding of a mantissa that has no digit missing (its exponent is
    at most the one of its canonical form): the mantissa is shifted to the
    canonical exponent [e1] and rounded to [m1]; the result is [m1 * 2^e1],
    in canonical form. *)
Lemma binary_round_aux_shape (s : bool) (mx ex : Z) (lx : location) :
  0 <= mx -> ex <= fexp prec emax (Zdigits2 mx + ex) ->
  let e1 := fexp prec emax (Zdigits2 mx + ex) in
  let mrs := (shr_fexp prec emax mx ex lx).1 in
  let m1 := round_nearest_even (shr_m mrs) (loc_of_shr_record mrs) in
  match binary_round_aux prec emax s mx ex lx with
  | S754_zero s' => s' = s /\ m1 = 0
  | S754_finite s' m e =>
      s' = s /\ SpecFloat.bounded prec emax m e = true /\
      (IZR (Zpos m) * bpow e = IZR m1 * bpow e1)%R
  | S754_infinity s' => s' = s /\ emax - prec < e1 + 1
  | S754_nan => False
  end.
Proof.
  intros Hmx Hex. unfold binary_round_aux. cbv zeta.
  pose proof (shr_fexp_spec mx ex lx Hmx) as H1.
  destruct (shr_fexp prec emax mx ex lx) as [mrs' e'].
  cbv zeta in H1. destruct H1 as (Hm' & He' & _). cbn [fst].
  rewrite Z.max_r in Hm', He' by lia.
  replace (ex + (fexp prec emax (Zdigits2 mx + ex) - ex))
    with (fexp prec emax (Zdigits2 mx + ex)) in He' by lia.
  rewrite <-He'.
  set (n1 := fexp prec emax (Zdigits2 mx + ex) - ex) in *.
  set (m1 := round_nearest_even (shr_m mrs') (loc_of_shr_record mrs')).
  pose proof (round_nearest_even_bounds (shr_m mrs') (loc_of_shr_record mrs')) as [Hrne _].
  fold m1 in Hrne.
  assert (0 < 2 ^ n1) as Hp1 by (apply Z.pow_pos_nonneg; lia).
  assert (0 <= shr_m mrs') as Hm'0 by (rewrite Hm'; apply Z.div_pos; lia).
  assert (0 <= m1) as Hm1 by lia.
  (* the rounded mantissa has at most one digit in excess, and is then a
     power of 2 *)
  assert (m1 = 0 \/
          (0 < m1 /\
           (fexp prec emax (Zdigits2 m1 + e') = e' \/
            (fexp prec emax (Zdigits2 m1 + e') = e' + 1 /\
             m1 = 2 ^ (Zdigits2 m1 - 1) /\ 1 < Zdigits2 m1)))) as HK.
  { destruct (decide (m1 = 0)) as [|Hne]; [by left|]. right. split; [lia|].
    destruct (decide (shr_m mrs' = 0)) as [Hz|Hnz].
    - (* everything was shifted out: the exponent is the least one *)
      assert (m1 = 1) as -> by lia. left. cbn [Zdigits2 digits2_pos].
      assert (e' = emin prec emax) as ->.
      { destruct (decide (mx = 0)) as [->|Hmx0].
        - cbn [Zdigits2] in *. unfold fexp in *. lia.
        - destruct (Zdigits2_shift mx n1 ltac:(lia) ltac:(lia)) as [[_ Hd]|[Hpos _]];
            [|rewrite <-Hm' in Hpos; lia].
          unfold n1 in Hd. unfold fexp in *. lia. }
      unfold fexp. lia.
    - assert (0 < mx) as Hmxp.
      { destruct (decide (mx = 0)) as [->|]; [|lia].
        rewrite Z.div_0_l in Hm' by lia. lia. }
      destruct (Zdigits2_shift mx n1 Hmxp ltac:(lia)) as [[Hz _]|(Hpos & Hn & Hd)];
        [rewrite <-Hm' in Hz; lia|].
      rewrite <-Hm' in Hd, Hpos.
      assert (fexp prec emax (Zdigits2 (shr_m mrs') + e') = e') as Hcan.
      { rewrite Hd, He'. f_equal. unfold n1. lia. }
      destruct (decide (m1 = shr_m mrs')) as [->|Hup]; [by left|].
      assert (m1 = shr_m mrs' + 1) as Hm1' by lia.
      destruct (Zdigits2_succ (shr_m mrs') Hpos) as [Hsame|[Hpow Hmore]].
      + left. rewrite Hm1', Hsame. done.
      + rewrite <-Hm1' in Hpow, Hmore.
        destruct (fexp_succ (Zdigits2 (shr_m mrs') + e')) as [Hf|Hf].
        * left. rewrite Hmore. rewrite <-Z.add_assoc, (Z.add_comm 1 e'), Z.add_assoc.
          by rewrite Hf.
        * right. split_and!.
          -- rewrite Hmore. rewrite <-Z.add_assoc, (Z.add_comm 1 e'), Z.add_assoc.
             rewrite Hf. lia.
          -- rewrite Hmore. rewrite Hpow. f_equal. lia.
          -- destruct (Zdigits2_bounds (shr_m mrs') Hpos) as [? _]. lia. }
  pose proof (shr_fexp_spec m1 e' loc_Exact Hm1) as H2.
  destruct (shr_fexp prec emax m1 e' loc_Exact) as [mrs'' e''].
  cbv zeta in H2. destruct H2 as (Hm'' & He'' & _).
  destruct HK as [Hz|[Hpos [Hcan|(Hcan & Hpow & Hd1)]]].
  - rewrite Hz, Z.div_0_l in Hm'' by (apply Z.pow_nonzero; lia). by rewrite Hm''.
  - rewrite Hcan, Z.sub_diag in Hm'', He''. change (Z.max 0 0) with 0 in Hm'', He''.
    rewrite Z.div_1_r in Hm''. rewrite Z.add_0_r in He''. subst e''. rewrite Hm''.
    destruct m1 as [|m|m]; [lia| |lia].
    destruct (_ <=? _) eqn:Hle; [|apply Z.leb_gt in Hle; split; [done|lia]].
    split_and!; [done| |done]. unfold SpecFloat.bounded, canonical_mantissa.
    rewrite Hle. cbn [Zdigits2] in Hcan. rewrite Hcan, Z.eqb_refl. done.
  - rewrite Hcan in Hm'', He''.
    replace (e' + 1 - e') with 1 in Hm'', He'' by lia.
    change (Z.max 0 1) with 1 in Hm'', He''.
    assert (shr_m mrs'' = 2 ^ (Zdigits2 m1 - 2)) as Hval.
    { rewrite Hm''. rewrite Hpow at 1.
      replace (Zdigits2 m1 - 1) with ((Zdigits2 m1 - 2) + 1) by lia.
      rewrite Z.pow_add_r by lia. apply Z.div_mul. done. }
    assert (0 < 2 ^ (Zdigits2 m1 - 2)) as Hp by (apply Z.pow_pos_nonneg; lia).
    assert (Zdigits2 (shr_m mrs'') = Zdigits2 m1 - 1) as Hdig.
    { apply Zdigits2_unique; [|lia]. rewrite Hval.
      replace (Zdigits2 m1 - 1 - 1) with (Zdigits2 m1 - 2) by lia.
      split; [lia|]. apply Z.pow_lt_mono_r; lia. }
    assert (IZR (shr_m mrs'') * bpow e'' = IZR m1 * bpow e')%R as Hsame.
    { assert (IZR m1 = bpow (Zdigits2 m1 - 1)) as ->
        by (rewrite bpow_IZR by lia; by rewrite <-Hpow).
      rewrite He'', Hval, <-bpow_IZR by lia. rewrite <-!bpow_add. f_equal. lia. }
    destruct (shr_m mrs'') as [|m|m]; [exfalso; lia| |lia].
    destruct (_ <=? _) eqn:Hle; [|apply Z.leb_gt in Hle; split; [done|lia]].
    split_and!; [done| |done]. unfold SpecFloat.bounded, canonical_mantissa.
    rewrite Hle. cbn [Zdigits2] in Hdig. rewrite Hdig, He''.
    replace (Zdigits2 m1 - 1 + (e' + 1)) with (Zdigits2 m1 + e') by lia.
    rewrite Hcan, Z.eqb_refl. done.
Qed.

Lemma binary_round_aux_valid (s : bool) (mx ex : Z) (lx : location) :
  0 <= mx -> ex <= fexp prec emax (Zdigits2 mx + ex) ->
  valid_binary prec emax (binary_round_aux prec emax s mx ex lx) = true.
Proof.
  intros Hmx Hex. pose proof (binary_round_aux_shape s mx ex lx Hmx Hex) as Hs.
  cbv zeta in Hs.
  destruct (binary_round_aux prec emax s mx ex lx) as [| | |s' m e]; try done.
  by destruct Hs as (_ & Hb & _).
Qed.

(** Such a rounding is less than one unit of the last place below the
    exact value. *)
Lemma binary_round_aux_lower (s : bool) (mx ex : Z) (lx : location) :
  0 <= mx -> ex <= fexp prec emax (Zdigits2 mx + ex) ->
  is_finite (binary_round_aux prec emax s mx ex lx) = true ->
  (IZR mx * bpow ex - bpow (fexp prec emax (Zdigits2 mx + ex))
   <= Rabs (B2R (binary_round_aux prec emax s mx ex lx)))%R.
Proof.
  intros Hmx Hex Hfin. pose proof (binary_round_aux_shape s mx ex lx Hmx Hex) as Hs.
  cbv zeta in Hs.
  pose proof (shr_fexp_spec mx ex lx Hmx) as H1.
  destruct (shr_fexp prec emax mx ex lx) as [mrs' e']. cbn [fst] in Hs.
  cbv zeta in H1. destruct H1 as (Hm' & _ & _). rewrite Z.max_r in Hm' by lia.
  set (e1 := fexp prec emax (Zdigits2 mx + ex)) in *.
  set (m1 := round_nearest_even (shr_m mrs') (loc_of_shr_record mrs')) in *.
  pose proof (round_nearest_even_bounds (shr_m mrs') (loc_of_shr_record mrs')) as [Hrne _].
  fold m1 in Hrne.
  assert (0 < 2 ^ (e1 - ex)) as Hp by (apply Z.pow_pos_nonneg; lia).
  (* the mantissa kept is less than 1 below the exact quotient *)
  assert (IZR mx * bpow ex - bpow e1 <= IZR m1 * bpow e1)%R as Hlow.
  { assert (IZR mx <= (IZR m1 + 1) * bpow (e1 - ex))%R as Hq.
    { rewrite bpow_IZR by lia. rewrite <-plus_IZR, <-mult_IZR. apply IZR_le.
      pose proof (Z.mul_succ_div_gt mx (2 ^ (e1 - ex)) Hp). nia. }
    replace e1 with ((e1 - ex) + ex) at 1 2 by lia. rewrite bpow_add.
    pose proof (bpow_pos ex). pose proof (bpow_pos (e1 - ex)).
    assert (IZR mx * bpow ex <= (IZR m1 + 1) * bpow (e1 - ex) * bpow ex)%R
      by (apply Rmult_le_compat_r; lra).
    lra. }
  destruct (binary_round_aux prec emax s mx ex lx) as [s'|s'| |s' m e]; try done.
  - destruct Hs as [_ Hz]. rewrite Hz in Hlow. rewrite B2R_zero, Rabs_R0. lra.
  - destruct Hs as (_ & _ & Hv). rewrite B2R_abs, Hv. done.
Qed.

(** [shl_align] gives a mantissa that has no digit missing. *)
Lemma shl_align_digits (m : positive) (e : Z) :
  let e' := fexp prec emax (Zpos (digits2_pos m) + e) in
  (shl_align m e e').2 <= fexp prec emax (Zdigits2 (Zpos (shl_align m e e').1)
                                          + (shl_align m e e').2).
Proof.
  cbv zeta. unfold shl_align.
  destruct (fexp prec emax (Zpos (digits2_pos m) + e) - e) as [|k|k] eqn:Hk;
    cbn [fst snd Zdigits2]; [lia..|].
  destruct (iter_xO_spec m k) as [_ ->].
  replace (Zpos (digits2_pos m) + Zpos k + fexp prec emax (Zpos (digits2_pos m) + e))
    with (Zpos (digits2_pos m) + e) by lia.
  lia.
Qed.

Lemma binary_normalize_lower (m e : Z) :
  is_finite (binary_normalize prec emax m e false) = true ->
  (IZR (Z.abs m) * bpow e * (1 - eps) - eta
   <= Rabs (B2R (binary_normalize prec emax m e false)))%R.
Proof.
  pose proof (bpow_pos (1 - prec)) as Heps. fold eps in Heps.
  pose proof (bpow_pos (emin prec emax)) as Heta. fold eta in Heta.
  assert (forall s p, is_finite (binary_round prec emax s p e) = true ->
    (IZR (Zpos p) * bpow e * (1 - eps) - eta
     <= Rabs (B2R (binary_round prec emax s p e)))%R) as Hround.
  { intros s p. unfold binary_round.
    pose proof (shl_align_value p e (fexp prec emax (Zpos (digits2_pos p) + e))) as Hv.
    pose proof (shl_align_digits p e) as Hd. cbv zeta in Hd.
    destruct (shl_align p e _) as [mz ez]. cbn [fst snd] in Hv, Hd. intros Hfin.
    pose proof (binary_round_aux_lower s (Zpos mz) ez loc_Exact ltac:(lia) Hd Hfin) as Hl.
    pose proof (round_err_digits mz ez) as He. rewrite Hv in *. lra. }
  destruct m as [|p|p]; cbn [binary_normalize Z.abs].
  - intros _. rewrite B2R_zero, Rabs_R0, !Rmult_0_l. lra.
  - apply Hround.
  - apply Hround.
Qed.

(** The quotient of [SFdiv] has no digit missing. *)
Lemma div_core_digits (m1 m2 : positive) (e1 e2 : Z) :
  let '(q, e', l) := SFdiv_core_binary prec emax (Zpos m1) e1 (Zpos m2) e2 in
  0 <= q /\ e' <= fexp prec emax (Zdigits2 q + e').
Proof.
  unfold SFdiv_core_binary.
  set (d1 := Zdigits2 (Zpos m1)). set (d2 := Zdigits2 (Zpos m2)).
  set (D := d1 + e1 - (d2 + e2)).
  set (e' := Z.min (fexp prec emax D) (e1 - e2)).
  set (sh := e1 - e2 - e').
  assert (0 <= sh) as Hsh by (unfold sh, e'; lia).
  set (m' := match sh with Zpos _ => Z.shiftl (Zpos m1) sh | 0 => Zpos m1 | Zneg _ => 0 end).
  assert (m' = Zpos m1 * 2 ^ sh) as Hm'.
  { unfold m'. destruct sh as [|p|p]; [lia| |lia]. by rewrite Z.shiftl_mul_pow2. }
  clearbody m'.
  pose proof (Z_div_mod m' (Zpos m2) ltac:(lia)) as Hqr.
  destruct (Z.div_eucl m' (Zpos m2)) as [q r]. destruct Hqr as [Hqr Hr].
  assert (0 < 2 ^ sh) as Hpsh by (apply Z.pow_pos_nonneg; lia).
  assert (0 <= q) as Hq by nia.
  split; [done|].
  destruct (Zdigits2_bounds (Zpos m1) ltac:(lia)) as (Hd1 & Hlo1 & Hhi1).
  destruct (Zdigits2_bounds (Zpos m2) ltac:(lia)) as (Hd2 & Hlo2 & Hhi2).
  fold d1 in Hd1, Hlo1, Hhi1. fold d2 in Hd2, Hlo2, Hhi2.
  (* the quotient has at least [d1 + sh - d2] digits *)
  assert (d1 + sh - d2 <= Zdigits2 q) as Hdq.
  { destruct (decide (d1 + sh - d2 <= 0)) as [Hle|Hgt].
    - destruct q as [|q|q]; [cbn [Zdigits2]; lia..|lia].
    - assert (2 ^ (d1 + sh - d2 - 1) <= q) as Hqlo.
      { assert (0 < 2 ^ (d1 + sh - d2 - 1)) by (apply Z.pow_pos_nonneg; lia).
        assert (2 ^ (d1 - 1) * 2 ^ sh = 2 ^ (d1 + sh - d2 - 1) * 2 ^ d2) as Heq.
        { rewrite <-!Z.pow_add_r by lia. f_equal. lia. }
        destruct (decide (2 ^ (d1 + sh - d2 - 1) <= q)); [done|]. exfalso.
        assert (q + 1 <= 2 ^ (d1 + sh - d2 - 1)) by lia.
        assert (m' < Zpos m2 * (q + 1)) by lia.
        assert (Zpos m2 * (q + 1) <= Zpos m2 * 2 ^ (d1 + sh - d2 - 1))
          by (apply Z.mul_le_mono_nonneg_l; lia).
        assert (Zpos m2 * 2 ^ (d1 + sh - d2 - 1) < 2 ^ d2 * 2 ^ (d1 + sh - d2 - 1))
          by (apply Z.mul_lt_mono_pos_r; lia).
        assert (2 ^ (d1 - 1) * 2 ^ sh <= m') by (rewrite Hm'; apply Z.mul_le_mono_nonneg_r; lia).
        lia. }
      assert (0 < q) as Hqpos.
      { assert (0 < 2 ^ (d1 + sh - d2 - 1)) by (apply Z.pow_pos_nonneg; lia). lia. }
      destruct (Zdigits2_bounds q Hqpos) as (Hdq & _ & Hqhi).
      destruct (decide (d1 + sh - d2 <= Zdigits2 q)); [done|]. exfalso.
      assert (2 ^ Zdigits2 q <= 2 ^ (d1 + sh - d2 - 1)) by (apply Z.pow_le_mono_r; lia).
      lia. }
  eapply Z.le_trans; [|apply (fexp_mono D)].
  - unfold e'. lia.
  - unfold D, sh in *. lia.
Qed.

Lemma SFdiv_valid (x y : spec_float) : valid_binary prec emax (SFdiv prec emax x y) = true.
Proof.
  destruct x as [sx|sx| |sx mx ex], y as [sy|sy| |sy my ey]; try done.
  unfold SFdiv. pose proof (div_core_digits mx my ex ey) as Hcore.
  destruct (SFdiv_core_binary prec emax (Zpos mx) ex (Zpos my) ey) as [[q e'] l].
  destruct Hcore as [Hq He']. by apply binary_round_aux_valid.
Qed.

Lemma div_finite_ge (x y : spec_float) :
  is_finite x = true -> is_finite y = true -> is_finite (SFdiv prec emax x y) = true ->
  (Rabs (B2R x) / Rabs (B2R y) * (1 - 2 * eps) - 2 * eta
   <= Rabs (B2R (SFdiv prec emax x y)))%R.
Proof.
  intros Hx Hy.
  pose proof (bpow_pos (1 - prec)) as Heps. fold eps in Heps.
  pose proof (bpow_pos (emin prec emax)) as Heta. fold eta in Heta.
  destruct x as [sx|sx| |sx mx ex], y as [sy|sy| |sy my ey]; try done.
  - intros _. cbn [SFdiv]. rewrite !B2R_zero, Rabs_R0.
    unfold Rdiv. rewrite !Rmult_0_l. lra.
  - unfold SFdiv. pose proof (div_core_digits mx my ex ey) as Hdig.
    pose proof (div_core_bound mx my ex ey) as Hcore.
    destruct (SFdiv_core_binary prec emax (Zpos mx) ex (Zpos my) ey) as [[q e'] l].
    destruct Hdig as [Hq He']. destruct Hcore as (_ & _ & Hlow). intros Hfin.
    pose proof (binary_round_aux_lower (xorb sx sy) q e' l Hq He' Hfin) as Hl.
    rewrite !B2R_abs. lra.
Qed.
(** *** Rounding to nearest, ties to even *)

Lemma iter_pos_nat {A : Type} (f : A -> A) (p : positive) (x : A) :
  SpecFloat.iter_pos f p x = Nat.iter (Pos.to_nat p) f x.
Proof.
  revert x. induction p as [p IH|p IH|]; intros x; cbn [SpecFloat.iter_pos].
  - rewrite !IH, Pos2Nat.inj_xI, <-Nat.iter_add, <-Nat.iter_succ_r.
    f_equal. lia.
  - rewrite !IH, Pos2Nat.inj_xO, <-Nat.iter_add. f_equal. lia.
  - done.
Qed.

Lemma shr_1_record (mrs : shr_record) :
  0 <= shr_m mrs ->
  shr_1 mrs = {| shr_m := shr_m mrs / 2; shr_r := Z.odd (shr_m mrs);
                 shr_s := shr_r mrs || shr_s mrs |}.
Proof.
  destruct mrs as [m r s]. cbn [shr_m shr_r shr_s shr_1]. intros Hm.
  destruct m as [|p|p]; [done| |lia].
  destruct p as [p|p|]; cbn [Z.odd]; f_equal.
  - rewrite Pos2Z.inj_xI. apply (Z.div_unique_pos _ 2 _ 1); lia.
  - change (Zpos p~0) with (2 * Zpos p). apply (Z.div_unique_pos _ 2 _ 0); lia.
Qed.

(** After [k + 1] shifts, the record holds the quotient by [2^(k+1)], the
    last digit dropped, and whether a digit dropped before it is 1. *)
Lemma iter_shr_1_record (k : nat) (m0 : Z) :
  0 <= m0 ->
  Nat.iter (S k) shr_1 {| shr_m := m0; shr_r := false; shr_s := false |}
  = {| shr_m := m0 / 2 ^ Z.of_nat (S k);
       shr_r := Z.odd (m0 / 2 ^ Z.of_nat k);
       shr_s := negb (m0 mod 2 ^ Z.of_nat k =? 0) |}.
Proof.
  intros Hm0. induction k as [|k IH].
  - cbn [Nat.iter]. rewrite shr_1_record by done. cbn [shr_m shr_r shr_s orb].
    change (2 ^ Z.of_nat 1) with 2. change (2 ^ Z.of_nat 0) with 1.
    by rewrite Z.div_1_r, Z.mod_1_r.
  - change (Nat.iter (S (S k)) shr_1 ?x) with (shr_1 (Nat.iter (S k) shr_1 x)).
    rewrite IH.
    assert (0 < 2 ^ Z.of_nat k) as Hpk by (apply Z.pow_pos_nonneg; lia).
    assert (0 < 2 ^ Z.of_nat (S k)) as Hpk' by (apply Z.pow_pos_nonneg; lia).
    rewrite shr_1_record by (cbn [shr_m]; apply Z.div_pos; lia).
    cbn [shr_m shr_r shr_s]. f_equal.
    + rewrite Z.div_div by lia. f_equal.
      rewrite (Nat2Z.inj_succ (S k)), Z.pow_succ_r by lia. lia.
    + assert (2 ^ Z.of_nat (S k) = 2 ^ Z.of_nat k * 2) as Hpow
        by (rewrite Nat2Z.inj_succ, Z.pow_succ_r by lia; lia).
      rewrite Hpow, Z.rem_mul_r by lia.
      pose proof (Z.mod_pos_bound m0 (2 ^ Z.of_nat k) Hpk) as Hr.
      pose proof (Z.mod_pos_bound (m0 / 2 ^ Z.of_nat k) 2 ltac:(lia)) as Hb.
      rewrite Zodd_mod.
      destruct (Z.eqb_spec (m0 mod 2 ^ Z.of_nat k) 0) as [Hz|Hnz],
               (Z.eqb_spec ((m0 / 2 ^ Z.of_nat k) mod 2) 1) as [Ho|Hno];
        cbn [negb orb]; symmetry.
      * apply negb_true_iff, Z.eqb_neq. nia.
      * apply negb_false_iff, Z.eqb_eq. nia.
      * apply negb_true_iff, Z.eqb_neq. nia.
      * apply negb_true_iff, Z.eqb_neq. nia.
Qed.

(** The mantissa is rounded up only if the digits dropped are more than a
    half, or a half with an odd quotient. *)
Lemma shr_round_up (m0 : Z) (p : positive) :
  0 <= m0 ->
  let mrs := SpecFloat.iter_pos shr_1 p {| shr_m := m0; shr_r := false; shr_s := false |} in
  round_nearest_even (shr_m mrs) (loc_of_shr_record mrs) <> shr_m mrs ->
  2 ^ (Zpos p - 1) < m0 mod 2 ^ Zpos p \/
  (m0 mod 2 ^ Zpos p = 2 ^ (Zpos p - 1) /\ Z.odd (m0 / 2 ^ Zpos p) = true).
Proof.
  intros Hm0. cbv zeta. rewrite iter_pos_nat.
  destruct (Pos2Nat.is_succ p) as [k Hk]. rewrite Hk, iter_shr_1_record by done.
  assert (Zpos p = Z.of_nat (S k)) as -> by lia.
  replace (Z.of_nat (S k) - 1) with (Z.of_nat k) by lia.
  cbn [shr_m loc_of_shr_record].
  assert (0 < 2 ^ Z.of_nat k) as Hpk by (apply Z.pow_pos_nonneg; lia).
  assert (2 ^ Z.of_nat (S k) = 2 ^ Z.of_nat k * 2) as Hpow
    by (rewrite Nat2Z.inj_succ, Z.pow_succ_r by lia; lia).
  rewrite Hpow. rewrite Z.rem_mul_r by lia.
  pose proof (Z.mod_pos_bound m0 (2 ^ Z.of_nat k) Hpk) as Hr.
  pose proof (Z.mod_pos_bound (m0 / 2 ^ Z.of_nat k) 2 ltac:(lia)) as Hb.
  rewrite (Zodd_mod (m0 / 2 ^ Z.of_nat k)).
  destruct (Z.eqb_spec ((m0 / 2 ^ Z.of_nat k) mod 2) 1) as [Ho|Hno],
           (Z.eqb_spec (m0 mod 2 ^ Z.of_nat k) 0) as [Hz|Hnz];
    cbn [negb round_nearest_even]; intros Hup; try done.
  - right. split; [nia|]. destruct (Z.even _) eqn:He; [done|].
    by rewrite <-Z.negb_even, He.
  - left. nia.
Qed.
(** *** Saturation

    At [2^prec] the numbers of the format are 2 apart: the rounding of an
    exact value in [[0, 2^prec + 1]] is at most [2^prec] (the value
    [2^prec + 1] is a tie, and goes to the even mantissa of [2^prec]). *)
Lemma round_saturates (s : bool) (mx : positive) (ex : Z) :
  1 < prec -> prec + 2 <= emax ->
  ex <= fexp prec emax (Zdigits2 (Zpos mx) + ex) ->
  (IZR (Zpos mx) * bpow ex <= bpow prec + 1)%R ->
  finite_le (binary_round_aux prec emax s (Zpos mx) ex loc_Exact) (bpow prec) /\
  match binary_round_aux prec emax s (Zpos mx) ex loc_Exact with
  | S754_zero s' | S754_finite s' _ _ => s' = s
  | _ => False
  end.
Proof.
  intros Hprec2 Hemax2 Hex HV.
  pose proof (binary_round_aux_shape s (Zpos mx) ex loc_Exact ltac:(lia) Hex) as Hs.
  cbv zeta in Hs.
  destruct (Zdigits2_bounds (Zpos mx) ltac:(lia)) as (Hd & Hlo & Hhi).
  set (d := Zdigits2 (Zpos mx)) in *.
  set (e1 := fexp prec emax (d + ex)) in *.
  set (mrs := (shr_fexp prec emax (Zpos mx) ex loc_Exact).1) in *.
  set (m1 := round_nearest_even (shr_m mrs) (loc_of_shr_record mrs)) in *.
  pose proof (round_nearest_even_bounds (shr_m mrs) (loc_of_shr_record mrs)) as [Hrne Hexact].
  fold m1 in Hrne, Hexact.
  assert (shr_m mrs = Zpos mx / 2 ^ (e1 - ex) /\
          (e1 - ex = 0 -> loc_of_shr_record mrs = loc_Exact)) as [Hm' Hl'].
  { pose proof (shr_fexp_spec (Zpos mx) ex loc_Exact ltac:(lia)) as H1. unfold mrs.
    destruct (shr_fexp prec emax (Zpos mx) ex loc_Exact) as [mrs' e'].
    cbv zeta in H1. destruct H1 as (H1 & _ & H3). fold d e1 in H1, H3.
    rewrite Z.max_r in H1, H3 by lia. done. }
  assert (0 < 2 ^ (e1 - ex)) as Hpn by (apply Z.pow_pos_nonneg; lia).
  assert (0 <= shr_m mrs) as Hm'0 by (rewrite Hm'; apply Z.div_pos; lia).
  pose proof (bpow_pos e1) as Hpe1. pose proof (bpow_pos ex) as Hpex.
  assert (4 <= bpow prec)%R as Hp4.
  { change 4%R with (IZR (2 ^ 2)). rewrite <-bpow_IZR by lia. apply bpow_le. lia. }
  (* the rounded mantissa, at the canonical exponent, is at most [2^prec] *)
  assert ((IZR m1 * bpow e1 <= bpow prec)%R /\ e1 <= 1) as [Hval He1].
  { destruct (Z.lt_trichotomy (d + ex) (prec + 1)) as [Hlt|[Heq|Hgt]].
    - (* below [2^prec] *)
      assert (e1 <= 0) as He10 by (unfold e1, fexp, emin; lia).
      split; [|lia].
      destruct (Zdigits2_shift (Zpos mx) (e1 - ex) ltac:(lia) ltac:(lia))
        as [[Hz _]|(Hpos & Hn & Hdig)].
      + rewrite <-Hm' in Hz. assert (IZR m1 <= 1)%R by (apply IZR_le; lia).
        assert (bpow e1 <= 1)%R by (change 1%R with (bpow 0); apply bpow_le; lia).
        assert (0 <= IZR m1)%R by (apply IZR_le; lia). nra.
      + rewrite <-Hm' in Hpos, Hdig. fold d in Hdig, Hn.
        destruct (Zdigits2_bounds (shr_m mrs) Hpos) as (_ & _ & Hb). rewrite Hdig in Hb.
        assert (IZR m1 <= bpow (d - (e1 - ex)))%R as Hm1.
        { rewrite bpow_IZR by lia. apply IZR_le. lia. }
        assert (bpow (d - (e1 - ex)) * bpow e1 <= bpow prec)%R.
        { rewrite <-bpow_add. apply bpow_le. lia. }
        assert (IZR m1 * bpow e1 <= bpow (d - (e1 - ex)) * bpow e1)%R
          by (apply Rmult_le_compat_r; lra).
        lra.
    - (* from [2^prec] to [2^prec + 1] *)
      assert (e1 = 1) as He11 by (unfold e1, fexp, emin; lia).
      split; [|lia]. rewrite He11 in *. rewrite bpow_1.
      assert (2 ^ prec = 2 ^ (prec - 1) * 2) as Hpp.
      { replace prec with ((prec - 1) + 1) at 1 by lia.
        rewrite Z.pow_add_r by lia. done. }
      assert (0 < 2 ^ (prec - 1)) as Hpp' by (apply Z.pow_pos_nonneg; lia).
      assert (IZR m1 <= IZR (2 ^ (prec - 1)))%R; [apply IZR_le|].
      2: { rewrite (bpow_IZR prec), Hpp, mult_IZR by lia. lra. }
      destruct (decide (ex = 1)) as [->|Hne].
      + (* no digit is dropped *)
        change (1 - 1) with 0 in *. rewrite Z.div_1_r in Hm'.
        rewrite Hexact by (by apply Hl'). rewrite Hm'.
        rewrite bpow_1, (bpow_IZR prec) in HV by lia.
        assert (Zpos mx * 2 <= 2 ^ prec + 1) as HVz.
        { apply le_IZR. rewrite plus_IZR, mult_IZR. lra. }
        lia.
      + (* the digits dropped make at most a half *)
        assert (0 < 1 - ex) as Hn by lia.
        assert (Zpos mx <= (2 ^ prec + 1) * 2 ^ (- ex)) as HVz.
        { apply le_IZR. rewrite mult_IZR, plus_IZR, <-!bpow_IZR by lia.
          apply (Rmult_le_reg_r (bpow ex)); [done|].
          rewrite Rmult_assoc, <-bpow_add, Z.add_opp_diag_l.
          change (bpow 0) with 1%R. lra. }
        assert (2 ^ (1 - ex) = 2 ^ (- ex) * 2) as Hp1.
        { replace (1 - ex) with ((- ex) + 1) by lia. rewrite Z.pow_add_r by lia. done. }
        assert (0 < 2 ^ (- ex)) as Hp2 by (apply Z.pow_pos_nonneg; lia).
        assert (2 ^ (d - 1) = 2 ^ (prec - 1) * 2 ^ (1 - ex)) as Hp3.
        { rewrite <-Z.pow_add_r by lia. f_equal. lia. }
        assert (Zpos mx / 2 ^ (1 - ex) = 2 ^ (prec - 1) /\
                Zpos mx mod 2 ^ (1 - ex) = Zpos mx - 2 ^ (prec - 1) * 2 ^ (1 - ex))
          as [Hq Hr].
        { split; [symmetry; apply (Z.div_unique_pos _ _ _
                    (Zpos mx - 2 ^ (prec - 1) * 2 ^ (1 - ex)))
                 |symmetry; apply (Z.mod_unique_pos _ _ (2 ^ (prec - 1)))]; nia. }
        destruct (decide (m1 = shr_m mrs)) as [->|Hup]; [lia|]. exfalso.
        assert (mrs = SpecFloat.iter_pos shr_1 (Z.to_pos (1 - ex))
                        {| shr_m := Zpos mx; shr_r := false; shr_s := false |}) as Hmrs.
        { unfold mrs, shr_fexp, shr. fold d e1. rewrite He11.
          destruct (1 - ex) as [|p|p] eqn:Hp; [lia| |lia]. done. }
        pose proof (shr_round_up (Zpos mx) (Z.to_pos (1 - ex)) ltac:(lia)) as Hru.
        cbv zeta in Hru. rewrite <-Hmrs in Hru. fold m1 in Hru.
        rewrite Z2Pos.id in Hru by lia. rewrite Hq, Hr in Hru.
        replace (1 - ex - 1) with (- ex) in Hru by lia.
        destruct (Hru Hup) as [Hgt|[_ Hodd]]; [nia|].
        replace (prec - 1) with ((prec - 2) + 1) in Hodd by lia.
        rewrite Z.pow_add_r, Z.odd_mul in Hodd by lia.
        by rewrite andb_false_r in Hodd.
    - (* above: excluded *)
      exfalso.
      assert (bpow (prec + 1) <= IZR (Zpos mx) * bpow ex)%R.
      { eapply Rle_trans; [apply (bpow_le _ (d - 1 + ex)); lia|].
        rewrite bpow_add. apply Rmult_le_compat_r; [lra|].
        rewrite bpow_IZR by lia. by apply IZR_le. }
      rewrite bpow_add, bpow_1 in *. lra. }
  assert (0 <= m1) as Hm10 by lia.
  destruct (binary_round_aux prec emax s (Zpos mx) ex loc_Exact) as [s'|s'| |s' m e].
  - destruct Hs as [-> _]. split; [|done]. apply finite_le_zero. lra.
  - destruct Hs as [_ Hs]. lia.
  - done.
  - destruct Hs as (-> & _ & Hv). split; [|done]. split; [done|].
    rewrite B2R_abs, Hv. done.
Qed.
(** [x] is finite, not negative and at most [B]. *)
Definition in_range (B : R) (x : spec_float) : Prop :=
  is_finite x = true /\ not_negative x /\ (Rabs (B2R x) <= B)%R.

(** A sum that is at most [2^prec] stays so when a number of [[0, 1]] is
    added to it. *)
Lemma add_saturates (x y : spec_float) :
  1 < prec -> prec + 2 <= emax ->
  in_range (bpow prec) x -> in_range 1 y ->
  in_range (bpow prec) (SFadd prec emax x y).
Proof.
  intros Hprec2 Hemax2 (Hfx & Hnx & Hx) (Hfy & Hny & Hy). unfold in_range.
  assert (4 <= bpow prec)%R as Hp4.
  { change 4%R with (IZR (2 ^ 2)). rewrite <-bpow_IZR by lia. apply bpow_le. lia. }
  destruct x as [sx|sx| |sx mx ex], y as [sy|sy| |sy my ey]; try done.
  - cbn [SFadd]. destruct sx, sy; split_and!; try done; rewrite B2R_zero, Rabs_R0; lra.
  - cbn [SFadd]. split_and!; [reflexivity|exact Hny|lra].
  - destruct sx; [done|]. destruct sy; [done|].
    rewrite B2R_abs in Hx, Hy. cbn [SFadd cond_Zopp].
    set (ez := Z.min ex ey).
    set (a := (shl_align mx ex ez).1). set (b := (shl_align my ey ez).1).
    change (Zpos a + Zpos b) with (Zpos (a + b)). cbn [binary_normalize].
    assert ((IZR (Zpos (a + b)) * bpow ez <= bpow prec + 1)%R) as HV.
    { rewrite Pos2Z.inj_add, plus_IZR. unfold a, b.
      rewrite !shl_align_fst by (unfold ez; lia).
      rewrite !mult_IZR, <-!bpow_IZR by (unfold ez; lia).
      rewrite Rmult_plus_distr_r, !Rmult_assoc, <-!bpow_add.
      replace (ex - ez + ez) with ex by lia. replace (ey - ez + ez) with ey by lia.
      lra. }
    unfold binary_round.
    pose proof (shl_align_value (a + b) ez
                  (fexp prec emax (Zpos (digits2_pos (a + b)) + ez))) as Hv.
    pose proof (shl_align_digits (a + b) ez) as Hd. cbv zeta in Hd.
    destruct (shl_align (a + b) ez _) as [mz ez']. cbn [fst snd] in Hv, Hd.
    rewrite <-Hv in HV.
    destruct (round_saturates false mz ez' Hprec2 Hemax2 Hd HV) as [[Hf Hb] Hsign].
    split_and!; [done| |done].
    destruct (binary_round_aux prec emax false (Zpos mz) ez' loc_Exact) as [| | |[] ? ?]; done.
Qed.
End Rounding.

Section RoundingBelow.
Variables (prec emax : Z).
Hypothesis Hprec : 0 < prec.

(** The rounding of an exact value, from below. *)
Lemma round_exact_lower (s : bool) (m : positive) (e : Z) :
  is_finite (binary_round_aux prec emax s (Zpos m) e loc_Exact) = true ->
  (IZR (Zpos m) * bpow e * (1 - eps prec) - eta prec emax
   <= Rabs (B2R (binary_round_aux prec emax s (Zpos m) e loc_Exact)))%R.
Proof.
  pose proof (bpow_pos (1 - prec)) as Heps. fold (eps prec) in Heps.
  pose proof (bpow_pos (emin prec emax)) as Heta. fold (eta prec emax) in Heta.
  assert (0 < IZR (Zpos m) * bpow e)%R as HV.
  { apply Rmult_lt_0_compat; [apply IZR_lt; lia|apply bpow_pos]. }
  destruct (decide (e <= fexp prec emax (Zdigits2 (Zpos m) + e))) as [Hle|Hgt].
  - intros Hfin.
    pose proof (binary_round_aux_lower prec emax Hprec s (Zpos m) e loc_Exact
                  ltac:(lia) Hle Hfin) as Hl.
    pose proof (round_err_digits prec emax m e) as He. lra.
  - (* no digit is dropped: the result is exact *)
    unfold binary_round_aux.
    pose proof (shr_fexp_spec prec emax (Zpos m) e loc_Exact ltac:(lia)) as H1.
    destruct (shr_fexp prec emax (Zpos m) e loc_Exact) as [mrs' e'].
    cbv zeta in H1. rewrite Z.max_l in H1 by lia.
    destruct H1 as (Hm' & He' & Hl'). rewrite Z.div_1_r in Hm'.
    rewrite Z.add_0_r in He'. subst e'. rewrite Hl', Hm' by done.
    cbn [round_nearest_even].
    pose proof (shr_fexp_spec prec emax (Zpos m) e loc_Exact ltac:(lia)) as H2.
    destruct (shr_fexp prec emax (Zpos m) e loc_Exact) as [mrs'' e''].
    cbv zeta in H2. rewrite Z.max_l in H2 by lia.
    destruct H2 as (Hm'' & He'' & _). rewrite Z.div_1_r in Hm''.
    rewrite Z.add_0_r in He''. subst e''. rewrite Hm''.
    destruct (_ <=? _); [|done]. intros _. rewrite B2R_abs. nra.
Qed.

(** [x * y], from below. *)
Lemma mul_finite_ge (x y : spec_float) :
  is_finite (SFmul prec emax x y) = true ->
  (Rabs (B2R x) * Rabs (B2R y) * (1 - eps prec) - eta prec emax
   <= Rabs (B2R (SFmul prec emax x y)))%R.
Proof.
  pose proof (bpow_pos (emin prec emax)) as Heta. fold (eta prec emax) in Heta.
  destruct x as [sx|sx| |sx mx ex], y as [sy|sy| |sy my ey]; try done.
  - cbn [SFmul]. intros _. rewrite !B2R_zero, !Rabs_R0. lra.
  - cbn [SFmul]. intros _. rewrite !B2R_zero, !Rabs_R0. lra.
  - cbn [SFmul]. intros _. rewrite !B2R_zero, !Rabs_R0. lra.
  - unfold SFmul. intros Hfin.
    pose proof (round_exact_lower (xorb sx sy) (mx * my) (ex + ey) Hfin) as Hl.
    rewrite Pos2Z.inj_mul, mult_IZR, bpow_add in Hl. rewrite !B2R_abs.
    replace (IZR (Zpos mx) * bpow ex * (IZR (Zpos my) * bpow ey))%R
      with (IZR (Zpos mx) * IZR (Zpos my) * (bpow ex * bpow ey))%R by ring.
    done.
Qed.

(** [x - 0] is [x]. *)
Lemma B2R_sub_zero (x : spec_float) (s : bool) :
  B2R (SFsub prec emax x (S754_zero s)) = B2R x.
Proof. destruct x as [[]| | |]; destruct s; done. Qed.
End RoundingBelow.

Section OffsetClaims.
Variables (u v w freq : list spec_float) (cellSize wCellSize : spec_float).
Variables (wSize gSize support overSample : Z).

Abbreviation entry := (offset_entry u v w freq cellSize wCellSize wSize gSize support overSample).
Abbreviation uScaled i chan := (scaled (vec_at nan_default freq chan) (vec_at nan_default u i) cellSize).
Abbreviation vScaled i chan := (scaled (vec_at nan_default freq chan) (vec_at nan_default v i) cellSize).
Abbreviation wScaled i chan := (scaled (vec_at nan_default freq chan) (vec_at nan_default w i) wCellSize).

(** The fractional bin as the specification has it:
    [floor(overSample * (x - floor(x)))], in [double] arithmetic. *)
Definition floor_bin (x : spec_float) : Z :=
  floorZ (Coord.mul (Coord.of_int overSample) (Coord.sub x (Coord.of_int (floorZ x)))).

(** The offset with the w-plane taken by the floor, as C5 states it. *)
Definition floor_cOffset (i chan : Z) : Z :=
  (2 * support + 1) * (2 * support + 1)
  * (floor_bin (uScaled i chan)
     + overSample * (floor_bin (vScaled i chan)
                     + overSample * (wSize / 2 + floorZ (wScaled i chan)))).

Lemma int_part_range (x : spec_float) (ip : Z) :
  int_part x = Some ip ->
  is_finite x = true /\ int_min - 1 <= ip <= int_max.
Proof.
  unfold int_part. destruct (double_to_int x) as [t|] eqn:Ht; [|done].
  apply double_to_int_Some in Ht as (Hfin & -> & Hr). cbn. intros [= <-].
  split; [done|]. destruct (Coord.ltb _ _); lia.
Qed.

Lemma frac_bin_floor (x : spec_float) (f : Z) :
  0 < overSample <= int_max ->
  is_finite x = true -> int_min - 1 <= floorZ x <= int_max ->
  frac_bin overSample x (floorZ x) = Some f -> f = floor_bin x.
Proof.
  intros Hos Hfin Hr. unfold frac_bin, floor_bin.
  intros (_ & -> & _)%double_to_int_Some.
  apply not_negative_trunc.
  destruct (of_int_exact overSample ltac:(unfold int_min; lia)) as (_ & _ & _ & Hpos & _).
  destruct (of_int_exact (floorZ x) Hr) as (_ & Hfc & Hexact & _).
  apply mul_not_negative; [apply Hpos; lia|].
  apply sub_not_negative; [done..|]. rewrite Hexact.
  pose proof (SFden_pos x). pose proof (SFden_pos (Coord.of_int (floorZ x))).
  pose proof (Z.mul_div_le (SFnum x) (SFden x) ltac:(lia)) as Hle.
  fold (floorZ x) in Hle. nia.
Qed.

(** C7.  For every sample [i] and channel [chan], [initCOffset] sets
    [iu[i*nChan + chan]] to the floor of the scaled coordinate
    [freq[chan]*u[i]/cellSize] (the largest integer not above it, for negative
    coordinates as well) plus [gSize/2], and likewise [iv]; the fractional
    bins that enter [cOffset] are
    [floor(overSample * (uScaled - floor(uScaled)))] and likewise for [v],
    in [double] arithmetic.  The run is one in which every conversion to [int]
    is defined and no value of type [int] is outside of the range of
    [int]. *)
Theorem initCOffset_floor (cOffset iu iv : list Z) :
  vec_size u <= vec_size v -> vec_size u <= vec_size w ->
  0 < overSample <= int_max ->
  offsets_ints u v w freq cellSize wCellSize wSize gSize support overSample ->
  exists cOffset' iu' iv',
    initCOffset u v w freq cellSize wCellSize wSize gSize support overSample
                cOffset iu iv = Some (cOffset', iu', iv') /\
    forall i chan, 0 <= i < vec_size u -> 0 <= chan < vec_size freq ->
      vec_at 0 iu' (i * vec_size freq + chan) = floorZ (uScaled i chan) + gSize ÷ 2 /\
      vec_at 0 iv' (i * vec_size freq + chan) = floorZ (vScaled i chan) + gSize ÷ 2 /\
      exists woff,
        w_plane wSize (wScaled i chan) = Some woff /\
        vec_at 0 cOffset' (i * vec_size freq + chan)
        = (2 * support + 1) * (2 * support + 1)
          * (floor_bin (uScaled i chan)
             + overSample * (floor_bin (vScaled i chan) + overSample * woff)).
Proof.
  intros Hv Hw Hos Hints.
  destruct (initCOffset_entries u v w freq cellSize wCellSize wSize gSize support
              overSample Hv Hw cOffset iu iv) as (cO' & iu' & iv' & Hrun & _ & _ & _ & He).
  { by apply offsets_ints_defined. }
  exists cO', iu', iv'. split; [done|]. intros i chan Hi Hchan.
  specialize (He i chan Hi Hchan).
  assert (valid_binary Coord.prec Coord.emax (uScaled i chan) = true) as Hvu
    by (by apply SFdiv_valid).
  assert (valid_binary Coord.prec Coord.emax (vScaled i chan) = true) as Hvv
    by (by apply SFdiv_valid).
  unfold offset_entry in He.
  destruct (int_part (uScaled i chan)) as [iu1|] eqn:Hiu; [|done].
  cbn [mbind option_bind] in He.
  destruct (frac_bin overSample (uScaled i chan) iu1) as [fracu|] eqn:Hfu; [|done].
  cbn [mbind option_bind] in He.
  destruct (int_part (vScaled i chan)) as [iv1|] eqn:Hiv; [|done].
  cbn [mbind option_bind] in He.
  destruct (frac_bin overSample (vScaled i chan) iv1) as [fracv|] eqn:Hfv; [|done].
  cbn [mbind option_bind] in He.
  destruct (w_plane wSize (wScaled i chan)) as [woff|] eqn:Hwo; [|done].
  cbn [mbind option_bind] in He. injection He as HeC Heu Hev.
  destruct (int_part_range _ _ Hiu) as [Hfinu Hru].
  destruct (int_part_range _ _ Hiv) as [Hfinv Hrv].
  apply (int_part_floor _ _ Hvu) in Hiu. apply (int_part_floor _ _ Hvv) in Hiv. subst iu1 iv1.
  apply (frac_bin_floor _ _ Hos Hfinu Hru) in Hfu.
  apply (frac_bin_floor _ _ Hos Hfinv Hrv) in Hfv. subst fracu fracv.
  split_and!; [done..|]. exists woff. done.
Qed.

(** C5, as amended.  For every sample [i] and channel [chan], [initCOffset]
    computes the w-plane bin as
    [woff = wSize/2 + int(freq[chan]*w[i]/wCellSize)], where the conversion to
    [int] discards the fraction (rounds toward zero, not toward negative
    infinity), and sets [cOffset[i*nChan + chan]] to
    [(2*support+1)^2 * (fracu + overSample*(fracv + overSample*woff))], with the
    fractional bins [fracu] and [fracv] it computes.  The run is one in which
    every conversion to [int] is defined and no value of type [int] is
    outside of the range of [int]. *)
Theorem initCOffset_w_plane (cOffset iu iv : list Z) :
  vec_size u <= vec_size v -> vec_size u <= vec_size w ->
  offsets_ints u v w freq cellSize wCellSize wSize gSize support overSample ->
  exists cOffset' iu' iv',
    initCOffset u v w freq cellSize wCellSize wSize gSize support overSample
                cOffset iu iv = Some (cOffset', iu', iv') /\
    forall i chan, 0 <= i < vec_size u -> 0 <= chan < vec_size freq ->
      exists iu1 fracu iv1 fracv,
        int_part (uScaled i chan) = Some iu1 /\
        frac_bin overSample (uScaled i chan) iu1 = Some fracu /\
        int_part (vScaled i chan) = Some iv1 /\
        frac_bin overSample (vScaled i chan) iv1 = Some fracv /\
        vec_at 0 cOffset' (i * vec_size freq + chan)
        = (2 * support + 1) * (2 * support + 1)
          * (fracu + overSample
                     * (fracv + overSample * (wSize ÷ 2 + truncZ (wScaled i chan)))).
Proof.
  intros Hv Hw Hints.
  destruct (initCOffset_entries u v w freq cellSize wCellSize wSize gSize support
              overSample Hv Hw cOffset iu iv
              (offsets_ints_defined u v w freq cellSize wCellSize wSize gSize support
                 overSample Hints))
    as (cO' & iu' & iv' & Hrun & _ & _ & _ & He).
  exists cO', iu', iv'. split; [done|]. intros i chan Hi Hchan.
  specialize (He i chan Hi Hchan). unfold offset_entry in He.
  destruct (int_part (uScaled i chan)) as [iu1|] eqn:Hiu; [|done].
  cbn [mbind option_bind] in He.
  destruct (frac_bin overSample (uScaled i chan) iu1) as [fracu|] eqn:Hfu; [|done].
  cbn [mbind option_bind] in He.
  destruct (int_part (vScaled i chan)) as [iv1|] eqn:Hiv; [|done].
  cbn [mbind option_bind] in He.
  destruct (frac_bin overSample (vScaled i chan) iv1) as [fracv|] eqn:Hfv; [|done].
  cbn [mbind option_bind] in He.
  unfold w_plane in He.
  destruct (double_to_int (wScaled i chan)) as [wt|] eqn:Hwt; [|done].
  cbn [mbind option_bind] in He. injection He as HeC _ _.
  apply double_to_int_Some in Hwt as (_ & -> & _).
  exists iu1, fracu, iv1, fracv. done.
Qed.
End OffsetClaims.

(** ** Small runs of [initCOffset] *)

Module Plane.
(** One sample at [(u, v, w) = (-2.5, 0.875, -0.5)] and two channels, with
    unit cells. *)
Definition u : list spec_float := [Coord.lit (-5) (-1)].
Definition v : list spec_float := [Coord.lit 7 (-3)].
Definition w : list spec_float := [Coord.lit (-1) (-1)].
Definition freq : list spec_float := [Coord.lit 1 0; Coord.lit 2 0].
Definition cellSize : spec_float := Coord.lit 1 0.
Definition wCellSize : spec_float := Coord.lit 1 0.
Definition wSize : Z := 33.
Definition gSize : Z := 4096.
Definition support : Z := 1.
Definition overSample : Z := 8.

Lemma defined (i chan : Z) :
  0 <= i < vec_size u -> 0 <= chan < vec_size freq ->
  is_Some (offset_entry u v w freq cellSize wCellSize wSize gSize support overSample i chan).
Proof.
  change (vec_size u) with 1. change (vec_size freq) with 2. intros Hi Hchan.
  assert (i = 0) as -> by lia.
  assert (chan = 0 \/ chan = 1) as [-> | ->] by lia.
  - vm_compute. eauto.
  - vm_compute. eauto.
Defined.
End Plane.

Lemma plane_ints :
  offsets_ints Plane.u Plane.v Plane.w Plane.freq Plane.cellSize Plane.wCellSize
               Plane.wSize Plane.gSize Plane.support Plane.overSample.
Proof.
  split; [vm_compute; intuition congruence..|].
  change (vec_size Plane.u) with 1. change (vec_size Plane.freq) with 2. intros i chan Hi Hchan.
  assert (i = 0) as -> by lia.
  assert (chan = 0 \/ chan = 1) as [-> | ->] by lia.
  - vm_compute. eauto.
  - vm_compute. eauto.
Defined.

Lemma initCOffset_floor_witness :
  exists cOffset' iu' iv',
    initCOffset Plane.u Plane.v Plane.w Plane.freq Plane.cellSize Plane.wCellSize
                Plane.wSize Plane.gSize Plane.support Plane.overSample [] [] []
    = Some (cOffset', iu', iv') /\
    vec_at 0 iu' 0 = -3 + 2048 /\ vec_at 0 iu' 1 = -5 + 2048 /\
    vec_at 0 iv' 0 = 0 + 2048 /\ vec_at 0 iv' 1 = 1 + 2048.
Proof.
  destruct (initCOffset_floor Plane.u Plane.v Plane.w Plane.freq Plane.cellSize
              Plane.wCellSize Plane.wSize Plane.gSize Plane.support Plane.overSample
              [] [] [] ltac:(vm_compute; congruence) ltac:(vm_compute; congruence)
              ltac:(vm_compute; intuition congruence) plane_ints)
    as (cO' & iu' & iv' & Hrun & Hentry).
  exists cO', iu', iv'. split; [exact Hrun|].
  destruct (Hentry 0 0 ltac:(vm_compute; intuition congruence)
              ltac:(vm_compute; intuition congruence)) as (Hu0 & Hv0 & _).
  destruct (Hentry 0 1 ltac:(vm_compute; intuition congruence)
              ltac:(vm_compute; intuition congruence)) as (Hu1 & Hv1 & _).
  split_and!; [exact Hu0|exact Hu1|exact Hv0|exact Hv1].
Defined.

Lemma initCOffset_w_plane_witness :
  exists cOffset' iu' iv',
    initCOffset Plane.u Plane.v Plane.w Plane.freq Plane.cellSize Plane.wCellSize
                Plane.wSize Plane.gSize Plane.support Plane.overSample [] [] []
    = Some (cOffset', iu', iv') /\
    exists fracu fracv,
      vec_at 0 cOffset' 0 = 9 * (fracu + 8 * (fracv + 8 * (16 + 0))).
Proof.
  destruct (initCOffset_w_plane Plane.u Plane.v Plane.w Plane.freq Plane.cellSize
              Plane.wCellSize Plane.wSize Plane.gSize Plane.support Plane.overSample
              [] [] [] ltac:(vm_compute; congruence) ltac:(vm_compute; congruence)
              plane_ints)
    as (cO' & iu' & iv' & Hrun & Hentry).
  exists cO', iu', iv'. split; [exact Hrun|].
  destruct (Hentry 0 0 ltac:(vm_compute; intuition congruence)
              ltac:(vm_compute; intuition congruence))
    as (iu1 & fracu & iv1 & fracv & _ & _ & _ & _ & HC).
  exists fracu, fracv. exact HC.
Defined.

(** C5 as stated fails: at [w = -0.5] the conversion gives the plane
    [wSize/2 + 0 = 16], where the floor would give 15. *)
Lemma initCOffset_w_plane_not_floor :
  initCOffset Plane.u Plane.v Plane.w Plane.freq Plane.cellSize Plane.wCellSize
              Plane.wSize Plane.gSize Plane.support Plane.overSample [] [] []
  = Some ([9 * (4 + 8 * (7 + 8 * 16)); 9 * (0 + 8 * (6 + 8 * 15))],
          [2045; 2043], [2048; 2049]) /\
  floorZ (scaled (Coord.lit 1 0) (Coord.lit (-1) (-1)) Plane.wCellSize) = -1 /\
  truncZ (scaled (Coord.lit 1 0) (Coord.lit (-1) (-1)) Plane.wCellSize) = 0 /\
  floor_cOffset Plane.u Plane.v Plane.w Plane.freq Plane.cellSize Plane.wCellSize
                Plane.wSize Plane.support Plane.overSample 0 0
  = 9 * (4 + 8 * (7 + 8 * 15)) /\
  ~ forall cOffset' iu' iv' i chan,
      initCOffset Plane.u Plane.v Plane.w Plane.freq Plane.cellSize Plane.wCellSize
                  Plane.wSize Plane.gSize Plane.support Plane.overSample [] [] []
      = Some (cOffset', iu', iv') ->
      0 <= i < vec_size Plane.u -> 0 <= chan < vec_size Plane.freq ->
      vec_at 0 cOffset' (i * vec_size Plane.freq + chan)
      = floor_cOffset Plane.u Plane.v Plane.w Plane.freq Plane.cellSize Plane.wCellSize
                      Plane.wSize Plane.support Plane.overSample i chan.
Proof.
  split_and!; [by vm_compute..|].
  intros Hclaim.
  specialize (Hclaim _ _ _ 0 0 ltac:(by vm_compute)
                ltac:(vm_compute; intuition congruence)
                ltac:(vm_compute; intuition congruence)).
  vm_compute in Hclaim. discriminate Hclaim.
Qed.

(** ** The support of the convolution function *)

(** The conversion to [int] keeps the integer part: it rounds toward zero. *)
Lemma truncZ_spec (x : spec_float) :
  Z.abs (truncZ x) * SFden x <= Z.abs (SFnum x) < (Z.abs (truncZ x) + 1) * SFden x /\
  0 <= truncZ x * SFnum x.
Proof.
  pose proof (SFden_pos x) as Hd. unfold truncZ.
  pose proof (Z.quot_rem' (SFnum x) (SFden x)) as Hqr.
  pose proof (Z.rem_bound_abs (SFnum x) (SFden x) ltac:(lia)) as Hr.
  destruct (decide (0 <= SFnum x)).
  - pose proof (Z.rem_bound_pos (SFnum x) (SFden x) ltac:(lia) Hd).
    pose proof (Z.quot_pos (SFnum x) (SFden x) ltac:(lia) Hd). nia.
  - pose proof (Z.rem_bound_pos_neg (SFnum x) (SFden x) Hd ltac:(lia)).
    assert (SFnum x ÷ SFden x <= 0) by (apply Z.quot_le_upper_bound; lia).
    nia.
Qed.

(** The driver of [main]: its constants, and the default values of its
    options. *)
Module Driver.
Definition nChan : Z := 1.
Definition wSize : Z := 33.
Definition cellSize : spec_float := Coord.lit 5 0.
Definition gSize : Z := 4096.
Definition baseline : Z := 2000.
(** [freq[i] = (1.4e9 - 2.0e5 * Coord(i) / Coord(nChan)) / 2.998e8] *)
Definition freq_at (nChan i : Z) : spec_float :=
  Coord.div
    (Coord.sub (Coord.lit 1400000000 0)
       (Coord.div (Coord.mul (Coord.lit 200000 0) (Coord.of_int i)) (Coord.of_int nChan)))
    (Coord.lit 299800000 0).
Definition freq (nChan : Z) : list spec_float := freq_at nChan <$> seqZ 0 nChan.
(** The values that [initC] computes ([initC_driver]). *)
Definition support : Z := 64.
Definition overSample : Z := 8.
Definition wCellSize : spec_float :=
  wCellSize_expr (freq_at nChan 0) (Coord.of_int baseline) wSize.
End Driver.

Section SupportClaims.
Variables (cos exp : spec_float -> spec_float).
Variable pow : spec_float -> spec_float -> spec_float.
Variable cabs : Value -> spec_float.

(** C6, as amended.  [initC] derives the stencil half-width as the value of
    [1.5 * sqrt(|baseline| * cellSize * freq[0]) / cellSize], computed in
    [double] arithmetic, converted to [int]: the fraction is discarded (the
    value is rounded toward zero, not to the nearest integer); and it sets
    [wCellSize = 2*baseline*freq[0] / wSize] and [overSample = 8].  The call
    is one in which no value of type [int], the size of the table included,
    is outside of the range of [int]. *)
Theorem initC_support_truncated freq cellSize baseline wSize C freq0 :
  vec_get freq 0 = Some freq0 ->
  is_finite (support_expr freq0 cellSize baseline) = true ->
  int_min <= truncZ (support_expr freq0 cellSize baseline) <= int_max ->
  0 <= wSize ->
  table_ints (truncZ (support_expr freq0 cellSize baseline)) wSize ->
  exists C',
    initC cos exp pow cabs freq cellSize baseline wSize C
    = Some (truncZ (support_expr freq0 cellSize baseline), 8,
            Coord.div (Coord.mul (Coord.mul (Coord.of_int 2) baseline) freq0)
                      (Coord.of_int wSize), C') /\
    vec_size C'
    = (2 * truncZ (support_expr freq0 cellSize baseline) + 1)
      * (2 * truncZ (support_expr freq0 cellSize baseline) + 1) * 8 * 8 * wSize.
Proof.
  intros Hf Hfin Hr Hw _.
  apply (initC_returns cos exp pow cabs freq cellSize baseline wSize C freq0); [done| |done].
  by apply double_to_int_Some.
Qed.

Lemma initC_driver (C : list Value) :
  exists C',
    initC cos exp pow cabs (Driver.freq Driver.nChan) Driver.cellSize (Coord.of_int Driver.baseline)
          Driver.wSize C
    = Some (Driver.support, Driver.overSample, Driver.wCellSize, C') /\
    vec_size C' = 129 * 129 * 8 * 8 * 33.
Proof.
  destruct (initC_returns cos exp pow cabs (Driver.freq Driver.nChan) Driver.cellSize
              (Coord.of_int Driver.baseline) Driver.wSize C (Driver.freq_at Driver.nChan 0)
              Driver.support)
    as (C' & Hrun & Hsize); [by vm_compute..|done|].
  exists C'. split; [exact Hrun|exact Hsize].
Qed.
End SupportClaims.

Lemma initC_support_truncated_witness :
  exists C',
    initC (fun x => x) (fun x => x) (fun x _ => x) real
          (Driver.freq Driver.nChan) Driver.cellSize (Coord.of_int Driver.baseline) Driver.wSize []
    = Some (64, 8, Driver.wCellSize, C') /\
    vec_size C' = 129 * 129 * 8 * 8 * 33.
Proof.
  exact (initC_support_truncated (fun x => x) (fun x => x) (fun x _ => x) real
           (Driver.freq Driver.nChan) Driver.cellSize (Coord.of_int Driver.baseline) Driver.wSize []
           (Driver.freq_at Driver.nChan 0) eq_refl eq_refl
           ltac:(vm_compute; intuition congruence) ltac:(vm_compute; congruence)
           ltac:(split; vm_compute; intuition congruence)).
Defined.

(** C6 as stated fails: with the driver's values the expression is about
    64.83; [initC] sets [support] to 64, and the nearest integer is 65. *)
Lemma initC_support_not_rounded :
  roundZ (support_expr (Driver.freq_at Driver.nChan 0) Driver.cellSize (Coord.of_int Driver.baseline)) = 65 /\
  (forall cos exp pow cabs C, exists C',
     initC cos exp pow cabs (Driver.freq Driver.nChan) Driver.cellSize (Coord.of_int Driver.baseline)
           Driver.wSize C = Some (64, 8, Driver.wCellSize, C')) /\
  ~ forall cos exp pow cabs C support overSample wCellSize C',
      initC cos exp pow cabs (Driver.freq Driver.nChan) Driver.cellSize (Coord.of_int Driver.baseline)
            Driver.wSize C = Some (support, overSample, wCellSize, C') ->
      support
      = roundZ (support_expr (Driver.freq_at Driver.nChan 0) Driver.cellSize (Coord.of_int Driver.baseline)).
Proof.
  split_and!.
  - by vm_compute.
  - intros cos exp pow cabs C.
    destruct (initC_driver cos exp pow cabs C) as (C' & Hrun & _). by exists C'.
  - intros Hclaim.
    destruct (initC_driver (fun x => x) (fun x => x) (fun x _ => x) real [])
      as (C' & Hrun & _).
    specialize (Hclaim _ _ _ _ _ _ _ _ _ Hrun).
    vm_compute in Hclaim. discriminate Hclaim.
Qed.

(** ** Bounds for binary64

    The bounds on rounded results, for [Coord]. *)

Abbreviation eps64 := (eps Coord.prec).
Abbreviation eta64 := (eta Coord.prec Coord.emax).

Section Binary64Bounds.
Lemma coord_mul_finite_le (x y : spec_float) (Bx By B : R) :
  finite_le x Bx -> finite_le y By ->
  (Bx * By * (1 + eps64) + eta64 <= B)%R ->
  (B <= bpow (Coord.emax - Coord.prec))%R ->
  finite_le (Coord.mul x y) B.
Proof. by apply mul_finite_le. Qed.

Lemma coord_div_finite_le (x y : spec_float) (Bx Ly B : R) :
  finite_le x Bx -> is_finite y = true ->
  (0 < Ly <= Rabs (B2R y))%R ->
  (Bx / Ly * (1 + eps64) + eta64 <= B)%R ->
  (B <= bpow (Coord.emax - Coord.prec))%R ->
  finite_le (Coord.div x y) B.
Proof. by apply div_finite_le. Qed.

Lemma coord_sub_finite_le (x y : spec_float) (Bx By B : R) :
  finite_le x Bx -> finite_le y By ->
  ((Bx + By) * (1 + eps64) + eta64 <= B)%R ->
  (B <= bpow (Coord.emax - Coord.prec))%R ->
  finite_le (Coord.sub x y) B.
Proof. by apply sub_finite_le. Qed.

(** [Coord(z)] for an [int] *)
Lemma B2R_of_int (z : Z) :
  int_min - 1 <= z <= int_max -> B2R (Coord.of_int z) = IZR z.
Proof.
  intros Hz. destruct (of_int_exact z Hz) as (_ & _ & Hnum & _).
  unfold B2R. rewrite Hnum, mult_IZR.
  pose proof (SFden_pos (Coord.of_int z)) as Hd%IZR_lt. field. lra.
Qed.

Lemma of_int_finite_le (z : Z) :
  int_min - 1 <= z <= int_max -> finite_le (Coord.of_int z) (IZR (Z.abs z)).
Proof.
  intros Hz. destruct (of_int_exact z Hz) as (_ & Hf & _).
  split; [done|]. rewrite B2R_of_int by done. rewrite abs_IZR. lra.
Qed.

(** [int(x)] *)
Lemma truncZ_le (x : spec_float) : (IZR (Z.abs (truncZ x)) <= Rabs (B2R x))%R.
Proof.
  pose proof (truncZ_spec x) as [[Hlo _] _]. pose proof (SFden_pos x) as Hd.
  unfold B2R, Rdiv. rewrite Rabs_mult, Rabs_inv, <-!abs_IZR.
  rewrite (Z.abs_eq (SFden x)) by lia. fold (Rdiv (IZR (Z.abs (SFnum x))) (IZR (SFden x))).
  apply (Rmult_le_reg_r (IZR (SFden x))); [apply IZR_lt; lia|].
  replace (IZR (Z.abs (SFnum x)) / IZR (SFden x) * IZR (SFden x))%R
    with (IZR (Z.abs (SFnum x))) by (field; apply not_0_IZR; lia).
  rewrite <-mult_IZR. by apply IZR_le.
Qed.

Lemma double_to_int_finite_le (x : spec_float) (B : Z) :
  finite_le x (IZR B) -> B <= int_max ->
  double_to_int x = Some (truncZ x) /\ - B <= truncZ x <= B.
Proof.
  intros [Hf HB] Hmax. pose proof (truncZ_le x) as Ht.
  assert (Z.abs (truncZ x) <= B) as Hb by (apply le_IZR; lra).
  split; [|lia].
  apply double_to_int_Some. unfold int_min, int_max in *. split_and!; [done|done|lia..].
Qed.
End Binary64Bounds.

(** ** Offsets within the grid *)

Section Magnitudes.
(** Numbers for the bounds: [eps64] is [2^-52], [eta64] is far below it, and the
    overflow threshold is far above [2^62]. *)
Lemma eps_val : eps64 = (/ 4503599627370496)%R.
Proof.
  unfold eps. change (1 - Coord.prec) with (Z.opp 52). rewrite bpow_opp, bpow_IZR by lia. done.
Qed.

Lemma eta_bounds : (0 < eta64 <= / 4503599627370496)%R.
Proof.
  split; [apply bpow_pos|]. rewrite <-eps_val. apply bpow_le.
  unfold emin, Coord.prec, Coord.emax. lia.
Qed.

Lemma overflow_threshold : (4611686018427387904 <= bpow (Coord.emax - Coord.prec))%R.
Proof.
  change 4611686018427387904%R with (IZR (2 ^ 62)). rewrite <-bpow_IZR by lia.
  apply bpow_le. unfold Coord.emax, Coord.prec. lia.
Qed.

(** A bound read off the fraction of a number. *)
Lemma finite_le_frac (x : spec_float) (n d : Z) (B : R) :
  is_finite x = true -> Z.abs (SFnum x) = n -> SFden x = d ->
  (IZR n <= B * IZR d)%R -> finite_le x B.
Proof.
  intros Hf <- <- HB. split; [done|].
  pose proof (SFden_pos x) as Hd%IZR_lt.
  unfold B2R, Rdiv. rewrite Rabs_mult, Rabs_inv, <-!abs_IZR.
  rewrite (Z.abs_eq (SFden x)) by (pose proof (SFden_pos x); lia).
  apply (Rmult_le_reg_r (IZR (SFden x))); [done|].
  rewrite Rmult_assoc, Rinv_l by lra. lra.
Qed.

Lemma abs_ge_frac (x : spec_float) (n d : Z) (L : R) :
  Z.abs (SFnum x) = n -> SFden x = d ->
  (L * IZR d <= IZR n)%R -> (L <= Rabs (B2R x))%R.
Proof.
  intros <- <- HL.
  pose proof (SFden_pos x) as Hd%IZR_lt.
  unfold B2R, Rdiv. rewrite Rabs_mult, Rabs_inv, <-!abs_IZR.
  rewrite (Z.abs_eq (SFden x)) by (pose proof (SFden_pos x); lia).
  apply (Rmult_le_reg_r (IZR (SFden x))); [done|].
  rewrite Rmult_assoc, Rinv_l by lra. lra.
Qed.

(** [freq * x / cell] *)
Lemma scaled_finite_le (f x c : spec_float) (Bf Bx Lc B1 B : R) :
  finite_le f Bf -> finite_le x Bx ->
  is_finite c = true -> (0 < Lc <= Rabs (B2R c))%R ->
  (Bf * Bx * (1 + eps64) + eta64 <= B1)%R -> (B1 <= 4611686018427387904)%R ->
  (B1 / Lc * (1 + eps64) + eta64 <= B)%R -> (B <= 4611686018427387904)%R ->
  finite_le (scaled f x c) B.
Proof.
  intros Hf Hx Hc HL HB1 Hm1 HB Hm. pose proof overflow_threshold.
  unfold scaled. eapply coord_div_finite_le; [|done|exact HL|exact HB|lra].
  eapply coord_mul_finite_le; [exact Hf|exact Hx|exact HB1|lra].
Qed.

(** The integer part of a number of magnitude at most [K]. *)
Lemma int_part_bounds (xs : spec_float) (K : Z) :
  finite_le xs (IZR K) -> K <= int_max ->
  exists ip, int_part xs = Some ip /\ - K - 1 <= ip <= K.
Proof.
  intros Hxs HK. destruct (double_to_int_finite_le xs K Hxs HK) as [Ht Hb].
  unfold int_part. rewrite Ht. cbn [mbind option_bind].
  eexists. split; [done|]. destruct (Coord.ltb _ _); lia.
Qed.

(** Its fractional bin is then defined. *)
Lemma frac_bin_defined (overSample : Z) (xs : spec_float) (ip K : Z) :
  finite_le xs (IZR K) -> - K - 1 <= ip <= K ->
  0 <= overSample -> overSample * (2 * K + 2) < int_max -> K < int_max ->
  is_Some (frac_bin overSample xs ip).
Proof.
  intros Hxs Hip Hos Hprod HK.
  pose proof (finite_le_nonneg _ _ Hxs) as HK0%le_IZR.
  pose proof eps_val as He. pose proof eta_bounds as Hh. pose proof overflow_threshold.
  assert (IZR K <= 2147483647)%R as HKR by (apply IZR_le; unfold int_max in *; lia).
  assert (finite_le (Coord.of_int ip) (IZR (K + 1))) as Hi.
  { eapply finite_le_weaken; [apply of_int_finite_le; unfold int_min, int_max in *; lia|].
    apply IZR_le. lia. }
  assert (finite_le (Coord.sub xs (Coord.of_int ip)) (IZR (2 * K + 2))) as Hsub.
  { eapply coord_sub_finite_le; [exact Hxs|exact Hi| |].
    - rewrite !plus_IZR, mult_IZR. rewrite He. lra.
    - rewrite plus_IZR, mult_IZR. lra. }
  assert (finite_le (Coord.of_int overSample) (IZR overSample)) as Ho.
  { eapply finite_le_weaken; [apply of_int_finite_le; unfold int_min, int_max in *; nia|].
    apply IZR_le. lia. }
  assert (IZR (overSample * (2 * K + 2)) <= 2147483647)%R as HPR
    by (apply IZR_le; unfold int_max in *; lia).
  assert (0 <= IZR (overSample * (2 * K + 2)))%R as HP0 by (apply IZR_le; nia).
  assert (finite_le (Coord.mul (Coord.of_int overSample) (Coord.sub xs (Coord.of_int ip)))
            (IZR (overSample * (2 * K + 2) + 1))) as Hmul.
  { eapply coord_mul_finite_le; [exact Ho|exact Hsub| |].
    - rewrite <-mult_IZR, plus_IZR. rewrite He. lra.
    - rewrite plus_IZR. lra. }
  unfold frac_bin.
  destruct (double_to_int_finite_le _ _ Hmul ltac:(lia)) as [-> _]. done.
Qed.
End Magnitudes.

Section SafeOffsets.
Variables (u v w freq : list spec_float) (cellSize wCellSize : spec_float).
Variables (wSize gSize support overSample : Z).
(** Bounds on the magnitudes: of the frequencies and of the coordinates from
    above, of the cell sizes from below; and bounds [K] and [Kw] that follow
    for the scaled coordinates. *)
Variables (Bf Bx Lc Lw B1 : R) (K Kw : Z).

Hypothesis Hfreq : forall chan, 0 <= chan < vec_size freq ->
  finite_le (vec_at nan_default freq chan) Bf.
Hypothesis Hu : forall i, 0 <= i < vec_size u -> finite_le (vec_at nan_default u i) Bx.
Hypothesis Hv : forall i, 0 <= i < vec_size u -> finite_le (vec_at nan_default v i) Bx.
Hypothesis Hw : forall i, 0 <= i < vec_size u -> finite_le (vec_at nan_default w i) Bx.
Hypothesis Hcell : is_finite cellSize = true /\ (0 < Lc <= Rabs (B2R cellSize))%R.
Hypothesis Hwcell : is_finite wCellSize = true /\ (0 < Lw <= Rabs (B2R wCellSize))%R.
Hypothesis HB1 : (Bf * Bx * (1 + eps64) + eta64 <= B1 <= 4611686018427387904)%R.
Hypothesis HK : (B1 / Lc * (1 + eps64) + eta64 <= IZR K)%R.
Hypothesis HKw : (B1 / Lw * (1 + eps64) + eta64 <= IZR Kw)%R.
Hypothesis HKmax : K < int_max /\ Kw <= int_max.
Hypothesis Hos : 0 <= overSample /\ overSample * (2 * K + 2) < int_max.

End SafeOffsets.

(** ** The offsets of the driver's samples *)

(** [x] is finite and [|x| <= B]. *)
Definition within (B : Z) (x : spec_float) : bool :=
  is_finite x && (Z.abs (SFnum x) <=? B * SFden x).

Lemma within_finite_le (B : Z) (x : spec_float) :
  within B x = true -> finite_le x (IZR B).
Proof.
  unfold within. intros [Hf Hle%Z.leb_le]%andb_true_iff.
  apply (finite_le_frac x (Z.abs (SFnum x)) (SFden x)); [done..|].
  rewrite <-mult_IZR. by apply IZR_le.
Qed.


Section DriverOffsets.
Variable nChan : Z.
Hypothesis HnChan : 1 <= nChan <= int_max.

(** The first frequency does not depend on the number of channels. *)
Lemma freq_at_first : Driver.freq_at nChan 0 = Driver.freq_at 1 0.
Proof.
  unfold Driver.freq_at.
  destruct (of_int_exact nChan ltac:(unfold int_min in *; lia))
    as (_ & _ & _ & Hpos & _).
  destruct (Hpos ltac:(lia)) as (m & e & ->). done.
Qed.

Lemma freq_at_finite_le (i : Z) :
  0 <= i < nChan -> finite_le (Driver.freq_at nChan i) (46705 / 10000).
Proof.
  intros Hi. unfold Driver.freq_at.
  pose proof eps_val as He. pose proof eta_bounds as Hh. pose proof overflow_threshold.
  assert (0 <= IZR i)%R as Hi0 by (apply IZR_le; lia).
  assert (IZR i <= IZR nChan)%R as Hin by (apply IZR_le; lia).
  assert (1 <= IZR nChan)%R as Hn1 by (apply IZR_le; lia).
  assert (IZR nChan <= 2147483647)%R as Hnmax by (apply IZR_le; unfold int_max in *; lia).
  assert (finite_le (Coord.lit 200000 0) 200000) as Ha
    by (eapply finite_le_frac; [done|by vm_compute..|lra]).
  assert (finite_le (Coord.of_int i) (IZR i)) as Hb.
  { eapply finite_le_weaken; [apply of_int_finite_le; unfold int_min, int_max in *; lia|].
    rewrite Z.abs_eq by lia. lra. }
  assert (finite_le (Coord.mul (Coord.lit 200000 0) (Coord.of_int i))
            (200000 * IZR i * (1 + eps64) + eta64)) as Hm.
  { eapply coord_mul_finite_le; [exact Ha|exact Hb|lra|]. rewrite He. nra. }
  destruct (of_int_exact nChan ltac:(unfold int_min in *; lia)) as (_ & Hfn & _).
  assert (finite_le (Coord.div (Coord.mul (Coord.lit 200000 0) (Coord.of_int i))
                       (Coord.of_int nChan)) 200001) as Hd.
  { eapply (coord_div_finite_le _ _ _ (IZR nChan)); [exact Hm|done| | |lra].
    - rewrite B2R_of_int by (unfold int_min in *; lia).
      rewrite Rabs_pos_eq by lra. lra.
    - assert ((200000 * IZR i * (1 + eps64) + eta64) / IZR nChan
              <= 200000 * (1 + eps64) + eta64)%R as Hq.
      { apply (Rmult_le_reg_r (IZR nChan)); [lra|].
        replace ((200000 * IZR i * (1 + eps64) + eta64) / IZR nChan * IZR nChan)%R
          with (200000 * IZR i * (1 + eps64) + eta64)%R by (field; lra).
        rewrite He. nra. }
      rewrite He in *. nra. }
  assert (finite_le (Coord.lit 1400000000 0) 1400000000) as Hc
    by (eapply finite_le_frac; [done|by vm_compute..|lra]).
  assert (finite_le (Coord.sub (Coord.lit 1400000000 0)
                       (Coord.div (Coord.mul (Coord.lit 200000 0) (Coord.of_int i))
                          (Coord.of_int nChan))) 1400200002) as Hs.
  { eapply coord_sub_finite_le; [exact Hc|exact Hd| |lra]. rewrite He. lra. }
  eapply (coord_div_finite_le _ _ _ 299800000); [exact Hs|done| | |lra].
  - split; [lra|]. eapply abs_ge_frac; [by vm_compute..|lra].
  - rewrite He. lra.
Qed.

Lemma driver_freq_size : vec_size (Driver.freq nChan) = nChan.
Proof. unfold Driver.freq. apply vec_size_fmap_seqZ. lia. Qed.

Lemma driver_freq_at (chan : Z) :
  0 <= chan < nChan -> vec_at nan_default (Driver.freq nChan) chan = Driver.freq_at nChan chan.
Proof.
  intros Hchan. unfold vec_at, Driver.freq. rewrite vec_get_fmap_seqZ by done. done.
Qed.

End DriverOffsets.

Module Boundary.
(** Two samples at the boundary of the driver's range:
    [(u, v, w) = (1000, -1000, 1000)] and [(-1000, 1000, -1000)]. *)
Definition u : list spec_float := [Coord.lit 1000 0; Coord.lit (-1000) 0].
Definition v : list spec_float := [Coord.lit (-1000) 0; Coord.lit 1000 0].
Definition w : list spec_float := [Coord.lit 1000 0; Coord.lit (-1000) 0].
End Boundary.


(** The offsets of the two samples of [Boundary], for one channel. *)
Lemma initCOffset_driver_boundary :
  initCOffset Boundary.u Boundary.v Boundary.w (Driver.freq 1) Driver.cellSize
              Driver.wCellSize Driver.wSize Driver.gSize Driver.support
              Driver.overSample [] [] []
  = Some ([25677063; 9452088], [2981; 1114], [1114; 2981]).
Proof. by vm_compute. Qed.

(** ** The normalisation of the convolution function *)

Abbreviation eps32 := (eps Real.prec).
Abbreviation eta32 := (eta Real.prec Real.emax).

(** [x] is a number of [[0, 1]]. *)
Definition unit_range (x : spec_float) : bool :=
  is_finite x && (0 <=? SFnum x) && (SFnum x <=? SFden x).

Lemma unit_range_in_range (x : spec_float) : unit_range x = true -> in_range 1 x.
Proof.
  unfold unit_range. intros [[Hf Hlo%Z.leb_le]%andb_true_iff Hhi%Z.leb_le]%andb_true_iff.
  split_and!; [done| |].
  - destruct x as [| | |[] m e]; try done.
    pose proof (SFnum_sign true m e) as Hs. cbv beta iota in Hs. lia.
  - apply (finite_le_frac x (Z.abs (SFnum x)) (SFden x)); [done..|].
    rewrite Rmult_1_l. apply IZR_le. lia.
Qed.

(** The magnitude of a value, and the sum of the magnitudes of a table, as
    real numbers. *)
Definition magnitude (c : Value) : R :=
  sqrt (B2R (real c) * B2R (real c) + B2R (imag c) * B2R (imag c)).

Definition total (C : list Value) : R :=
  fold_right (fun c t => (magnitude c + t)%R) 0%R C.

Lemma magnitude_real (c : Value) :
  imag c = S754_zero false -> magnitude c = Rabs (B2R (real c)).
Proof.
  intros Hi. unfold magnitude. rewrite Hi, B2R_zero, Rmult_0_l, Rplus_0_r.
  apply sqrt_Rsqr_abs.
Qed.

Lemma magnitude_ge_real (c : Value) : (Rabs (B2R (real c)) <= magnitude c)%R.
Proof.
  unfold magnitude. rewrite <-sqrt_Rsqr_abs. apply sqrt_le_1_alt. unfold Rsqr.
  pose proof (Rle_0_sqr (B2R (imag c))) as Hsq. unfold Rsqr in Hsq. lra.
Qed.

Lemma total_nonneg (C : list Value) : (0 <= total C)%R.
Proof.
  induction C as [|c C IH]; cbn [total fold_right]; [lra|].
  fold (total C). pose proof (magnitude_ge_real c). pose proof (Rabs_pos (B2R (real c))).
  lra.
Qed.

(** A value of the table: a real number of [[-1, 1]]. *)
Definition table_value (c : Value) : Prop :=
  within 1 (real c) = true /\ imag c = S754_zero false.

(** The magnitude of a value of the table multiplied by [Value(f)]. *)
Lemma scaled_magnitude (c : Value) (f : spec_float) :
  table_value c -> is_finite f = true -> (Rabs (B2R f) <= bpow 100)%R ->
  (magnitude c * Rabs (B2R f) * (1 - eps32) - eta32
   <= magnitude (vmul c (Value_of_real f)))%R.
Proof.
  intros [Hx Hz] Hf Hb. rewrite (magnitude_real c Hz).
  eapply Rle_trans; [|apply magnitude_ge_real].
  destruct c as [x z]. cbn [real imag] in *. subst z.
  cbn [vmul Value_arith Value_of_real real imag].
  change (Real.mul (S754_zero false) (S754_zero false)) with (S754_zero false).
  unfold Real.sub. rewrite B2R_sub_zero.
  apply (mul_finite_ge Real.prec Real.emax ltac:(done)).
  apply within_finite_le in Hx.
  assert (eps32 = / 8388608)%R as Heps.
  { unfold eps. change (1 - Real.prec) with (Z.opp 23).
    rewrite bpow_opp, bpow_IZR by lia. done. }
  assert (0 < eta32 <= bpow 100)%R as Heta.
  { split; [apply bpow_pos|]. apply bpow_le. unfold emin, Real.prec, Real.emax. lia. }
  pose proof (bpow_pos 100) as Hp.
  assert (finite_le (Real.mul x f) (bpow 103)) as [Hfin _]; [|done].
  apply (mul_finite_le Real.prec Real.emax x f 1 (bpow 100));
    [done|by split| |apply bpow_le; unfold Real.prec, Real.emax; lia].
  replace 103 with (100 + 3) by lia. rewrite bpow_add, (bpow_IZR 3) by lia.
  change (IZR (2 ^ 3)) with 8%R. rewrite Heps. lra.
Qed.

Lemma total_scaled (f : spec_float) (C : list Value) :
  is_finite f = true -> (Rabs (B2R f) <= bpow 100)%R -> Forall table_value C ->
  (total C * Rabs (B2R f) * (1 - eps32) - IZR (vec_size C) * eta32
   <= total ((fun c => vmul c (Value_of_real f)) <$> C))%R.
Proof.
  intros Hf Hb. induction 1 as [|c C Hc _ IH].
  - cbn [fmap list_fmap total fold_right]. change (vec_size (@nil Value)) with 0.
    rewrite !Rmult_0_l. lra.
  - cbn [fmap list_fmap total fold_right].
    fold (total C). fold (total ((fun c => vmul c (Value_of_real f)) <$> C)).
    pose proof (scaled_magnitude c f Hc Hf Hb) as H1.
    replace (vec_size (c :: C)) with (vec_size C + 1) by (unfold vec_size; cbn; lia).
    rewrite plus_IZR. lra.
Qed.

Section Normalisation.
Variables (cos exp : spec_float -> spec_float).
Variable pow : spec_float -> spec_float -> spec_float.
Variable cabs : Value -> spec_float.

(** The sum of magnitudes of [[0, 1]], accumulated in a [float], is at most
    [2^24], however many they are. *)
Lemma initC_sum_saturates (n : Z) (C : list Value) (sumC : spec_float) :
  initC_sum cabs n C = Some sumC ->
  Forall (fun c => unit_range (cabs c) = true) C ->
  in_range (bpow Real.prec) sumC.
Proof.
  intros Hsum Hall. unfold initC_sum in Hsum.
  eapply (for_upto_preserves (in_range (bpow Real.prec))); [| |exact Hsum].
  - split_and!; [done..|]. rewrite B2R_zero, Rabs_R0. left. apply bpow_pos.
  - intros i s s' Hi Hs. cbv beta. destruct (vec_get C i) as [c|] eqn:Hc;
      cbn [mbind option_bind]; [|done].
    intros [= <-].
    apply (add_saturates Real.prec Real.emax); [done|done|done|exact Hs|].
    apply unit_range_in_range.
    rewrite Forall_forall in Hall. apply Hall.
    apply vec_get_Some in Hc as [_ Hc]. by eapply list_elem_of_lookup_2.
Qed.

Lemma initC_fill_size freq cellSize wCellSize wSize support overSample (C C0 : list Value) :
  initC_fill cos exp pow freq cellSize wCellSize wSize support overSample C = Some C0 ->
  vec_size C0 = vec_size C.
Proof.
  unfold initC_fill. set (keeps := fun C1 : list Value => vec_size C1 = vec_size C).
  apply (for_upto_preserves keeps); [done|].
  intros k C1 C1' _ HC1. cbv beta zeta.
  destruct (vec_get freq 0) as [freq0|]; cbn [mbind option_bind]; [|done].
  apply (for_upto_preserves keeps); [done|]. intros osj C2 C2' _ HC2.
  apply (for_upto_preserves keeps); [done|]. intros osi C3 C3' _ HC3.
  apply (for_upto_preserves keeps); [done|]. intros j C4 C4' _ HC4.
  apply (for_upto_preserves keeps); [done|]. intros i C5 C5' _ HC5.
  unfold keeps in *. destruct (negb _); intros Hset;
    by rewrite (vec_set_size _ _ _ _ Hset).
Qed.

(** The factor of the normalisation, for a sum of at most [2^24]. *)
Lemma initC_factor_lower (W : Z) (sumC : spec_float) :
  0 <= W <= int_max ->
  in_range (bpow Real.prec) sumC ->
  is_finite (Real.div (Real.of_int W) sumC) = true ->
  (IZR W / 16777216 * (1 - 3 * eps32) - 3 * eta32
   <= Rabs (B2R (Real.div (Real.of_int W) sumC)))%R.
Proof.
  intros HW (Hfs & _ & Hs) Hfin.
  assert (eps32 = / 8388608)%R as Heps.
  { unfold eps. change (1 - Real.prec) with (Z.opp 23).
    rewrite bpow_opp, bpow_IZR by lia. done. }
  assert (0 < eta32 <= / 8388608)%R as Heta.
  { split; [apply bpow_pos|]. rewrite <-Heps. apply bpow_le.
    unfold emin, Real.prec, Real.emax. lia. }
  assert (bpow Real.prec = 16777216)%R as Hp by (by rewrite bpow_IZR).
  rewrite Hp in Hs.
  assert (0 <= IZR W <= 2147483647)%R as HWR
    by (split; apply IZR_le; unfold int_max in *; lia).
  assert (finite_le (Real.of_int W) 4294967296) as [HfW _].
  { apply (binary_normalize_finite_le Real.prec Real.emax ltac:(done)).
    - rewrite Z.abs_eq by lia. change (bpow 0) with 1%R. rewrite Heps. lra.
    - change 4294967296%R with (IZR (2 ^ 32)). rewrite <-bpow_IZR by lia.
      apply bpow_le. unfold Real.prec, Real.emax. lia. }
  pose proof (binary_normalize_lower Real.prec Real.emax ltac:(done) W 0 HfW) as HlW.
  rewrite Z.abs_eq in HlW by lia. change (bpow 0) with 1%R in HlW.
  fold (Real.of_int W) in HlW.
  pose proof (div_finite_ge Real.prec Real.emax ltac:(done) _ _ HfW Hfs Hfin) as Hd.
  fold (Real.div (Real.of_int W) sumC) in Hd.
  assert (0 < Rabs (B2R sumC))%R as Hs0.
  { destruct sumC as [s|s| |s m e]; try done.
    - by destruct (Real.of_int W).
    - rewrite B2R_abs. apply Rmult_lt_0_compat; [apply IZR_lt; lia|apply bpow_pos]. }
  set (w := Rabs (B2R (Real.of_int W))) in *.
  assert (0 <= w)%R as Hw0 by apply Rabs_pos.
  assert (w / 16777216 <= w / Rabs (B2R sumC))%R as Hq.
  { unfold Rdiv. apply Rmult_le_compat_l; [done|]. apply Rinv_le_contravar; done. }
  rewrite Heps in *.
  assert (w / Rabs (B2R sumC) * (1 - 2 * / 8388608)
          >= w / 16777216 * (1 - 2 * / 8388608))%R by nra.
  assert (w / 16777216 >= (IZR W * (1 - / 8388608) - eta32) / 16777216)%R by lra.
  nra.
Qed.

(** C8: the code against the claim.  [initC] multiplies every value of the
    table by [wSize * overSample^2 / sumC], where [sumC] is the sum of the
    magnitudes accumulated in a [float].  For magnitudes in [[0, 1]] (those of
    the values of [cos] and [exp]), [sumC] is at most [2^24 = 16777216]
    whatever the magnitudes sum to, because [2^24 + x] rounds to [2^24] for
    [x <= 1]; the factor is then at least about [wSize * overSample^2 / 2^24],
    and not the inverse of the sum of the magnitudes: a table whose
    magnitudes sum to more than [2^24] is not normalised to 1. *)
Theorem initC_normalisation_saturates freq cellSize baseline wSize C
    support overSample wCellSize C' :
  0 <= wSize * 64 <= int_max ->
  initC cos exp pow cabs freq cellSize baseline wSize C
  = Some (support, overSample, wCellSize, C') ->
  exists C0 sumC,
    (exists C1, vec_resize_values C (vec_size C') = Some C1 /\
       initC_fill cos exp pow freq cellSize wCellSize wSize support overSample C1
       = Some C0) /\
    initC_sum cabs (vec_size C0) C0 = Some sumC /\
    C' = (fun c => vmul c (Value_of_real
                             (Real.div (Real.of_int (wSize * overSample * overSample)) sumC)))
         <$> C0 /\
    (Forall (fun c => unit_range (cabs c) = true) C0 ->
     is_finite sumC = true /\ not_negative sumC /\
     (Rabs (B2R sumC) <= 16777216)%R /\
     (is_finite (Real.div (Real.of_int (wSize * overSample * overSample)) sumC) = true ->
      (IZR (wSize * overSample * overSample) / 16777216 * (1 - 3 * eps32) - 3 * eta32
       <= Rabs (B2R (Real.div (Real.of_int (wSize * overSample * overSample)) sumC)))%R /\
      ((Rabs (B2R (Real.div (Real.of_int (wSize * overSample * overSample)) sumC))
        <= bpow 100)%R ->
       Forall table_value C0 ->
       (total C0
        * (IZR (wSize * overSample * overSample) / 16777216 * (1 - 3 * eps32) - 3 * eta32)
        * (1 - eps32)
        - IZR (vec_size C0) * eta32
        <= total C')%R))).
Proof.
  intros HW. unfold initC.
  destruct (vec_get freq 0) as [freq0|]; cbn [mbind option_bind]; [|done].
  destruct (double_to_int _) as [sup|]; cbn [mbind option_bind]; [|done].
  set (N := (2 * sup + 1) * (2 * sup + 1) * 8 * 8 * wSize).
  destruct (vec_resize_values C N) as [C1|] eqn:HC1; cbn [mbind option_bind]; [|done].
  destruct (initC_fill _ _ _ _ _ _ _ _ _ C1) as [C0|] eqn:HC0;
    cbn [mbind option_bind]; [|done].
  destruct (initC_sum cabs N C0) as [sumC|] eqn:Hsum; cbn [mbind option_bind]; [|done].
  destruct (initC_normalise N wSize 8 sumC C0) as [C2|] eqn:Hnorm;
    cbn [mbind option_bind]; [|done].
  intros [= <- <- <- <-].
  pose proof (vec_resize_values_size _ _ _ HC1) as Hs1.
  pose proof (initC_fill_size _ _ _ _ _ _ _ _ HC0) as Hs0. rewrite Hs1 in Hs0.
  assert (C2 = (fun c => vmul c (Value_of_real
                   (Real.div (Real.of_int (wSize * 8 * 8)) sumC))) <$> C0) as HC2
    by (by apply (for_upto_map _ N)).
  assert (vec_size C2 = N) as Hs2
    by (rewrite HC2; unfold vec_size in *; by rewrite length_fmap).
  exists C0, sumC. split_and!.
  - exists C1. by rewrite Hs2.
  - by rewrite Hs0.
  - exact HC2.
  - intros Hall.
    pose proof (initC_sum_saturates N C0 sumC Hsum Hall) as Hr.
    destruct (Hr) as (Hf & Hn & Hb).
    assert (bpow Real.prec = 16777216)%R as Hp by (by rewrite bpow_IZR).
    split_and!; [done|done|by rewrite <-Hp|].
    intros Hfin.
    pose proof (initC_factor_lower (wSize * 8 * 8) sumC ltac:(lia) Hr Hfin) as Hlow.
    split; [exact Hlow|]. intros Hbig Htable. rewrite HC2.
    pose proof (total_scaled _ C0 Hfin Hbig Htable) as Ht.
    pose proof (total_nonneg C0) as Ht0.
    assert (0 <= 1 - eps32)%R as He.
    { assert (eps32 = / 8388608)%R as ->; [|lra].
      unfold eps. change (1 - Real.prec) with (Z.opp 23).
      rewrite bpow_opp, bpow_IZR by lia. done. }
    eapply Rle_trans; [|exact Ht]. apply Rplus_le_compat_r.
    apply Rmult_le_compat_r; [done|]. apply Rmult_le_compat_l; done.
Qed.
End Normalisation.

(** A small run, with stand-ins for the functions of the mathematical
    library: [cos] and [exp] are constantly 1 and the magnitude of a value is
    that of its real part.  With one w-plane and no baseline the table has 64
    values. *)
Module Flat.
Definition one : spec_float := Coord.lit 1 0.
Definition cos (x : spec_float) : spec_float := one.
Definition exp (x : spec_float) : spec_float := one.
Definition pow (x y : spec_float) : spec_float := x.
Definition cabs (c : Value) : spec_float := SFabs (real c).
Definition freq : list spec_float := [one].
Definition cellSize : spec_float := one.
Definition baseline : spec_float := Coord.of_int 0.
Definition wSize : Z := 1.
Definition table : list Value := replicate 64 (Value_of_int 1).
End Flat.

Lemma initC_normalisation_saturates_witness :
  exists C0 sumC,
    (exists C1, vec_resize_values [] (vec_size Flat.table) = Some C1 /\
       initC_fill Flat.cos Flat.exp Flat.pow Flat.freq Flat.cellSize (S754_zero false)
                  Flat.wSize 0 8 C1 = Some C0) /\
    initC_sum Flat.cabs (vec_size C0) C0 = Some sumC /\
    Flat.table
    = (fun c => vmul c (Value_of_real
                          (Real.div (Real.of_int (Flat.wSize * 8 * 8)) sumC))) <$> C0 /\
    (Forall (fun c => unit_range (Flat.cabs c) = true) C0 ->
     is_finite sumC = true /\ not_negative sumC /\
     (Rabs (B2R sumC) <= 16777216)%R /\
     (is_finite (Real.div (Real.of_int (Flat.wSize * 8 * 8)) sumC) = true ->
      (IZR (Flat.wSize * 8 * 8) / 16777216 * (1 - 3 * eps32) - 3 * eta32
       <= Rabs (B2R (Real.div (Real.of_int (Flat.wSize * 8 * 8)) sumC)))%R /\
      ((Rabs (B2R (Real.div (Real.of_int (Flat.wSize * 8 * 8)) sumC)) <= bpow 100)%R ->
       Forall table_value C0 ->
       (total C0
        * (IZR (Flat.wSize * 8 * 8) / 16777216 * (1 - 3 * eps32) - 3 * eta32)
        * (1 - eps32)
        - IZR (vec_size C0) * eta32
        <= total Flat.table)%R))).
Proof.
  exact (initC_normalisation_saturates Flat.cos Flat.exp Flat.pow Flat.cabs
           Flat.freq Flat.cellSize Flat.baseline Flat.wSize [] 0 8 (S754_zero false)
           Flat.table ltac:(vm_compute; intuition congruence)
           ltac:(vm_compute; reflexivity)).
Defined.

(** ** A fractional bin outside of the table *)

Module Fringe.
(** One sample just below 0 in [u], on the last w-plane: [u = -2^-60],
    [v = 0.875], [w = 16], with unit cells and one channel of frequency 1. *)
Definition u : list spec_float := [Coord.lit (-1) (-60)].
Definition v : list spec_float := [Coord.lit 7 (-3)].
Definition w : list spec_float := [Coord.lit 16 0].
Definition freq : list spec_float := [Coord.lit 1 0].
Definition cellSize : spec_float := Coord.lit 1 0.
Definition wCellSize : spec_float := Coord.lit 1 0.
Definition wSize : Z := 33.
Definition gSize : Z := 8.
Definition support : Z := 1.
Definition overSample : Z := 8.
(** A table of the size [initC] allocates: [3 * 3 * 8 * 8 * 33] entries. *)
Definition C : list Value := replicate 19008 (Value_of_int 1).
Definition data : list Value := [Value_of_int 1].
Definition grid : list Value := replicate 64 vzero.
End Fringe.

(** C10 on the code: the sample of [Fringe] has its w-plane bin, 32, in
    [0, wSize), and yet its fractional bin [fracu] is [overSample], not below:
    [uScaled - (-1)] rounds to 1.  Its [cOffset] is the size of the table, and
    the first read of [gridKernel] in the table is out of bounds. *)
Lemma initCOffset_bin_outside_table :
  w_plane Fringe.wSize (scaled (Coord.lit 1 0) (Coord.lit 16 0) Fringe.wCellSize) = Some 32 /\
  int_part (scaled (Coord.lit 1 0) (Coord.lit (-1) (-60)) Fringe.cellSize) = Some (-1) /\
  frac_bin Fringe.overSample
    (scaled (Coord.lit 1 0) (Coord.lit (-1) (-60)) Fringe.cellSize) (-1) = Some 8 /\
  initCOffset Fringe.u Fringe.v Fringe.w Fringe.freq Fringe.cellSize Fringe.wCellSize
              Fringe.wSize Fringe.gSize Fringe.support Fringe.overSample [] [] []
  = Some ([19008], [3], [4]) /\
  vec_size Fringe.C = 19008 /\
  gridKernel Fringe.data Fringe.support Fringe.C [19008] [3] [4] Fringe.grid Fringe.gSize
  = None.
Proof. split_and!; by vm_compute. Qed.

(** ** Rounding below a number of the format

    Rounding is monotone: the rounding of an exact value of magnitude at
    most [M * 2^E], a number of the format, has magnitude at most
    [M * 2^E]. *)

Section RoundingMonotone.
Variables (prec emax : Z).
Hypothesis Hprec : 0 < prec.

Lemma round_exact_le_repr (s : bool) (mx : positive) (ex M E : Z) :
  ex <= fexp prec emax (Zdigits2 (Zpos mx) + ex) ->
  fexp prec emax (Zdigits2 (Zpos mx) + ex) <= E -> E < emax - prec ->
  (IZR (Zpos mx) * bpow ex <= IZR M * bpow E)%R ->
  finite_le (binary_round_aux prec emax s (Zpos mx) ex loc_Exact) (IZR M * bpow E).
Proof.
  intros Hex HE Hmax HV.
  pose proof (binary_round_aux_shape prec emax Hprec s (Zpos mx) ex loc_Exact
                ltac:(lia) Hex) as Hs.
  cbv zeta in Hs.
  set (e1 := fexp prec emax (Zdigits2 (Zpos mx) + ex)) in *.
  set (mrs := (shr_fexp prec emax (Zpos mx) ex loc_Exact).1) in *.
  set (m1 := round_nearest_even (shr_m mrs) (loc_of_shr_record mrs)) in *.
  pose proof (round_nearest_even_bounds (shr_m mrs) (loc_of_shr_record mrs)) as [Hrne Hexact].
  fold m1 in Hrne, Hexact.
  assert (shr_m mrs = Zpos mx / 2 ^ (e1 - ex) /\
          (e1 - ex = 0 -> loc_of_shr_record mrs = loc_Exact)) as [Hm' Hl'].
  { pose proof (shr_fexp_spec prec emax (Zpos mx) ex loc_Exact ltac:(lia)) as H1. unfold mrs.
    destruct (shr_fexp prec emax (Zpos mx) ex loc_Exact) as [mrs' e'].
    cbv zeta in H1. destruct H1 as (H1 & _ & H3). fold e1 in H1, H3.
    rewrite Z.max_r in H1, H3 by lia. done. }
  assert (0 < 2 ^ (e1 - ex)) as Hpn by (apply Z.pow_pos_nonneg; lia).
  assert (0 < 2 ^ (E - e1)) as HpE by (apply Z.pow_pos_nonneg; lia).
  pose proof (bpow_pos e1) as Hpe1. pose proof (bpow_pos ex) as Hpex.
  (* the bound, as a multiple of the unit of the last place *)
  assert (Zpos mx <= M * 2 ^ (E - e1) * 2 ^ (e1 - ex)) as HVz.
  { apply le_IZR. rewrite !mult_IZR, <-!bpow_IZR by lia.
    apply (Rmult_le_reg_r (bpow ex)); [done|].
    rewrite !Rmult_assoc, <-!bpow_add.
    replace (E - e1 + (e1 - ex + ex)) with E by lia. done. }
  assert (0 <= M) as HM by nia.
  assert (m1 <= M * 2 ^ (E - e1)) as Hm1.
  { destruct (decide (m1 = shr_m mrs)) as [->|Hup].
    - rewrite Hm'. apply Z.div_le_upper_bound; lia.
    - destruct (decide (e1 - ex = 0)) as [Hz|Hnz]; [rewrite Hexact in Hup by auto; done|].
      assert (mrs = SpecFloat.iter_pos shr_1 (Z.to_pos (e1 - ex))
                      {| shr_m := Zpos mx; shr_r := false; shr_s := false |}) as Hmrs.
      { unfold mrs, shr_fexp, shr. fold e1.
        destruct (e1 - ex) as [|p|p] eqn:Hp; [lia| |lia]. done. }
      pose proof (shr_round_up (Zpos mx) (Z.to_pos (e1 - ex)) ltac:(lia)) as Hru.
      cbv zeta in Hru. rewrite <-Hmrs in Hru. fold m1 in Hru.
      rewrite Z2Pos.id in Hru by lia.
      assert (0 < 2 ^ (e1 - ex - 1)) as Hph by (apply Z.pow_pos_nonneg; lia).
      assert (0 < Zpos mx mod 2 ^ (e1 - ex)) as Hrem by (destruct (Hru Hup) as [?|[? _]]; lia).
      pose proof (Z.div_mod (Zpos mx) (2 ^ (e1 - ex)) ltac:(lia)) as Hdm.
      rewrite <-Hm' in Hdm.
      destruct (decide (shr_m mrs < M * 2 ^ (E - e1))); [lia|].
      assert (M * 2 ^ (E - e1) * 2 ^ (e1 - ex) <= shr_m mrs * 2 ^ (e1 - ex))
        by (apply Z.mul_le_mono_nonneg_r; lia).
      lia. }
  assert (IZR m1 * bpow e1 <= IZR M * bpow E)%R as Hval.
  { replace E with ((E - e1) + e1) by lia. rewrite bpow_add, (bpow_IZR (E - e1)) by lia.
    rewrite <-Rmult_assoc, <-mult_IZR. apply Rmult_le_compat_r; [lra|]. by apply IZR_le. }
  destruct (binary_round_aux prec emax s (Zpos mx) ex loc_Exact) as [s'|s'| |s' m e].
  - apply finite_le_zero. apply Rmult_le_pos; [by apply IZR_le|left; apply bpow_pos].
  - destruct Hs as [_ Hs]. lia.
  - done.
  - destruct Hs as (_ & _ & Hv). split; [done|]. rewrite B2R_abs, Hv. done.
Qed.

Lemma binary_normalize_le_repr (m e M E : Z) :
  0 <= M < 2 ^ prec -> emin prec emax <= E < emax - prec ->
  (IZR (Z.abs m) * bpow e <= IZR M * bpow E)%R ->
  finite_le (binary_normalize prec emax m e false) (IZR M * bpow E).
Proof.
  intros HM HE HV.
  assert (0 <= IZR M * bpow E)%R as HB0.
  { apply Rmult_le_pos; [apply IZR_le; lia|left; apply bpow_pos]. }
  assert (forall s p, (IZR (Zpos p) * bpow e <= IZR M * bpow E)%R ->
    finite_le (binary_round prec emax s p e) (IZR M * bpow E)) as Hround.
  { intros s p Hp. unfold binary_round.
    pose proof (shl_align_value p e (fexp prec emax (Zpos (digits2_pos p) + e))) as Hv.
    pose proof (shl_align_digits prec emax p e) as Hd. cbv zeta in Hd.
    destruct (shl_align p e _) as [mz ez]. cbn [fst snd] in Hv, Hd.
    rewrite <-Hv in Hp.
    apply round_exact_le_repr; [done| |lia|done].
    (* the value is below [2^(prec + E)] *)
    pose proof (digits_bpow mz) as [Hlo _]. pose proof (bpow_pos ez) as Hpez.
    assert (bpow (Zdigits2 (Zpos mz) - 1 + ez) < bpow (prec + E))%R as Hlt.
    { rewrite (bpow_add _ ez), (bpow_add prec E), (bpow_IZR prec) by lia.
      assert (IZR M < IZR (2 ^ prec))%R by (apply IZR_lt; lia).
      pose proof (bpow_pos E).
      assert (bpow (Zdigits2 (Zpos mz) - 1) * bpow ez <= IZR (Zpos mz) * bpow ez)%R
        by (apply Rmult_le_compat_r; lra).
      nra. }
    assert (Zdigits2 (Zpos mz) - 1 + ez < prec + E) as Hdig.
    { destruct (decide (Zdigits2 (Zpos mz) - 1 + ez < prec + E)); [done|].
      pose proof (bpow_le (prec + E) (Zdigits2 (Zpos mz) - 1 + ez) ltac:(lia)). lra. }
    unfold fexp. lia. }
  destruct m as [|p|p]; cbn [binary_normalize].
  - by apply finite_le_zero.
  - by apply Hround.
  - by apply Hround.
Qed.

(** The difference of two finite numbers, as [SFsub] forms it before it
    rounds. *)
Lemma sub_aligned_value (sx sy : bool) (mx my : positive) (ex ey : Z) :
  let ez := Z.min ex ey in
  (IZR (cond_Zopp sx (Zpos (shl_align mx ex ez).1) - cond_Zopp sy (Zpos (shl_align my ey ez).1))
   * bpow ez
   = B2R (S754_finite sx mx ex) - B2R (S754_finite sy my ey))%R.
Proof.
  cbv zeta. set (ez := Z.min ex ey).
  rewrite !B2R_finite, !shl_align_fst by (unfold ez; lia).
  rewrite minus_IZR.
  assert (forall s m e, ez <= e ->
    (IZR (cond_Zopp s (Zpos m * 2 ^ (e - ez))) * bpow ez
     = IZR (cond_Zopp s (Zpos m)) * bpow e)%R) as Hal.
  { intros s m e He.
    replace (cond_Zopp s (Zpos m * 2 ^ (e - ez))) with (cond_Zopp s (Zpos m) * 2 ^ (e - ez))
      by (destruct s; cbn [cond_Zopp]; lia).
    rewrite mult_IZR, <-bpow_IZR by lia. rewrite Rmult_assoc, <-bpow_add.
    do 2 f_equal. lia. }
  rewrite Rmult_minus_distr_r, !Hal by (unfold ez; lia). done.
Qed.

(** [x - y], for a difference of magnitude at most [M * 2^E]. *)
Lemma sub_le_repr (x y : spec_float) (M E : Z) :
  is_finite x = true -> is_finite y = true ->
  0 <= M < 2 ^ prec -> emin prec emax <= E < emax - prec ->
  (Rabs (B2R x - B2R y) <= IZR M * bpow E)%R ->
  finite_le (SFsub prec emax x y) (IZR M * bpow E).
Proof.
  intros Hfx Hfy HM HE HV.
  assert (0 <= IZR M * bpow E)%R as HB0.
  { apply Rmult_le_pos; [apply IZR_le; lia|left; apply bpow_pos]. }
  destruct x as [sx|sx| |sx mx ex], y as [sy|sy| |sy my ey]; try done.
  - cbn [SFsub]. destruct sx, sy; by apply finite_le_zero.
  - cbn [SFsub]. split; [done|].
    rewrite B2R_zero, Rminus_0_l, Rabs_Ropp, B2R_abs in HV. by rewrite B2R_abs.
  - cbn [SFsub]. split; [done|]. by rewrite B2R_zero, Rminus_0_r in HV.
  - cbn [SFsub]. apply binary_normalize_le_repr; [done..|].
    pose proof (sub_aligned_value sx sy mx my ex ey) as Hv. cbv zeta in Hv.
    rewrite <-Hv in HV. rewrite Rabs_mult, <-abs_IZR in HV.
    rewrite (Rabs_pos_eq (bpow _)) in HV by (left; apply bpow_pos). done.
Qed.

(** [x - y], from the difference of the values. *)
Lemma sub_finite_le_diff (x y : spec_float) (B : R) :
  is_finite x = true -> is_finite y = true ->
  (Rabs (B2R x - B2R y) * (1 + eps prec) + eta prec emax <= B)%R ->
  (B <= bpow (emax - prec))%R ->
  finite_le (SFsub prec emax x y) B.
Proof.
  intros Hfx Hfy HB Hmax.
  pose proof (bpow_pos (1 - prec)) as Heps. fold (eps prec) in Heps.
  pose proof (bpow_pos (emin prec emax)) as Heta. fold (eta prec emax) in Heta.
  pose proof (Rabs_pos (B2R x - B2R y)) as Hd0.
  assert (Rabs (B2R x - B2R y) <= B)%R as HB1 by nra.
  destruct x as [sx|sx| |sx mx ex], y as [sy|sy| |sy my ey]; try done.
  - cbn [SFsub]. destruct sx, sy; apply finite_le_zero; lra.
  - cbn [SFsub]. split; [done|].
    rewrite B2R_zero, Rminus_0_l, Rabs_Ropp, B2R_abs in HB1. by rewrite B2R_abs.
  - cbn [SFsub]. split; [done|]. by rewrite B2R_zero, Rminus_0_r in HB1.
  - cbn [SFsub]. apply binary_normalize_finite_le; [|done].
    pose proof (sub_aligned_value sx sy mx my ex ey) as Hv. cbv zeta in Hv.
    rewrite <-Hv in HB. rewrite Rabs_mult, <-abs_IZR in HB.
    rewrite (Rabs_pos_eq (bpow _)) in HB by (left; apply bpow_pos). done.
Qed.
End RoundingMonotone.

(** * The driver

    What [main] does around the kernels: the pseudo-random samples, the
    options of the command line, the comparison of the results. *)

(** ** The pseudo-random numbers *)

Section RandomInt.
(** The number of bits of an [unsigned long]. *)
Variable ulong_bits : Z.

(** [randomInt()] on the state [next]: the new state, and the value
    returned.  The quotient is converted to [unsigned int]. *)
Definition randomInt (next : Z) : Z * Z :=
  let maxint := int_max in
  let next := (next * 1103515245 + 12345) mod 2 ^ ulong_bits in
  (next, ((next / 65536) mod 2 ^ 32) mod maxint).

(** The state after [k] calls, and the value that the call [k] returns
    (the first call is the call 0). *)
Definition random_state (k : nat) (next : Z) : Z :=
  Nat.iter k (fun next => (randomInt next).1) next.

Definition random_value (k : nat) (next : Z) : Z :=
  (randomInt (random_state k next)).2.
End RandomInt.

(** [baseline * Coord(r) / Coord(maxint) - baseline / 2]: a coordinate of a
    sample, from the pseudo-random number [r]. *)
Definition coordinate (r : Z) : spec_float :=
  Coord.sub
    (Coord.div (Coord.mul (Coord.of_int Driver.baseline) (Coord.of_int r))
               (Coord.of_int int_max))
    (Coord.of_int (Driver.baseline ÷ 2)).

Lemma not_negative_B2R (x : spec_float) : not_negative x -> (0 <= B2R x)%R.
Proof.
  intros Hx. destruct x as [s|s| |s m e]; try (unfold B2R; cbn; lra).
  destruct s; [done|]. rewrite B2R_finite. cbn [cond_Zopp].
  apply Rmult_le_pos; [apply IZR_le; lia|left; apply bpow_pos].
Qed.

Lemma div_not_negative (x y : spec_float) :
  is_finite x = true -> not_negative x -> (exists m e, y = S754_finite false m e) ->
  not_negative (Coord.div x y).
Proof.
  intros Hf Hx (m & e & ->). unfold Coord.div.
  destruct x as [sx|sx| |sx mx ex]; try done.
  destruct sx; [done|]. unfold SFdiv.
  destruct (SFdiv_core_binary _ _ _ _ _ _) as [[q e'] l]. cbn [xorb].
  pose proof (binary_round_aux_sign false q e' l) as Hs.
  destruct (binary_round_aux Coord.prec Coord.emax false q e' l); try done.
  - by subst.
  - by subst.
Qed.

Lemma finite_le_within (B : Z) (x : spec_float) :
  finite_le x (IZR B) -> within B x = true.
Proof.
  intros [Hf HB]. unfold within. rewrite Hf. cbn [andb]. apply Z.leb_le.
  pose proof (SFden_pos x) as Hd. apply le_IZR. rewrite mult_IZR, abs_IZR.
  unfold B2R, Rdiv in HB. rewrite Rabs_mult, Rabs_inv in HB.
  rewrite (Rabs_pos_eq (IZR (SFden x))) in HB by (apply IZR_le; lia).
  apply IZR_lt in Hd.
  apply (Rmult_le_compat_r (IZR (SFden x))) in HB; [|lra].
  rewrite Rmult_assoc, Rinv_l, Rmult_1_r in HB by lra. done.
Qed.

(** The coordinates of the samples are in [[-baseline/2, baseline/2]]: the
    quotient is below [baseline] by more than it can be rounded up, and
    [baseline/2] is a number of the format. *)
Lemma coordinate_finite_le (r : Z) :
  0 <= r < int_max -> finite_le (coordinate r) 1000.
Proof.
  intros Hr. unfold coordinate.
  pose proof eps_val as He. pose proof eta_bounds as Hh. pose proof overflow_threshold as Ho.
  assert (0 <= IZR r <= 2147483646)%R as HrR
    by (split; apply IZR_le; unfold int_max in *; lia).
  destruct (of_int_exact Driver.baseline ltac:(by vm_compute)) as (_ & Hfb & _ & Hpb & _).
  destruct (of_int_exact r ltac:(unfold int_min, int_max in *; lia)) as (_ & Hfr & _).
  destruct (of_int_exact int_max ltac:(by vm_compute)) as (_ & Hfm & _ & Hpm & _).
  destruct (of_int_exact (Driver.baseline ÷ 2) ltac:(by vm_compute)) as (_ & Hfh & _).
  set (P := Coord.mul (Coord.of_int Driver.baseline) (Coord.of_int r)).
  assert (finite_le P (2000 * IZR r * (1 + eps64) + eta64)) as HP.
  { eapply coord_mul_finite_le.
    - apply (of_int_finite_le Driver.baseline). by vm_compute.
    - apply (of_int_finite_le r). unfold int_min, int_max in *. lia.
    - change (Z.abs Driver.baseline) with 2000. rewrite Z.abs_eq by lia. lra.
    - rewrite He. nra. }
  assert (not_negative P) as HPn.
  { apply mul_not_negative; [apply Hpb; by vm_compute|].
    apply binary_normalize_not_negative. lia. }
  set (Q := Coord.div P (Coord.of_int int_max)).
  assert (finite_le Q (2000 - 9 / 10000000)) as HQ.
  { eapply (coord_div_finite_le _ _ _ 2147483647); [exact HP|done| | |lra].
    - rewrite B2R_of_int by (by vm_compute). change (IZR int_max) with 2147483647%R.
      rewrite Rabs_pos_eq by lra. lra.
    - rewrite He in *.
      apply (Rmult_le_reg_r 2147483647); [lra|].
      replace (((2000 * IZR r * (1 + / 4503599627370496) + eta64) / 2147483647
                * (1 + / 4503599627370496) + eta64) * 2147483647)%R
        with ((2000 * IZR r * (1 + / 4503599627370496) + eta64)
              * (1 + / 4503599627370496) + eta64 * 2147483647)%R by (field; lra).
      nra. }
  assert (not_negative Q) as HQn.
  { apply div_not_negative; [apply HP|done|apply Hpm; by vm_compute]. }
  destruct HQ as [HfQ HQ]. apply not_negative_B2R in HQn.
  rewrite Rabs_pos_eq in HQ by done.
  assert (IZR 125 * bpow 3 = 1000)%R as H1000
    by (rewrite bpow_IZR by lia; change (2 ^ 3) with 8; lra).
  rewrite <-H1000.
  apply sub_le_repr; [done|done|done|by vm_compute|by vm_compute|].
  rewrite B2R_of_int by (by vm_compute). rewrite H1000.
  change (IZR (Driver.baseline ÷ 2)) with 1000%R.
  apply Rabs_le. lra.
Qed.

Lemma coordinate_within (r : Z) :
  0 <= r < int_max -> within (Driver.baseline ÷ 2) (coordinate r) = true.
Proof. intros Hr. apply (finite_le_within 1000). by apply coordinate_finite_le. Qed.

Lemma randomInt_range (ulong_bits next : Z) :
  0 <= (randomInt ulong_bits next).2 < int_max.
Proof. unfold randomInt. cbn [snd]. apply Z.mod_pos_bound. done. Qed.

(** ** The samples *)

(** [std::vector<T> v(n)]: [n] elements, all [x]. *)
Definition vec_new {A : Type} (n : Z) (x : A) : option (list A) :=
  if decide (0 <= n) then Some (replicate (Z.to_nat n) x) else None.

(** The values [1.0] and [0.0] assigned to a [Value]. *)
Definition Value_one : Value := Value_of_real (Real.of_coord (Coord.lit 1 0)).
Definition Value_zero : Value := Value_of_real (Real.of_coord (Coord.lit 0 0)).

Section Samples.
Variable ulong_bits : Z.

(** The loop of [main] that draws the samples and initialises the data. *)
Definition draw_samples (nSamples nChan next : Z) (u v w : list spec_float)
    (data cpuoutdata ompoutdata : list Value)
  : option (Z * list spec_float * list spec_float * list spec_float
            * list Value * list Value * list Value) :=
  for_upto nSamples (fun i '(next, u, v, w, data, cpuoutdata, ompoutdata) =>
    let '(next, r) := randomInt ulong_bits next in
    u ← vec_set u i (coordinate r);
    let '(next, r) := randomInt ulong_bits next in
    v ← vec_set v i (coordinate r);
    let '(next, r) := randomInt ulong_bits next in
    w ← vec_set w i (coordinate r);
    '(data, cpuoutdata, ompoutdata) ←
      for_upto nChan (fun chan '(data, cpuoutdata, ompoutdata) =>
        data ← vec_set data (i * nChan + chan) Value_one;
        cpuoutdata ← vec_set cpuoutdata (i * nChan + chan) Value_zero;
        ompoutdata ← vec_set ompoutdata (i * nChan + chan) Value_zero;
        Some (data, cpuoutdata, ompoutdata)) (data, cpuoutdata, ompoutdata);
    Some (next, u, v, w, data, cpuoutdata, ompoutdata))
    (next, u, v, w, data, cpuoutdata, ompoutdata).
End Samples.

Lemma vec_set_spec {A : Type} (x : list A) (i : Z) (a : A) :
  0 <= i < vec_size x ->
  exists x', vec_set x i a = Some x' /\ vec_size x' = vec_size x /\
             vec_get x' i = Some a /\
             forall k, k <> i -> vec_get x' k = vec_get x k.
Proof.
  intros Hi.
  assert (vec_set x i a = Some (<[Z.to_nat i:=a]> x)) as Hset
    by (unfold vec_set; by rewrite decide_True).
  eexists. split; [exact Hset|]. split_and!.
  - by eapply vec_set_size.
  - rewrite (vec_get_set _ _ _ _ i Hset). by rewrite decide_True.
  - intros k Hk. rewrite (vec_get_set _ _ _ _ k Hset). by rewrite decide_False.
Qed.

Lemma vec_eq_fmap_seqZ {A : Type} (f : Z -> A) (x : list A) :
  (forall k, 0 <= k < vec_size x -> vec_get x k = Some (f k)) ->
  x = f <$> seqZ 0 (vec_size x).
Proof.
  intros Hx. apply vec_ext.
  - rewrite vec_size_fmap_seqZ; [done|unfold vec_size; lia].
  - intros k Hk. by rewrite Hx, vec_get_fmap_seqZ.
Qed.

Lemma vec_eq_replicate {A : Type} (a : A) (x : list A) :
  (forall k, 0 <= k < vec_size x -> vec_get x k = Some a) ->
  x = replicate (Z.to_nat (vec_size x)) a.
Proof.
  intros Hx. apply vec_ext.
  - unfold vec_size. rewrite length_replicate. lia.
  - intros k Hk. rewrite Hx by done. symmetry. apply vec_get_Some.
    split; [lia|]. apply lookup_replicate. split; [done|]. unfold vec_size in *. lia.
Qed.

Section SamplesFacts.
Variable ulong_bits : Z.

Lemma random_state_succ (k : nat) (next : Z) :
  random_state ulong_bits (S k) next
  = (randomInt ulong_bits (random_state ulong_bits k next)).1.
Proof. done. Qed.

(** The data set by the inner loop of [draw_samples]. *)
Lemma draw_samples_data (nChan i : Z) (data cpuoutdata ompoutdata : list Value) (N : Z) :
  0 <= i -> 0 <= nChan -> (i + 1) * nChan <= N ->
  vec_size data = N -> vec_size cpuoutdata = N -> vec_size ompoutdata = N ->
  exists data' cpu' omp',
    for_upto nChan (fun chan '(data, cpuoutdata, ompoutdata) =>
        data ← vec_set data (i * nChan + chan) Value_one;
        cpuoutdata ← vec_set cpuoutdata (i * nChan + chan) Value_zero;
        ompoutdata ← vec_set ompoutdata (i * nChan + chan) Value_zero;
        Some (data, cpuoutdata, ompoutdata)) (data, cpuoutdata, ompoutdata)
    = Some (data', cpu', omp') /\
    vec_size data' = N /\ vec_size cpu' = N /\ vec_size omp' = N /\
    forall d,
      (i * nChan <= d < (i + 1) * nChan ->
         vec_get data' d = Some Value_one /\ vec_get cpu' d = Some Value_zero /\
         vec_get omp' d = Some Value_zero) /\
      (~ i * nChan <= d < (i + 1) * nChan ->
         vec_get data' d = vec_get data d /\ vec_get cpu' d = vec_get cpuoutdata d /\
         vec_get omp' d = vec_get ompoutdata d).
Proof.
  intros Hi Hn HN Hd Hc Ho.
  set (I := fun (chan : Z) (st : list Value * list Value * list Value) =>
    let '(data', cpu', omp') := st in
    vec_size data' = N /\ vec_size cpu' = N /\ vec_size omp' = N /\
    forall d,
      (i * nChan <= d < i * nChan + chan ->
         vec_get data' d = Some Value_one /\ vec_get cpu' d = Some Value_zero /\
         vec_get omp' d = Some Value_zero) /\
      (~ i * nChan <= d < i * nChan + chan ->
         vec_get data' d = vec_get data d /\ vec_get cpu' d = vec_get cpuoutdata d /\
         vec_get omp' d = vec_get ompoutdata d)).
  match goal with |- context [for_upto nChan ?b _] =>
    destruct (for_upto_inv I b nChan (data, cpuoutdata, ompoutdata))
      as ([[data' cpu'] omp'] & Hrun & HI) end; [done| |..].
  - unfold I. split_and!; [done..|]. intros d. split; [lia|done].
  - intros chan [[d1 c1] o1] Hchan (Hd1 & Hc1 & Ho1 & Hcells).
    assert (0 <= i * nChan + chan < N) as Hin by nia.
    destruct (vec_set_spec d1 (i * nChan + chan) Value_one) as (d2 & -> & Hd2 & Hg2 & Hk2);
      [lia|].
    destruct (vec_set_spec c1 (i * nChan + chan) Value_zero) as (c2 & -> & Hc2 & Hgc & Hkc);
      [lia|].
    destruct (vec_set_spec o1 (i * nChan + chan) Value_zero) as (o2 & -> & Ho2 & Hgo & Hko);
      [lia|].
    cbn [mbind option_bind]. eexists. split; [done|].
    unfold I. split_and!; [congruence..|]. intros d.
    destruct (decide (d = i * nChan + chan)) as [->|Hne].
    + split; [done|lia].
    + rewrite Hk2, Hkc, Hko by done. destruct (Hcells d) as [H1 H2].
      split; intros Hr; [apply H1|apply H2]; lia.
  - exists data', cpu', omp'. split; [done|]. unfold I in HI.
    destruct HI as (Hs1 & Hs2 & Hs3 & Hcells). split_and!; [done..|].
    intros d. destruct (Hcells d) as [Hin Hout].
    split; intros Hr; [apply Hin|apply Hout]; lia.
Qed.

(** [main] draws the coordinates [u[i]], [v[i]], [w[i]] of the sample [i]
    from the calls [3i], [3i + 1] and [3i + 2] of [randomInt], sets all the
    data to 1 and the two outputs to 0. *)
Lemma draw_samples_result (nSamples nChan next : Z) (u v w : list spec_float)
    (data cpuoutdata ompoutdata : list Value) :
  0 <= nSamples -> 0 <= nChan ->
  vec_size u = nSamples -> vec_size v = nSamples -> vec_size w = nSamples ->
  vec_size data = nSamples * nChan -> vec_size cpuoutdata = nSamples * nChan ->
  vec_size ompoutdata = nSamples * nChan ->
  draw_samples ulong_bits nSamples nChan next u v w data cpuoutdata ompoutdata
  = Some (random_state ulong_bits (Z.to_nat (3 * nSamples)) next,
          (fun i => coordinate (random_value ulong_bits (Z.to_nat (3 * i)) next))
            <$> seqZ 0 nSamples,
          (fun i => coordinate (random_value ulong_bits (Z.to_nat (3 * i + 1)) next))
            <$> seqZ 0 nSamples,
          (fun i => coordinate (random_value ulong_bits (Z.to_nat (3 * i + 2)) next))
            <$> seqZ 0 nSamples,
          replicate (Z.to_nat (nSamples * nChan)) Value_one,
          replicate (Z.to_nat (nSamples * nChan)) Value_zero,
          replicate (Z.to_nat (nSamples * nChan)) Value_zero).
Proof.
  intros Hn Hc Hu Hv Hw Hd Hcpu Homp.
  set (N := nSamples * nChan) in *.
  set (cu := fun i => coordinate (random_value ulong_bits (Z.to_nat (3 * i)) next)).
  set (cv := fun i => coordinate (random_value ulong_bits (Z.to_nat (3 * i + 1)) next)).
  set (cw := fun i => coordinate (random_value ulong_bits (Z.to_nat (3 * i + 2)) next)).
  set (I := fun (i : Z) (st : Z * list spec_float * list spec_float * list spec_float
                              * list Value * list Value * list Value) =>
    let '(nx, u', v', w', d', c', o') := st in
    nx = random_state ulong_bits (Z.to_nat (3 * i)) next /\
    (vec_size u' = nSamples /\ vec_size v' = nSamples /\ vec_size w' = nSamples) /\
    (vec_size d' = N /\ vec_size c' = N /\ vec_size o' = N) /\
    (forall k, 0 <= k < i ->
       vec_get u' k = Some (cu k) /\ vec_get v' k = Some (cv k) /\ vec_get w' k = Some (cw k)) /\
    (forall d, 0 <= d < i * nChan ->
       vec_get d' d = Some Value_one /\ vec_get c' d = Some Value_zero /\
       vec_get o' d = Some Value_zero)).
  unfold draw_samples.
  match goal with |- for_upto nSamples ?b ?s = _ =>
    destruct (for_upto_inv I b nSamples s) as (st & Hrun & HI) end; [done| |..].
  - unfold I. split_and!; [done..| |]; intros; lia.
  - intros i [[[[[[nx u1] v1] w1] d1] c1] o1] Hi (Hnx & (Hu1 & Hv1 & Hw1) & (Hd1 & Hc1 & Ho1) & Hco & Hda).
    assert (Z.to_nat (3 * i + 1) = S (Z.to_nat (3 * i))) as E1 by lia.
    assert (Z.to_nat (3 * i + 2) = S (S (Z.to_nat (3 * i)))) as E2 by lia.
    assert (Z.to_nat (3 * (i + 1)) = S (S (S (Z.to_nat (3 * i))))) as E3 by lia.
    assert (cu i = coordinate (randomInt ulong_bits nx).2) as Hcu by (by rewrite Hnx).
    assert (cv i = coordinate (randomInt ulong_bits (randomInt ulong_bits nx).1).2) as Hcv.
    { unfold cv, random_value. by rewrite E1, random_state_succ, <-Hnx. }
    assert (cw i = coordinate (randomInt ulong_bits
              (randomInt ulong_bits (randomInt ulong_bits nx).1).1).2) as Hcw.
    { unfold cw, random_value. by rewrite E2, !random_state_succ, <-Hnx. }
    destruct (randomInt ulong_bits nx) as [n1 r1] eqn:R1. cbn [fst snd] in *.
    destruct (randomInt ulong_bits n1) as [n2 r2] eqn:R2. cbn [fst snd] in *.
    destruct (randomInt ulong_bits n2) as [n3 r3] eqn:R3. cbn [fst snd] in *.
    destruct (vec_set_spec u1 i (coordinate r1)) as (u2 & -> & Hu2 & Hgu & Hku); [lia|].
    destruct (vec_set_spec v1 i (coordinate r2)) as (v2 & -> & Hv2 & Hgv & Hkv); [lia|].
    destruct (vec_set_spec w1 i (coordinate r3)) as (w2 & -> & Hw2 & Hgw & Hkw); [lia|].
    cbn [mbind option_bind].
    destruct (draw_samples_data nChan i d1 c1 o1 N) as (d2 & c2 & o2 & -> & Hd2 & Hc2 & Ho2 & Hcells);
      [lia|lia|unfold N; nia|done..|].
    cbn [mbind option_bind]. eexists. split; [done|].
    unfold I. split_and!; [|congruence..| |].
    + rewrite E3, !random_state_succ, <-Hnx, R1. cbn [fst]. rewrite R2. cbn [fst].
      by rewrite R3.
    + intros k Hk. destruct (decide (k = i)) as [->|Hne].
      * rewrite Hgu, Hgv, Hgw, Hcu, Hcv, Hcw. done.
      * rewrite Hku, Hkv, Hkw by done. apply Hco. lia.
    + intros d Hdr. destruct (Hcells d) as [H1 H2].
      destruct (decide (i * nChan <= d)) as [Hge|Hlt].
      * apply H1. lia.
      * destruct H2 as (-> & -> & ->); [lia|]. apply Hda. lia.
  - rewrite Hrun. destruct st as [[[[[[nx u1] v1] w1] d1] c1] o1].
    destruct HI as (-> & (Hu1 & Hv1 & Hw1) & (Hd1 & Hc1 & Ho1) & Hco & Hda).
    do 2 f_equal; [do 5 f_equal|..].
    + rewrite <-Hu1. apply vec_eq_fmap_seqZ. intros k Hk. apply Hco. lia.
    + rewrite <-Hv1. apply vec_eq_fmap_seqZ. intros k Hk. apply Hco. lia.
    + rewrite <-Hw1. apply vec_eq_fmap_seqZ. intros k Hk. apply Hco. lia.
    + fold N. rewrite <-Hd1. apply vec_eq_replicate. intros k Hk. apply Hda. lia.
    + fold N. rewrite <-Hc1. apply vec_eq_replicate. intros k Hk. apply Hda. lia.
    + fold N. rewrite <-Ho1. apply vec_eq_replicate. intros k Hk. apply Hda. lia.
Qed.
End SamplesFacts.

(** ** The offsets within the table of the convolution function *)

Lemma floorZ_B2R (x : spec_float) :
  (IZR (floorZ x) <= B2R x < IZR (floorZ x) + 1)%R.
Proof.
  pose proof (SFden_pos x) as Hd. unfold floorZ, B2R.
  pose proof (Z.mul_div_le (SFnum x) (SFden x) Hd) as Hlo.
  pose proof (Z.mul_succ_div_gt (SFnum x) (SFden x) Hd) as Hhi.
  set (q := SFnum x / SFden x) in *.
  apply IZR_le in Hlo. apply IZR_lt in Hhi, Hd.
  rewrite mult_IZR in Hlo, Hhi. unfold Z.succ in Hhi. rewrite plus_IZR in Hhi.
  split.
  - apply (Rmult_le_reg_r (IZR (SFden x))); [done|].
    unfold Rdiv. rewrite Rmult_assoc, Rinv_l by lra. lra.
  - apply (Rmult_lt_reg_r (IZR (SFden x))); [done|].
    unfold Rdiv. rewrite Rmult_assoc, Rinv_l by lra. lra.
Qed.

Lemma not_negative_truncZ (x : spec_float) : not_negative x -> 0 <= truncZ x.
Proof.
  intros Hx. unfold truncZ. apply Z.quot_pos; [|pose proof (SFden_pos x); lia].
  destruct x as [| | |[] m e]; cbn [SFnum]; try done; try lia.
  pose proof (SFnum_sign false m e). cbn [SFnum] in *. lia.
Qed.

(** The fractional bin is in [[0, overSample]]: the difference
    [xs - floor(xs)] is rounded to 1 at most, and its product by
    [overSample] is below [overSample + 1]. *)
Lemma frac_bin_range (overSample : Z) (xs : spec_float) (ip f : Z) :
  valid_binary Coord.prec Coord.emax xs = true ->
  0 < overSample <= int_max ->
  int_part xs = Some ip -> frac_bin overSample xs ip = Some f ->
  0 <= f <= overSample.
Proof.
  intros Hvalid Hos Hip Hf.
  pose proof eps_val as He. pose proof eta_bounds as Hh. pose proof overflow_threshold as Ho.
  destruct (int_part_range _ _ Hip) as [Hfin Hr].
  apply (int_part_floor _ _ Hvalid) in Hip. subst ip.
  unfold frac_bin in Hf. apply double_to_int_Some in Hf as (_ & -> & _).
  destruct (of_int_exact overSample ltac:(unfold int_min; lia)) as (_ & Hfo & _ & Hpos & _).
  destruct (of_int_exact (floorZ xs) Hr) as (_ & Hfc & Hexact & _).
  pose proof (floorZ_B2R xs) as Hfl.
  set (D := Coord.sub xs (Coord.of_int (floorZ xs))).
  assert (not_negative D) as HDn.
  { apply sub_not_negative; [done..|]. rewrite Hexact.
    pose proof (SFden_pos xs). pose proof (SFden_pos (Coord.of_int (floorZ xs))).
    pose proof (Z.mul_div_le (SFnum xs) (SFden xs) ltac:(lia)) as Hle.
    fold (floorZ xs) in Hle. nia. }
  assert (finite_le D 1) as HD.
  { assert (IZR 1 * bpow 0 = 1)%R as H1 by (change (bpow 0) with 1%R; lra).
    rewrite <-H1. apply sub_le_repr; [done|done|done|by vm_compute|by vm_compute|].
    rewrite B2R_of_int, H1 by done. apply Rabs_le. lra. }
  set (M := Coord.mul (Coord.of_int overSample) D).
  assert (not_negative M) as HMn by (apply mul_not_negative; [apply Hpos; lia|done]).
  assert (IZR overSample <= 2147483647)%R as HosR
    by (apply IZR_le; unfold int_max in *; lia).
  assert (1 <= IZR overSample)%R as HosR1 by (apply IZR_le; lia).
  assert (finite_le M (IZR overSample + 1 / 2)) as HM.
  { eapply (coord_mul_finite_le _ _ (IZR overSample) 1); [|exact HD| |lra].
    - eapply finite_le_weaken; [apply of_int_finite_le; unfold int_min, int_max in *; lia|].
      rewrite Z.abs_eq by lia. lra.
    - rewrite He. lra. }
  split; [by apply not_negative_truncZ|].
  pose proof (truncZ_le M) as Ht. destruct HM as [_ HM].
  assert (IZR (Z.abs (truncZ M)) < IZR (overSample + 1))%R as Hlt
    by (rewrite plus_IZR; lra).
  apply lt_IZR in Hlt. lia.
Qed.

Section OffsetRanges.
Variables (u v w freq : list spec_float) (cellSize wCellSize : spec_float).
Variables (wSize gSize support overSample : Z).
(** Bounds on the magnitudes, as for [offset_entry_bounds]; [Bw] bounds the
    scaled [w], and [Kw] its integer part. *)
Variables (Bf Bx Lc Lw B1 Bw : R) (K Kw : Z).

Hypothesis Hfreq : forall chan, 0 <= chan < vec_size freq ->
  finite_le (vec_at nan_default freq chan) Bf.
Hypothesis Hu : forall i, 0 <= i < vec_size u -> finite_le (vec_at nan_default u i) Bx.
Hypothesis Hv : forall i, 0 <= i < vec_size u -> finite_le (vec_at nan_default v i) Bx.
Hypothesis Hw : forall i, 0 <= i < vec_size u -> finite_le (vec_at nan_default w i) Bx.
Hypothesis Hcell : is_finite cellSize = true /\ (0 < Lc <= Rabs (B2R cellSize))%R.
Hypothesis Hwcell : is_finite wCellSize = true /\ (0 < Lw <= Rabs (B2R wCellSize))%R.
Hypothesis HB1 : (Bf * Bx * (1 + eps64) + eta64 <= B1 <= 4611686018427387904)%R.
Hypothesis HK : (B1 / Lc * (1 + eps64) + eta64 <= IZR K)%R.
Hypothesis HBw : (B1 / Lw * (1 + eps64) + eta64 <= Bw < IZR Kw + 1)%R.
Hypothesis HKmax : K < int_max /\ Kw < int_max.
Hypothesis Hos : 0 < overSample /\ overSample * (2 * K + 2) < int_max.

Lemma offset_entry_ranges (i chan : Z) :
  0 <= i < vec_size u -> 0 <= chan < vec_size freq ->
  exists fracu fracv woff iu1 iv1,
    offset_entry u v w freq cellSize wCellSize wSize gSize support overSample i chan
    = Some ((2 * support + 1) * (2 * support + 1)
            * (fracu + overSample * (fracv + overSample * woff)), iu1, iv1) /\
    0 <= fracu <= overSample /\ 0 <= fracv <= overSample /\
    wSize ÷ 2 - Kw <= woff <= wSize ÷ 2 + Kw /\
    gSize ÷ 2 - K - 1 <= iu1 <= gSize ÷ 2 + K /\
    gSize ÷ 2 - K - 1 <= iv1 <= gSize ÷ 2 + K.
Proof.
  intros Hi Hchan. unfold offset_entry. cbv zeta.
  destruct Hcell as [Hfc HLc], Hwcell as [Hfw HLw], HB1 as [Hb1 Hb1'],
           HKmax as [HK1 HK2], Hos as [Hos1 Hos2], HBw as [HBw1 HBw2].
  assert (IZR K <= 4611686018427387904)%R as HKR
    by (apply IZR_le; unfold int_max in *; lia).
  assert (IZR Kw + 1 <= 4611686018427387904)%R as HKwR.
  { rewrite <-plus_IZR. apply IZR_le. unfold int_max in *. lia. }
  assert (0 <= K) as HK0.
  { apply le_IZR. eapply Rle_trans; [|exact HK].
    pose proof eps_val. pose proof eta_bounds.
    assert (0 <= B1 / Lc)%R; [|nra].
    apply Rmult_le_pos; [|left; apply Rinv_0_lt_compat; lra].
    pose proof (finite_le_nonneg _ _ (Hfreq chan Hchan)).
    pose proof (finite_le_nonneg _ _ (Hu i Hi)). nra. }
  set (f := vec_at nan_default freq chan).
  assert (finite_le (scaled f (vec_at nan_default u i) cellSize) (IZR K)) as Hus
    by (eapply scaled_finite_le; eauto).
  assert (finite_le (scaled f (vec_at nan_default v i) cellSize) (IZR K)) as Hvs
    by (eapply scaled_finite_le; eauto).
  assert (finite_le (scaled f (vec_at nan_default w i) wCellSize) Bw) as Hws
    by (eapply scaled_finite_le; eauto; lra).
  assert (forall x c, valid_binary Coord.prec Coord.emax (scaled f x c) = true) as Hvalid
    by (intros; by apply SFdiv_valid).
  destruct (int_part_bounds _ _ Hus ltac:(lia)) as (iu1 & Hiu1 & Hiu).
  rewrite Hiu1. cbn [mbind option_bind].
  destruct (frac_bin_defined overSample _ iu1 K Hus Hiu ltac:(lia) Hos2 HK1) as [fu Hfu].
  rewrite Hfu. cbn [mbind option_bind].
  destruct (int_part_bounds _ _ Hvs ltac:(lia)) as (iv1 & Hiv1 & Hiv).
  rewrite Hiv1. cbn [mbind option_bind].
  destruct (frac_bin_defined overSample _ iv1 K Hvs Hiv ltac:(lia) Hos2 HK1) as [fv Hfv].
  rewrite Hfv. cbn [mbind option_bind].
  assert (overSample <= int_max) as Hosmax by nia.
  pose proof (frac_bin_range overSample _ iu1 fu (Hvalid _ _) ltac:(lia) Hiu1 Hfu) as Hru.
  pose proof (frac_bin_range overSample _ iv1 fv (Hvalid _ _) ltac:(lia) Hiv1 Hfv) as Hrv.
  set (ws := scaled f (vec_at nan_default w i) wCellSize) in *.
  assert (Z.abs (truncZ ws) <= Kw) as Hwt.
  { pose proof (truncZ_le ws) as Ht. destruct Hws as [_ Hws].
    assert (IZR (Z.abs (truncZ ws)) < IZR (Kw + 1))%R as Hlt
      by (rewrite plus_IZR; lra).
    apply lt_IZR in Hlt. lia. }
  unfold w_plane.
  assert (double_to_int ws = Some (truncZ ws)) as ->.
  { apply double_to_int_Some. split_and!; [apply Hws|done|unfold int_min, int_max in *; lia..]. }
  cbn [mbind option_bind].
  exists fu, fv, (wSize ÷ 2 + truncZ ws), (iu1 + gSize ÷ 2), (iv1 + gSize ÷ 2).
  split; [done|]. lia.
Qed.
End OffsetRanges.

Section DriverTables.
Variable nChan : Z.
Hypothesis HnChan : 1 <= nChan <= int_max.
Variables (u v w : list spec_float).
Hypothesis Hsv : vec_size u <= vec_size v.
Hypothesis Hsw : vec_size u <= vec_size w.
Hypothesis Hu : forall i, 0 <= i < vec_size u -> finite_le (vec_at nan_default u i) 1000.
Hypothesis Hv : forall i, 0 <= i < vec_size u -> finite_le (vec_at nan_default v i) 1000.
Hypothesis Hw : forall i, 0 <= i < vec_size u -> finite_le (vec_at nan_default w i) 1000.

Abbreviation driver_entry :=
  (offset_entry u v w (Driver.freq nChan) Driver.cellSize Driver.wCellSize Driver.wSize
     Driver.gSize Driver.support Driver.overSample).

(** The entry of a sample of the driver: the w-plane is one of the planes 8
    to 24 and the fractional bins are at most 8, so that the offset leaves
    a whole stencil in the table. *)
Lemma driver_entry_ranges (i chan : Z) :
  0 <= i < vec_size u -> 0 <= chan < nChan ->
  exists fracu fracv woff iu1 iv1,
    driver_entry i chan
    = Some (129 * 129 * (fracu + 8 * (fracv + 8 * woff)), iu1, iv1) /\
    0 <= fracu <= 8 /\ 0 <= fracv <= 8 /\ 8 <= woff <= 24 /\
    1112 <= iu1 <= 2983 /\ 1112 <= iv1 <= 2983.
Proof.
  intros Hi Hchan.
  pose proof eps_val as He. pose proof eta_bounds as Hh.
  destruct (offset_entry_ranges u v w (Driver.freq nChan) Driver.cellSize Driver.wCellSize
              Driver.wSize Driver.gSize Driver.support Driver.overSample
              (46705 / 10000) 1000 5 566 4671 (83 / 10) 935 8) with (i := i) (chan := chan)
    as (fu & fv & woff & iu1 & iv1 & Hent & Hfu & Hfv & Hwo & Hiu & Hiv); try done.
  - intros c Hc. rewrite driver_freq_size in Hc by done. rewrite driver_freq_at by done.
    by apply freq_at_finite_le.
  - split; [done|]. split; [lra|]. eapply abs_ge_frac; [by vm_compute..|lra].
  - split; [done|]. split; [lra|]. eapply abs_ge_frac; [by vm_compute..|lra].
  - rewrite He. lra.
  - rewrite He. lra.
  - rewrite He. lra.
  - by rewrite driver_freq_size.
  - exists fu, fv, woff, iu1, iv1. split; [exact Hent|].
    change (Driver.wSize ÷ 2) with 16 in Hwo. change (Driver.gSize ÷ 2) with 2048 in Hiu, Hiv.
    change Driver.overSample with 8 in Hfu, Hfv. lia.
Qed.

(** [initCOffset] on the samples of the driver. *)
Lemma driver_offsets (cOffset0 iu0 iv0 : list Z) :
  exists cOffset iu iv,
    initCOffset u v w (Driver.freq nChan) Driver.cellSize Driver.wCellSize Driver.wSize
                Driver.gSize Driver.support Driver.overSample cOffset0 iu0 iv0
    = Some (cOffset, iu, iv) /\
    vec_size cOffset = vec_size u * nChan /\
    vec_size iu = vec_size u * nChan /\
    vec_size iv = vec_size u * nChan /\
    forall d, 0 <= d < vec_size u * nChan ->
      exists fracu fracv woff,
        vec_at 0 cOffset d = 129 * 129 * (fracu + 8 * (fracv + 8 * woff)) /\
        0 <= fracu <= 8 /\ 0 <= fracv <= 8 /\ 8 <= woff <= 24 /\
        1112 <= vec_at 0 iu d <= 2983 /\ 1112 <= vec_at 0 iv d <= 2983.
Proof.
  destruct (initCOffset_entries u v w (Driver.freq nChan) Driver.cellSize Driver.wCellSize
              Driver.wSize Driver.gSize Driver.support Driver.overSample Hsv Hsw
              cOffset0 iu0 iv0)
    as (cO & iu & iv & Hrun & Hsc & Hsu & Hsi & He').
  { intros i chan Hi Hchan. rewrite driver_freq_size in Hchan by done.
    destruct (driver_entry_ranges i chan Hi Hchan) as (? & ? & ? & ? & ? & -> & _). done. }
  rewrite driver_freq_size in Hsc, Hsu, Hsi, He' by done.
  exists cO, iu, iv. split_and!; [done..|].
  intros d Hd.
  assert (0 <= d / nChan < vec_size u) as Hi.
  { split; [apply Z.div_pos; lia|apply Z.div_lt_upper_bound; lia]. }
  assert (0 <= d mod nChan < nChan) as Hchan by (apply Z.mod_pos_bound; lia).
  destruct (driver_entry_ranges (d / nChan) (d mod nChan) Hi Hchan)
    as (fu & fv & woff & iu1 & iv1 & Hent & Hr).
  rewrite (He' (d / nChan) (d mod nChan) Hi Hchan) in Hent.
  replace (d / nChan * nChan + d mod nChan) with d in Hent
    by (rewrite (Z.div_mod d nChan) at 1; lia).
  injection Hent as Hec Heu Hev.
  exists fu, fv, woff. rewrite Hec, Heu, Hev. done.
Qed.

(** The tables of the driver meet the precondition of the kernels. *)
Lemma driver_stencils_ok (cOffset0 iu0 iv0 : list Z) (data C : list Value) :
  vec_size data = vec_size u * nChan ->
  vec_size C = 129 * 129 * 8 * 8 * 33 ->
  exists cOffset iu iv,
    initCOffset u v w (Driver.freq nChan) Driver.cellSize Driver.wCellSize Driver.wSize
                Driver.gSize Driver.support Driver.overSample cOffset0 iu0 iv0
    = Some (cOffset, iu, iv) /\
    stencils_ok data Driver.support C cOffset iu iv Driver.gSize.
Proof.
  intros Hd HC.
  destruct (driver_offsets cOffset0 iu0 iv0) as (cO & iu & iv & Hrun & Hsc & Hsu & Hsi & He).
  exists cO, iu, iv. split; [done|].
  split; [split|..].
  - by vm_compute.
  - lia.
  - lia.
  - lia.
  - intros d Hdr. rewrite Hd in Hdr.
    destruct (He d Hdr) as (fu & fv & woff & -> & Hfu & Hfv & Hwo & _).
    rewrite HC. change (stencil_size Driver.support) with 129. lia.
  - intros d Hdr. rewrite Hd in Hdr.
    destruct (He d Hdr) as (fu & fv & woff & _ & _ & _ & _ & Hiu & _).
    change Driver.support with 64. change Driver.gSize with 4096. lia.
  - intros d Hdr. rewrite Hd in Hdr.
    destruct (He d Hdr) as (fu & fv & woff & _ & _ & _ & _ & _ & Hiv).
    change Driver.support with 64. change Driver.gSize with 4096. lia.
Qed.
End DriverTables.

(** ** The comparison of the results

    The loops of [main] that compare the grids, and then the data, of the
    sequential and of the parallel kernel: the first pair of real parts
    that differ by more than 0.00001 fails the run. *)

Inductive verdict : Type :=
  | Pass
  | Fail_sizes
  | Fail_at (i : Z) (expected got : spec_float).

(** [for (unsigned int i = ...; i < cpu.size(); ++i)], with [n] iterations
    left. *)
Fixpoint verify_from (n : nat) (i : Z) (cpu omp : list Value) : option verdict :=
  match n with
  | O => Some Pass
  | S n' =>
      a ← vec_get cpu i;
      b ← vec_get omp i;
      if verify_differs a b then Some (Fail_at i (real a) (real b))
      else verify_from n' (i + 1) cpu omp
  end.

Definition verify (cpu omp : list Value) : option verdict :=
  if decide (vec_size cpu <> vec_size omp) then Some Fail_sizes
  else verify_from (length cpu) 0 cpu omp.

Lemma verify_from_spec (n : nat) (i : Z) (cpu omp : list Value) :
  0 <= i -> i + Z.of_nat n <= vec_size cpu -> vec_size cpu = vec_size omp ->
  (verify_from n i cpu omp = Some Pass /\
   forall k, i <= k < i + Z.of_nat n ->
     verify_differs (vec_at vzero cpu k) (vec_at vzero omp k) = false) \/
  (exists k, i <= k < i + Z.of_nat n /\
     verify_from n i cpu omp
     = Some (Fail_at k (real (vec_at vzero cpu k)) (real (vec_at vzero omp k))) /\
     verify_differs (vec_at vzero cpu k) (vec_at vzero omp k) = true /\
     forall j, i <= j < k ->
       verify_differs (vec_at vzero cpu j) (vec_at vzero omp j) = false).
Proof.
  revert i. induction n as [|n IH]; intros i Hi Hn Hs.
  - left. split; [done|]. intros k Hk. lia.
  - cbn [verify_from].
    rewrite (vec_get_at vzero cpu), (vec_get_at vzero omp) by lia.
    cbn [mbind option_bind].
    destruct (verify_differs (vec_at vzero cpu i) (vec_at vzero omp i)) eqn:Hd.
    + right. exists i. split; [lia|]. split_and!; [done..|]. intros j Hj. lia.
    + destruct (IH (i + 1) ltac:(lia) ltac:(lia) Hs) as [[Hp Hall]|(k & Hk & Hf & Hdk & Hbefore)].
      * left. split; [done|]. intros k Hk.
        destruct (decide (k = i)) as [->|]; [done|]. apply Hall. lia.
      * right. exists k. split; [lia|]. split_and!; [done..|]. intros j Hj.
        destruct (decide (j = i)) as [->|]; [done|]. apply Hbefore. lia.
Qed.

(** The subtraction of [float]s gives a NaN from a NaN, and the comparison
    with a NaN is false. *)
Lemma verify_differs_nan (a b : Value) :
  real a = S754_nan \/ real b = S754_nan -> verify_differs a b = false.
Proof.
  unfold verify_differs. intros [->| ->]; [done|]. by destruct (real a).
Qed.

(** Only the real parts are compared. *)
Lemma verify_differs_real (a b a' b' : Value) :
  real a = real a' -> real b = real b' -> verify_differs a b = verify_differs a' b'.
Proof. unfold verify_differs. by intros -> ->. Qed.

(** ** The options of the command line *)

Module CommandLine.
Import Ascii String.

(** The variables of [main] that the options set, and their values when no
    option is given. *)
Record options : Type := mkOptions {
  nSamples : Z;
  wSize : Z;
  nChan : Z;
  cellSize : spec_float
}.

Definition defaults : options :=
  {| nSamples := 160000; wSize := 33; nChan := 1; cellSize := Coord.lit 5 0 |}.

(** How the loop over the arguments ends: [main] goes on with the options
    read, or it calls [usage()] and returns [code]. *)
Inductive parsed : Type :=
  | Proceed (o : options)
  | Usage (code : Z).

(** [s[k]]: the character [k] of a C string, which ends with a zero byte. *)
Definition char_at (s : string) (k : nat) : ascii := default zero (get k s).

Definition set_nSamples (n : Z) (o : options) : options :=
  {| nSamples := n; wSize := wSize o; nChan := nChan o; cellSize := cellSize o |}.
Definition set_wSize (n : Z) (o : options) : options :=
  {| nSamples := nSamples o; wSize := n; nChan := nChan o; cellSize := cellSize o |}.
Definition set_nChan (n : Z) (o : options) : options :=
  {| nSamples := nSamples o; wSize := wSize o; nChan := n; cellSize := cellSize o |}.
Definition scale_cellSize (f : spec_float) (o : options) : options :=
  {| nSamples := nSamples o; wSize := wSize o; nChan := nChan o;
     cellSize := Coord.mul (cellSize o) f |}.

Section Parse.
(** The functions [atoi] and [atof] of the C library. *)
Variable atoi : string -> Z.
Variable atof : string -> spec_float.

(** [for (int i = ...; i < argc; i++)] with [fuel] iterations left at most;
    [argv] holds the [argc] arguments.  The value of an option is
    [argv[i+1]]: when the option is the last argument this is [argv[argc]],
    a null pointer, and the behaviour of [atoi] and [atof] is undefined. *)
Fixpoint parse_loop (fuel : nat) (argv : list string) (i : Z) (o : options)
  : option parsed :=
  match fuel with
  | O => Some (Proceed o)
  | S fuel' =>
      if decide (i < vec_size argv) then
        arg ← vec_get argv i;
        if Ascii.eqb (char_at arg 0) "-" then
          if Ascii.eqb (char_at arg 1) "h" then Some (Usage 0)
          else if Ascii.eqb (char_at arg 1) "n" then
            val ← vec_get argv (i + 1);
            parse_loop fuel' argv (i + 1 + 1) (set_nSamples (atoi val) o)
          else if Ascii.eqb (char_at arg 1) "w" then
            val ← vec_get argv (i + 1);
            parse_loop fuel' argv (i + 1 + 1) (set_wSize (atoi val) o)
          else if Ascii.eqb (char_at arg 1) "c" then
            val ← vec_get argv (i + 1);
            parse_loop fuel' argv (i + 1 + 1) (set_nChan (atoi val) o)
          else if Ascii.eqb (char_at arg 1) "f" then
            val ← vec_get argv (i + 1);
            parse_loop fuel' argv (i + 1 + 1) (scale_cellSize (atof val) o)
          else Some (Usage 1)
        else Some (Usage 1)
      else Some (Proceed o)
  end.

(** The loop runs at most [argc] times. *)
Definition parse_args (argv : list string) : option parsed :=
  if decide (vec_size argv > 1) then parse_loop (Datatypes.length argv) argv 1 defaults
  else Some (Proceed defaults).

(** *** The arguments, read as a list *)

(** An option that takes a value, by its second character. *)
Definition setter (arg val : string) : option (options -> options) :=
  if Ascii.eqb (char_at arg 0) "-" then
    if Ascii.eqb (char_at arg 1) "h" then None
    else if Ascii.eqb (char_at arg 1) "n" then Some (set_nSamples (atoi val))
    else if Ascii.eqb (char_at arg 1) "w" then Some (set_wSize (atoi val))
    else if Ascii.eqb (char_at arg 1) "c" then Some (set_nChan (atoi val))
    else if Ascii.eqb (char_at arg 1) "f" then Some (scale_cellSize (atof val))
    else None
  else None.

(** The arguments [args] are options with their values. *)
Fixpoint read_options (args : list string) (o : options) : option options :=
  match args with
  | [] => Some o
  | [_] => None
  | arg :: val :: args' =>
      set ← setter arg val; read_options args' (set o)
  end.

(** The same loop, on the arguments that are left. *)
Fixpoint parse_list (args : list string) (o : options) : option parsed :=
  match args with
  | [] => Some (Proceed o)
  | arg :: rest =>
      if Ascii.eqb (char_at arg 0) "-" then
        if Ascii.eqb (char_at arg 1) "h" then Some (Usage 0)
        else
          match setter arg EmptyString with
          | Some _ =>
              match rest with
              | [] => None
              | val :: rest' => set ← setter arg val; parse_list rest' (set o)
              end
          | None => Some (Usage 1)
          end
      else Some (Usage 1)
  end.

Lemma vec_get_drop (argv : list string) (i : Z) :
  0 <= i -> vec_get argv i = head (drop (Z.to_nat i) argv).
Proof.
  intros Hi. unfold vec_get. rewrite decide_True by done.
  by rewrite head_lookup, lookup_drop, Nat.add_0_r.
Qed.

Lemma drop_cons_inv (argv : list string) (i : Z) (arg : string) (rest : list string) :
  0 <= i -> drop (Z.to_nat i) argv = arg :: rest ->
  drop (Z.to_nat (i + 1)) argv = rest /\ i < vec_size argv.
Proof.
  intros Hi Hd. split.
  - replace (Z.to_nat (i + 1)) with (Z.to_nat i + 1)%nat by lia.
    by rewrite <-drop_drop, Hd.
  - assert (Datatypes.length (drop (Z.to_nat i) argv) = S (Datatypes.length rest)) as Hl
      by (by rewrite Hd).
    rewrite length_drop in Hl. unfold vec_size. lia.
Qed.

Lemma parse_loop_list (fuel : nat) (argv : list string) (i : Z) (o : options) :
  0 <= i -> (Datatypes.length (drop (Z.to_nat i) argv) <= fuel)%nat ->
  parse_loop fuel argv i o = parse_list (drop (Z.to_nat i) argv) o.
Proof.
  revert i o. induction fuel as [|fuel IH]; intros i o Hi Hfuel.
  - destruct (drop (Z.to_nat i) argv); [done|cbn in Hfuel; lia].
  - cbn [parse_loop]. rewrite (vec_get_drop argv i), (vec_get_drop argv (i + 1)) by lia.
    destruct (drop (Z.to_nat i) argv) as [|arg rest] eqn:Hd.
    { rewrite decide_False; [done|].
      apply (f_equal Datatypes.length) in Hd. rewrite length_drop in Hd.
      unfold vec_size. cbn in Hd. lia. }
    destruct (drop_cons_inv argv i arg rest Hi Hd) as [Hrest Hlt].
    rewrite decide_True by done. rewrite Hrest. cbn [head mbind option_bind parse_list].
    unfold setter.
    destruct (Ascii.eqb (char_at arg 0) "-"); [|done].
    destruct (Ascii.eqb (char_at arg 1) "h"); [done|].
    assert (forall set : options -> options,
      match rest with
      | [] => None
      | val :: _ => parse_loop fuel argv (i + 1 + 1) (set o)
      end
      = match rest with
        | [] => None
        | val :: rest' => parse_list rest' (set o)
        end) as Hnext.
    { intros set. destruct rest as [|val rest']; [done|].
      destruct (drop_cons_inv argv (i + 1) val rest' ltac:(lia) Hrest) as [Hrest' _].
      rewrite IH; [by rewrite Hrest'|lia|]. rewrite Hrest'. cbn in Hfuel. lia. }
    destruct (Ascii.eqb (char_at arg 1) "n").
    { destruct rest as [|val rest']; [done|]. cbn [head mbind option_bind].
      apply (Hnext (set_nSamples (atoi val))). }
    destruct (Ascii.eqb (char_at arg 1) "w").
    { destruct rest as [|val rest']; [done|]. cbn [head mbind option_bind].
      apply (Hnext (set_wSize (atoi val))). }
    destruct (Ascii.eqb (char_at arg 1) "c").
    { destruct rest as [|val rest']; [done|]. cbn [head mbind option_bind].
      apply (Hnext (set_nChan (atoi val))). }
    destruct (Ascii.eqb (char_at arg 1) "f").
    { destruct rest as [|val rest']; [done|]. cbn [head mbind option_bind].
      apply (Hnext (scale_cellSize (atof val))). }
    done.
Qed.

Lemma parse_args_list (prog : string) (args : list string) :
  parse_args (prog :: args) = parse_list args defaults.
Proof.
  unfold parse_args. case_decide as Hn.
  - rewrite parse_loop_list; [done|lia|]. rewrite length_drop. lia.
  - destruct args; [done|]. unfold vec_size in Hn. cbn in Hn. lia.
Qed.

(** Whether a setter is found does not depend on the value. *)
Lemma setter_is_Some (arg val val' : string) :
  is_Some (setter arg val) -> is_Some (setter arg val').
Proof.
  unfold setter. repeat (destruct (Ascii.eqb _ _)); done.
Qed.

Lemma setter_dash (arg val : string) :
  is_Some (setter arg val) ->
  Ascii.eqb (char_at arg 0) "-" = true /\ Ascii.eqb (char_at arg 1) "h" = false.
Proof.
  unfold setter. destruct (Ascii.eqb (char_at arg 0) "-"); [|by intros [? ?]].
  destruct (Ascii.eqb (char_at arg 1) "h"); [by intros [? ?]|done].
Qed.

Lemma parse_list_app (args rest : list string) (o o' : options) :
  read_options args o = Some o' ->
  parse_list (args ++ rest) o = parse_list rest o'.
Proof.
  revert o. induction args as [args IH] using (induction_ltof1 _ (@Datatypes.length string)).
  unfold ltof in IH. intros o.
  destruct args as [|arg [|val args]]; cbn [read_options].
  - by intros [= ->].
  - done.
  - destruct (setter arg val) as [set|] eqn:Hset; [|done]. cbn [mbind option_bind].
    intros Hread. cbn [app parse_list].
    destruct (setter_dash arg val ltac:(by rewrite Hset)) as [-> ->].
    destruct (setter_is_Some arg val EmptyString ltac:(by rewrite Hset)) as [set0 ->].
    rewrite Hset. cbn [mbind option_bind]. apply IH; [cbn; lia|done].
Qed.

Lemma parse_list_Proceed (args : list string) (o o' : options) :
  parse_list args o = Some (Proceed o') -> read_options args o = Some o'.
Proof.
  revert o. induction args as [args IH] using (induction_ltof1 _ (@Datatypes.length string)).
  unfold ltof in IH. intros o.
  destruct args as [|arg rest]; cbn [parse_list read_options].
  - by intros [= ->].
  - destruct (Ascii.eqb (char_at arg 0) "-") eqn:Hdash; [|done].
    destruct (Ascii.eqb (char_at arg 1) "h") eqn:Hh; [done|].
    destruct (setter arg EmptyString) as [set0|] eqn:Hset0; [|done].
    destruct rest as [|val rest']; [done|].
    destruct (setter arg val) as [set|] eqn:Hset; [|done]. cbn [mbind option_bind].
    intros Hp. apply IH; [cbn; lia|done].
Qed.
End Parse.
End CommandLine.

(** ** [main]

    What [main] prints, and the time it measures, are left out.  A step
    that is [None] does not return: its behaviour is undefined, or it
    throws (a vector of a negative size). *)

(** [v.assign(v.size(), x)] *)
Definition vec_assign {A : Type} (v : list A) (x : A) : list A := replicate (length v) x.

(** The frequencies, in inverse wavelengths. *)
Definition main_freq (nChan : Z) : option (list spec_float) :=
  freq ← vec_new nChan (S754_zero false);
  for_upto nChan (fun i freq => vec_set freq i (Driver.freq_at nChan i)) freq.

(** The kernels and the verifications of [main], on the tables that the
    setup leaves: gridding by the sequential and by the parallel kernel on
    grids of zeros, the comparison of the two grids, degridding by the two
    kernels of grids of ones, the comparison of the two outputs.  A
    comparison that fails ends [main] with 1. *)
Definition main_kernels (data cpuoutdata ompoutdata C : list Value) (support : Z)
    (cOffset iu iv : list Z) (gSize max_threads nthreads : Z) (sched : list (list Z))
    (ret : Z) : Prop :=
  exists cpugrid0 cpugrid ompgrid0 gout,
    vec_new (gSize * gSize) vzero = Some cpugrid0 /\
    gridKernel data support C cOffset iu iv (vec_assign cpugrid0 Value_zero) gSize
    = Some cpugrid /\
    vec_new (gSize * gSize) vzero = Some ompgrid0 /\
    gridKernelOMP max_threads nthreads data support C cOffset iu iv
                  (vec_assign ompgrid0 Value_zero) gSize gout /\
    match verify cpugrid gout.1 with
    | Some Pass =>
        exists cpuout dout,
          degridKernel (vec_assign cpugrid Value_one) gSize support C cOffset iu iv
                       cpuoutdata = Some cpuout /\
          degridKernelOMP max_threads sched (vec_assign gout.1 Value_one) gSize support
                          C cOffset iu iv ompoutdata dout /\
          match verify cpuout dout.1 with
          | Some Pass => ret = 0
          | Some _ => ret = 1
          | None => False
          end
    | Some _ => ret = 1
    | None => False
    end.

Section Main.
Variables (cos exp : spec_float -> spec_float).
Variable pow : spec_float -> spec_float -> spec_float.
Variable cabs : Value -> spec_float.
Variable ulong_bits : Z.

(** From the options to the tables: the samples, the frequencies, the
    convolution function and the offsets. *)
Definition main_setup (o : CommandLine.options) (next : Z)
  : option (list Value * list Value * list Value * list Value * Z
            * list Z * list Z * list Z) :=
  let nSamples := CommandLine.nSamples o in
  let nChan := CommandLine.nChan o in
  let gSize := Driver.gSize in
  let baseline := Driver.baseline in
  u ← vec_new nSamples (S754_zero false);
  v ← vec_new nSamples (S754_zero false);
  w ← vec_new nSamples (S754_zero false);
  data ← vec_new (nSamples * nChan) vzero;
  cpuoutdata ← vec_new (nSamples * nChan) vzero;
  ompoutdata ← vec_new (nSamples * nChan) vzero;
  '(_, u, v, w, data, cpuoutdata, ompoutdata) ←
    draw_samples ulong_bits nSamples nChan next u v w data cpuoutdata ompoutdata;
  grid ← vec_new (gSize * gSize) vzero;
  let grid := vec_assign grid Value_zero in
  freq ← main_freq nChan;
  '(support, overSample, wCellSize, C) ←
    initC cos exp pow cabs freq (CommandLine.cellSize o) (Coord.of_int baseline)
          (CommandLine.wSize o) [];
  '(cOffset, iu, iv) ←
    initCOffset u v w freq (CommandLine.cellSize o) wCellSize (CommandLine.wSize o)
                gSize support overSample [] [] [];
  Some (data, cpuoutdata, ompoutdata, C, support, cOffset, iu, iv).

(** [main] from the options on, as compiled with both kernels and both
    verifications: it returns [ret].  The parallel gridding is run by
    [nthreads] threads, the parallel degridding under the schedule [sched];
    [omp_get_max_threads()] is [max_threads]. *)
Definition main_run (o : CommandLine.options) (next max_threads nthreads : Z)
    (sched : list (list Z)) (ret : Z) : Prop :=
  exists data cpuoutdata ompoutdata C support cOffset iu iv,
    main_setup o next = Some (data, cpuoutdata, ompoutdata, C, support, cOffset, iu, iv) /\
    main_kernels data cpuoutdata ompoutdata C support cOffset iu iv Driver.gSize
                 max_threads nthreads sched ret.

(** [main], from its arguments; the state of the pseudo-random numbers is
    1 at first. *)
Definition main (atoi : String.string -> Z) (atof : String.string -> spec_float)
    (argv : list String.string) (max_threads nthreads : Z) (sched : list (list Z))
    (ret : Z) : Prop :=
  match CommandLine.parse_args atoi atof argv with
  | Some (CommandLine.Proceed o) => main_run o 1 max_threads nthreads sched ret
  | Some (CommandLine.Usage code) => ret = code
  | None => False
  end.
End Main.

Lemma vec_new_Some {A : Type} (n : Z) (x : A) :
  0 <= n -> vec_new n x = Some (replicate (Z.to_nat n) x).
Proof. intros Hn. unfold vec_new. by rewrite decide_True. Qed.

Lemma vec_new_is_Some {A : Type} (n : Z) (x : A) :
  0 <= n -> exists v, vec_new n x = Some v /\ vec_size v = n.
Proof.
  intros Hn. eexists. split; [by apply vec_new_Some|].
  unfold vec_size. rewrite length_replicate. lia.
Qed.

Lemma vec_size_replicate {A : Type} (n : Z) (x : A) :
  0 <= n -> vec_size (replicate (Z.to_nat n) x) = n.
Proof. intros Hn. unfold vec_size. rewrite length_replicate. lia. Qed.

Lemma vec_size_assign {A : Type} (v : list A) (x : A) :
  vec_size (vec_assign v x) = vec_size v.
Proof. unfold vec_assign, vec_size. by rewrite length_replicate. Qed.

Lemma main_freq_result (nChan : Z) :
  0 <= nChan -> main_freq nChan = Some (Driver.freq nChan).
Proof.
  intros Hn. unfold main_freq. rewrite vec_new_Some by done. cbn [mbind option_bind].
  set (I := fun (i : Z) (freq : list spec_float) =>
    vec_size freq = nChan /\
    forall k, 0 <= k < i -> vec_get freq k = Some (Driver.freq_at nChan k)).
  match goal with |- for_upto nChan ?b ?s = _ =>
    destruct (for_upto_inv I b nChan s) as (freq & -> & Hs & Hk) end; [done| |..].
  - split; [by apply vec_size_replicate|]. intros k Hk. lia.
  - intros i freq Hi [Hs Hk].
    destruct (vec_set_spec freq i (Driver.freq_at nChan i)) as (freq' & -> & Hs' & Hg & Ho);
      [lia|].
    eexists. split; [done|]. split; [congruence|]. intros k Hkr.
    destruct (decide (k = i)) as [->|Hne]; [done|]. rewrite Ho by done. apply Hk. lia.
  - f_equal. unfold Driver.freq. rewrite <-Hs. apply vec_eq_fmap_seqZ.
    intros k Hkr. rewrite Hs. apply Hk. lia.
Qed.

Section KernelRuns.
Context {V : Type} `{Arith V}.
Variables (support : Z) (C : list V) (cOffset iu iv : list Z) (gSize : Z).

(** The precondition of the kernels depends on the data by their number
    only. *)
Lemma stencils_ok_size (data data' : list V) :
  vec_size data' = vec_size data ->
  stencils_ok data support C cOffset iu iv gSize ->
  stencils_ok data' support C cOffset iu iv gSize.
Proof.
  intros Hs [[] ? ?]. split; [split|..]; rewrite ?Hs; done.
Qed.

Lemma gridKernel_returns (data grid : list V) :
  stencils_ok data support C cOffset iu iv gSize ->
  vec_size grid = gSize * gSize ->
  exists grid',
    gridKernel data support C cOffset iu iv grid gSize = Some grid' /\
    vec_size grid' = vec_size grid.
Proof.
  intros Hok Hg. rewrite gridKernel_trace by apply Hok.
  destruct (run_trace_is_Some _ grid (grid_trace_in_range _ _ _ _ _ _ _ _ Hok Hg))
    as [grid' Hrun].
  destruct (run_trace_spec _ _ _ Hrun) as [Hsize _].
  by exists grid'.
Qed.
End KernelRuns.

Lemma verify_same (x : list Value) : verify x x = Some Pass.
Proof.
  unfold verify. rewrite decide_False by (intros Hne; by apply Hne).
  destruct (verify_from_spec (length x) 0 x x) as [[Hp _]|(k & Hk & _ & Hd & _)];
    [done|unfold vec_size; lia|done|done|].
  by rewrite verify_differs_same in Hd.
Qed.

Section MainFacts.
Variables (cos exp : spec_float -> spec_float).
Variable pow : spec_float -> spec_float -> spec_float.
Variable cabs : Value -> spec_float.
Variable ulong_bits : Z.

(** The setup of [main] with the default number of planes and cell size:
    the tables meet the precondition of the kernels. *)
Lemma main_setup_driver (o : CommandLine.options) (next : Z) :
  CommandLine.wSize o = Driver.wSize -> CommandLine.cellSize o = Driver.cellSize ->
  0 <= CommandLine.nSamples o -> 1 <= CommandLine.nChan o <= int_max ->
  let N := CommandLine.nSamples o * CommandLine.nChan o in
  exists C cOffset iu iv,
    main_setup cos exp pow cabs ulong_bits o next
    = Some (replicate (Z.to_nat N) Value_one, replicate (Z.to_nat N) Value_zero,
            replicate (Z.to_nat N) Value_zero, C, Driver.support, cOffset, iu, iv) /\
    stencils_ok (replicate (Z.to_nat N) Value_one) Driver.support C cOffset iu iv
                Driver.gSize.
Proof.
  intros HwSize Hcell Hns Hnc. cbv zeta.
  set (nS := CommandLine.nSamples o) in *. set (nC := CommandLine.nChan o) in *.
  assert (0 <= nS * nC) as HN by nia.
  unfold main_setup. cbv zeta. fold nS nC.
  assert (0 <= Driver.gSize * Driver.gSize) as HG by (by vm_compute).
  generalize dependent (Driver.gSize * Driver.gSize). intros G2 HG.
  rewrite HwSize, Hcell.
  rewrite !(vec_new_Some nS), !(vec_new_Some (nS * nC)) by done.
  cbn [mbind option_bind].
  rewrite draw_samples_result; try done; try (by apply vec_size_replicate); try lia.
  cbn [mbind option_bind].
  destruct (vec_new_is_Some G2 (@vzero Value _)) as (grid & -> & _); [done|].
  cbn [mbind option_bind].
  rewrite main_freq_result by lia. cbn [mbind option_bind].
  destruct (initC_returns cos exp pow cabs (Driver.freq nC) Driver.cellSize
              (Coord.of_int Driver.baseline) Driver.wSize [] (Driver.freq_at 1 0)
              Driver.support) as (C & HC & HCsize).
  { rewrite <-(freq_at_first nC) by done. unfold Driver.freq.
    apply vec_get_fmap_seqZ. lia. }
  { by vm_compute. }
  { by vm_compute. }
  rewrite HC. cbn [mbind option_bind].
  set (u := (fun i => coordinate (random_value ulong_bits (Z.to_nat (3 * i)) next))
              <$> seqZ 0 nS).
  set (v := (fun i => coordinate (random_value ulong_bits (Z.to_nat (3 * i + 1)) next))
              <$> seqZ 0 nS).
  set (w := (fun i => coordinate (random_value ulong_bits (Z.to_nat (3 * i + 2)) next))
              <$> seqZ 0 nS).
  assert (vec_size u = nS /\ vec_size v = nS /\ vec_size w = nS) as (Hsu & Hsv & Hsw)
    by (split_and!; by apply vec_size_fmap_seqZ).
  assert (forall (f : Z -> Z) i, 0 <= i < nS ->
    finite_le (vec_at nan_default
                 ((fun i => coordinate (random_value ulong_bits (Z.to_nat (f i)) next))
                    <$> seqZ 0 nS) i) 1000) as Hcoord.
  { intros f i Hi. unfold vec_at. rewrite vec_get_fmap_seqZ by done.
    apply coordinate_finite_le. apply randomInt_range. }
  destruct (driver_stencils_ok nC Hnc u v w ltac:(lia) ltac:(lia)) with
    (cOffset0 := @nil Z) (iu0 := @nil Z) (iv0 := @nil Z)
    (data := replicate (Z.to_nat (nS * nC)) Value_one) (C := C)
    as (cO & iu & iv & Hoff & Hok).
  - intros i Hi. rewrite Hsu in Hi. by apply (Hcoord (fun i => 3 * i)).
  - intros i Hi. rewrite Hsu in Hi. by apply (Hcoord (fun i => 3 * i + 1)).
  - intros i Hi. rewrite Hsu in Hi. by apply (Hcoord (fun i => 3 * i + 2)).
  - rewrite Hsu. by apply vec_size_replicate.
  - exact HCsize.
  - change (wCellSize_expr (Driver.freq_at 1 0) (Coord.of_int Driver.baseline) Driver.wSize)
      with Driver.wCellSize.
    change 8 with Driver.overSample at 1.
    rewrite Hoff. cbn [mbind option_bind].
    exists C, cO, iu, iv. split; [done|exact Hok].
Qed.
End MainFacts.

Section KernelsPass.
Variables (data cpuoutdata ompoutdata C : list Value) (support : Z).
Variables (cOffset iu iv : list Z) (gSize max_threads nthreads : Z) (sched : list (list Z)).
Hypothesis Hok : stencils_ok data support C cOffset iu iv gSize.
Hypothesis Hcpu : vec_size cpuoutdata = vec_size data.
Hypothesis Homp : vec_size ompoutdata = vec_size data.
Hypothesis Hthreads : 0 < nthreads.
Hypothesis Hsched : schedule_of (vec_size data) sched.

Lemma main_kernels_runs :
  main_kernels data cpuoutdata ompoutdata C support cOffset iu iv gSize
               max_threads nthreads sched 0.
Proof.
  assert (0 <= gSize * gSize) as HG by nia.
  destruct (vec_new_is_Some (gSize * gSize) (@vzero Value _) HG) as (g0 & Hg0 & Hsize).
  assert (vec_size (vec_assign g0 Value_zero) = gSize * gSize) as Hs0
    by (by rewrite vec_size_assign).
  destruct (gridKernel_returns support C cOffset iu iv gSize data _ Hok Hs0)
    as (cpugrid & Hgrid & Hsg).
  destruct (gridKernelOMP_runs data support C cOffset iu iv gSize nthreads Hok Hthreads
              max_threads _ Hs0) as [gout Hgout].
  destruct (gridKernelOMP_result data support C cOffset iu iv gSize nthreads Hok Hthreads
              max_threads _ gout Hs0 Hgout) as [Hseq _].
  rewrite Hgrid in Hseq. injection Hseq as Hsame.
  exists g0, cpugrid, g0, gout. split_and!; [done..|].
  rewrite <-Hsame, verify_same.
  assert (vec_size (vec_assign cpugrid Value_one) = gSize * gSize) as Hs1
    by (rewrite vec_size_assign; congruence).
  pose proof (stencils_ok_size support C cOffset iu iv gSize data cpuoutdata Hcpu Hok) as Hokc.
  pose proof (stencils_ok_size support C cOffset iu iv gSize data ompoutdata Homp Hok) as Hoko.
  destruct (degridKernelOMP_runs support C cOffset iu iv gSize _ ompoutdata Hoko Hs1
              max_threads sched ltac:(by rewrite Homp)) as [dout Hdout].
  pose proof (degridKernelOMP_result support C cOffset iu iv gSize _ ompoutdata Hoko Hs1
                max_threads sched dout Hdout) as Hd.
  eexists _, dout. split_and!.
  - by apply degridKernel_run.
  - exact Hdout.
  - rewrite Hd. cbn [fst]. rewrite Hcpu, Homp, verify_same. done.
Qed.

Lemma main_kernels_ret (ret : Z) :
  main_kernels data cpuoutdata ompoutdata C support cOffset iu iv gSize
               max_threads nthreads sched ret ->
  ret = 0.
Proof.
  intros (g0 & cpugrid & g1 & gout & Hg0 & Hgrid & Hg1 & Hgout & Hrest).
  assert (g1 = g0) as -> by congruence.
  assert (vec_size (vec_assign g0 Value_zero) = gSize * gSize) as Hs0.
  { rewrite vec_size_assign. unfold vec_new in Hg0. case_decide; [|done].
    injection Hg0 as <-. by apply vec_size_replicate. }
  destruct (gridKernelOMP_result data support C cOffset iu iv gSize nthreads Hok Hthreads
              max_threads _ gout Hs0 Hgout) as [Hseq _].
  rewrite Hgrid in Hseq. injection Hseq as Hsame.
  rewrite <-Hsame, verify_same in Hrest.
  destruct Hrest as (cpuout & dout & Hcpuout & Hdout & Hret).
  destruct (gridKernel_returns support C cOffset iu iv gSize data _ Hok Hs0)
    as (cpugrid' & Hgrid' & Hsg).
  assert (vec_size (vec_assign cpugrid Value_one) = gSize * gSize) as Hs1
    by (rewrite vec_size_assign; congruence).
  pose proof (stencils_ok_size support C cOffset iu iv gSize data cpuoutdata Hcpu Hok) as Hokc.
  pose proof (stencils_ok_size support C cOffset iu iv gSize data ompoutdata Homp Hok) as Hoko.
  rewrite (degridKernel_run support C cOffset iu iv gSize _ cpuoutdata Hokc Hs1) in Hcpuout.
  injection Hcpuout as <-.
  rewrite (degridKernelOMP_result support C cOffset iu iv gSize _ ompoutdata Hoko Hs1
             max_threads sched dout Hdout) in Hret.
  cbn [fst] in Hret. rewrite Hcpu, Homp, verify_same in Hret. done.
Qed.
End KernelsPass.

(** ** The offsets: when [initCOffset] returns *)

Section OffsetsReturned.
Variables (u v w freq : list spec_float) (cellSize wCellSize : spec_float).
Variables (wSize gSize support overSample : Z).

Abbreviation filled_to :=
  (filled u v w freq cellSize wCellSize wSize gSize support overSample).

(** One iteration of the inner loop that returns has computed the entry of
    its sample and channel. *)
Lemma offset_step_returned (i chan : Z) (st st' : list Z * list Z * list Z) :
  0 <= i < vec_size u -> 0 <= chan < vec_size freq ->
  filled_to (i * vec_size freq + chan) st ->
  (let '(cOffset, iu, iv) := st in
   let dind := i * vec_size freq + chan in
   freq_chan ← vec_get freq chan;
   u_i ← vec_get u i;
   let uScaled := Coord.div (Coord.mul freq_chan u_i) cellSize in
   iu_d ← double_to_int uScaled;
   iu ← vec_set iu dind iu_d;
   iu_d ← vec_get iu dind;
   iu ← (if Coord.ltb uScaled (Coord.of_int iu_d)
         then vec_set iu dind (iu_d - 1) else Some iu);
   iu_d ← vec_get iu dind;
   fracu ← double_to_int
             (Coord.mul (Coord.of_int overSample) (Coord.sub uScaled (Coord.of_int iu_d)));
   iu ← vec_set iu dind (iu_d + gSize ÷ 2);
   v_i ← vec_get v i;
   let vScaled := Coord.div (Coord.mul freq_chan v_i) cellSize in
   iv_d ← double_to_int vScaled;
   iv ← vec_set iv dind iv_d;
   iv_d ← vec_get iv dind;
   iv ← (if Coord.ltb vScaled (Coord.of_int iv_d)
         then vec_set iv dind (iv_d - 1) else Some iv);
   iv_d ← vec_get iv dind;
   fracv ← double_to_int
             (Coord.mul (Coord.of_int overSample) (Coord.sub vScaled (Coord.of_int iv_d)));
   iv ← vec_set iv dind (iv_d + gSize ÷ 2);
   w_i ← vec_get w i;
   let wScaled := Coord.div (Coord.mul freq_chan w_i) wCellSize in
   wt ← double_to_int wScaled;
   let woff := wSize ÷ 2 + wt in
   cOffset ← vec_set cOffset dind
               ((2 * support + 1) * (2 * support + 1)
                * (fracu + overSample * (fracv + overSample * woff)));
   Some (cOffset, iu, iv)) = Some st' ->
  is_Some (offset_entry u v w freq cellSize wCellSize wSize gSize support overSample i chan) /\
  filled_to (i * vec_size freq + chan + 1) st'.
Proof.
  intros Hi Hchan Hfilled Hbody.
  destruct st as [[cOffset iu] iv]. destruct Hfilled as (HsC & Hsu & Hsv & Hd).
  set (nC := vec_size freq) in *.
  set (dind := i * nC + chan) in *.
  assert (0 <= dind < vec_size u * nC) as Hdind by (unfold dind; nia).
  assert (dind / nC = i /\ dind mod nC = chan) as [Hdiv Hmod].
  { split; [symmetry; apply (Z.div_unique_pos dind nC i chan)
           |symmetry; apply (Z.mod_unique_pos dind nC i chan)]; unfold dind; lia. }
  cbv beta zeta in Hbody.
  rewrite (vec_get_at nan_default freq), (vec_get_at nan_default u) in Hbody by (fold nC; lia).
  cbn [mbind option_bind] in Hbody.
  destruct (vec_get v i) as [v_i|] eqn:Hvi.
  2: { exfalso. revert Hbody.
       repeat match goal with
       | |- context [mbind _ ?x] => destruct x; cbn [mbind option_bind]; try done
       end. }
  assert (vec_at nan_default v i = v_i) as Hvat by (unfold vec_at; by rewrite Hvi).
  destruct (vec_get w i) as [w_i|] eqn:Hwi.
  2: { exfalso. revert Hbody. cbn [mbind option_bind].
       repeat match goal with
       | |- context [mbind _ ?x] => destruct x; cbn [mbind option_bind]; try done
       end. }
  assert (vec_at nan_default w i = w_i) as Hwat by (unfold vec_at; by rewrite Hwi).
  set (uS := Coord.div (Coord.mul (vec_at nan_default freq chan) (vec_at nan_default u i))
               cellSize) in *.
  set (vS := Coord.div (Coord.mul (vec_at nan_default freq chan) v_i) cellSize) in *.
  set (wS := Coord.div (Coord.mul (vec_at nan_default freq chan) w_i) wCellSize) in *.
  destruct (double_to_int uS) as [tu|] eqn:Etu; cbn [mbind option_bind] in Hbody; [|done].
  destruct (vec_set_spec iu dind tu) as (iu1 & Hiu1 & Hs1 & Hg1 & Ho1); [lia|].
  rewrite Hiu1 in Hbody. cbn [mbind option_bind] in Hbody.
  rewrite Hg1 in Hbody. cbn [mbind option_bind] in Hbody.
  set (ipu := if Coord.ltb uS (Coord.of_int tu) then tu - 1 else tu) in *.
  assert (exists iu2,
    (if Coord.ltb uS (Coord.of_int tu) then vec_set iu1 dind (tu - 1) else Some iu1)
    = Some iu2 /\ vec_size iu2 = vec_size iu /\ vec_get iu2 dind = Some ipu /\
    forall k, k <> dind -> vec_get iu2 k = vec_get iu k)
    as (iu2 & Hiu2 & Hs2 & Hg2 & Ho2).
  { unfold ipu. destruct (Coord.ltb uS (Coord.of_int tu)).
    - destruct (vec_set_spec iu1 dind (tu - 1)) as (iu2 & -> & ? & ? & Ho); [lia|].
      exists iu2. split_and!; [done|congruence|done|].
      intros k Hk. by rewrite Ho, Ho1.
    - exists iu1. done. }
  rewrite Hiu2 in Hbody. cbn [mbind option_bind] in Hbody.
  rewrite Hg2 in Hbody. cbn [mbind option_bind] in Hbody.
  destruct (double_to_int (Coord.mul (Coord.of_int overSample)
              (Coord.sub uS (Coord.of_int ipu)))) as [fracu|] eqn:Efu;
    cbn [mbind option_bind] in Hbody; [|done].
  destruct (vec_set_spec iu2 dind (ipu + gSize ÷ 2)) as (iu3 & Hiu3 & Hs3 & Hg3 & Ho3); [lia|].
  rewrite Hiu3 in Hbody. cbn [mbind option_bind] in Hbody.
  change (Coord.div (Coord.mul (vec_at nan_default freq chan) v_i) cellSize) with vS in Hbody.
  destruct (double_to_int vS) as [tv|] eqn:Etv; cbn [mbind option_bind] in Hbody; [|done].
  destruct (vec_set_spec iv dind tv) as (iv1 & Hiv1 & Ht1 & Hh1 & Hp1); [lia|].
  rewrite Hiv1 in Hbody. cbn [mbind option_bind] in Hbody.
  rewrite Hh1 in Hbody. cbn [mbind option_bind] in Hbody.
  set (ipv := if Coord.ltb vS (Coord.of_int tv) then tv - 1 else tv) in *.
  assert (exists iv2,
    (if Coord.ltb vS (Coord.of_int tv) then vec_set iv1 dind (tv - 1) else Some iv1)
    = Some iv2 /\ vec_size iv2 = vec_size iv /\ vec_get iv2 dind = Some ipv /\
    forall k, k <> dind -> vec_get iv2 k = vec_get iv k)
    as (iv2 & Hiv2 & Ht2 & Hh2 & Hp2).
  { unfold ipv. destruct (Coord.ltb vS (Coord.of_int tv)).
    - destruct (vec_set_spec iv1 dind (tv - 1)) as (iv2 & -> & ? & ? & Hp); [lia|].
      exists iv2. split_and!; [done|congruence|done|].
      intros k Hk. by rewrite Hp, Hp1.
    - exists iv1. done. }
  rewrite Hiv2 in Hbody. cbn [mbind option_bind] in Hbody.
  rewrite Hh2 in Hbody. cbn [mbind option_bind] in Hbody.
  destruct (double_to_int (Coord.mul (Coord.of_int overSample)
              (Coord.sub vS (Coord.of_int ipv)))) as [fracv|] eqn:Efv;
    cbn [mbind option_bind] in Hbody; [|done].
  destruct (vec_set_spec iv2 dind (ipv + gSize ÷ 2)) as (iv3 & Hiv3 & Ht3 & Hh3 & Hp3); [lia|].
  rewrite Hiv3 in Hbody. cbn [mbind option_bind] in Hbody.
  change (Coord.div (Coord.mul (vec_at nan_default freq chan) w_i) wCellSize) with wS in Hbody.
  destruct (double_to_int wS) as [wt|] eqn:Ewt; cbn [mbind option_bind] in Hbody; [|done].
  match type of Hbody with context [vec_set cOffset dind ?x] =>
    destruct (vec_set_spec cOffset dind x) as (cO' & HcO & Hc1 & Hc2 & Hc3); [lia|] end.
  rewrite HcO in Hbody. cbn [mbind option_bind] in Hbody. injection Hbody as <-.
  assert (offset_entry u v w freq cellSize wCellSize wSize gSize support overSample i chan
          = Some ((2 * support + 1) * (2 * support + 1)
                  * (fracu + overSample * (fracv + overSample * (wSize ÷ 2 + wt))),
                  ipu + gSize ÷ 2, ipv + gSize ÷ 2)) as Hent.
  { unfold offset_entry, scaled, int_part, frac_bin, w_plane. cbv zeta.
    rewrite Hvat, Hwat. fold uS vS wS.
    rewrite Etu. cbn [mbind option_bind]. fold ipu. rewrite Efu. cbn [mbind option_bind].
    rewrite Etv. cbn [mbind option_bind]. fold ipv. rewrite Efv. cbn [mbind option_bind].
    rewrite Ewt. done. }
  split; [by rewrite Hent|]. cbn [filled].
  split_and!; [unfold nC in *; congruence..|].
  intros d Hdr. destruct (decide (d = dind)) as [->|Hne].
  - unfold entry_at. fold nC. rewrite Hdiv, Hmod, Hent. done.
  - rewrite Hc3, Ho3, Hp3, Ho2, Hp2 by done. apply Hd. lia.
Qed.

(** When [initCOffset] returns, every conversion to [int] was defined: the
    entries it leaves are those of [offset_entry]. *)
Lemma initCOffset_returned (cOffset0 iu0 iv0 cOffset iu iv : list Z) :
  initCOffset u v w freq cellSize wCellSize wSize gSize support overSample
              cOffset0 iu0 iv0 = Some (cOffset, iu, iv) ->
  vec_size cOffset = vec_size u * vec_size freq /\
  vec_size iu = vec_size u * vec_size freq /\
  vec_size iv = vec_size u * vec_size freq /\
  forall i chan, 0 <= i < vec_size u -> 0 <= chan < vec_size freq ->
    offset_entry u v w freq cellSize wCellSize wSize gSize support overSample i chan
    = Some (vec_at 0 cOffset (i * vec_size freq + chan),
            vec_at 0 iu (i * vec_size freq + chan),
            vec_at 0 iv (i * vec_size freq + chan)).
Proof.
  unfold initCOffset. set (nC := vec_size freq). set (nS := vec_size u).
  assert (0 <= nS * nC) as HN by (unfold nS, nC, vec_size; nia).
  unfold vec_resize at 1 2 3. rewrite !decide_True by done.
  cbn [mbind option_bind].
  match goal with |- context [for_upto _ _ (?a, ?b, ?c)] =>
    set (c0 := a); set (u0 := b); set (v0 := c) end.
  intros Hrun.
  assert (filled_to 0 (c0, u0, v0)) as H0.
  { split_and!; [by apply (vec_resize_size cOffset0); unfold vec_resize; rewrite decide_True
                |by apply (vec_resize_size iu0); unfold vec_resize; rewrite decide_True
                |by apply (vec_resize_size iv0); unfold vec_resize; rewrite decide_True
                |intros; lia]. }
  (* the invariant: the entries below are final, and were defined *)
  set (I := fun (p : Z) (st : list Z * list Z * list Z) =>
    filled_to p st /\
    forall d, 0 <= d < p ->
      is_Some (offset_entry u v w freq cellSize wCellSize wSize gSize support overSample
                 (d / nC) (d mod nC))).
  assert (I (nS * nC) (cOffset, iu, iv)) as [Hfilled Hdef].
  { refine (for_upto_result (fun i => I (i * nC)) _ nS (c0, u0, v0) _ _ _ _ Hrun).
    - unfold nS, vec_size. lia.
    - split; [done|]. intros; lia.
    - intros i st st' Hi Hst Hbody.
      replace ((i + 1) * nC) with (i * nC + nC) by lia.
      refine (for_upto_result (fun chan => I (i * nC + chan)) _ nC st st' _ _ _ Hbody).
      + unfold nC, vec_size. lia.
      + by rewrite Z.add_0_r.
      + intros chan [[a b] c] st2 Hchan [Hf Hd] Hstep.
        destruct (offset_step_returned i chan (a, b, c) st2 Hi Hchan Hf Hstep) as [Hsome Hf'].
        replace (i * nC + (chan + 1)) with (i * nC + chan + 1) by lia.
        split; [exact Hf'|].
        intros d Hdr. destruct (decide (d = i * nC + chan)) as [->|Hne]; [|apply Hd; lia].
        assert ((i * nC + chan) / nC = i /\ (i * nC + chan) mod nC = chan) as [-> ->]; [|done].
        split; [symmetry; apply (Z.div_unique_pos _ nC i chan)
               |symmetry; apply (Z.mod_unique_pos _ nC i chan)]; lia. }
  destruct Hfilled as (HsC & Hsu & Hsv & Hd).
  split_and!; [done..|].
  intros i chan Hi Hchan.
  destruct (Hd (i * nC + chan) ltac:(nia)) as (Hc & Hu & Hv').
  unfold vec_at. rewrite Hc, Hu, Hv'. cbn [default from_option Datatypes.id].
  rewrite <-!surjective_pairing. unfold entry_at. fold nC.
  assert ((i * nC + chan) / nC = i /\ (i * nC + chan) mod nC = chan) as [Hdiv Hmod].
  { split; [symmetry; apply (Z.div_unique_pos _ nC i chan)
           |symmetry; apply (Z.mod_unique_pos _ nC i chan)]; lia. }
  rewrite Hdiv, Hmod.
  destruct (Hdef (i * nC + chan) ltac:(nia)) as [e He]. rewrite Hdiv, Hmod in He.
  by rewrite He.
Qed.
End OffsetsReturned.

(** ** The values of the convolution function *)

Section TableEntries.
Variables (cos exp : spec_float -> spec_float).
Variable pow : spec_float -> spec_float -> spec_float.
Variables (freq0 cellSize wCellSize : spec_float) (wSize support overSample : Z).

(** The value that [initC] stores, before the normalisation, for the plane
    [k], the fractional offsets [osj] and [osi], the row [j] and the column
    [i] of the stencil. *)
Definition table_entry (k osj osi j i : Z) : Value :=
  let sSize := 2 * support + 1 in
  let cCenter := (sSize - 1) ÷ 2 in
  let w := Coord.of_int (k - wSize ÷ 2) in
  let fScale :=
    Coord.div (Coord.sqrt (Coord.mul (Coord.mul (Coord.abs w) wCellSize) freq0)) cellSize in
  let j2 := pow (Coord.add (Coord.of_int (j - cCenter))
                   (Coord.div (Coord.of_int osj) (Coord.of_int overSample)))
                (Coord.of_int 2) in
  let r2 := Coord.add j2
              (pow (Coord.add (Coord.of_int (i - cCenter))
                      (Coord.div (Coord.of_int osi) (Coord.of_int overSample)))
                   (Coord.of_int 2)) in
  if negb (Coord.eqb w (S754_zero false))
  then Value_of_real (Real.of_coord (cos (Coord.div r2 (Coord.mul w fScale))))
  else Value_of_real (Real.of_coord (exp (Coord.opp r2))).

(** Its index in the table. *)
Definition table_index (k osj osi j i : Z) : Z :=
  let sSize := 2 * support + 1 in
  i + sSize * (j + sSize * (osi + overSample * (osj + overSample * k))).

Definition in_table (k osj osi j i : Z) : Prop :=
  0 <= k < wSize /\ 0 <= osj < overSample /\ 0 <= osi < overSample /\
  0 <= j < 2 * support + 1 /\ 0 <= i < 2 * support + 1.

Lemma digit_split (b q r q' r' : Z) :
  0 <= r < b -> 0 <= r' < b -> r + b * q = r' + b * q' -> r = r' /\ q = q'.
Proof.
  intros Hr Hr' Heq.
  assert (q = q') as ->.
  { rewrite (Z.div_unique_pos (r + b * q) b q r), (Z.div_unique_pos (r + b * q) b q' r');
      [done|done|lia|done|lia]. }
  lia.
Qed.

(** The index tells the plane, the offsets, the row and the column. *)
Lemma table_index_inj (k osj osi j i k' osj' osi' j' i' : Z) :
  in_table k osj osi j i -> in_table k' osj' osi' j' i' ->
  table_index k osj osi j i = table_index k' osj' osi' j' i' ->
  k = k' /\ osj = osj' /\ osi = osi' /\ j = j' /\ i = i'.
Proof.
  intros (Hk & Hosj & Hosi & Hj & Hi) (Hk' & Hosj' & Hosi' & Hj' & Hi') Heq.
  unfold table_index in Heq. cbv zeta in Heq.
  apply digit_split in Heq as [-> Heq]; [|done..].
  apply digit_split in Heq as [-> Heq]; [|done..].
  apply digit_split in Heq as [-> Heq]; [|done..].
  apply digit_split in Heq as [-> Heq]; [|done..].
  assert (k = k') by nia. done.
Qed.

(** The entries of index below [p] are written. *)
Definition written (p : Z) (C : list Value) : Prop :=
  forall k osj osi j i, in_table k osj osi j i -> table_index k osj osi j i < p ->
    vec_get C (table_index k osj osi j i) = Some (table_entry k osj osi j i).

Lemma written_step (k osj osi j i : Z) (C C' : list Value) :
  in_table k osj osi j i ->
  written (table_index k osj osi j i) C ->
  vec_set C (table_index k osj osi j i) (table_entry k osj osi j i) = Some C' ->
  written (table_index k osj osi j (i + 1)) C'.
Proof.
  intros Hin Hw Hset k' osj' osi' j' i' Hin' Hlt.
  rewrite (vec_get_set _ _ _ _ _ Hset).
  case_decide as Heq.
  - apply table_index_inj in Heq as (-> & -> & -> & -> & ->); done.
  - apply Hw; [done|]. unfold table_index in *. lia.
Qed.

Lemma initC_fill_written (freq : list spec_float) (C C0 : list Value) :
  vec_get freq 0 = Some freq0 ->
  initC_fill cos exp pow freq cellSize wCellSize wSize support overSample C = Some C0 ->
  forall k osj osi j i, in_table k osj osi j i ->
    vec_get C0 (table_index k osj osi j i) = Some (table_entry k osj osi j i).
Proof.
  intros Hf Hrun k0 osj0 osi0 j0 i0 Hin0.
  assert (0 <= wSize /\ 0 <= overSample /\ 0 <= 2 * support + 1) as (HwS & Hos & HsS)
    by (unfold in_table in Hin0; lia).
  assert (written (table_index wSize 0 0 0 0) C0) as Hw.
  { unfold initC_fill in Hrun. revert Hrun.
    apply (for_upto_result (fun k => written (table_index k 0 0 0 0))); [done| |].
    { intros ? ? ? ? ? Hin Hlt. unfold in_table, table_index in *. nia. }
    intros k C1 C1' Hk HC1. cbv beta zeta. rewrite Hf. cbn [mbind option_bind].
    replace (table_index (k + 1) 0 0 0 0) with (table_index k overSample 0 0 0)
      by (unfold table_index; ring).
    apply (for_upto_result (fun osj => written (table_index k osj 0 0 0))); [done|done|].
    intros osj C2 C2' Hosj HC2.
    replace (table_index k (osj + 1) 0 0 0) with (table_index k osj overSample 0 0)
      by (unfold table_index; ring).
    apply (for_upto_result (fun osi => written (table_index k osj osi 0 0))); [done|done|].
    intros osi C3 C3' Hosi HC3.
    replace (table_index k osj (osi + 1) 0 0) with (table_index k osj osi (2 * support + 1) 0)
      by (unfold table_index; ring).
    apply (for_upto_result (fun j => written (table_index k osj osi j 0))); [done|done|].
    intros j C4 C4' Hj HC4.
    replace (table_index k osj osi (j + 1) 0) with (table_index k osj osi j (2 * support + 1))
      by (unfold table_index; ring).
    apply (for_upto_result (fun i => written (table_index k osj osi j i))); [done|done|].
    intros i C5 C5' Hi HC5 Hset.
    apply (written_step k osj osi j i C5 C5'); [done|done|].
    unfold table_entry, table_index. cbv zeta.
    by destruct (negb (Coord.eqb (Coord.of_int (k - wSize ÷ 2)) (S754_zero false))). }
  apply Hw; [done|]. destruct Hin0 as (Hk & Hosj & Hosi & Hj & Hi).
  unfold table_index. cbv zeta.
  set (s := 2 * support + 1) in *.
  assert (osj0 + overSample * k0 <= overSample * wSize - 1) as Hd by nia.
  set (d := osj0 + overSample * k0) in *.
  assert (osi0 + overSample * d <= overSample * (overSample * wSize) - 1) as Hb by nia.
  set (b := osi0 + overSample * d) in *.
  assert (j0 + s * b <= s * (overSample * (overSample * wSize)) - 1) as Ha by nia.
  set (a := j0 + s * b) in *.
  nia.
Qed.
End TableEntries.

(** Every index of the table is the index of one plane, pair of offsets,
    row and column. *)
Lemma table_index_surj (wSize support overSample p : Z) :
  0 <= p < (2 * support + 1) * (2 * support + 1) * overSample * overSample * wSize ->
  0 < 2 * support + 1 -> 0 < overSample ->
  exists k osj osi j i,
    in_table wSize support overSample k osj osi j i /\
    table_index support overSample k osj osi j i = p.
Proof.
  intros Hp Hs Ho. set (s := 2 * support + 1) in *.
  set (a := p / s). set (b := a / s). set (d := b / overSample).
  exists (d / overSample), (d mod overSample), (b mod overSample), (a mod s), (p mod s).
  pose proof (Z.mod_pos_bound p s Hs). pose proof (Z.mod_pos_bound a s Hs).
  pose proof (Z.mod_pos_bound b overSample Ho). pose proof (Z.mod_pos_bound d overSample Ho).
  pose proof (Z.div_mod p s ltac:(lia)) as Ep. fold a in Ep.
  pose proof (Z.div_mod a s ltac:(lia)) as Ea. fold b in Ea.
  pose proof (Z.div_mod b overSample ltac:(lia)) as Eb. fold d in Eb.
  pose proof (Z.div_mod d overSample ltac:(lia)) as Ed.
  assert (0 <= a < s * overSample * overSample * wSize) as Ha.
  { split; [apply Z.div_pos; lia|]. apply Z.div_lt_upper_bound; [lia|]. lia. }
  assert (0 <= b < overSample * overSample * wSize) as Hb.
  { split; [apply Z.div_pos; lia|]. apply Z.div_lt_upper_bound; [lia|]. lia. }
  assert (0 <= d < overSample * wSize) as Hd.
  { split; [apply Z.div_pos; lia|]. apply Z.div_lt_upper_bound; [lia|]. lia. }
  assert (0 <= d / overSample < wSize) as Hk.
  { split; [apply Z.div_pos; lia|]. apply Z.div_lt_upper_bound; [lia|]. lia. }
  split.
  - unfold in_table. fold s. lia.
  - unfold table_index. cbv zeta. fold s. lia.
Qed.

(** The product of two values whose imaginary parts are [+0]: the real
    part is the product of the real parts, rounded once, and the imaginary
    part is a zero, or a NaN if a real part is not finite. *)
Lemma vmul_real (a f : spec_float) :
  real (vmul (Value_of_real a) (Value_of_real f)) = Real.mul a f /\
  (imag (vmul (Value_of_real a) (Value_of_real f)) = S754_nan \/
   exists s, imag (vmul (Value_of_real a) (Value_of_real f)) = S754_zero s) /\
  (is_finite a = true -> is_finite f = true ->
   exists s, imag (vmul (Value_of_real a) (Value_of_real f)) = S754_zero s).
Proof.
  cbn [vmul Value_arith Value_of_real real imag].
  change (Real.mul (S754_zero false) (S754_zero false)) with (S754_zero false).
  split_and!.
  - unfold Real.sub, Real.mul. by destruct (SFmul _ _ a f) as [[]|[]| |].
  - destruct a as [sa|sa| |sa ma ea], f as [sf|sf| |sf mf ef]; cbn; eauto;
      try (destruct sa; cbn; eauto); try (destruct sf; cbn; eauto).
  - intros Ha Hf.
    destruct a as [sa|sa| |sa ma ea], f as [sf|sf| |sf mf ef]; try done; cbn;
      try (destruct sa; cbn; eauto); try (destruct sf; cbn; eauto).
Qed.

Section TableFacts.
Variables (cos exp : spec_float -> spec_float).
Variable pow : spec_float -> spec_float -> spec_float.
Variable cabs : Value -> spec_float.

(** The three loop nests of [initC], one after the other. *)
Lemma initC_stages freq cellSize baseline wSize C support overSample wCellSize C' :
  initC cos exp pow cabs freq cellSize baseline wSize C
  = Some (support, overSample, wCellSize, C') ->
  exists freq0 C0 sumC,
    vec_get freq 0 = Some freq0 /\
    double_to_int (support_expr freq0 cellSize baseline) = Some support /\
    overSample = 8 /\
    wCellSize = wCellSize_expr freq0 baseline wSize /\
    vec_size C0 = (2 * support + 1) * (2 * support + 1) * 8 * 8 * wSize /\
    (exists C1, initC_fill cos exp pow freq cellSize wCellSize wSize support 8 C1 = Some C0) /\
    initC_sum cabs (vec_size C0) C0 = Some sumC /\
    C' = (fun c => vmul c (Value_of_real (Real.div (Real.of_int (wSize * 8 * 8)) sumC)))
         <$> C0.
Proof.
  unfold initC.
  destruct (vec_get freq 0) as [freq0|]; cbn [mbind option_bind]; [|done].
  destruct (double_to_int _) as [sup|] eqn:Hsup; cbn [mbind option_bind]; [|done].
  set (N := (2 * sup + 1) * (2 * sup + 1) * 8 * 8 * wSize).
  destruct (vec_resize_values C N) as [C1|] eqn:HC1; cbn [mbind option_bind]; [|done].
  destruct (initC_fill _ _ _ _ _ _ _ _ _ C1) as [C0|] eqn:HC0;
    cbn [mbind option_bind]; [|done].
  destruct (initC_sum cabs N C0) as [sumC|] eqn:Hsum; cbn [mbind option_bind]; [|done].
  destruct (initC_normalise N wSize 8 sumC C0) as [C2|] eqn:Hnorm;
    cbn [mbind option_bind]; [|done].
  intros [= <- <- <- <-].
  pose proof (vec_resize_values_size _ _ _ HC1) as Hs1.
  pose proof (initC_fill_size _ _ _ _ _ _ _ _ _ _ _ HC0) as Hs0. rewrite Hs1 in Hs0.
  exists freq0, C0, sumC. split_and!; [done..| | |].
  - by exists C1.
  - by rewrite Hs0.
  - by apply (for_upto_map _ N).
Qed.
End TableFacts.

(** ** The kernels: when they return, and batches of samples *)

Section KernelDefined.
Context {V : Type} `{Arith V}.
Variables (data : list V) (support : Z) (C : list V) (cOffset iu iv : list Z).
Variable gSize : Z.

Lemma grid_trace_elem (a : access V) :
  a ∈ grid_trace data support C cOffset iu iv gSize <->
  exists d dv du, 0 <= d < vec_size data /\ 0 <= dv < stencil_size support /\
    0 <= du < stencil_size support /\
    a = Acc (stencil_cell support iu iv gSize d du dv)
            (vmul (vec_at vzero data d) (stencil_coeff support C cOffset d du dv)).
Proof.
  unfold grid_trace, sample_trace, row_trace. split.
  - intros (tr & Ha & Htr)%elem_of_concat.
    apply list_elem_of_fmap in Htr as (d & -> & Hd%elem_of_seqZ).
    apply elem_of_concat in Ha as (tr & Ha & Htr).
    apply list_elem_of_fmap in Htr as (dv & -> & Hdv%elem_of_seqZ).
    apply list_elem_of_fmap in Ha as (du & -> & Hdu%elem_of_seqZ).
    exists d, dv, du. split_and!; [lia..|done].
  - intros (d & dv & du & Hd & Hdv & Hdu & ->).
    apply elem_of_concat. eexists. split; last first.
    { apply list_elem_of_fmap. exists d. split; [done|]. apply elem_of_seqZ. lia. }
    apply elem_of_concat. eexists. split; last first.
    { apply list_elem_of_fmap. exists dv. split; [done|]. apply elem_of_seqZ. lia. }
    apply list_elem_of_fmap. exists du. split; [done|]. apply elem_of_seqZ. lia.
Qed.

(** With tables that hold an entry and a block of coefficients for every
    sample, [gridKernel] returns exactly when every index of every stencil
    is an index of the grid. *)
Lemma gridKernel_defined (grid : list V) :
  tables_ok data support C cOffset iu iv ->
  is_Some (gridKernel data support C cOffset iu iv grid gSize) <->
  cells_ok data support iu iv gSize grid.
Proof.
  intros Hok. rewrite gridKernel_trace by done. split.
  - intros [grid' Hrun] d dv du Hd Hdv Hdu.
    pose proof (run_trace_in_range _ _ _ Hrun) as Hall. rewrite Forall_forall in Hall.
    apply (Hall (Acc (stencil_cell support iu iv gSize d du dv)
                     (vmul (vec_at vzero data d) (stencil_coeff support C cOffset d du dv)))).
    apply grid_trace_elem. exists d, dv, du. done.
  - intros Hcells. apply run_trace_is_Some. rewrite Forall_forall.
    intros a (d & dv & du & Hd & Hdv & Hdu & ->)%grid_trace_elem. cbn. by apply Hcells.
Qed.
End KernelDefined.

Lemma vec_at_app_l {A : Type} (dflt : A) (l1 l2 : list A) (i : Z) :
  i < vec_size l1 -> vec_at dflt (l1 ++ l2) i = vec_at dflt l1 i.
Proof.
  intros Hi. unfold vec_at, vec_get. case_decide; [|done].
  rewrite lookup_app_l; [done|]. unfold vec_size in Hi. lia.
Qed.

Lemma vec_at_app_r {A : Type} (dflt : A) (l1 l2 : list A) (i : Z) :
  0 <= i -> vec_at dflt (l1 ++ l2) (vec_size l1 + i) = vec_at dflt l2 i.
Proof.
  intros Hi. unfold vec_at, vec_get, vec_size. rewrite !decide_True by lia.
  rewrite lookup_app_r by lia. do 2 f_equal. lia.
Qed.

Lemma vec_size_app {A : Type} (l1 l2 : list A) :
  vec_size (l1 ++ l2) = vec_size l1 + vec_size l2.
Proof. unfold vec_size. rewrite length_app. lia. Qed.

Lemma sample_ints_eq (support : Z) (cOffset iu iv cOffset' iu' iv' : list Z) (gSize d d' : Z) :
  vec_at 0 cOffset d = vec_at 0 cOffset' d' ->
  vec_at 0 iu d = vec_at 0 iu' d' ->
  vec_at 0 iv d = vec_at 0 iv' d' ->
  sample_ints support cOffset iu iv gSize d ->
  sample_ints support cOffset' iu' iv' gSize d'.
Proof.
  intros HC Hu Hv [? ? ? ? ? ? Hsteps]. rewrite HC, Hu, Hv in *. by split.
Qed.

Section KernelBatches.
Context {V : Type} `{Arith V}.
Variables (support : Z) (C : list V) (gSize : Z).
Variables (data1 data2 : list V) (cOffset1 cOffset2 iu1 iu2 iv1 iv2 : list Z).
Hypothesis HsC : vec_size cOffset1 = vec_size data1.
Hypothesis Hsu : vec_size iu1 = vec_size data1.
Hypothesis Hsv : vec_size iv1 = vec_size data1.
Hypothesis Hok : tables_ok (data1 ++ data2) support C (cOffset1 ++ cOffset2)
                           (iu1 ++ iu2) (iv1 ++ iv2).

Lemma tables_ok_app_l : tables_ok data1 support C cOffset1 iu1 iv1.
Proof.
  destruct Hok as [Hs Hiu Hiv Hc HC]. split; [done|lia..|].
  intros d Hd. specialize (HC d ltac:(rewrite vec_size_app; unfold vec_size in *; lia)).
  rewrite vec_at_app_l in HC by lia. done.
Qed.

Lemma tables_ok_app_r : tables_ok data2 support C cOffset2 iu2 iv2.
Proof.
  destruct Hok as [Hs Hiu Hiv Hc HC]. rewrite !vec_size_app in *.
  split; [done|lia..|].
  intros d Hd.
  assert (0 <= vec_size data1) as Hn by (unfold vec_size; lia).
  specialize (HC (vec_size data1 + d) ltac:(lia)).
  rewrite <-HsC, vec_at_app_r in HC by lia. done.
Qed.

Lemma sample_trace_app_l (d : Z) :
  0 <= d < vec_size data1 ->
  sample_trace (data1 ++ data2) support C (cOffset1 ++ cOffset2) (iu1 ++ iu2) (iv1 ++ iv2)
               gSize d
  = sample_trace data1 support C cOffset1 iu1 iv1 gSize d.
Proof.
  intros Hd. unfold sample_trace, row_trace, stencil_cell, stencil_coeff.
  rewrite !vec_at_app_l by lia. done.
Qed.

Lemma sample_trace_app_r (d : Z) :
  0 <= d ->
  sample_trace (data1 ++ data2) support C (cOffset1 ++ cOffset2) (iu1 ++ iu2) (iv1 ++ iv2)
               gSize (vec_size data1 + d)
  = sample_trace data2 support C cOffset2 iu2 iv2 gSize d.
Proof.
  intros Hd. unfold sample_trace, row_trace, stencil_cell, stencil_coeff.
  rewrite (vec_at_app_r vzero data1) by done.
  assert (vec_at 0 (cOffset1 ++ cOffset2) (vec_size data1 + d) = vec_at 0 cOffset2 d) as ->
    by (rewrite <-HsC; by apply vec_at_app_r).
  assert (vec_at 0 (iu1 ++ iu2) (vec_size data1 + d) = vec_at 0 iu2 d) as ->
    by (rewrite <-Hsu; by apply vec_at_app_r).
  assert (vec_at 0 (iv1 ++ iv2) (vec_size data1 + d) = vec_at 0 iv2 d) as ->
    by (rewrite <-Hsv; by apply vec_at_app_r).
  done.
Qed.

(** Gridding a batch of samples is gridding its first part and then the
    rest, on the grid that the first part leaves. *)
Lemma gridKernel_app (grid : list V) :
  gridKernel (data1 ++ data2) support C (cOffset1 ++ cOffset2) (iu1 ++ iu2) (iv1 ++ iv2)
             grid gSize
  = grid' ← gridKernel data1 support C cOffset1 iu1 iv1 grid gSize;
    gridKernel data2 support C cOffset2 iu2 iv2 grid' gSize.
Proof.
  rewrite (gridKernel_trace _ _ _ _ _ _ _ _ Hok).
  rewrite (gridKernel_trace _ _ _ _ _ _ _ _ tables_ok_app_l).
  transitivity (run_trace (grid_trace data1 support C cOffset1 iu1 iv1 gSize ++
                           grid_trace data2 support C cOffset2 iu2 iv2 gSize) grid);
    last first.
  { rewrite run_trace_app.
    destruct (run_trace (grid_trace data1 support C cOffset1 iu1 iv1 gSize) grid);
      cbn; [|done].
    symmetry. apply gridKernel_trace, tables_ok_app_r. }
  f_equal.
  unfold grid_trace. rewrite vec_size_app.
  rewrite seqZ_app by (unfold vec_size; lia).
  rewrite fmap_app, concat_app. f_equal.
  - f_equal. apply list_fmap_ext. intros _ d Hd%list_elem_of_lookup_2%elem_of_seqZ.
    apply sample_trace_app_l. lia.
  - f_equal. rewrite Z.add_0_l.
    rewrite <-(Z.add_0_r (vec_size data1)) at 1.
    rewrite <-fmap_add_seqZ, <-list_fmap_compose.
    apply list_fmap_ext. intros _ d Hd%list_elem_of_lookup_2%elem_of_seqZ.
    apply sample_trace_app_r. lia.
Qed.

(** Where no [int] overflows in the call on the whole, none does in the
    calls on the parts. *)
Lemma kernel_ints_app_l :
  kernel_ints (vec_size (data1 ++ data2)) support (cOffset1 ++ cOffset2) (iu1 ++ iu2)
              (iv1 ++ iv2) gSize ->
  kernel_ints (vec_size data1) support cOffset1 iu1 iv1 gSize.
Proof.
  intros [? ? ? ? Hn Hd]. rewrite vec_size_app in Hn, Hd.
  assert (0 <= vec_size data2) by (unfold vec_size; lia).
  split; [done..|lia|].
  intros d Hdr. specialize (Hd d ltac:(lia)).
  refine (sample_ints_eq _ _ _ _ _ _ _ _ _ _ _ _ _ Hd); apply vec_at_app_l; lia.
Qed.

Lemma kernel_ints_app_r :
  kernel_ints (vec_size (data1 ++ data2)) support (cOffset1 ++ cOffset2) (iu1 ++ iu2)
              (iv1 ++ iv2) gSize ->
  kernel_ints (vec_size data2) support cOffset2 iu2 iv2 gSize.
Proof.
  intros [? ? ? ? Hn Hd]. rewrite vec_size_app in Hn, Hd.
  assert (0 <= vec_size data1) by (unfold vec_size; lia).
  split; [done..|lia|].
  intros d Hdr. specialize (Hd (vec_size data1 + d) ltac:(lia)).
  refine (sample_ints_eq _ _ _ _ _ _ _ _ _ _ _ _ _ Hd).
  - rewrite <-HsC. apply vec_at_app_r. lia.
  - rewrite <-Hsu. apply vec_at_app_r. lia.
  - rewrite <-Hsv. apply vec_at_app_r. lia.
Qed.
End KernelBatches.

(** ** The state of the pseudo-random numbers *)

(** The multiplier is odd: the step of the state is one-to-one. *)
Lemma randomInt_state_step_inj (ulong_bits a b : Z) :
  0 <= ulong_bits -> 0 <= a < 2 ^ ulong_bits -> 0 <= b < 2 ^ ulong_bits ->
  (randomInt ulong_bits a).1 = (randomInt ulong_bits b).1 -> a = b.
Proof.
  intros Hbits Ha Hb. unfold randomInt. cbn [fst]. intros Heq.
  assert (0 < 2 ^ ulong_bits) as Hp by (apply Z.pow_pos_nonneg; lia).
  assert ((2 ^ ulong_bits | 1103515245 * (a - b))) as Hdiv.
  { apply Z.mod_divide; [lia|].
    replace (1103515245 * (a - b))
      with ((a * 1103515245 + 12345) - (b * 1103515245 + 12345)) by ring.
    rewrite Zminus_mod, Heq, Z.sub_diag. apply Z.mod_0_l. lia. }
  apply Z.gauss in Hdiv.
  - destruct Hdiv as [q Hq].
    assert (q = 0) by nia. lia.
  - apply (Z.coprime_pow_l 2 1103515245 ulong_bits); [done|reflexivity].
Qed.

(** ** What [initCOffset] needs of its inputs *)

Lemma div_finite_num (x y : spec_float) :
  is_finite (Coord.div x y) = true -> is_finite x = true.
Proof. by destruct x as [| | |], y as [| | |]. Qed.

Lemma mul_finite_args (x y : spec_float) :
  is_finite (Coord.mul x y) = true -> is_finite x = true /\ is_finite y = true.
Proof. by destruct x as [| | |], y as [| | |]. Qed.

Lemma scaled_finite_args (f x cell : spec_float) :
  is_finite (scaled f x cell) = true -> is_finite f = true /\ is_finite x = true.
Proof. intros Hs%div_finite_num. by apply mul_finite_args. Qed.

Lemma int_part_finite (xs : spec_float) (ip : Z) :
  int_part xs = Some ip -> is_finite xs = true.
Proof.
  unfold int_part. destruct (double_to_int xs) as [t|] eqn:Ht; [|done].
  intros _. by apply double_to_int_Some in Ht as [? _].
Qed.

Lemma vec_at_finite_in_range (v : list spec_float) (i : Z) :
  is_finite (vec_at nan_default v i) = true -> 0 <= i < vec_size v.
Proof.
  intros Hf. destruct (decide (0 <= i < vec_size v)) as [|Hout]; [done|].
  unfold vec_at in Hf. by rewrite vec_get_None in Hf.
Qed.

Section OffsetsNeed.
Variables (u v w freq : list spec_float) (cellSize wCellSize : spec_float).
Variables (wSize gSize support overSample : Z).

Lemma offset_entry_finite (i chan : Z) :
  is_Some (offset_entry u v w freq cellSize wCellSize wSize gSize support overSample i chan) ->
  is_finite (vec_at nan_default freq chan) = true /\
  is_finite (vec_at nan_default u i) = true /\
  is_finite (vec_at nan_default v i) = true /\
  is_finite (vec_at nan_default w i) = true.
Proof.
  unfold offset_entry. cbv zeta. intros [e He].
  destruct (int_part (scaled _ (vec_at nan_default u i) _)) as [iu1|] eqn:Hu;
    cbn [mbind option_bind] in He; [|done].
  destruct (frac_bin _ _ iu1) as [fu|]; cbn [mbind option_bind] in He; [|done].
  destruct (int_part (scaled _ (vec_at nan_default v i) _)) as [iv1|] eqn:Hv;
    cbn [mbind option_bind] in He; [|done].
  destruct (frac_bin _ _ iv1) as [fv|]; cbn [mbind option_bind] in He; [|done].
  destruct (w_plane _ _) as [wo|] eqn:Hw; cbn [mbind option_bind] in He; [|done].
  apply int_part_finite, scaled_finite_args in Hu as [Hf Hu].
  apply int_part_finite, scaled_finite_args in Hv as [_ Hv].
  unfold w_plane in Hw.
  destruct (double_to_int _) as [wt|] eqn:Hwt; [|done].
  apply double_to_int_Some in Hwt as [Hwt _].
  apply scaled_finite_args in Hwt as [_ Hwf]. done.
Qed.

(** A call of [initCOffset] that returns has read finite numbers only, and
    a [v] and a [w] for every [u]. *)
Lemma initCOffset_returned_finite (cOffset0 iu0 iv0 cOffset iu iv : list Z) :
  initCOffset u v w freq cellSize wCellSize wSize gSize support overSample
              cOffset0 iu0 iv0 = Some (cOffset, iu, iv) ->
  forall i chan, 0 <= i < vec_size u -> 0 <= chan < vec_size freq ->
    i < vec_size v /\ i < vec_size w /\
    is_finite (vec_at nan_default freq chan) = true /\
    is_finite (vec_at nan_default u i) = true /\
    is_finite (vec_at nan_default v i) = true /\
    is_finite (vec_at nan_default w i) = true.
Proof.
  intros Hrun i chan Hi Hchan.
  destruct (initCOffset_returned _ _ _ _ _ _ _ _ _ _ _ _ _ _ _ _ Hrun) as (_ & _ & _ & He).
  destruct (offset_entry_finite i chan) as (Hf & Hu & Hv & Hw).
  { rewrite (He i chan Hi Hchan). done. }
  pose proof (vec_at_finite_in_range _ _ Hv). pose proof (vec_at_finite_in_range _ _ Hw).
  split_and!; [lia|lia|done..].
Qed.

(** Without a channel there is nothing to fill. *)
Lemma initCOffset_no_channel (cOffset0 iu0 iv0 : list Z) :
  vec_size freq = 0 ->
  initCOffset u v w freq cellSize wCellSize wSize gSize support overSample
              cOffset0 iu0 iv0 = Some ([], [], []).
Proof.
  intros Hn. unfold initCOffset. rewrite Hn, Z.mul_0_r.
  assert (forall x, vec_resize x 0 = Some []) as Hres.
  { intros x. unfold vec_resize. rewrite decide_True by done. done. }
  rewrite !Hres. cbn [mbind option_bind].
  match goal with |- for_upto _ ?body _ = _ =>
    destruct (for_upto_keeps (fun st => st = (@nil Z, @nil Z, @nil Z)) body
                (vec_size u) ([], [], [])) as (st & Hst & ->) end; [done| |done].
  intros j st _ ->. by eexists.
Qed.
End OffsetsNeed.

Section OffsetsFresh.
Variables (u v w freq : list spec_float) (cellSize wCellSize : spec_float).
Variables (wSize gSize support overSample : Z).

Lemma entries_determine (x y : list Z) (n : Z) :
  vec_size x = vec_size u * n -> vec_size y = vec_size u * n ->
  (forall i chan, 0 <= i < vec_size u -> 0 <= chan < n ->
     vec_at 0 x (i * n + chan) = vec_at 0 y (i * n + chan)) ->
  x = y.
Proof.
  intros Hx Hy Heq. apply vec_ext; [lia|]. intros k Hk.
  rewrite (vec_get_at 0 x), (vec_get_at 0 y) by lia. f_equal.
  rewrite Hx in Hk.
  assert (0 <= vec_size u) as Hu0 by (unfold vec_size; lia).
  assert (0 < n) as Hn by nia.
  assert (0 <= k / n < vec_size u) as Hi.
  { split; [apply Z.div_pos; lia|apply Z.div_lt_upper_bound; lia]. }
  pose proof (Z.mod_pos_bound k n Hn) as Hchan.
  specialize (Heq (k / n) (k mod n) Hi Hchan).
  replace (k / n * n + k mod n) with k in Heq
    by (rewrite (Z.div_mod k n) at 1; lia).
  done.
Qed.

(** The vectors that [initCOffset] is given for its results are resized
    and overwritten: what they held does not matter. *)
Lemma initCOffset_fresh (cOffset0 iu0 iv0 cOffset1 iu1 iv1 : list Z)
    (res : list Z * list Z * list Z) :
  initCOffset u v w freq cellSize wCellSize wSize gSize support overSample
              cOffset0 iu0 iv0 = Some res ->
  initCOffset u v w freq cellSize wCellSize wSize gSize support overSample
              cOffset1 iu1 iv1 = Some res.
Proof.
  destruct res as [[cO iu] iv]. intros Hrun.
  destruct (decide (vec_size freq = 0)) as [Hz|Hnz].
  { rewrite initCOffset_no_channel in Hrun by done. by rewrite initCOffset_no_channel. }
  assert (0 < vec_size freq) as Hpos by (unfold vec_size in *; lia).
  pose proof (initCOffset_returned_finite _ _ _ _ _ _ _ _ _ _ _ _ _ _ _ _ Hrun) as Hfin.
  destruct (initCOffset_returned _ _ _ _ _ _ _ _ _ _ _ _ _ _ _ _ Hrun)
    as (Hsc & Hsu & Hsi & He).
  assert (vec_size u <= vec_size v /\ vec_size u <= vec_size w) as [Hsv Hsw].
  { destruct (decide (vec_size u = 0)) as [->|Hu]; [unfold vec_size; lia|].
    assert (0 < vec_size u) as Hup by (unfold vec_size in *; lia).
    destruct (Hfin (vec_size u - 1) 0) as (? & ? & _); lia. }
  destruct (initCOffset_entries u v w freq cellSize wCellSize wSize gSize support overSample
              Hsv Hsw cOffset1 iu1 iv1) as (cO' & iu' & iv' & Hrun' & Hsc' & Hsu' & Hsi' & He').
  { intros i chan Hi Hchan. by rewrite (He i chan Hi Hchan). }
  rewrite Hrun'. do 2 f_equal; [f_equal|].
  - apply (entries_determine _ _ (vec_size freq)); [done..|].
    intros i chan Hi Hchan. pose proof (He i chan Hi Hchan) as H1.
    rewrite (He' i chan Hi Hchan) in H1. congruence.
  - apply (entries_determine _ _ (vec_size freq)); [done..|].
    intros i chan Hi Hchan. pose proof (He i chan Hi Hchan) as H1.
    rewrite (He' i chan Hi Hchan) in H1. congruence.
  - apply (entries_determine _ _ (vec_size freq)); [done..|].
    intros i chan Hi Hchan. pose proof (He i chan Hi Hchan) as H1.
    rewrite (He' i chan Hi Hchan) in H1. congruence.
Qed.

End OffsetsFresh.

(** ** The comparison reads the real parts only *)

Lemma vec_get_fmap {A B : Type} (f : A -> B) (l : list A) (i : Z) :
  vec_get (f <$> l) i = f <$> vec_get l i.
Proof. unfold vec_get. case_decide; [apply list_lookup_fmap|done]. Qed.

Lemma verify_from_real (n : nat) (i : Z) (cpu omp cpu' omp' : list Value) :
  real <$> cpu = real <$> cpu' -> real <$> omp = real <$> omp' ->
  verify_from n i cpu omp = verify_from n i cpu' omp'.
Proof.
  intros Hc Ho. revert i. induction n as [|n IH]; intros i; [done|].
  cbn [verify_from].
  pose proof (vec_get_fmap real cpu i) as Ha. rewrite Hc, vec_get_fmap in Ha.
  pose proof (vec_get_fmap real omp i) as Hb. rewrite Ho, vec_get_fmap in Hb.
  destruct (vec_get cpu i) as [a|], (vec_get cpu' i) as [a'|]; try done;
    cbn [mbind option_bind].
  destruct (vec_get omp i) as [b|], (vec_get omp' i) as [b'|]; try done;
    cbn [mbind option_bind].
  injection Ha as Ha. injection Hb as Hb.
  rewrite (verify_differs_real a b a' b') by done. rewrite Ha, Hb, IH. done.
Qed.

Lemma verify_real (cpu omp cpu' omp' : list Value) :
  real <$> cpu = real <$> cpu' -> real <$> omp = real <$> omp' ->
  verify cpu omp = verify cpu' omp'.
Proof.
  intros Hc Ho. unfold verify.
  assert (length cpu = length cpu') as Hlc
    by (rewrite <-(length_fmap real cpu), Hc; apply length_fmap).
  assert (length omp = length omp') as Hlo
    by (rewrite <-(length_fmap real omp), Ho; apply length_fmap).
  unfold vec_size. rewrite Hlc, Hlo.
  case_decide; [done|]. by apply verify_from_real.
Qed.

Lemma verify_outcome (cpu omp : list Value) :
  vec_size cpu = vec_size omp ->
  (verify cpu omp = Some Pass /\
   forall k, 0 <= k < vec_size cpu ->
     verify_differs (vec_at vzero cpu k) (vec_at vzero omp k) = false) \/
  (exists k, 0 <= k < vec_size cpu /\
     verify cpu omp
     = Some (Fail_at k (real (vec_at vzero cpu k)) (real (vec_at vzero omp k))) /\
     verify_differs (vec_at vzero cpu k) (vec_at vzero omp k) = true /\
     forall j, 0 <= j < k ->
       verify_differs (vec_at vzero cpu j) (vec_at vzero omp j) = false).
Proof.
  intros Hs. unfold verify. rewrite decide_False by (intros Hne; by apply Hne).
  destruct (verify_from_spec (length cpu) 0 cpu omp) as [[Hp Hall]|(k & Hk & Hf & Hd & Hb)];
    [done|unfold vec_size; lia|done|..].
  - left. split; [done|]. intros k Hk. apply Hall. unfold vec_size in Hk. lia.
  - right. exists k. split; [unfold vec_size; lia|]. split_and!; [done..|].
    intros j Hj. apply Hb. lia.
Qed.

(** ** [main], from the setup to the result *)

Lemma vec_new_None {A : Type} (n : Z) (x : A) : n < 0 -> vec_new n x = None.
Proof. intros Hn. unfold vec_new. by rewrite decide_False by lia. Qed.

Section MainRuns.
Variables (cos exp : spec_float -> spec_float).
Variable pow : spec_float -> spec_float -> spec_float.
Variable cabs : Value -> spec_float.
Variable ulong_bits : Z.

(** Without a channel, or with a negative number of samples or channels,
    the setup does not return: a vector of a negative size, or the read of
    [freq[0]] in an empty vector. *)
Lemma main_setup_none (o : CommandLine.options) (next : Z) :
  CommandLine.nChan o <= 0 \/ CommandLine.nSamples o < 0 ->
  main_setup cos exp pow cabs ulong_bits o next = None.
Proof.
  intros Hbad. unfold main_setup. cbv zeta.
  set (nS := CommandLine.nSamples o) in *. set (nC := CommandLine.nChan o) in *.
  generalize (Driver.gSize * Driver.gSize). intros G2.
  destruct (decide (0 <= nS)) as [HnS|HnS];
    [|by rewrite (vec_new_None nS (S754_zero false)) by lia].
  rewrite !(vec_new_Some nS) by done. cbn [mbind option_bind].
  destruct (decide (0 <= nS * nC)) as [HN|HN];
    [|by rewrite (vec_new_None (nS * nC) (@vzero Value _)) by lia].
  rewrite !(vec_new_Some (nS * nC)) by done. cbn [mbind option_bind].
  destruct (draw_samples _ _ _ _ _ _ _ _ _ _) as [[[[[[[n1 u1] v1] w1] d1] c1] o1]|];
    cbn [mbind option_bind]; [|done].
  destruct (vec_new G2 _) as [grid|]; cbn [mbind option_bind]; [|done].
  destruct (decide (nC = 0)) as [Hz|Hnz].
  - rewrite Hz, main_freq_result by done. done.
  - unfold main_freq. rewrite vec_new_None by lia. done.
Qed.

(** With the default number of planes and cell size, a run of [main] from
    the options on passes both comparisons. *)
Lemma main_run_driver (o : CommandLine.options) (next max_threads nthreads : Z)
    (sched : list (list Z)) :
  CommandLine.wSize o = Driver.wSize -> CommandLine.cellSize o = Driver.cellSize ->
  0 <= CommandLine.nSamples o -> 1 <= CommandLine.nChan o <= int_max ->
  0 < nthreads ->
  schedule_of (CommandLine.nSamples o * CommandLine.nChan o) sched ->
  main_run cos exp pow cabs ulong_bits o next max_threads nthreads sched 0 /\
  forall ret, main_run cos exp pow cabs ulong_bits o next max_threads nthreads sched ret ->
    ret = 0.
Proof.
  intros HwSize Hcell Hns Hnc Hthreads Hsched.
  destruct (main_setup_driver cos exp pow cabs ulong_bits o next HwSize Hcell Hns Hnc)
    as (C & cO & iu & iv & Hsetup & Hok).
  set (N := CommandLine.nSamples o * CommandLine.nChan o) in *.
  assert (0 <= N) as HN by (unfold N; nia).
  assert (forall x : Value, vec_size (replicate (Z.to_nat N) x) = N) as Hsize
    by (intros x; by apply vec_size_replicate).
  split.
  - exists (replicate (Z.to_nat N) Value_one), (replicate (Z.to_nat N) Value_zero),
      (replicate (Z.to_nat N) Value_zero), C, Driver.support, cO, iu, iv.
    split; [exact Hsetup|].
    apply main_kernels_runs; [done|by rewrite !Hsize..|done|by rewrite Hsize].
  - intros ret (data & cpuout & ompout & C' & sup & cO' & iu' & iv' & Hs & Hk).
    rewrite Hsetup in Hs. injection Hs as <- <- <- <- <- <- <- <-.
    refine (main_kernels_ret _ _ _ _ _ _ _ _ _ _ _ _ Hok _ _ Hthreads ret Hk);
      by rewrite ?Hsize.
Qed.
End MainRuns.

(** ** The table of [initC], entry by entry *)

Section TableLayout.
Variables (cos exp : spec_float -> spec_float).
Variable pow : spec_float -> spec_float -> spec_float.
Variable cabs : Value -> spec_float.

Lemma initC_table freq cellSize baseline wSize C support overSample wCellSize C' :
  initC cos exp pow cabs freq cellSize baseline wSize C
  = Some (support, overSample, wCellSize, C') ->
  exists freq0 norm,
    vec_get freq 0 = Some freq0 /\
    vec_size C' = (2 * support + 1) * (2 * support + 1) * overSample * overSample * wSize /\
    forall k osj osi j i, in_table wSize support overSample k osj osi j i ->
      vec_get C' (table_index support overSample k osj osi j i)
      = Some (vmul (table_entry cos exp pow freq0 cellSize wCellSize wSize support overSample
                      k osj osi j i)
                   (Value_of_real norm)).
Proof.
  intros Hrun.
  destruct (initC_stages _ _ _ _ _ _ _ _ _ _ _ _ _ Hrun)
    as (freq0 & C0 & sumC & Hf & _ & -> & _ & Hsize & [C1 Hfill] & _ & ->).
  exists freq0, (Real.div (Real.of_int (wSize * 8 * 8)) sumC).
  split; [done|]. split.
  - unfold vec_size in *. by rewrite length_fmap.
  - intros k osj osi j i Hin. rewrite vec_get_fmap.
    by rewrite (initC_fill_written _ _ _ _ _ _ _ _ _ _ _ _ Hf Hfill _ _ _ _ _ Hin).
Qed.

Lemma table_entry_real freq0 cellSize wCellSize wSize support overSample k osj osi j i :
  exists a, table_entry cos exp pow freq0 cellSize wCellSize wSize support overSample
                        k osj osi j i = Value_of_real a.
Proof. unfold table_entry. cbv zeta. destruct (negb _); eauto. Qed.
End TableLayout.

(** * Further properties of the driver and of the tables *)

(** ** The pseudo-random samples *)

(** X1.  Whatever the state of the generator and the width of
    [unsigned long], a number that [randomInt] returns is in
    [[0, 2147483647)], and the coordinate that [main] derives from it,
    [baseline * Coord(r) / Coord(maxint) - baseline / 2], is a finite
    [double] of magnitude at most 1000, with the roundings of the three
    operations taken into account. *)
Theorem sample_coordinates_in_baseline (ulong_bits : Z) (k : nat) (next : Z) :
  0 <= random_value ulong_bits k next < int_max /\
  finite_le (coordinate (random_value ulong_bits k next)) 1000.
Proof.
  split; [apply randomInt_range|]. apply coordinate_finite_le, randomInt_range.
Qed.

(** X2.  The step of the generator, [next = next * 1103515245 + 12345] in
    [unsigned long] arithmetic, is one-to-one on the states: two different
    states never lead to the same state. *)
Theorem randomInt_state_one_to_one (ulong_bits a b : Z) :
  0 <= ulong_bits -> 0 <= a < 2 ^ ulong_bits -> 0 <= b < 2 ^ ulong_bits ->
  a <> b -> (randomInt ulong_bits a).1 <> (randomInt ulong_bits b).1.
Proof.
  intros Hbits Ha Hb Hne Heq. apply Hne.
  by apply (randomInt_state_step_inj ulong_bits).
Qed.

Lemma randomInt_state_one_to_one_witness :
  (randomInt 64 1).1 <> (randomInt 64 2).1.
Proof.
  apply (randomInt_state_one_to_one 64 1 2); [lia|vm_compute; intuition congruence..|lia].
Defined.

(** X3.  The loop of [main] over the samples, on vectors of the sizes that
    [main] gives them, returns; it calls [randomInt] three times for a
    sample, for [u[i]], [v[i]] and [w[i]] in this order, so that the sample
    [i] has the numbers [3i], [3i+1] and [3i+2] of the sequence; all the
    data are 1 and the two outputs are 0 at the end. *)
Theorem main_draws_samples (ulong_bits nSamples nChan next : Z) (u v w : list spec_float)
    (data cpuoutdata ompoutdata : list Value) :
  0 <= nSamples -> 0 <= nChan ->
  vec_size u = nSamples -> vec_size v = nSamples -> vec_size w = nSamples ->
  vec_size data = nSamples * nChan -> vec_size cpuoutdata = nSamples * nChan ->
  vec_size ompoutdata = nSamples * nChan ->
  draw_samples ulong_bits nSamples nChan next u v w data cpuoutdata ompoutdata
  = Some (random_state ulong_bits (Z.to_nat (3 * nSamples)) next,
          (fun i => coordinate (random_value ulong_bits (Z.to_nat (3 * i)) next))
            <$> seqZ 0 nSamples,
          (fun i => coordinate (random_value ulong_bits (Z.to_nat (3 * i + 1)) next))
            <$> seqZ 0 nSamples,
          (fun i => coordinate (random_value ulong_bits (Z.to_nat (3 * i + 2)) next))
            <$> seqZ 0 nSamples,
          replicate (Z.to_nat (nSamples * nChan)) Value_one,
          replicate (Z.to_nat (nSamples * nChan)) Value_zero,
          replicate (Z.to_nat (nSamples * nChan)) Value_zero).
Proof. apply draw_samples_result. Qed.

Lemma main_draws_samples_witness :
  draw_samples 64 2 3 1 (replicate 2 (S754_zero false)) (replicate 2 (S754_zero false))
               (replicate 2 (S754_zero false)) (replicate 6 vzero) (replicate 6 vzero)
               (replicate 6 vzero)
  = Some (random_state 64 (Z.to_nat (3 * 2)) 1,
          (fun i => coordinate (random_value 64 (Z.to_nat (3 * i)) 1)) <$> seqZ 0 2,
          (fun i => coordinate (random_value 64 (Z.to_nat (3 * i + 1)) 1)) <$> seqZ 0 2,
          (fun i => coordinate (random_value 64 (Z.to_nat (3 * i + 2)) 1)) <$> seqZ 0 2,
          replicate (Z.to_nat (2 * 3)) Value_one,
          replicate (Z.to_nat (2 * 3)) Value_zero,
          replicate (Z.to_nat (2 * 3)) Value_zero).
Proof.
  exact (main_draws_samples 64 2 3 1 (replicate 2 (S754_zero false))
           (replicate 2 (S754_zero false)) (replicate 2 (S754_zero false))
           (replicate 6 vzero) (replicate 6 vzero) (replicate 6 vzero)
           ltac:(lia) ltac:(lia) eq_refl eq_refl eq_refl eq_refl eq_refl eq_refl).
Defined.

(** X4.  The frequencies that [main] computes for [nChan] channels, from 1
    to the largest [int]: the loop returns [nChan] finite numbers of
    magnitude at most 4.6705, the channel [i] holding
    [(1.4e9 - 2.0e5 * Coord(i) / Coord(nChan)) / 2.998e8]. *)
Theorem main_freq_bounded (nChan : Z) :
  1 <= nChan <= int_max ->
  exists freq,
    main_freq nChan = Some freq /\ vec_size freq = nChan /\
    forall i, 0 <= i < nChan ->
      vec_get freq i = Some (Driver.freq_at nChan i) /\
      finite_le (Driver.freq_at nChan i) (46705 / 10000).
Proof.
  intros Hn. exists (Driver.freq nChan). split_and!.
  - apply main_freq_result. lia.
  - by apply driver_freq_size.
  - intros i Hi. split; [|by apply freq_at_finite_le].
    unfold Driver.freq. by apply vec_get_fmap_seqZ.
Qed.

Lemma main_freq_bounded_witness :
  exists freq,
    main_freq 2 = Some freq /\ vec_size freq = 2 /\
    forall i, 0 <= i < 2 ->
      vec_get freq i = Some (Driver.freq_at 2 i) /\
      finite_le (Driver.freq_at 2 i) (46705 / 10000).
Proof. exact (main_freq_bounded 2 ltac:(vm_compute; intuition congruence)). Defined.

(** ** The comparison of the results *)

(** X5.  The comparison of two vectors of one size either passes, and then
    no pair of real parts differs by more than 0.00001, or it fails at the
    least index whose real parts differ by more, with the two real parts
    at this index; the elements after the first difference are not
    looked at. *)
Theorem verify_first_difference (cpu omp : list Value) :
  vec_size cpu = vec_size omp ->
  (verify cpu omp = Some Pass /\
   forall k, 0 <= k < vec_size cpu ->
     verify_differs (vec_at vzero cpu k) (vec_at vzero omp k) = false) \/
  (exists k, 0 <= k < vec_size cpu /\
     verify cpu omp
     = Some (Fail_at k (real (vec_at vzero cpu k)) (real (vec_at vzero omp k))) /\
     verify_differs (vec_at vzero cpu k) (vec_at vzero omp k) = true /\
     forall j, 0 <= j < k ->
       verify_differs (vec_at vzero cpu j) (vec_at vzero omp j) = false).
Proof. apply verify_outcome. Qed.

Lemma verify_first_difference_witness :
  (verify [Value_of_int 1; Value_of_int 2; Value_of_int 3]
          [Value_of_int 1; Value_of_int 5; Value_of_int 7] = Some Pass /\
   forall k, 0 <= k < 3 ->
     verify_differs (vec_at vzero [Value_of_int 1; Value_of_int 2; Value_of_int 3] k)
                    (vec_at vzero [Value_of_int 1; Value_of_int 5; Value_of_int 7] k)
     = false) \/
  (exists k, 0 <= k < 3 /\
     verify [Value_of_int 1; Value_of_int 2; Value_of_int 3]
            [Value_of_int 1; Value_of_int 5; Value_of_int 7]
     = Some (Fail_at k
               (real (vec_at vzero [Value_of_int 1; Value_of_int 2; Value_of_int 3] k))
               (real (vec_at vzero [Value_of_int 1; Value_of_int 5; Value_of_int 7] k))) /\
     verify_differs (vec_at vzero [Value_of_int 1; Value_of_int 2; Value_of_int 3] k)
                    (vec_at vzero [Value_of_int 1; Value_of_int 5; Value_of_int 7] k)
     = true /\
     forall j, 0 <= j < k ->
       verify_differs (vec_at vzero [Value_of_int 1; Value_of_int 2; Value_of_int 3] j)
                      (vec_at vzero [Value_of_int 1; Value_of_int 5; Value_of_int 7] j)
       = false).
Proof.
  exact (verify_first_difference [Value_of_int 1; Value_of_int 2; Value_of_int 3]
           [Value_of_int 1; Value_of_int 5; Value_of_int 7] eq_refl).
Defined.

(** X6.  A NaN never fails the comparison: two vectors of one size in which,
    at every index, the real part of one of the two values is a NaN, pass,
    since [fabs(NaN) > 0.00001] is false. *)
Theorem verify_passes_on_nan (cpu omp : list Value) :
  Forall2 (fun a b => real a = S754_nan \/ real b = S754_nan) cpu omp ->
  verify cpu omp = Some Pass.
Proof.
  intros Hnan. pose proof (Forall2_length _ _ _ Hnan) as Hlen.
  assert (vec_size cpu = vec_size omp) as Hs by (unfold vec_size; lia).
  unfold verify. rewrite decide_False by (intros Hne; by apply Hne).
  destruct (verify_from_spec (length cpu) 0 cpu omp) as [[Hp _]|(k & Hk & _ & Hd & _)];
    [done|unfold vec_size; lia|done|done|].
  assert (0 <= k < vec_size cpu) as Hkc by (unfold vec_size; lia).
  pose proof (vec_get_at vzero cpu k Hkc) as Ha.
  pose proof (vec_get_at vzero omp k ltac:(lia)) as Hb.
  unfold vec_get in Ha, Hb. rewrite decide_True in Ha, Hb by lia.
  pose proof (Forall2_lookup_lr _ _ _ _ _ _ Hnan Ha Hb) as Hk'.
  by rewrite verify_differs_nan in Hd.
Qed.

Lemma verify_passes_on_nan_witness :
  verify [mkValue S754_nan (S754_zero false); Value_of_int 2]
         [Value_of_int 1; mkValue S754_nan (S754_zero false)] = Some Pass.
Proof.
  apply verify_passes_on_nan.
  constructor; [left; reflexivity|].
  constructor; [right; reflexivity|]. constructor.
Defined.

(** X7.  The comparison reads the real parts only: two pairs of vectors
    with the same real parts get the same verdict, whatever their
    imaginary parts. *)
Theorem verify_reads_real_parts (cpu omp cpu' omp' : list Value) :
  real <$> cpu = real <$> cpu' -> real <$> omp = real <$> omp' ->
  verify cpu omp = verify cpu' omp'.
Proof. apply verify_real. Qed.

Lemma verify_reads_real_parts_witness :
  verify [Value_of_int 1] [Value_of_int 2]
  = verify [mkValue (Real.of_int 1) (Real.of_int 9)] [mkValue (Real.of_int 2) S754_nan].
Proof.
  exact (verify_reads_real_parts [Value_of_int 1] [Value_of_int 2]
           [mkValue (Real.of_int 1) (Real.of_int 9)] [mkValue (Real.of_int 2) S754_nan]
           eq_refl eq_refl).
Defined.

(** ** The command line *)

Section CommandLineFacts.
Import Ascii String CommandLine.
Variable atoi : string -> Z.
Variable atof : string -> spec_float.

(** X8.  [main] goes on past its arguments, with the options [o], exactly
    when the arguments after the program name are pairs of an option among
    [-n], [-w], [-c], [-f] and a value, read from left to right from the
    defaults: an option is told by its first two characters only, and what
    follows it is taken as its value without being looked at. *)
Theorem parse_args_proceeds_iff_pairs (prog : string) (args : list string) (o : options) :
  parse_args atoi atof (prog :: args) = Some (Proceed o) <->
  read_options atoi atof args defaults = Some o.
Proof.
  rewrite parse_args_list. split.
  - apply parse_list_Proceed.
  - intros Hread. rewrite <-(app_nil_r args).
    by rewrite (parse_list_app atoi atof args [] defaults o Hread).
Qed.

(** X9.  After any pairs of options and values, an argument that is not
    one of the options with a value ends [main] with the usage message,
    whatever follows: with 0 if it begins with [-h], with 1 if not. *)
Theorem parse_args_usage_exit (prog arg : string) (args rest : list string) (o : options) :
  read_options atoi atof args defaults = Some o ->
  setter atoi atof arg EmptyString = None ->
  parse_args atoi atof (prog :: args ++ arg :: rest)
  = Some (Usage (if Ascii.eqb (char_at arg 0) "-" && Ascii.eqb (char_at arg 1) "h"
                 then 0 else 1)).
Proof.
  intros Hread Hset. rewrite parse_args_list.
  rewrite (parse_list_app atoi atof args (arg :: rest) defaults o Hread).
  cbn [parse_list]. rewrite Hset.
  destruct (Ascii.eqb (char_at arg 0) "-"); [|done].
  by destruct (Ascii.eqb (char_at arg 1) "h").
Qed.

(** X10.  An option among [-n], [-w], [-c], [-f] that is the last argument
    has no value: [main] passes [argv[argc]], a null pointer, to [atoi] or
    [atof], and its behaviour is undefined. *)
Theorem parse_args_missing_value (prog arg : string) (args : list string) (o : options) :
  read_options atoi atof args defaults = Some o ->
  is_Some (setter atoi atof arg EmptyString) ->
  parse_args atoi atof (prog :: args ++ [arg]) = None.
Proof.
  intros Hread [set Hset]. rewrite parse_args_list.
  rewrite (parse_list_app atoi atof args [arg] defaults o Hread).
  cbn [parse_list]. rewrite Hset.
  destruct (setter_dash atoi atof arg EmptyString ltac:(by rewrite Hset)) as [-> ->]. done.
Qed.
End CommandLineFacts.

Section CommandLineExamples.
Import Ascii String.

Lemma parse_args_usage_exit_witness :
  CommandLine.parse_args (fun _ => 7) (fun _ => Coord.lit 2 0)
    ["tConvolveOMP"; "-n"; "-h"; "-help"; "-n"]%string
  = Some (CommandLine.Usage 0).
Proof.
  exact (parse_args_usage_exit (fun _ => 7) (fun _ => Coord.lit 2 0)
           "tConvolveOMP"%string "-help"%string ["-n"; "-h"]%string ["-n"]%string
           (CommandLine.set_nSamples 7 CommandLine.defaults) eq_refl eq_refl).
Defined.

Lemma parse_args_missing_value_witness :
  CommandLine.parse_args (fun _ => 7) (fun _ => Coord.lit 2 0)
    ["tConvolveOMP"; "-c"; "4"; "-f"]%string
  = None.
Proof.
  exact (parse_args_missing_value (fun _ => 7) (fun _ => Coord.lit 2 0)
           "tConvolveOMP"%string "-f"%string ["-c"; "4"]%string
           (CommandLine.set_nChan 7 CommandLine.defaults) eq_refl
           (ex_intro _ _ eq_refl)).
Defined.
End CommandLineExamples.

(** ** [main] *)

Section MainClaims.
Variables (cos exp : spec_float -> spec_float).
Variable pow : spec_float -> spec_float -> spec_float.
Variable cabs : Value -> spec_float.
Variable ulong_bits : Z.

(** X11.  On tables that meet the precondition of the kernels, the part of
    [main] that runs the four kernels and compares their results has a run,
    and every run of it returns 0: both comparisons pass, for every number
    of threads of the parallel gridding, every interleaving of them and
    every schedule of the parallel degridding. *)
Theorem main_kernels_return_zero (data cpuoutdata ompoutdata C : list Value) (support : Z)
    (cOffset iu iv : list Z) (gSize max_threads nthreads : Z) (sched : list (list Z)) :
  stencils_ok data support C cOffset iu iv gSize ->
  vec_size cpuoutdata = vec_size data -> vec_size ompoutdata = vec_size data ->
  0 < nthreads -> schedule_of (vec_size data) sched ->
  main_kernels data cpuoutdata ompoutdata C support cOffset iu iv gSize
               max_threads nthreads sched 0 /\
  forall ret,
    main_kernels data cpuoutdata ompoutdata C support cOffset iu iv gSize
                 max_threads nthreads sched ret -> ret = 0.
Proof.
  intros Hok Hcpu Homp Hthreads Hsched. split.
  - by apply main_kernels_runs.
  - intros ret. by apply main_kernels_ret.
Qed.

(** X12.  [main] with the default number of planes, 33, and the default
    cell size, 5.0: for every number of samples from 0 on and every number
    of channels from 1 on whose product is an [int], every state of the
    generator and every width of [unsigned long], [main] has a run and
    every run returns 0.  The samples drawn never leave the tables or the
    grid. *)
Theorem main_returns_zero (atoi : String.string -> Z) (atof : String.string -> spec_float)
    (argv : list String.string) (o : CommandLine.options)
    (max_threads nthreads : Z) (sched : list (list Z)) :
  CommandLine.parse_args atoi atof argv = Some (CommandLine.Proceed o) ->
  CommandLine.wSize o = 33 -> CommandLine.cellSize o = Coord.lit 5 0 ->
  0 <= CommandLine.nSamples o -> 1 <= CommandLine.nChan o ->
  CommandLine.nSamples o * CommandLine.nChan o <= int_max ->
  CommandLine.nChan o <= int_max ->
  0 < nthreads ->
  schedule_of (CommandLine.nSamples o * CommandLine.nChan o) sched ->
  main cos exp pow cabs ulong_bits atoi atof argv max_threads nthreads sched 0 /\
  forall ret,
    main cos exp pow cabs ulong_bits atoi atof argv max_threads nthreads sched ret ->
    ret = 0.
Proof.
  intros Hparse HwSize Hcell Hns Hnc _ Hnc' Hthreads Hsched.
  unfold main. rewrite Hparse.
  by apply main_run_driver.
Qed.

(** X13.  [main] with no channel, or with a negative number of channels or
    of samples, has no run that returns: it asks for a vector of a
    negative size, or [initC] reads [freq[0]] in an empty vector. *)
Theorem main_without_channels (atoi : String.string -> Z)
    (atof : String.string -> spec_float) (argv : list String.string)
    (o : CommandLine.options) (max_threads nthreads : Z) (sched : list (list Z)) (ret : Z) :
  CommandLine.parse_args atoi atof argv = Some (CommandLine.Proceed o) ->
  CommandLine.nChan o <= 0 \/ CommandLine.nSamples o < 0 ->
  ~ main cos exp pow cabs ulong_bits atoi atof argv max_threads nthreads sched ret.
Proof.
  intros Hparse Hbad. unfold main. rewrite Hparse.
  intros (data & cpuout & ompout & C & sup & cO & iu & iv & Hs & _).
  by rewrite main_setup_none in Hs.
Qed.
End MainClaims.

Lemma main_kernels_return_zero_witness :
  main_kernels Small.data [vzero] [vzero] Small.C Small.support Small.cOffset Small.iu
               Small.iv Small.gSize 4 2 [[0]] 0 /\
  forall ret,
    main_kernels Small.data [vzero] [vzero] Small.C Small.support Small.cOffset Small.iu
                 Small.iv Small.gSize 4 2 [[0]] ret -> ret = 0.
Proof.
  apply main_kernels_return_zero;
    [exact Small.stencils|reflexivity|reflexivity|lia|vm_compute; reflexivity].
Defined.

Section MainExamples.
Import Ascii String.

Lemma main_returns_zero_witness :
  main Flat.cos Flat.exp Flat.pow Flat.cabs 64 (fun _ => 2) (fun _ => Coord.lit 1 0)
       ["tConvolveOMP"; "-n"; "2"]%string 4 2 [[1]; [0]] 0 /\
  forall ret,
    main Flat.cos Flat.exp Flat.pow Flat.cabs 64 (fun _ => 2) (fun _ => Coord.lit 1 0)
         ["tConvolveOMP"; "-n"; "2"]%string 4 2 [[1]; [0]] ret ->
    ret = 0.
Proof.
  apply (main_returns_zero Flat.cos Flat.exp Flat.pow Flat.cabs 64 (fun _ => 2)
           (fun _ => Coord.lit 1 0) ["tConvolveOMP"; "-n"; "2"]%string
           (CommandLine.set_nSamples 2 CommandLine.defaults));
    [reflexivity|reflexivity|reflexivity|vm_compute; congruence|vm_compute; congruence
    |vm_compute; congruence|vm_compute; congruence|lia|].
  vm_compute. apply Permutation_swap.
Defined.

Lemma main_without_channels_witness :
  ~ main Flat.cos Flat.exp Flat.pow Flat.cabs 64 (fun _ => 0) (fun _ => Coord.lit 1 0)
         ["tConvolveOMP"; "-c"; "0"]%string 4 2 [] 0.
Proof.
  apply (main_without_channels Flat.cos Flat.exp Flat.pow Flat.cabs 64 (fun _ => 0)
           (fun _ => Coord.lit 1 0) ["tConvolveOMP"; "-c"; "0"]%string
           (CommandLine.set_nChan 0 CommandLine.defaults));
    [reflexivity|left; vm_compute; congruence].
Defined.
End MainExamples.

(** ** The offsets *)



Section OffsetClaimsMore.
Variables (u v w freq : list spec_float) (cellSize wCellSize : spec_float).
Variables (wSize gSize support overSample : Z).


(** X16.  The three vectors that [initCOffset] is given for its results are
    resized and overwritten: the call returns the same vectors whatever
    they held, and however long they were, before. *)
Theorem initCOffset_results_overwritten (cOffset0 iu0 iv0 cOffset1 iu1 iv1 : list Z)
    (res : list Z * list Z * list Z) :
  initCOffset u v w freq cellSize wCellSize wSize gSize support overSample
              cOffset0 iu0 iv0 = Some res ->
  initCOffset u v w freq cellSize wCellSize wSize gSize support overSample
              cOffset1 iu1 iv1 = Some res.
Proof. apply initCOffset_fresh. Qed.

(** X17.  A call of [initCOffset] that returns has read finite numbers
    only: for a sample [i] and a channel [chan], [v] and [w] hold an
    element of index [i], and [freq[chan]], [u[i]], [v[i]] and [w[i]] are
    neither infinite nor NaN.  On any other input a conversion to [int]
    or a read is undefined. *)
Theorem initCOffset_reads_finite_numbers (cOffset0 iu0 iv0 cOffset iu iv : list Z) :
  initCOffset u v w freq cellSize wCellSize wSize gSize support overSample
              cOffset0 iu0 iv0 = Some (cOffset, iu, iv) ->
  forall i chan, 0 <= i < vec_size u -> 0 <= chan < vec_size freq ->
    i < vec_size v /\ i < vec_size w /\
    is_finite (vec_at nan_default freq chan) = true /\
    is_finite (vec_at nan_default u i) = true /\
    is_finite (vec_at nan_default v i) = true /\
    is_finite (vec_at nan_default w i) = true.
Proof. apply initCOffset_returned_finite. Qed.
End OffsetClaimsMore.



Lemma initCOffset_results_overwritten_witness :
  initCOffset Fringe.u Fringe.v Fringe.w Fringe.freq Fringe.cellSize Fringe.wCellSize
              Fringe.wSize Fringe.gSize Fringe.support Fringe.overSample
              [7; 7; 7] [5] []
  = Some ([19008], [3], [4]).
Proof.
  exact (initCOffset_results_overwritten Fringe.u Fringe.v Fringe.w Fringe.freq
           Fringe.cellSize Fringe.wCellSize Fringe.wSize Fringe.gSize Fringe.support
           Fringe.overSample [] [] [] [7; 7; 7] [5] [] ([19008], [3], [4])
           ltac:(vm_compute; reflexivity)).
Defined.

Lemma initCOffset_reads_finite_numbers_witness :
  0 < vec_size Fringe.v /\ 0 < vec_size Fringe.w /\
  is_finite (vec_at nan_default Fringe.freq 0) = true /\
  is_finite (vec_at nan_default Fringe.u 0) = true /\
  is_finite (vec_at nan_default Fringe.v 0) = true /\
  is_finite (vec_at nan_default Fringe.w 0) = true.
Proof.
  exact (initCOffset_reads_finite_numbers Fringe.u Fringe.v Fringe.w Fringe.freq
           Fringe.cellSize Fringe.wCellSize Fringe.wSize Fringe.gSize Fringe.support
           Fringe.overSample [] [] [] [19008] [3] [4]
           ltac:(vm_compute; reflexivity)
           0 0 ltac:(vm_compute; intuition congruence)
           ltac:(vm_compute; intuition congruence)).
Defined.

(** ** The table of the convolution function *)

Section TableClaims.
Variables (cos exp : spec_float -> spec_float).
Variable pow : spec_float -> spec_float -> spec_float.
Variable cabs : Value -> spec_float.

(** X18.  The table that [initC] returns has
    [sSize * sSize * overSample * overSample * wSize] values, and the value
    of the plane [k], of the fractional offsets [osj] and [osi], of the row
    [j] and of the column [i] is at the index
    [i + sSize * (j + sSize * (osi + overSample * (osj + overSample * k)))]:
    it is [cos(r2 / (w * fScale))], or [exp(-r2)] on the plane of [w = 0],
    converted to [float] and multiplied by one factor, the same for the
    whole table. *)
Theorem initC_table_layout freq cellSize baseline wSize C support overSample wCellSize C' :
  initC cos exp pow cabs freq cellSize baseline wSize C
  = Some (support, overSample, wCellSize, C') ->
  exists freq0 norm,
    vec_get freq 0 = Some freq0 /\
    vec_size C' = (2 * support + 1) * (2 * support + 1) * overSample * overSample * wSize /\
    forall k osj osi j i, in_table wSize support overSample k osj osi j i ->
      vec_get C' (table_index support overSample k osj osi j i)
      = Some (vmul (table_entry cos exp pow freq0 cellSize wCellSize wSize support overSample
                      k osj osi j i)
                   (Value_of_real norm)).
Proof. apply initC_table. Qed.

(** X19.  With a half-width that is not negative, the table that [initC]
    returns is real up to the sign of zero: the imaginary part of every
    value is a zero, or a NaN where the product by the factor of the
    normalisation involves an infinity or a NaN. *)
Theorem initC_table_imaginary_parts freq cellSize baseline wSize C support overSample
    wCellSize C' (p : Z) :
  initC cos exp pow cabs freq cellSize baseline wSize C
  = Some (support, overSample, wCellSize, C') ->
  0 <= support -> 0 <= p < vec_size C' ->
  imag (vec_at vzero C' p) = S754_nan \/ exists s, imag (vec_at vzero C' p) = S754_zero s.
Proof.
  intros Hrun Hsup Hp.
  destruct (initC_table _ _ _ _ _ _ _ _ _ _ _ _ _ Hrun) as (freq0 & norm & _ & Hsize & Hentry).
  destruct (initC_stages _ _ _ _ _ _ _ _ _ _ _ _ _ Hrun) as (_ & _ & _ & _ & _ & -> & _).
  rewrite Hsize in Hp.
  destruct (table_index_surj wSize support 8 p Hp ltac:(lia) ltac:(lia))
    as (k & osj & osi & j & i & Hin & <-).
  unfold vec_at. rewrite (Hentry k osj osi j i Hin). cbn [default].
  destruct (table_entry_real cos exp pow freq0 cellSize wCellSize wSize support 8 k osj osi j i)
    as [a ->].
  apply vmul_real.
Qed.

(** X20.  The table of [initC] as the kernels read it: at an offset
    [sSize * sSize * (fracu + overSample * (fracv + overSample * woff))],
    as [initCOffset] computes them, with bins below [overSample] and a
    plane below [wSize], the coefficient of the row [dv] and the column
    [du] of the stencil is the value of the plane [woff], of the offsets
    [fracv] and [fracu], of the row [dv] and the column [du]. *)
Theorem kernel_coefficient_of_table freq cellSize baseline wSize C support overSample
    wCellSize C' :
  initC cos exp pow cabs freq cellSize baseline wSize C
  = Some (support, overSample, wCellSize, C') ->
  exists freq0 norm,
    vec_get freq 0 = Some freq0 /\
    forall (cOffset : list Z) d fracu fracv woff du dv,
      vec_at 0 cOffset d
      = (2 * support + 1) * (2 * support + 1)
        * (fracu + overSample * (fracv + overSample * woff)) ->
      0 <= fracu < overSample -> 0 <= fracv < overSample -> 0 <= woff < wSize ->
      0 <= du < 2 * support + 1 -> 0 <= dv < 2 * support + 1 ->
      stencil_coeff support C' cOffset d du dv
      = vmul (table_entry cos exp pow freq0 cellSize wCellSize wSize support overSample
                woff fracv fracu dv du)
             (Value_of_real norm).
Proof.
  intros Hrun.
  destruct (initC_table _ _ _ _ _ _ _ _ _ _ _ _ _ Hrun) as (freq0 & norm & Hf & _ & Hentry).
  exists freq0, norm. split; [done|].
  intros cOffset d fracu fracv woff du dv Hc Hfu Hfv Hwo Hdu Hdv.
  unfold stencil_coeff, stencil_size. rewrite Hc.
  replace ((2 * support + 1) * (2 * support + 1)
           * (fracu + overSample * (fracv + overSample * woff))
           + (2 * support + 1) * dv + du)
    with (table_index support overSample woff fracv fracu dv du)
    by (unfold table_index; cbv zeta; ring).
  unfold vec_at. rewrite (Hentry woff fracv fracu dv du); [done|].
  unfold in_table. lia.
Qed.
End TableClaims.

Lemma flat_table :
  initC Flat.cos Flat.exp Flat.pow Flat.cabs Flat.freq Flat.cellSize Flat.baseline
        Flat.wSize []
  = Some (0, 8, S754_zero false, Flat.table).
Proof. vm_compute. reflexivity. Defined.

Lemma initC_table_layout_witness :
  exists freq0 norm,
    vec_get Flat.freq 0 = Some freq0 /\
    vec_size Flat.table = (2 * 0 + 1) * (2 * 0 + 1) * 8 * 8 * Flat.wSize /\
    forall k osj osi j i, in_table Flat.wSize 0 8 k osj osi j i ->
      vec_get Flat.table (table_index 0 8 k osj osi j i)
      = Some (vmul (table_entry Flat.cos Flat.exp Flat.pow freq0 Flat.cellSize
                      (S754_zero false) Flat.wSize 0 8 k osj osi j i)
                   (Value_of_real norm)).
Proof.
  exact (initC_table_layout Flat.cos Flat.exp Flat.pow Flat.cabs Flat.freq Flat.cellSize
           Flat.baseline Flat.wSize [] 0 8 (S754_zero false) Flat.table flat_table).
Defined.

Lemma initC_table_imaginary_parts_witness :
  imag (vec_at vzero Flat.table 63) = S754_nan \/
  exists s, imag (vec_at vzero Flat.table 63) = S754_zero s.
Proof.
  exact (initC_table_imaginary_parts Flat.cos Flat.exp Flat.pow Flat.cabs Flat.freq
           Flat.cellSize Flat.baseline Flat.wSize [] 0 8 (S754_zero false) Flat.table 63
           flat_table ltac:(lia) ltac:(vm_compute; intuition congruence)).
Defined.

Lemma kernel_coefficient_of_table_witness :
  exists freq0 norm,
    vec_get Flat.freq 0 = Some freq0 /\
    forall (cOffset : list Z) d fracu fracv woff du dv,
      vec_at 0 cOffset d
      = (2 * 0 + 1) * (2 * 0 + 1) * (fracu + 8 * (fracv + 8 * woff)) ->
      0 <= fracu < 8 -> 0 <= fracv < 8 -> 0 <= woff < Flat.wSize ->
      0 <= du < 2 * 0 + 1 -> 0 <= dv < 2 * 0 + 1 ->
      stencil_coeff 0 Flat.table cOffset d du dv
      = vmul (table_entry Flat.cos Flat.exp Flat.pow freq0 Flat.cellSize
                (S754_zero false) Flat.wSize 0 8 woff fracv fracu dv du)
             (Value_of_real norm).
Proof.
  exact (kernel_coefficient_of_table Flat.cos Flat.exp Flat.pow Flat.cabs Flat.freq
           Flat.cellSize Flat.baseline Flat.wSize [] 0 8 (S754_zero false) Flat.table
           flat_table).
Defined.

(** ** The sequential gridding *)

Section KernelClaims.
Context {V : Type} `{Arith V}.

(** X21.  With tables that hold an entry and a whole stencil of
    coefficients for every sample, [gridKernel] returns exactly when every
    index of every stencil, [(iu[d] - support + du) + gSize * (iv[d] + dv)],
    is an index of the grid it is given: nothing else can go wrong, and one
    index outside makes the behaviour undefined.  The call is one in which
    no value of type [int] is outside of the range of [int]. *)
Theorem gridKernel_returns_iff_in_grid (data : list V) (support : Z) (C : list V)
    (cOffset iu iv : list Z) (gSize : Z) (grid : list V) :
  tables_ok data support C cOffset iu iv ->
  kernel_ints (vec_size data) support cOffset iu iv gSize ->
  is_Some (gridKernel data support C cOffset iu iv grid gSize) <->
  cells_ok data support iu iv gSize grid.
Proof. intros Hok _. by apply gridKernel_defined. Qed.

(** X22.  Gridding is the same in one call and in batches: on samples that
    are split in two parts, with their entries in the tables, [gridKernel]
    on the whole is [gridKernel] on the first part followed by [gridKernel]
    on the second part, on the grid that the first call leaves, down to the
    last rounding.  The call on the whole is one in which no value of type
    [int], the number of the samples included, is outside of the range of
    [int]; so are then the calls on the parts ([kernel_ints_app_l],
    [kernel_ints_app_r]). *)
Theorem gridKernel_by_batches (support : Z) (C : list V) (gSize : Z)
    (data1 data2 : list V) (cOffset1 cOffset2 iu1 iu2 iv1 iv2 : list Z) (grid : list V) :
  vec_size cOffset1 = vec_size data1 -> vec_size iu1 = vec_size data1 ->
  vec_size iv1 = vec_size data1 ->
  tables_ok (data1 ++ data2) support C (cOffset1 ++ cOffset2) (iu1 ++ iu2) (iv1 ++ iv2) ->
  kernel_ints (vec_size (data1 ++ data2)) support (cOffset1 ++ cOffset2) (iu1 ++ iu2)
              (iv1 ++ iv2) gSize ->
  gridKernel (data1 ++ data2) support C (cOffset1 ++ cOffset2) (iu1 ++ iu2) (iv1 ++ iv2)
             grid gSize
  = grid' ← gridKernel data1 support C cOffset1 iu1 iv1 grid gSize;
    gridKernel data2 support C cOffset2 iu2 iv2 grid' gSize.
Proof. intros HsC Hsu Hsv Hok _. by apply gridKernel_app. Qed.
End KernelClaims.

Lemma gridKernel_returns_iff_in_grid_witness :
  is_Some (gridKernel Small.data Small.support Small.C Small.cOffset Small.iu Small.iv
                      Small.grid Small.gSize) <->
  cells_ok Small.data Small.support Small.iu Small.iv Small.gSize Small.grid.
Proof.
  exact (gridKernel_returns_iff_in_grid Small.data Small.support Small.C Small.cOffset
           Small.iu Small.iv Small.gSize Small.grid
           (so_tables _ _ _ _ _ _ _ Small.stencils) small_ints).
Defined.

Lemma gridKernel_by_batches_witness :
  gridKernel (Small.data ++ Small.data) Small.support Small.C
             (Small.cOffset ++ Small.cOffset) (Small.iu ++ Small.iu) (Small.iv ++ Small.iv)
             Small.grid Small.gSize
  = grid' ← gridKernel Small.data Small.support Small.C Small.cOffset Small.iu Small.iv
                       Small.grid Small.gSize;
    gridKernel Small.data Small.support Small.C Small.cOffset Small.iu Small.iv
               grid' Small.gSize.
Proof.
  assert (stencils_ok (Small.data ++ Small.data) Small.support Small.C
            (Small.cOffset ++ Small.cOffset) (Small.iu ++ Small.iu) (Small.iv ++ Small.iv)
            Small.gSize) as Hok.
  { split; [split|..]; try (vm_compute; congruence).
    all: intros d Hd; change (vec_size (Small.data ++ Small.data)) with 2 in Hd.
    all: assert (d = 0 \/ d = 1) as [-> | ->] by lia; vm_compute; intuition congruence. }
  apply gridKernel_by_batches; [reflexivity..|exact (so_tables _ _ _ _ _ _ _ Hok)|].
  apply (stencils_kernel_ints _ _ Small.C); [exact Hok|vm_compute; congruence..].
Defined.

(** ** When [initC] returns, and on what its table depends *)

Section TableRuns.
Variables (cos exp : spec_float -> spec_float).
Variable pow : spec_float -> spec_float -> spec_float.
Variable cabs : Value -> spec_float.

(** X23.  A call of [initC] in which no value of type [int], the size of
    the table included, is outside of the range of [int] returns exactly
    when [freq] holds a first element, the half-width
    [1.5 * sqrt(|baseline| * cellSize * freq[0]) / cellSize] is finite and
    fits an [int], and [wSize] is not negative: the values of the table,
    which may be infinite or NaN, and the functions of the mathematical
    library never make it fail. *)
Theorem initC_returns_iff freq cellSize baseline wSize C :
  (forall freq0 support,
     vec_get freq 0 = Some freq0 ->
     double_to_int (support_expr freq0 cellSize baseline) = Some support ->
     table_ints support wSize) ->
  is_Some (initC cos exp pow cabs freq cellSize baseline wSize C) <->
  exists freq0,
    vec_get freq 0 = Some freq0 /\
    is_Some (double_to_int (support_expr freq0 cellSize baseline)) /\
    0 <= wSize.
Proof.
  intros _. split.
  - intros [[[[support overSample] wCellSize] C'] Hrun].
    destruct (initC_stages _ _ _ _ _ _ _ _ _ _ _ _ _ Hrun)
      as (freq0 & C0 & sumC & Hf & Hsup & _ & _ & Hsize & _).
    exists freq0. split; [done|]. split; [by rewrite Hsup|].
    assert (0 <= vec_size C0) as Hpos by (unfold vec_size; lia).
    rewrite Hsize in Hpos.
    assert (0 < (2 * support + 1) * (2 * support + 1) * 8 * 8) by nia. nia.
  - intros (freq0 & Hf & [support Hsup] & Hw).
    destruct (initC_returns cos exp pow cabs freq cellSize baseline wSize C freq0 support
                Hf Hsup Hw) as (C' & -> & _). done.
Qed.

(** X24.  With a half-width that is not negative, [initC] overwrites the
    whole table: what it returns does not depend on what the vector [C]
    held, or on how long it was, before the call. *)
Theorem initC_table_overwritten freq cellSize baseline wSize C1 C2 support overSample
    wCellSize C' :
  initC cos exp pow cabs freq cellSize baseline wSize C1
  = Some (support, overSample, wCellSize, C') ->
  0 <= support ->
  initC cos exp pow cabs freq cellSize baseline wSize C2
  = Some (support, overSample, wCellSize, C').
Proof.
  intros Hrun Hsup.
  destruct (initC_stages _ _ _ _ _ _ _ _ _ _ _ _ _ Hrun)
    as (freq0 & C0 & sumC & Hf & Hs & -> & -> & Hsize & [D1 Hfill] & Hsum & ->).
  assert (0 <= wSize) as Hw.
  { assert (0 <= vec_size C0) as Hpos by (unfold vec_size; lia).
    rewrite Hsize in Hpos.
    assert (0 < (2 * support + 1) * (2 * support + 1) * 8 * 8) by nia. nia. }
  destruct (initC_returns cos exp pow cabs freq cellSize baseline wSize C2 freq0 support
              Hf Hs Hw) as (C'' & Hrun2 & _).
  rewrite Hrun2. do 2 f_equal.
  destruct (initC_stages _ _ _ _ _ _ _ _ _ _ _ _ _ Hrun2)
    as (freq0' & C0' & sumC' & Hf' & _ & _ & _ & Hsize' & [D2 Hfill'] & Hsum' & ->).
  assert (freq0' = freq0) as -> by congruence.
  assert (C0' = C0) as ->.
  { apply vec_ext; [lia|]. intros p Hp. rewrite Hsize' in Hp.
    destruct (table_index_surj wSize support 8 p Hp ltac:(lia) ltac:(lia))
      as (k & osj & osi & j & i & Hin & <-).
    rewrite (initC_fill_written _ _ _ _ _ _ _ _ _ _ _ _ Hf Hfill _ _ _ _ _ Hin).
    by rewrite (initC_fill_written _ _ _ _ _ _ _ _ _ _ _ _ Hf Hfill' _ _ _ _ _ Hin). }
  assert (sumC' = sumC) as -> by congruence. done.
Qed.
End TableRuns.

Lemma initC_returns_iff_witness :
  is_Some (initC Flat.cos Flat.exp Flat.pow Flat.cabs Flat.freq Flat.cellSize
                 Flat.baseline Flat.wSize []) <->
  exists freq0,
    vec_get Flat.freq 0 = Some freq0 /\
    is_Some (double_to_int (support_expr freq0 Flat.cellSize Flat.baseline)) /\
    0 <= Flat.wSize.
Proof.
  apply (initC_returns_iff Flat.cos Flat.exp Flat.pow Flat.cabs).
  intros freq0 support [= <-] Hsupport.
  vm_compute in Hsupport. injection Hsupport as <-.
  split; vm_compute; intuition congruence.
Defined.

Lemma initC_table_overwritten_witness :
  initC Flat.cos Flat.exp Flat.pow Flat.cabs Flat.freq Flat.cellSize Flat.baseline
        Flat.wSize [Value_of_int 7; Value_of_int 9]
  = Some (0, 8, S754_zero false, Flat.table).
Proof.
  exact (initC_table_overwritten Flat.cos Flat.exp Flat.pow Flat.cabs Flat.freq
           Flat.cellSize Flat.baseline Flat.wSize [] [Value_of_int 7; Value_of_int 9]
           0 8 (S754_zero false) Flat.table flat_table ltac:(lia)).
Defined.
